(** * Harmony Hub: the data-consistency layer, embedded and verified

    A shallow embedding of the services of the Harmony Hub client
    ([services/firebaseConnection.ts], [services/concertService.ts],
    [services/feedService.ts], [services/searchService.ts],
    [services/analyticsService.ts]) and of its two
    callable cloud functions ([functions/src/index.ts]), and of the handlers
    of two screens that call them ([screens/LogConcertScreen.tsx],
    [screens/ConcertDetailScreen.tsx]).

    The persistent store is a record of finite maps, one per Firestore
    collection.  Every asynchronous function of the source becomes a
    computation in the monad [M]: a state transformer over [World] whose
    outcome is a settled promise ([Resolved] or [Rejected]) or a promise that
    stays [Pending].  A backend call consumes one entry of a failure
    schedule carried by the world, so that the error paths of the source can
    be exercised. *)

From Stdlib Require Import ZArith String Ascii List Permutation Lia.
From stdpp Require Import gmap strings list fin_maps sorting.

Local Open Scope string_scope.
Local Open Scope Z_scope.

(** ** JavaScript strings

    Strings are byte strings (UTF-8), which is also the order Firestore
    compares them in.  [toLowerCase] acts on the ASCII range; [trim] strips
    the white space of ECMAScript, each code point in its UTF-8 bytes. *)

Module JsString.

Definition lowerChar (c : ascii) : ascii :=
  let n := nat_of_ascii c in
  if ((65 <=? n)%nat && (n <=? 90)%nat)%bool then ascii_of_nat (n + 32) else c.

Fixpoint toLowerCase (s : string) : string :=
  match s with
  | EmptyString => EmptyString
  | String c s' => String (lowerChar c) (toLowerCase s')
  end.

(** [startsWith s p]: [s.startsWith(p)]. *)
Fixpoint startsWith (s p : string) : bool :=
  match p, s with
  | EmptyString, _ => true
  | String _ _, EmptyString => false
  | String a p', String b s' => if Ascii.eqb a b then startsWith s' p' else false
  end.

(** [includes s sub]: [s.includes(sub)]. *)
Fixpoint includes (s sub : string) : bool :=
  if startsWith s sub then true
  else match s with
       | EmptyString => false
       | String _ s' => includes s' sub
       end.

(** [endsWith s suf]: [s.endsWith(suf)], some tail of [s] is [suf]. *)
Fixpoint endsWith (s suf : string) : bool :=
  if String.eqb s suf then true
  else match s with
       | EmptyString => false
       | String _ s' => endsWith s' suf
       end.

(** The string with the given bytes. *)
Definition utf8 (bytes : list Z) : string :=
  string_of_list_ascii (map (λ b, ascii_of_N (Z.to_N b)) bytes).

(** The code points [trim] strips, in UTF-8: the WhiteSpace and the
    LineTerminator of ECMAScript, that is U+0009 to U+000D, U+0020, U+00A0,
    U+1680, U+2000 to U+200A, U+2028, U+2029, U+202F, U+205F, U+3000 and
    U+FEFF. *)
Definition whiteSpace : list string :=
  [ utf8 [9]; utf8 [10]; utf8 [11]; utf8 [12]; utf8 [13]; utf8 [32];
    utf8 [194; 160]; utf8 [225; 154; 128];
    utf8 [226; 128; 128]; utf8 [226; 128; 129]; utf8 [226; 128; 130];
    utf8 [226; 128; 131]; utf8 [226; 128; 132]; utf8 [226; 128; 133];
    utf8 [226; 128; 134]; utf8 [226; 128; 135]; utf8 [226; 128; 136];
    utf8 [226; 128; 137]; utf8 [226; 128; 138];
    utf8 [226; 128; 168]; utf8 [226; 128; 169]; utf8 [226; 128; 175];
    utf8 [226; 129; 159]; utf8 [227; 128; 128]; utf8 [239; 187; 191] ].

(** [isWhitespace s]: [s] is one white-space code point. *)
Definition isWhitespace (s : string) : bool := bool_decide (s ∈ whiteSpace).

(** [stripPrefix p s]: what follows [p] in [s], when [s] starts with [p]. *)
Fixpoint stripPrefix (p s : string) : option string :=
  match p, s with
  | EmptyString, _ => Some s
  | String _ _, EmptyString => None
  | String a p', String b s' => if Ascii.eqb a b then stripPrefix p' s' else None
  end.

(** What follows the white-space code point that [s] starts with, if it
    starts with one. *)
Definition afterWhitespace (s : string) : option string :=
  head (omap (λ code, stripPrefix code s) whiteSpace).

(** [trimStart]: leading white space is dropped code point by code point,
    of which [s] has at most as many as it has bytes. *)
Fixpoint trimStart_from (rounds : nat) (s : string) : string :=
  match rounds with
  | O => s
  | S rounds' =>
      match afterWhitespace s with
      | Some rest => trimStart_from rounds' rest
      | None => s
      end
  end.

Definition trimStart (s : string) : string := trimStart_from (String.length s) s.

(** [trimEnd] keeps a byte unless it completes a white-space code point
    after which nothing is kept. *)
Fixpoint trimEnd (s : string) : string :=
  match s with
  | EmptyString => EmptyString
  | String c s' =>
      let kept := String c (trimEnd s') in
      if isWhitespace kept then EmptyString else kept
  end.

Definition trim (s : string) : string := trimEnd (trimStart s).

(** [lastSegment s]: [s.split('/').pop()]. *)
Fixpoint lastSegment (s : string) : string :=
  match s with
  | EmptyString => EmptyString
  | String c s' =>
      if includes s' "/" then lastSegment s'
      else if Ascii.eqb c "/"%char then s' else s
  end.

(** [truthy s]: a string is falsy exactly when it is empty. *)
Definition truthy (s : string) : bool :=
  match s with EmptyString => false | _ => true end.

End JsString.

(** [Blank s]: [s] is white space throughout. *)
Inductive Blank : string → Prop :=
| Blank_nil : Blank ""
| Blank_cons code s : code ∈ JsString.whiteSpace → Blank s → Blank (code +:+ s).

(** [trimmedOf s t]: [t] is [s] without the white space at its two ends. *)
Definition trimmedOf (s t : string) : Prop :=
  (∃ l r, Blank l ∧ Blank r ∧ s = l +:+ t +:+ r)
  ∧ (∀ code rest, code ∈ JsString.whiteSpace → t ≠ code +:+ rest)
  ∧ (∀ code rest, code ∈ JsString.whiteSpace → t ≠ rest +:+ code).

(** ** Errors and promises *)

(** A thrown value, seen through [error?.code] and [error?.message]. *)
Record JsError := mkError { code : option string; message : option string }.

(** [new Error(msg)] *)
Definition Error_new (msg : string) : JsError := mkError None (Some msg).
(** [new functions.https.HttpsError(c, msg)] and Firestore's own errors *)
Definition HttpsError (c msg : string) : JsError := mkError (Some c) (Some msg).
(** the value [undefined], when thrown *)
Definition js_undefined : JsError := mkError None None.

Inductive Promise (A : Type) : Type :=
| Resolved (a : A)
| Rejected (e : JsError)
| Pending.
Arguments Resolved {A} a.
Arguments Rejected {A} e.
Arguments Pending {A}.

Inductive ConnectionState := connecting | connected | disconnected | error.

#[global] Instance ConnectionState_eq_dec : EqDecision ConnectionState.
Proof. solve_decision. Defined.

(** ** The persistent store

    One record per kind of document, with the fields the source writes or
    reads.  A field that readers consult but no writer in the source sets is
    an [option]. *)

Module User.
Record t := mk { email : string; displayName : string; loggedConcertsCount : Z }.
End User.

Module Artist.
Record t := mk { name : string; createdAt : Z }.
End Artist.

Module Venue.
Record t := mk
  { name : string; city : string; state : string; country : string; createdAt : Z }.
End Venue.

Module Concert.
Record t := mk
  { artistRef : string; venueRef : string; date : Z; userRef : string;
    rating : Z; notes : string; createdAt : Z; updatedAt : Z;
    (* read by the search service and the feed; absent from what
       [logConcert] writes *)
    artistName : option string; venueName : option string }.
End Concert.

Module Review.
Record t := mk
  { concertRef : string; userRef : string; text : string; rating : Z;
    createdAt : Z; updatedAt : Z; likesCount : Z; commentsCount : Z }.

Definition with_likesCount (n : Z) (r : t) : t :=
  mk (concertRef r) (userRef r) (text r) (rating r) (createdAt r) (updatedAt r)
     n (commentsCount r).

Definition with_commentsCount (n : Z) (r : t) : t :=
  mk (concertRef r) (userRef r) (text r) (rating r) (createdAt r) (updatedAt r)
     (likesCount r) n.
End Review.

Module Like.
Record t := mk { likedAt : Z }.
End Like.

Module Comment.
Record t := mk { userRef : string; text : string; createdAt : Z }.
End Comment.

Module Follow.
Record t := mk { followedAt : Z }.
End Follow.

(** The five top-level collections, and the sub-collections
    [reviews/{id}/likedBy], [reviews/{id}/comments] and
    [users/{id}/following], keyed by the parent's id. *)
Record Store := mkStore
  { users : gmap string User.t;
    artists : gmap string Artist.t;
    venues : gmap string Venue.t;
    concerts : gmap string Concert.t;
    reviews : gmap string Review.t;
    likedBy : gmap string (gmap string Like.t);
    comments : gmap string (gmap string Comment.t);
    following : gmap string (gmap string Follow.t) }.

Definition emptyStore : Store := mkStore ∅ ∅ ∅ ∅ ∅ ∅ ∅ ∅.

Definition set_users (f : gmap string User.t → gmap string User.t) (s : Store) : Store :=
  mkStore (f (users s)) (artists s) (venues s) (concerts s) (reviews s)
          (likedBy s) (comments s) (following s).
Definition set_artists (f : gmap string Artist.t → gmap string Artist.t) (s : Store) : Store :=
  mkStore (users s) (f (artists s)) (venues s) (concerts s) (reviews s)
          (likedBy s) (comments s) (following s).
Definition set_venues (f : gmap string Venue.t → gmap string Venue.t) (s : Store) : Store :=
  mkStore (users s) (artists s) (f (venues s)) (concerts s) (reviews s)
          (likedBy s) (comments s) (following s).
Definition set_concerts (f : gmap string Concert.t → gmap string Concert.t) (s : Store) : Store :=
  mkStore (users s) (artists s) (venues s) (f (concerts s)) (reviews s)
          (likedBy s) (comments s) (following s).
Definition set_reviews (f : gmap string Review.t → gmap string Review.t) (s : Store) : Store :=
  mkStore (users s) (artists s) (venues s) (concerts s) (f (reviews s))
          (likedBy s) (comments s) (following s).
Definition set_likedBy
    (f : gmap string (gmap string Like.t) → gmap string (gmap string Like.t)) (s : Store) : Store :=
  mkStore (users s) (artists s) (venues s) (concerts s) (reviews s)
          (f (likedBy s)) (comments s) (following s).
Definition set_comments
    (f : gmap string (gmap string Comment.t) → gmap string (gmap string Comment.t))
    (s : Store) : Store :=
  mkStore (users s) (artists s) (venues s) (concerts s) (reviews s)
          (likedBy s) (f (comments s)) (following s).
Definition set_following
    (f : gmap string (gmap string Follow.t) → gmap string (gmap string Follow.t))
    (s : Store) : Store :=
  mkStore (users s) (artists s) (venues s) (concerts s) (reviews s)
          (likedBy s) (comments s) (f (following s)).

(** The documents of a sub-collection; a parent without children has none. *)
Definition children {D} (sub : gmap string (gmap string D)) (parent : string) : gmap string D :=
  default ∅ (sub !! parent).

(** [doc(db, coll, id).path] *)
Definition docPath (coll id : string) : string := coll +:+ "/" +:+ id.

(** ** The world an operation runs in *)

Record AnalyticsEvent := mkEvent
  { eventName : string; eventParams : list (string * string) }.

(** The analytics instance: the events it has accepted, and what [logEvent]
    does on the calls to come: [Some e] throws [e], [None] accepts the
    event; once the schedule is used up every event is accepted. *)
Record Analytics := mkAnalytics
  { acceptedEvents : list AnalyticsEvent; logEventFaults : list (option JsError) }.

Record World := mkWorld
  { store : Store;
    (* the wall clock, in milliseconds *)
    clock : Z;
    (* what the backend answers to the calls to come: [Some e] fails the
       call with [e] and leaves the store alone, [None] lets it through;
       once the schedule is used up every call goes through *)
    faults : list (option JsError);
    (* FirebaseConnectionManager: its state, and the labels of the
       operations waiting in its queue *)
    connectionState : ConnectionState;
    retryQueue : list string;
    (* the uid the identity provider vouches for, if somebody is signed in *)
    currentUser : option string;
    (* [analytics] of [firebaseConfig]: [None] is [null], its value until
       [initializeAnalytics] has found analytics supported *)
    analytics : option Analytics }.

Definition with_store (f : Store → Store) (w : World) : World :=
  mkWorld (f (store w)) (clock w) (faults w) (connectionState w) (retryQueue w)
          (currentUser w) (analytics w).
Definition with_clock (t : Z) (w : World) : World :=
  mkWorld (store w) t (faults w) (connectionState w) (retryQueue w)
          (currentUser w) (analytics w).
Definition with_faults (fs : list (option JsError)) (w : World) : World :=
  mkWorld (store w) (clock w) fs (connectionState w) (retryQueue w)
          (currentUser w) (analytics w).
Definition with_retryQueue (q : list string) (w : World) : World :=
  mkWorld (store w) (clock w) (faults w) (connectionState w) q
          (currentUser w) (analytics w).
Definition with_analytics (a : option Analytics) (w : World) : World :=
  mkWorld (store w) (clock w) (faults w) (connectionState w) (retryQueue w)
          (currentUser w) a.

(** ** Asynchronous computations *)

Definition M (A : Type) : Type := World → Promise A * World.

Definition ret {A} (a : A) : M A := λ w, (Resolved a, w).
Definition throw {A} (e : JsError) : M A := λ w, (Rejected e, w).

(** [await m] followed by [k]: a rejection or a promise that never settles
    ends the computation there. *)
Definition bind {A B} (m : M A) (k : A → M B) : M B :=
  λ w, match m w with
       | (Resolved a, w') => k a w'
       | (Rejected e, w') => (Rejected e, w')
       | (Pending, w') => (Pending, w')
       end.

(** [try { m } catch (error) { h error }], also [m.catch(h)] *)
Definition try_catch {A} (m : M A) (h : JsError → M A) : M A :=
  λ w, match m w with
       | (Rejected e, w') => h e w'
       | r => r
       end.

Declare Scope async_scope.
Delimit Scope async_scope with async.
Notation "x <- m ;; k" := (bind m (λ x, k))
  (at level 100, m at next level, right associativity) : async_scope.
Notation "m ;;; k" := (bind m (λ _, k))
  (at level 100, right associativity) : async_scope.
Local Open Scope async_scope.

(** [for (const x of xs) { await f(x) }], collecting what each round pushes *)
Fixpoint forEachAsync {A B} (f : A → M B) (xs : list A) : M (list B) :=
  match xs with
  | [] => ret []
  | x :: xs' => y <- f x ;; ys <- forEachAsync f xs' ;; ret (y :: ys)
  end.

(** [Timestamp.now()], [FieldValue.serverTimestamp()], [new Date()] *)
Definition Timestamp_now : M Z := λ w, (Resolved (clock w), w).

(** [new Promise(resolve => setTimeout(resolve, ms))] *)
Definition delay (ms : Z) : M unit := λ w, (Resolved tt, with_clock (clock w + ms) w).

(** One call to the backend: the next entry of the schedule decides whether
    it fails; when it goes through, [act] reads or changes the store and may
    itself reject. *)
Definition backend {A} (act : Store → Promise A * Store) : M A :=
  λ w, let w1 := with_faults (tail (faults w)) w in
       match head (faults w) with
       | Some (Some e) => (Rejected e, w1)
       | _ => let '(r, s') := act (store w1) in
              (r, with_store (λ _, s') w1)
       end.

(** A snapshot's documents, each with its id. *)
Definition Snapshot (D : Type) : Type := list (string * D).

(** [getDocs(q)] for a query that selects [select store] *)
Definition getDocs {D} (select : Store → Snapshot D) : M (Snapshot D) :=
  backend (λ s, (Resolved (select s), s)).

(** [getDoc(ref)] for the point lookup [look]; [None] when the document
    does not exist *)
Definition getDoc {D} (look : Store → option D) : M (option D) :=
  backend (λ s, (Resolved (look s), s)).

(** [addDoc(collection, data)]: the store picks an id that the collection
    does not use yet; resolves to the new id. *)
Definition addDoc {D} (coll : Store → gmap string D)
    (put : (gmap string D → gmap string D) → Store → Store) (data : D) : M string :=
  backend (λ s, let id : string := fresh (dom (coll s)) in
                (Resolved id, put (insert id data) s)).

(** [updateDoc(ref, ...)]: fails with [not-found] when the document does
    not exist. *)
Definition updateDoc {D} (coll : Store → gmap string D)
    (put : (gmap string D → gmap string D) → Store → Store)
    (id : string) (f : D → D) : M unit :=
  backend (λ s, match coll s !! id with
                | Some d => (Resolved tt, put (insert id (f d)) s)
                | None => (Rejected (HttpsError "not-found" "No document to update"), s)
                end).

(** [db.runTransaction(body)]: the reads and the buffered writes of [body]
    take effect together, or not at all when [body] throws. *)
Definition runTransaction {A} (body : Store → Promise A * Store) : M A :=
  backend (λ s, match body s with
                | (Resolved a, s') => (Resolved a, s')
                | (Rejected e, _) => (Rejected e, s)
                | (Pending, _) => (Pending, s)
                end).

(** [where(field, '==', v)] and the like: the documents of a collection
    that satisfy [p], in the store's order of enumeration. *)
Definition where_ {D} (p : D → bool) (coll : gmap string D) : Snapshot D :=
  filter (λ kd, p kd.2 = true) (map_to_list coll).

(** [orderBy(field, 'desc')] on an integer field, [orderBy(field)] on a
    string field *)
Definition newestFirst {D} (key : D → Z) : relation (string * D) :=
  λ a b, (key b.2 ≤ key a.2)%Z.
#[global] Instance newestFirst_dec {D} (key : D → Z) : RelDecision (newestFirst key) :=
  λ a b, decide ((key b.2 ≤ key a.2)%Z).

Definition alphabetical {D} (key : D → string) : relation (string * D) :=
  λ a b, String.leb (key a.2) (key b.2) = true.
#[global] Instance alphabetical_dec {D} (key : D → string) : RelDecision (alphabetical key) :=
  λ a b, decide (String.leb (key a.2) (key b.2) = true).

Definition orderByDesc {D} (key : D → Z) (docs : Snapshot D) : Snapshot D :=
  merge_sort (newestFirst key) docs.

Definition orderByString {D} (key : D → string) (docs : Snapshot D) : Snapshot D :=
  merge_sort (alphabetical key) docs.

(** [limit(n)] and [Array.prototype.slice(0, n)] *)
Definition limit {A} (n : nat) (l : list A) : list A := take n l.

(** [Array.prototype.sort(compare)]: a stable sort; [x] goes before [y]
    when [compare x y] is not positive. *)
Fixpoint js_insert {A} (compare : A → A → Z) (x : A) (l : list A) : list A :=
  match l with
  | [] => [x]
  | y :: l' => if compare x y <=? 0 then x :: l else y :: js_insert compare x l'
  end.

Fixpoint js_sort {A} (compare : A → A → Z) (l : list A) : list A :=
  match l with
  | [] => []
  | x :: l' => js_insert compare x (js_sort compare l')
  end.

(** ** Connection manager ([services/firebaseConnection.ts]) *)

Definition maxRetries : Z := 3.
Definition retryDelay : Z := 1000.

Definition networkErrorCodes : list string :=
  ["unavailable"; "deadline-exceeded"; "cancelled"; "failed-precondition"].

Definition isNetworkError (e : JsError) : bool :=
  let errorMessage := JsString.toLowerCase (default "" (message e)) in
  let errorCode := JsString.toLowerCase (default "" (code e)) in
  existsb (λ c, JsString.includes errorCode c) networkErrorCodes
  || JsString.includes errorMessage "offline"
  || JsString.includes errorMessage "network"
  || JsString.includes errorMessage "connection".

(** What [executeWithRetry] does besides running the operation: the
    attempts it makes, the waits between them, the hand-over to the queue. *)
Inductive RetryEvent :=
| Invoked (attempt : Z)
| Waited (ms : Z)
| Queued (operationName : string).

(** The [for] loop of [executeWithRetry]; [rounds] is the number of
    iterations left, [maxRetries - attempt + 1]. *)
Fixpoint retryLoop {T} (rounds : nat) (attempt : Z) (operation : M T)
    (operationName : string) (lastError : JsError) (w : World)
  : Promise T * World * list RetryEvent :=
  match rounds with
  | O => (Rejected lastError, w, [])
  | S rounds' =>
      if decide (connectionState w = connected) then
        match operation w with
        | (Resolved result, w1) => (Resolved result, w1, [Invoked attempt])
        | (Pending, w1) => (Pending, w1, [Invoked attempt])
        | (Rejected e, w1) =>
            if isNetworkError e then
              if attempt <? maxRetries then
                let w2 := (delay (retryDelay * attempt) w1).2 in
                let '(r, w3, evs) :=
                  retryLoop rounds' (attempt + 1) operation operationName e w2 in
                (r, w3, Invoked attempt :: Waited (retryDelay * attempt) :: evs)
              else
                let '(r, w3, evs) :=
                  retryLoop rounds' (attempt + 1) operation operationName e w1 in
                (r, w3, Invoked attempt :: evs)
            else (Rejected e, w1, [Invoked attempt])
        end
      else
        (Pending, with_retryQueue (retryQueue w ++ [operationName])%list w,
         [Queued operationName])
  end.

Definition executeWithRetry_events {T} (operation : M T) (operationName : string)
    (w : World) : Promise T * World * list RetryEvent :=
  retryLoop (Z.to_nat maxRetries) 1 operation operationName js_undefined w.

Definition executeWithRetry {T} (operation : M T) (operationName : string) : M T :=
  λ w, (executeWithRetry_events operation operationName w).1.

(** The classification as the specification words it: the code contains
    one of the four codes, or the message contains one of the three words. *)
Definition transientAsDescribed (e : JsError) : bool :=
  existsb (λ c, JsString.includes (default "" (code e)) c) networkErrorCodes
  || JsString.includes (default "" (message e)) "offline"
  || JsString.includes (default "" (message e)) "network"
  || JsString.includes (default "" (message e)) "connection".

(** An operation that fails with a transient error whenever it is invoked
    while connected, and leaves the connection as it is. *)
Definition alwaysTransient {T} (operation : M T) : Prop :=
  ∀ w, connectionState w = connected →
    ∃ e w', operation w = (Rejected e, w') ∧ isNetworkError e = true
            ∧ connectionState w' = connected.

(** How often the operation was invoked. *)
Fixpoint invocations (evs : list RetryEvent) : nat :=
  match evs with
  | [] => 0
  | Invoked _ :: evs' => S (invocations evs')
  | _ :: evs' => invocations evs'
  end.

(** ** Cloud functions ([functions/src/index.ts]) *)

(** [context.auth]: the verified uid of the caller, if any. *)
Record CallableContext := mkContext { auth : option string }.

Module LikeData.
Record t := mk { reviewId : string; userId : string }.
End LikeData.

Module CommentData.
Record t := mk { reviewId : string; userId : string; commentText : string }.
End CommentData.

Inductive LikeAction := liked | unliked.

Record LikeResult := mkLikeResult { action : LikeAction; likesCount : Z }.

Record CommentResult := mkCommentResult { success : bool }.

(** [x || 0] on a number that may be missing *)
Definition orZero (x : option Z) : Z :=
  match x with
  | Some n => if n =? 0 then 0 else n
  | None => 0
  end.

Definition getLikesCount (reviewId : string) : M Z :=
  reviewDoc <- getDoc (λ s, reviews s !! reviewId) ;;
  ret (orZero (Review.likesCount <$> reviewDoc)).

(** The transaction of the "already liked" branch. *)
Definition unlikeTransaction (reviewId userId : string) (s : Store) : Promise unit * Store :=
  match reviews s !! reviewId with
  | None => (Rejected (HttpsError "not-found" "Review not found"), s)
  | Some reviewDoc =>
      let currentLikes := orZero (Some (Review.likesCount reviewDoc)) in
      (Resolved tt,
       set_likedBy (insert reviewId (delete userId (children (likedBy s) reviewId)))
         (set_reviews
            (insert reviewId (Review.with_likesCount (Z.max 0 (currentLikes - 1)) reviewDoc))
            s))
  end.

(** The transaction of the "not liked yet" branch. *)
Definition likeTransaction (reviewId userId : string) (now : Z) (s : Store)
  : Promise unit * Store :=
  match reviews s !! reviewId with
  | None => (Rejected (HttpsError "not-found" "Review not found"), s)
  | Some reviewDoc =>
      let currentLikes := orZero (Some (Review.likesCount reviewDoc)) in
      (Resolved tt,
       set_likedBy
         (insert reviewId (<[userId := Like.mk now]> (children (likedBy s) reviewId)))
         (set_reviews
            (insert reviewId (Review.with_likesCount (currentLikes + 1) reviewDoc)) s))
  end.

(** The checks [likeReview] makes before it touches the store. *)
Definition likeReview_checks (data : LikeData.t) (context : CallableContext) : M unit :=
  match auth context with
  | None => throw (HttpsError "unauthenticated" "User must be authenticated")
  | Some uid =>
      if negb (JsString.truthy (LikeData.reviewId data))
         || negb (JsString.truthy (LikeData.userId data))
      then throw (HttpsError "invalid-argument" "Review ID and User ID are required")
      else if negb (String.eqb (LikeData.userId data) uid)
      then throw (HttpsError "permission-denied" "Cannot like reviews for other users")
      else ret tt
  end.

(** [await likedByRef.get()], then [likedByDoc.exists] *)
Definition likeReview_read (data : LikeData.t) : M bool :=
  likedByDoc <- getDoc (λ s, children (likedBy s) (LikeData.reviewId data)
                               !! LikeData.userId data) ;;
  ret (bool_decide (is_Some likedByDoc)).

(** The branch taken on what was read, up to the function's result. *)
Definition likeReview_write (data : LikeData.t) (likedByDoc_exists : bool) : M LikeResult :=
  let reviewId := LikeData.reviewId data in
  let userId := LikeData.userId data in
  if likedByDoc_exists then
    runTransaction (unlikeTransaction reviewId userId) ;;;
    n <- getLikesCount reviewId ;;
    ret (mkLikeResult unliked n)
  else
    now <- Timestamp_now ;;
    runTransaction (likeTransaction reviewId userId now) ;;;
    n <- getLikesCount reviewId ;;
    ret (mkLikeResult liked n).

Definition likeReview (data : LikeData.t) (context : CallableContext) : M LikeResult :=
  likeReview_checks data context ;;;
  try_catch
    (likedByDoc_exists <- likeReview_read data ;;
     likeReview_write data likedByDoc_exists)
    (λ _, throw (HttpsError "internal" "Failed to process like operation")).

(** The transaction of [addComment]; the comment gets an id unused among
    the review's comments. *)
Definition addCommentTransaction (reviewId userId commentText : string) (now : Z)
    (s : Store) : Promise unit * Store :=
  match reviews s !! reviewId with
  | None => (Rejected (HttpsError "not-found" "Review not found"), s)
  | Some reviewDoc =>
      let siblings := children (comments s) reviewId in
      let commentId : string := fresh (dom siblings) in
      let comment :=
        Comment.mk (docPath "users" userId) (JsString.trim commentText) now in
      let currentComments := orZero (Some (Review.commentsCount reviewDoc)) in
      (Resolved tt,
       set_reviews
         (insert reviewId (Review.with_commentsCount (currentComments + 1) reviewDoc))
         (set_comments (insert reviewId (<[commentId := comment]> siblings)) s))
  end.

Definition addComment (data : CommentData.t) (context : CallableContext)
  : M CommentResult :=
  let reviewId := CommentData.reviewId data in
  let userId := CommentData.userId data in
  let commentText := CommentData.commentText data in
  match auth context with
  | None => throw (HttpsError "unauthenticated" "User must be authenticated")
  | Some uid =>
      if negb (JsString.truthy reviewId) || negb (JsString.truthy userId)
         || negb (JsString.truthy commentText)
         || (String.length (JsString.trim commentText) =? 0)%nat
      then throw (HttpsError "invalid-argument"
                    "Review ID, User ID, and comment text are required")
      else if negb (String.eqb userId uid)
      then throw (HttpsError "permission-denied" "Cannot comment for other users")
      else
        try_catch
          (now <- Timestamp_now ;;
           runTransaction (addCommentTransaction reviewId userId commentText now) ;;;
           ret (mkCommentResult true))
          (λ _, throw (HttpsError "internal" "Failed to add comment"))
  end.

(** [httpsCallable(functions, name)(data)]: the function runs with the
    signed-in user as its caller. *)
Definition httpsCallable {D R} (f : D → CallableContext → M R) (data : D) : M R :=
  λ w, f data (mkContext (currentUser w)) w.

(** ** Analytics ([services/analyticsService.ts]) *)

(** [logEvent(analytics, eventName, parameters)] *)
Definition logEvent (instance : Analytics) (name : string)
    (parameters : list (string * string)) : M unit :=
  λ w, match logEventFaults instance with
       | Some e :: rest =>
           (Rejected e, with_analytics (Some (mkAnalytics (acceptedEvents instance) rest)) w)
       | answers =>
           (Resolved tt,
            with_analytics
              (Some (mkAnalytics (acceptedEvents instance ++ [mkEvent name parameters])%list
                                 (tail answers))) w)
       end.

Definition logAnalyticsEvent (name : string) (parameters : list (string * string)) : M unit :=
  try_catch
    (λ w, match analytics w with
          | Some instance => logEvent instance name parameters w
          | None => ret tt w
          end)
    (λ _, ret tt).

Definition logConcertLogged (concertId artistName venueName : string) : M unit :=
  logAnalyticsEvent "concert_logged"
    [("concert_id", concertId); ("artist_name", artistName); ("venue_name", venueName)].

(** ** Concerts and reviews ([services/concertService.ts]) *)

Definition findOrCreateArtist (artistName : string) : M string :=
  executeWithRetry
    (querySnapshot <-
       getDocs (λ s, where_ (λ d, String.eqb (Artist.name d) artistName) (artists s)) ;;
     match querySnapshot with
     | (id, _) :: _ => ret (docPath "artists" id)
     | [] =>
         now <- Timestamp_now ;;
         let artistData := Artist.mk artistName now in
         id <- addDoc artists set_artists artistData ;;
         ret (docPath "artists" id)
     end)
    "findOrCreateArtist".

Definition findOrCreateVenue (venueName : string) : M string :=
  executeWithRetry
    (querySnapshot <-
       getDocs (λ s, where_ (λ d, String.eqb (Venue.name d) venueName) (venues s)) ;;
     match querySnapshot with
     | (id, _) :: _ => ret (docPath "venues" id)
     | [] =>
         now <- Timestamp_now ;;
         let venueData := Venue.mk venueName "Unknown" "Unknown" "Unknown" now in
         id <- addDoc venues set_venues venueData ;;
         ret (docPath "venues" id)
     end)
    "findOrCreateVenue".

(** [increment(n)] on [loggedConcertsCount] *)
Definition increment (n : Z) (u : User.t) : User.t :=
  User.mk (User.email u) (User.displayName u) (User.loggedConcertsCount u + n).

Definition logConcert (userId artistName venueName : string) (date rating : Z)
    (notes : option string) : M string :=
  executeWithRetry
    (artistRef <- findOrCreateArtist artistName ;;
     venueRef <- findOrCreateVenue venueName ;;
     now <- Timestamp_now ;;
     let concertData :=
       Concert.mk artistRef venueRef date (docPath "users" userId) rating
                  (default "" notes) now now None None in
     concertId <- addDoc concerts set_concerts concertData ;;
     updateDoc users set_users userId (increment 1) ;;;
     logConcertLogged concertId artistName venueName ;;;
     ret concertId)
    "logConcert".

Definition getConcertById (concertId : string) : M (option Concert.t) :=
  try_catch (getDoc (λ s, concerts s !! concertId)) (λ e, throw e).

Definition submitReview (concertId userId : string) (rating : Z) (text : string) : M string :=
  try_catch
    (concert <- getConcertById concertId ;;
     match concert with
     | None => throw (Error_new "Concert not found")
     | Some concert =>
         let reviewRating :=
           if JsString.endsWith (Concert.userRef concert) userId
           then Concert.rating concert else rating in
         now <- Timestamp_now ;;
         let reviewData :=
           Review.mk (docPath "concerts" concertId) (docPath "users" userId)
                     (JsString.trim text) reviewRating now now 0 0 in
         addDoc reviews set_reviews reviewData
     end)
    (λ e, throw e).

Record ReviewsResult := mkReviewsResult
  { reviewList : Snapshot Review.t; usingFallback : bool }.

(** The reviews of a concert, as the store enumerates them. *)
Definition reviewsOf (concertId : string) (s : Store) : Snapshot Review.t :=
  where_ (λ d, String.eqb (Review.concertRef d) (docPath "concerts" concertId)) (reviews s).

(** The comparator [(a, b) => b.createdAt.getTime() - a.createdAt.getTime()] *)
Definition byCreatedAtDesc (a b : string * Review.t) : Z :=
  Review.createdAt b.2 - Review.createdAt a.2.

Definition fallbackReviews (concertId : string) : M ReviewsResult :=
  querySnapshot <- getDocs (reviewsOf concertId) ;;
  ret (mkReviewsResult (js_sort byCreatedAtDesc querySnapshot) true).

(** The operation [getConcertReviews] hands to [executeWithRetry]. *)
Definition getConcertReviews_attempt (concertId : string) : M ReviewsResult :=
  try_catch
    (querySnapshot <-
       getDocs (λ s, orderByDesc Review.createdAt (reviewsOf concertId s)) ;;
     ret (mkReviewsResult querySnapshot false))
    (λ e,
       if JsString.includes (default "" (message e)) "currently building"
       then fallbackReviews concertId
       else if JsString.includes (default "" (message e)) "requires an index"
       then fallbackReviews concertId
       else throw e).

Definition getConcertReviews (concertId : string) : M ReviewsResult :=
  executeWithRetry (getConcertReviews_attempt concertId) "getConcertReviews".

Definition toggleReviewLike (reviewId userId : string) : M LikeResult :=
  try_catch (httpsCallable likeReview (LikeData.mk reviewId userId)) (λ e, throw e).

Definition addCommentToReview (reviewId userId commentText : string) : M CommentResult :=
  try_catch (httpsCallable addComment (CommentData.mk reviewId userId commentText))
            (λ e, throw e).

(** ** The feed ([services/feedService.ts]) *)

Inductive FeedItemType := concert_logged | review_posted.

Module FeedItem.
Record t := mk
  { id : string; type : FeedItemType; userId : string; userDisplayName : string;
    concertId : string; concertName : string; artistName : string;
    venueName : string; reviewId : option string; timestamp : Z }.
End FeedItem.

(** [s || fallback] on strings, and on a field that may be missing *)
Definition orString (s fallback : string) : string :=
  if JsString.truthy s then s else fallback.

Definition orElse (field : option string) (fallback : string) : string :=
  match field with
  | Some s => orString s fallback
  | None => fallback
  end.

(** A field inside a template literal *)
Definition interpolate (field : option string) : string := default "undefined" field.

Definition getFollowingUsers (userId : string) : M (list string) :=
  try_catch
    (executeWithRetry
       (querySnapshot <- getDocs (λ s, map_to_list (children (following s) userId)) ;;
        ret (map fst querySnapshot))
       "getFollowingUsers")
    (λ _, ret []).

(** [where('__name__', '==', doc(db, ref))] on a collection named [coll] *)
Definition byReference {D} (coll : string) (ref : string) (docs : gmap string D)
  : Snapshot D :=
  filter (λ kd, String.eqb (docPath coll kd.1) ref = true) (map_to_list docs).

(** [where('userRef', 'in', refs)] *)
Definition isOneOf (refs : list string) (ref : string) : bool :=
  existsb (String.eqb ref) refs.

Definition displayNameOf (userDoc : Snapshot User.t) : string :=
  match userDoc with
  | [] => "Unknown User"
  | (_, u) :: _ => orString (User.displayName u) "Unknown User"
  end.

(** One round of the loop over the concerts of the followed users. *)
Definition concertActivity (concertDoc : string * Concert.t) : M FeedItem.t :=
  let concertData := concertDoc.2 in
  userDoc <- getDocs (λ s, byReference "users" (Concert.userRef concertData) (users s)) ;;
  let userDisplayName := displayNameOf userDoc in
  ret (FeedItem.mk
         ("concert_" +:+ concertDoc.1)
         concert_logged
         (orString (JsString.lastSegment (Concert.userRef concertData)) "")
         userDisplayName
         concertDoc.1
         (interpolate (Concert.artistName concertData) +:+ " at "
            +:+ interpolate (Concert.venueName concertData))
         (orElse (Concert.artistName concertData) "Unknown Artist")
         (orElse (Concert.venueName concertData) "Unknown Venue")
         None
         (Concert.createdAt concertData)).

(** One round of the loop over the reviews of the followed users. *)
Definition reviewActivity (reviewDoc : string * Review.t) : M FeedItem.t :=
  let reviewData := reviewDoc.2 in
  userDoc <- getDocs (λ s, byReference "users" (Review.userRef reviewData) (users s)) ;;
  let userDisplayName := displayNameOf userDoc in
  concertDoc <-
    getDocs (λ s, byReference "concerts" (Review.concertRef reviewData) (concerts s)) ;;
  let '(artistName, venueName) :=
    match concertDoc with
    | [] => ("Unknown Artist", "Unknown Venue")
    | (_, concertData) :: _ =>
        (orElse (Concert.artistName concertData) "Unknown Artist",
         orElse (Concert.venueName concertData) "Unknown Venue")
    end in
  ret (FeedItem.mk
         ("review_" +:+ reviewDoc.1)
         review_posted
         (orString (JsString.lastSegment (Review.userRef reviewData)) "")
         userDisplayName
         (orString (JsString.lastSegment (Review.concertRef reviewData)) "")
         (artistName +:+ " at " +:+ venueName)
         artistName
         venueName
         (Some reviewDoc.1)
         (Review.createdAt reviewData)).

(** The comparator [(a, b) => b.timestamp.getTime() - a.timestamp.getTime()] *)
Definition byTimestampDesc (a b : FeedItem.t) : Z :=
  FeedItem.timestamp b - FeedItem.timestamp a.

(** The operation [getFeedActivities] hands to [executeWithRetry]. *)
Definition getFeedActivities_attempt (userId : string) : M (list FeedItem.t) :=
  followingUserIds <- getFollowingUsers userId ;;
  if (length followingUserIds =? 0)%nat then ret []
  else
    let followed := map (docPath "users") followingUserIds in
    concertsSnapshot <-
      getDocs (λ s, limit 20 (orderByDesc Concert.createdAt
                 (where_ (λ d, isOneOf followed (Concert.userRef d)) (concerts s)))) ;;
    concertItems <- forEachAsync concertActivity concertsSnapshot ;;
    reviewsSnapshot <-
      getDocs (λ s, limit 20 (orderByDesc Review.createdAt
                 (where_ (λ d, isOneOf followed (Review.userRef d)) (reviews s)))) ;;
    reviewItems <- forEachAsync reviewActivity reviewsSnapshot ;;
    let activities := (concertItems ++ reviewItems)%list in
    ret (limit 30 (js_sort byTimestampDesc activities)).

Definition getFeedActivities (userId : string) : M (list FeedItem.t) :=
  try_catch
    (executeWithRetry (getFeedActivities_attempt userId) "getFeedActivities")
    (λ _, ret []).

(** ** Search ([services/searchService.ts]) *)

(** U+F8FF, as the three bytes of its UTF-8 encoding *)
Definition sentinel : string :=
  String (ascii_of_nat 239) (String (ascii_of_nat 163) (String (ascii_of_nat 191) EmptyString)).

(** [where(field, '>=', term), where(field, '<=', term + sentinel)]: a
    document without the field is outside every range. *)
Definition inPrefixRange (searchTerm : string) (field : option string) : bool :=
  match field with
  | Some v => String.leb searchTerm v && String.leb v (searchTerm +:+ sentinel)
  | None => false
  end.

(** [if (!concerts.find(c => c.id === concert.id)) concerts.push(concert)] *)
Definition pushUnlessPresent {D} (acc : Snapshot D) (x : string * D) : Snapshot D :=
  if existsb (λ c, String.eqb c.1 x.1) acc then acc else (acc ++ [x])%list.

Definition searchConcerts (searchTerm : string) : M (Snapshot Concert.t) :=
  try_catch
    (querySnapshot <-
       getDocs (λ s, limit 10 (orderByString (λ d, default "" (Concert.artistName d))
                  (where_ (λ d, inPrefixRange searchTerm (Concert.artistName d))
                          (concerts s)))) ;;
     venueSnapshot <-
       getDocs (λ s, limit 10 (orderByString (λ d, default "" (Concert.venueName d))
                  (where_ (λ d, inPrefixRange searchTerm (Concert.venueName d))
                          (concerts s)))) ;;
     let concerts := fold_left pushUnlessPresent venueSnapshot querySnapshot in
     ret (limit 10 concerts))
    (λ _, ret []).

(** ** Runs of several requests *)

(** A request to [likeReview], with the caller the platform verified. *)
Record LikeCall := mkLikeCall { likeData : LikeData.t; likeContext : CallableContext }.

(** Requests served one after the other. *)
Fixpoint serveLikes (calls : list LikeCall) (w : World) : World :=
  match calls with
  | [] => w
  | c :: calls' => serveLikes calls' (likeReview (likeData c) (likeContext c) w).2
  end.

(** Two requests that overlap: each function instance has passed its checks
    and awaits [likedByRef.get()]; both reads are answered before either
    instance runs its transaction. *)
Definition overlappingLikes (data1 data2 : LikeData.t) : M (LikeResult * LikeResult) :=
  seen1 <- likeReview_read data1 ;;
  seen2 <- likeReview_read data2 ;;
  result1 <- likeReview_write data1 seen1 ;;
  result2 <- likeReview_write data2 seen2 ;;
  ret (result1, result2).

(** ** Observations on the store *)

(** The number of Like records of a review, and its counter. *)
Definition likeRecords (s : Store) (reviewId : string) : Z :=
  Z.of_nat (size (children (likedBy s) reviewId)).

Definition likesCounter (s : Store) (reviewId : string) : Z :=
  default 0 (Review.likesCount <$> reviews s !! reviewId).

Definition hasLiked (s : Store) (reviewId userId : string) : bool :=
  bool_decide (is_Some (children (likedBy s) reviewId !! userId)).

(** Every review's counter is the number of its Like records. *)
Definition likesConsistent (s : Store) : Prop :=
  ∀ reviewId r, reviews s !! reviewId = Some r →
    Review.likesCount r = likeRecords s reviewId.

(** How many documents of a collection satisfy [p]. *)
Definition countWhere {D} (p : D → bool) (coll : gmap string D) : nat :=
  length (where_ p coll).

(** ** Specifications of computations

    [hoare P m Q E]: started in a world that satisfies [P], the computation
    [m] settles; it resolves to a value [a] in a world that satisfies [Q a],
    or it is rejected in a world that satisfies [E]. *)
Definition hoare {A} (P : World → Prop) (m : M A) (Q : A → World → Prop)
    (E : World → Prop) : Prop :=
  ∀ w, P w →
    match m w with
    | (Resolved a, w') => Q a w'
    | (Rejected _, w') => E w'
    | (Pending, _) => False
    end.

(** The number of failures still scheduled. *)
Fixpoint failures (fs : list (option JsError)) : nat :=
  match fs with
  | [] => 0
  | Some _ :: fs' => S (failures fs')
  | None :: fs' => failures fs'
  end.

(** The shape shared by [findOrCreateArtist] and [findOrCreateVenue]: look
    for a document that satisfies [p] in the collection [coll], named
    [collName]; create [make now] when there is none. *)
Definition findOrCreate {D} (coll : Store → gmap string D)
    (put : (gmap string D → gmap string D) → Store → Store)
    (p : D → bool) (make : Z → D) (collName label : string) : M string :=
  executeWithRetry
    (querySnapshot <- getDocs (λ s, where_ p (coll s)) ;;
     match querySnapshot with
     | (id, _) :: _ => ret (docPath collName id)
     | [] =>
         now <- Timestamp_now ;;
         id <- addDoc coll put (make now) ;;
         ret (docPath collName id)
     end)
    label.

(** While an operation that started in [w0] runs: still connected, the
    schedule only gets shorter. *)
Definition underway (w0 w : World) : Prop :=
  connectionState w = connected ∧ (failures (faults w) ≤ failures (faults w0))%nat.

(** What [findOrCreate] may have done to a store [s0]: found a document
    [d] with id [id] that satisfies [p], or, none satisfying [p], created
    it as [make t] under an unused id. *)
Definition resolvedIn {D} (coll : Store → gmap string D)
    (put : (gmap string D → gmap string D) → Store → Store)
    (p : D → bool) (make : Z → D) (s0 : Store) (id : string) (d : D) (s : Store) : Prop :=
  (coll s0 !! id = Some d ∧ s = s0)
  ∨ (countWhere p (coll s0) = 0%nat ∧ coll s0 !! id = None
     ∧ (∃ t, d = make t) ∧ s = put (insert id d) s0).

(** A collection that is as it was, or has gained one document [make t]
    when it had no document satisfying [p]. *)
Definition grown {D} (p : D → bool) (make : Z → D) (m0 m : gmap string D) : Prop :=
  m = m0
  ∨ (countWhere p m0 = 0%nat ∧ ∃ id t, m0 !! id = None ∧ m = <[id := make t]> m0).

Section LogConcertSpec.
Variables (userId artistName venueName : string) (date rating : Z) (notes : option string).

(** The filters of the two look-ups, and the documents created on a miss. *)
Definition artistNamed (d : Artist.t) : bool := String.eqb (Artist.name d) artistName.
Definition venueNamed (d : Venue.t) : bool := String.eqb (Venue.name d) venueName.
Definition newArtist (now : Z) : Artist.t := Artist.mk artistName now.
Definition newVenue (now : Z) : Venue.t :=
  Venue.mk venueName "Unknown" "Unknown" "Unknown" now.

(** A concert document as [logConcert] writes it, pointing to an artist
    and a venue of [s] that carry the two names. *)
Definition loggedConcert (s : Store) (c : Concert.t) : Prop :=
  Concert.userRef c = docPath "users" userId
  ∧ Concert.rating c = rating
  ∧ Concert.date c = date
  ∧ Concert.notes c = default "" notes
  ∧ Concert.artistName c = None
  ∧ Concert.venueName c = None
  ∧ (∃ id a, Concert.artistRef c = docPath "artists" id
             ∧ artists s !! id = Some a ∧ Artist.name a = artistName)
  ∧ (∃ id v, Concert.venueRef c = docPath "venues" id
             ∧ venues s !! id = Some v ∧ Venue.name v = venueName).

(** What attempts of [logConcert] may have made of the store [s0], the
    users apart. *)
Definition logged (s0 s : Store) : Prop :=
  grown artistNamed newArtist (artists s0) (artists s)
  ∧ grown venueNamed newVenue (venues s0) (venues s)
  ∧ concerts s0 ⊆ concerts s
  ∧ (∀ id c, concerts s !! id = Some c → concerts s0 !! id = None → loggedConcert s c)
  ∧ reviews s = reviews s0 ∧ likedBy s = likedBy s0
  ∧ comments s = comments s0 ∧ following s = following s0.

(** Between attempts: the counter of the user is untouched, and each
    concert added so far has used up a scheduled failure. *)
Definition logConcertInv (w0 w : World) : Prop :=
  underway w0 w
  ∧ logged (store w0) (store w)
  ∧ users (store w) = users (store w0)
  ∧ (is_Some (users (store w0) !! userId) →
     (size (concerts (store w)) + failures (faults w)
      ≤ size (concerts (store w0)) + failures (faults w0))%nat).

(** After a call that resolved to [concertId]. *)
Definition logConcertPost (w0 : World) (concertId : string) (w : World) : Prop :=
  underway w0 w
  ∧ logged (store w0) (store w)
  ∧ (∃ u, users (store w0) !! userId = Some u
          ∧ users (store w) = <[userId := increment 1 u]> (users (store w0)))
  ∧ is_Some (concerts (store w) !! concertId)
  ∧ concerts (store w0) !! concertId = None
  ∧ (size (concerts (store w)) + failures (faults w)
     ≤ S (size (concerts (store w0)) + failures (faults w0)))%nat.

End LogConcertSpec.

(** [descending key l]: of two elements of [l], the earlier one has the
    key at least as large. *)
Definition descending {A} (key : A → Z) (l : list A) : Prop :=
  ∀ i j a b, (i < j)%nat → l !! i = Some a → l !! j = Some b → key b ≤ key a.

(** An error of the store that says the composite index is not ready, or
    that it is missing. *)
Definition isIndexError (e : JsError) : bool :=
  JsString.includes (default "" (message e)) "currently building"
  || JsString.includes (default "" (message e)) "requires an index".

(** A computation that only reads: connected, on the store [s0]. *)
Definition reading (s0 : Store) (w : World) : Prop :=
  connectionState w = connected ∧ store w = s0.

(** A feed item of type [concert_logged] shows the names stored in the
    concert document of [s] it refers to, or the placeholders. *)
Definition showsConcertOf (s : Store) (item : FeedItem.t) : Prop :=
  FeedItem.type item = concert_logged →
  ∃ c, concerts s !! FeedItem.concertId item = Some c
       ∧ FeedItem.artistName item = orElse (Concert.artistName c) "Unknown Artist"
       ∧ FeedItem.venueName item = orElse (Concert.venueName c) "Unknown Venue".

(** What every feed computed on the store [s] for [userId] satisfies. *)
Definition feedOf (s : Store) (userId : string) (l : list FeedItem.t) : Prop :=
  (length l ≤ 30)%nat
  ∧ descending FeedItem.timestamp l
  ∧ (children (following s) userId = ∅ → l = [])
  ∧ Forall (showsConcertOf s) l.

(** ** Reading documents back ([services/concertService.ts]) *)

(** A document as [getDoc] finds it, of whichever collection. *)
Inductive Document :=
| UserDoc (data : User.t)
| ArtistDoc (data : Artist.t)
| VenueDoc (data : Venue.t)
| ConcertDoc (data : Concert.t)
| ReviewDoc (data : Review.t)
| LikeDoc (data : Like.t)
| CommentDoc (data : Comment.t)
| FollowDoc (data : Follow.t).

(** [data().createdAt], a field that users, likes and follows do not
    have. *)
Definition createdAtOf (d : Document) : option Z :=
  match d with
  | ArtistDoc data => Some (Artist.createdAt data)
  | VenueDoc data => Some (Venue.createdAt data)
  | ConcertDoc data => Some (Concert.createdAt data)
  | ReviewDoc data => Some (Review.createdAt data)
  | CommentDoc data => Some (Comment.createdAt data)
  | UserDoc _ | LikeDoc _ | FollowDoc _ => None
  end.

(** The document of the collection at the path [coll] whose own path is
    [ref], with its id. *)
Definition inCollection {D} (coll : string) (docs : gmap string D) (wrap : D → Document)
    (ref : string) : option (string * Document) :=
  (λ found : string * D, (found.1, wrap found.2)) <$> head (byReference coll ref docs).

(** The same over the subcollections named [sub] of the documents of
    [coll]. *)
Definition inSubcollections {D} (coll sub : string) (docs : gmap string (gmap string D))
    (wrap : D → Document) (ref : string) : option (string * Document) :=
  head (omap (λ parent : string * gmap string D,
                inCollection (docPath (docPath coll parent.1) sub) parent.2 wrap ref)
             (map_to_list docs)).

(** [getDoc(doc(db, ref))]: the document whose path is [ref], in whichever
    collection or subcollection it lies. *)
Definition docAt (s : Store) (ref : string) : option (string * Document) :=
  inCollection "users" (users s) UserDoc ref
  ∪ inCollection "artists" (artists s) ArtistDoc ref
  ∪ inCollection "venues" (venues s) VenueDoc ref
  ∪ inCollection "concerts" (concerts s) ConcertDoc ref
  ∪ inCollection "reviews" (reviews s) ReviewDoc ref
  ∪ inSubcollections "reviews" "likedBy" (likedBy s) LikeDoc ref
  ∪ inSubcollections "reviews" "comments" (comments s) CommentDoc ref
  ∪ inSubcollections "users" "following" (following s) FollowDoc ref.

(** What [undefined.toDate()] throws. *)
Definition TypeError (msg : string) : JsError := mkError None (Some msg).

(** [getArtistByRef] returns the document at the path with its
    [createdAt] converted, hence fails, and answers [null], on a document
    without that field. *)
Definition getArtistByRef (artistRef : string) : M (option (string * Document)) :=
  try_catch
    (artistDoc <- getDoc (λ s, docAt s artistRef) ;;
     match artistDoc with
     | Some found =>
         match createdAtOf found.2 with
         | Some _ => ret (Some found)
         | None => throw (TypeError "Cannot read properties of undefined (reading 'toDate')")
         end
     | None => ret None
     end)
    (λ _, ret None).

Definition getVenueByRef (venueRef : string) : M (option (string * Document)) :=
  try_catch
    (venueDoc <- getDoc (λ s, docAt s venueRef) ;;
     match venueDoc with
     | Some found =>
         match createdAtOf found.2 with
         | Some _ => ret (Some found)
         | None => throw (TypeError "Cannot read properties of undefined (reading 'toDate')")
         end
     | None => ret None
     end)
    (λ _, ret None).

Definition getUserByRef (userRef : string) : M (option (string * Document)) :=
  try_catch
    (userDoc <- getDoc (λ s, docAt s userRef) ;;
     match userDoc with
     | Some found => ret (Some found)
     | None => ret None
     end)
    (λ _, ret None).

(** The comparator [(a, b) => b.date.getTime() - a.date.getTime()] *)
Definition byDateDesc (a b : string * Concert.t) : Z :=
  Concert.date b.2 - Concert.date a.2.

(** [where('userRef', '==', doc(db, 'users', userId).path)] *)
Definition loggedBy (userId : string) (d : Concert.t) : bool :=
  String.eqb (Concert.userRef d) (docPath "users" userId).

Definition getUserConcerts (userId : string) : M (Snapshot Concert.t) :=
  executeWithRetry
    (querySnapshot <- getDocs (λ s, where_ (loggedBy userId) (concerts s)) ;;
     ret (js_sort byDateDesc querySnapshot))
    "getUserConcerts".

(** [orderBy(field, 'asc')] on an integer field *)
Definition oldestFirst {D} (key : D → Z) : relation (string * D) :=
  λ a b, (key a.2 ≤ key b.2)%Z.
#[global] Instance oldestFirst_dec {D} (key : D → Z) : RelDecision (oldestFirst key) :=
  λ a b, decide ((key a.2 ≤ key b.2)%Z).

Definition orderByAsc {D} (key : D → Z) (docs : Snapshot D) : Snapshot D :=
  merge_sort (oldestFirst key) docs.

(** A comment as [getReviewComments] returns it: the document, and its
    author when the look-up found one. *)
Module CommentView.
Record t := mk { id : string; data : Comment.t; user : option (string * Document) }.
End CommentView.

Definition getReviewComments (reviewId : string) : M (list CommentView.t) :=
  try_catch
    (querySnapshot <-
       getDocs (λ s, orderByAsc Comment.createdAt
                       (map_to_list (children (comments s) reviewId))) ;;
     forEachAsync
       (λ docSnap : string * Comment.t,
          user <- getUserByRef (Comment.userRef docSnap.2) ;;
          ret (CommentView.mk docSnap.1 docSnap.2 user))
       querySnapshot)
    (λ e, throw e).

Definition hasUserLikedReview (reviewId userId : string) : M bool :=
  try_catch
    (likedByDoc <- getDoc (λ s, children (likedBy s) reviewId !! userId) ;;
     ret (bool_decide (is_Some likedByDoc)))
    (λ _, ret false).

(** ** Following ([services/feedService.ts]) *)

(** [setDoc(doc(db, parentColl, parent, sub, id), data)] and
    [deleteDoc(doc(db, parentColl, parent, sub, id))] on a sub-collection:
    the first creates or overwrites, the second succeeds whether or not the
    document exists. *)
Definition setSubDoc {D} (sub : Store → gmap string (gmap string D))
    (put : (gmap string (gmap string D) → gmap string (gmap string D)) → Store → Store)
    (parent id : string) (data : D) : M unit :=
  backend (λ s, (Resolved tt,
                 put (insert parent (<[id := data]> (children (sub s) parent))) s)).

Definition deleteSubDoc {D} (sub : Store → gmap string (gmap string D))
    (put : (gmap string (gmap string D) → gmap string (gmap string D)) → Store → Store)
    (parent id : string) : M unit :=
  backend (λ s, (Resolved tt,
                 put (insert parent (delete id (children (sub s) parent))) s)).

Definition followUser (currentUserId targetUserId : string) : M bool :=
  try_catch
    (executeWithRetry
       (now <- Timestamp_now ;;
        setSubDoc following set_following currentUserId targetUserId (Follow.mk now) ;;;
        ret true)
       "followUser")
    (λ _, ret false).

Definition unfollowUser (currentUserId targetUserId : string) : M bool :=
  try_catch
    (executeWithRetry
       (deleteSubDoc following set_following currentUserId targetUserId ;;;
        ret true)
       "unfollowUser")
    (λ _, ret false).

(** The value thrown when an identifier that no declaration or import binds
    is evaluated: a [ReferenceError], which has no [code]. *)
Definition ReferenceError (name : string) : JsError :=
  mkError None (Some (name +:+ " is not defined")).

(** [feedService.ts] calls [getDoc], which is not among the names it
    imports from [firebase/firestore]: evaluating the callee throws before
    any request is made. *)
Definition isFollowing (currentUserId targetUserId : string) : M bool :=
  try_catch
    (executeWithRetry
       (followingDoc <- (throw (ReferenceError "getDoc") : M (option Follow.t)) ;;
        ret (bool_decide (is_Some followingDoc)))
       "isFollowing")
    (λ _, ret false).

(** ** More searches ([services/searchService.ts]) *)

Definition searchArtists (searchTerm : string) : M (Snapshot Artist.t) :=
  try_catch
    (querySnapshot <-
       getDocs (λ s, limit 10 (orderByString Artist.name
                  (where_ (λ d, inPrefixRange searchTerm (Some (Artist.name d)))
                          (artists s)))) ;;
     ret querySnapshot)
    (λ _, ret []).

Definition searchVenues (searchTerm : string) : M (Snapshot Venue.t) :=
  try_catch
    (querySnapshot <-
       getDocs (λ s, limit 10 (orderByString Venue.name
                  (where_ (λ d, inPrefixRange searchTerm (Some (Venue.name d)))
                          (venues s)))) ;;
     citySnapshot <-
       getDocs (λ s, limit 10 (orderByString Venue.city
                  (where_ (λ d, inPrefixRange searchTerm (Some (Venue.city d)))
                          (venues s)))) ;;
     let venues := fold_left pushUnlessPresent citySnapshot querySnapshot in
     ret (limit 10 venues))
    (λ _, ret []).

Definition getTrendingConcerts : M (Snapshot Concert.t) :=
  try_catch
    (querySnapshot <-
       getDocs (λ s, limit 5 (orderByDesc Concert.createdAt (map_to_list (concerts s)))) ;;
     ret querySnapshot)
    (λ _, ret []).

Definition getPopularArtists : M (Snapshot Artist.t) :=
  try_catch
    (querySnapshot <-
       getDocs (λ s, limit 5 (orderByDesc Artist.createdAt (map_to_list (artists s)))) ;;
     ret querySnapshot)
    (λ _, ret []).

(** ** More observations *)

#[global] Instance Artist_eq_dec : EqDecision Artist.t.
Proof. solve_decision. Defined.

(** The time spent waiting between attempts. *)
Fixpoint waited (evs : list RetryEvent) : Z :=
  match evs with
  | [] => 0
  | Waited ms :: evs' => ms + waited evs'
  | _ :: evs' => waited evs'
  end.

(** Every review's comment counter is the number of its Comment records. *)
Definition commentsConsistent (s : Store) : Prop :=
  ∀ reviewId r, reviews s !! reviewId = Some r →
    Review.commentsCount r = Z.of_nat (size (children (comments s) reviewId)).

(** [ascending key l]: of two elements of [l], the earlier one has the key
    at most as large. *)
Definition ascending {A} (key : A → Z) (l : list A) : Prop :=
  ∀ i j a b, (i < j)%nat → l !! i = Some a → l !! j = Some b → key a ≤ key b.

(** [documentAt s ref id d]: in [s], [d] is the document with the id [id]
    whose path is [ref]. *)
Inductive documentAt (s : Store) : string → string → Document → Prop :=
| user_at id d :
    users s !! id = Some d → documentAt s (docPath "users" id) id (UserDoc d)
| artist_at id d :
    artists s !! id = Some d → documentAt s (docPath "artists" id) id (ArtistDoc d)
| venue_at id d :
    venues s !! id = Some d → documentAt s (docPath "venues" id) id (VenueDoc d)
| concert_at id d :
    concerts s !! id = Some d → documentAt s (docPath "concerts" id) id (ConcertDoc d)
| review_at id d :
    reviews s !! id = Some d → documentAt s (docPath "reviews" id) id (ReviewDoc d)
| like_at reviewId id d :
    children (likedBy s) reviewId !! id = Some d →
    documentAt s (docPath (docPath (docPath "reviews" reviewId) "likedBy") id) id (LikeDoc d)
| comment_at reviewId id d :
    children (comments s) reviewId !! id = Some d →
    documentAt s (docPath (docPath (docPath "reviews" reviewId) "comments") id) id
               (CommentDoc d)
| follow_at userId id d :
    children (following s) userId !! id = Some d →
    documentAt s (docPath (docPath (docPath "users" userId) "following") id) id
               (FollowDoc d).

(** The author attached to a comment is the document its [userRef] is the
    path of in [s], or nothing. *)
Definition authorOf (s : Store) (v : CommentView.t) : Prop :=
  match CommentView.user v with
  | Some (uid, d) => documentAt s (Comment.userRef (CommentView.data v)) uid d
  | None => True
  end.

(** Whether [currentUserId] follows [targetUserId] in the store. *)
Definition follows (s : Store) (currentUserId targetUserId : string) : bool :=
  bool_decide (is_Some (children (following s) currentUserId !! targetUserId)).

(** A feed item stems from a concert or a review in [s] whose author
    [viewer] follows, and carries its creation time. *)
Definition fromFollowed (s : Store) (viewer : string) (item : FeedItem.t) : Prop :=
  match FeedItem.type item with
  | concert_logged =>
      ∃ c u, concerts s !! FeedItem.concertId item = Some c
             ∧ Concert.userRef c = docPath "users" u
             ∧ follows s viewer u = true
             ∧ FeedItem.timestamp item = Concert.createdAt c
  | review_posted =>
      ∃ reviewId r u, FeedItem.reviewId item = Some reviewId
             ∧ reviews s !! reviewId = Some r
             ∧ Review.userRef r = docPath "users" u
             ∧ follows s viewer u = true
             ∧ FeedItem.timestamp item = Review.createdAt r
  end.

(** ** Screens

    A handler of a component reads the state of the render it was created
    in, the [snapshot], and queues updates; [UI S A] is a computation that
    also carries the component's state [S], which a rejection leaves as the
    updates made so far have it. *)

Record Alert := mkAlert { alertTitle : string; alertMessage : string }.

Definition UI (S A : Type) : Type := S → World → Promise A * S * World.

Definition ui_ret {S A} (a : A) : UI S A := λ st w, (Resolved a, st, w).

Definition ui_bind {S A B} (m : UI S A) (k : A → UI S B) : UI S B :=
  λ st w, match m st w with
          | (Resolved a, st', w') => k a st' w'
          | (Rejected e, st', w') => (Rejected e, st', w')
          | (Pending, st', w') => (Pending, st', w')
          end.

(** [try { m } catch (error) { h error }] *)
Definition ui_try {S A} (m : UI S A) (h : JsError → UI S A) : UI S A :=
  λ st w, match m st w with
          | (Rejected e, st', w') => h e st' w'
          | r => r
          end.

(** [try { m } finally { f }], for an [f] that neither throws nor awaits *)
Definition ui_finally {S A} (m : UI S A) (f : S → S) : UI S A :=
  λ st w, match m st w with
          | (Pending, st', w') => (Pending, st', w')
          | (r, st', w') => (r, f st', w')
          end.

(** [await m] *)
Definition await {S A} (m : M A) : UI S A :=
  λ st w, let '(r, w') := m w in (r, st, w').

(** A state setter, [setX(v)] or [setX(prev => f prev)] *)
Definition setState {S} (f : S → S) : UI S unit := λ st w, (Resolved tt, f st, w).

(** [useContext(AuthContext).user], by its uid *)
Definition useUser {S} : UI S (option string) :=
  λ st w, (Resolved (currentUser w), st, w).

Declare Scope ui_scope.
Delimit Scope ui_scope with ui.
Notation "x <- m ;; k" := (ui_bind m (λ x, k))
  (at level 100, m at next level, right associativity) : ui_scope.
Notation "m ;;; k" := (ui_bind m (λ _, k))
  (at level 100, right associativity) : ui_scope.

(** *** [screens/LogConcertScreen.tsx] *)

Module LogConcertScreen.

Record t := mk
  { artistName : string; venueName : string; date : Z; rating : Z; notes : string;
    loading : bool;
    artistError : string; venueError : string; ratingError : string; dateError : string;
    alerts : list Alert }.

Definition setLoading (b : bool) (st : t) : t :=
  mk (artistName st) (venueName st) (date st) (rating st) (notes st) b
     (artistError st) (venueError st) (ratingError st) (dateError st) (alerts st).
Definition setArtistError (e : string) (st : t) : t :=
  mk (artistName st) (venueName st) (date st) (rating st) (notes st) (loading st)
     e (venueError st) (ratingError st) (dateError st) (alerts st).
Definition setVenueError (e : string) (st : t) : t :=
  mk (artistName st) (venueName st) (date st) (rating st) (notes st) (loading st)
     (artistError st) e (ratingError st) (dateError st) (alerts st).
Definition setRatingError (e : string) (st : t) : t :=
  mk (artistName st) (venueName st) (date st) (rating st) (notes st) (loading st)
     (artistError st) (venueError st) e (dateError st) (alerts st).
Definition setDateError (e : string) (st : t) : t :=
  mk (artistName st) (venueName st) (date st) (rating st) (notes st) (loading st)
     (artistError st) (venueError st) (ratingError st) e (alerts st).
(** [Alert.alert(title, message)] *)
Definition alert (title message : string) (st : t) : t :=
  mk (artistName st) (venueName st) (date st) (rating st) (notes st) (loading st)
     (artistError st) (venueError st) (ratingError st) (dateError st)
     (alerts st ++ [mkAlert title message])%list.

(** [validateForm()], run at the time [now]: whether the form is valid,
    and the state with the four messages set or cleared. *)
Definition validateForm (snapshot : t) (now : Z) (st : t) : bool * t :=
  let isValid := true in
  let '(isValid, st) :=
    if negb (JsString.truthy (JsString.trim (artistName snapshot)))
    then (false, setArtistError "Artist name is required" st)
    else (isValid, setArtistError "" st) in
  let '(isValid, st) :=
    if negb (JsString.truthy (JsString.trim (venueName snapshot)))
    then (false, setVenueError "Venue name is required" st)
    else (isValid, setVenueError "" st) in
  let '(isValid, st) :=
    if rating snapshot =? 0
    then (false, setRatingError "Please select a rating" st)
    else (isValid, setRatingError "" st) in
  let '(isValid, st) :=
    if now <? date snapshot
    then (false, setDateError "Concert date cannot be in the future" st)
    else (isValid, setDateError "" st) in
  (isValid, st).

Definition handleSubmit (snapshot : t) : UI t unit :=
  (user <- useUser ;;
   match user with
   | None => setState (alert "Error" "You must be logged in to log a concert")
   | Some uid =>
       isValid <- (λ st w, let '(isValid, st') := validateForm snapshot (clock w) st in
                           (Resolved isValid, st', w)) ;;
       if negb isValid then ui_ret tt
       else
         setState (setLoading true) ;;;
         ui_finally
           (ui_try
              (await (logConcert uid (JsString.trim (artistName snapshot))
                        (JsString.trim (venueName snapshot)) (date snapshot)
                        (rating snapshot) (Some (JsString.trim (notes snapshot)))) ;;;
               setState (alert "🎉 Success!" "Your concert memory has been saved!"))
              (λ e, setState (alert "Failed to Log Concert"
                                (orElse (message e) "Please try again"))))
           (setLoading false)
   end)%ui.

End LogConcertScreen.

(** *** [screens/ConcertDetailScreen.tsx] *)

Module ReviewWithDetails.
(** A review as the screen holds it: the document, of which [likesCount]
    and [commentsCount] are overwritten by the handlers, and the details
    loaded with it.  The [uid] of the author is the id of the document
    found, which is also what [signUp] writes into the [uid] field of a
    user document. *)
Record t := mk
  { id : string; review : Review.t; user : option (string * Document); hasLiked : bool;
    comments : list CommentView.t; showComments : bool; newComment : string;
    isSubmittingComment : bool }.
End ReviewWithDetails.

Module ConcertDetailScreen.

Record t := mk
  { reviews : list ReviewWithDetails.t; submittingReview : bool; reviewText : string;
    usingFallbackQuery : bool; alerts : list Alert }.

Definition setReviews (f : list ReviewWithDetails.t → list ReviewWithDetails.t) (st : t) : t :=
  mk (f (reviews st)) (submittingReview st) (reviewText st) (usingFallbackQuery st)
     (alerts st).
Definition setSubmittingReview (b : bool) (st : t) : t :=
  mk (reviews st) b (reviewText st) (usingFallbackQuery st) (alerts st).
Definition setReviewText (s : string) (st : t) : t :=
  mk (reviews st) (submittingReview st) s (usingFallbackQuery st) (alerts st).
Definition setUsingFallbackQuery (b : bool) (st : t) : t :=
  mk (reviews st) (submittingReview st) (reviewText st) b (alerts st).
Definition alert (title message : string) (st : t) : t :=
  mk (reviews st) (submittingReview st) (reviewText st) (usingFallbackQuery st)
     (alerts st ++ [mkAlert title message])%list.

(** [prevReviews.map(review => review.id === reviewId ? f(review) : review)] *)
Definition updateReview (reviewId : string) (f : ReviewWithDetails.t → ReviewWithDetails.t)
    (prevReviews : list ReviewWithDetails.t) : list ReviewWithDetails.t :=
  map (λ review, if String.eqb (ReviewWithDetails.id review) reviewId
                 then f review else review) prevReviews.

Section Handlers.
(** [route.params.concertId] *)
Variable concertId : string.

(** One round of the loop of [loadReviews]; the [user] it looks up is the
    author of the review, and shadows the signed-in user. *)
Definition reviewWithDetails (review : string * Review.t) : M ReviewWithDetails.t :=
  user <- getUserByRef (Review.userRef review.2) ;;
  hasLiked <- match user with
              | Some (uid, _) => hasUserLikedReview review.1 uid
              | None => ret false
              end ;;
  ret (ReviewWithDetails.mk review.1 review.2 user hasLiked [] false "" false).

Definition loadReviews : UI t unit :=
  ui_try
    (setState (setUsingFallbackQuery false) ;;;
     result <- await (getConcertReviews concertId) ;;
     setState (setUsingFallbackQuery (usingFallback result)) ;;;
     reviewsWithDetails <- await (forEachAsync reviewWithDetails (reviewList result)) ;;
     setState (setReviews (λ _, reviewsWithDetails)))%ui
    (λ _, ui_ret tt).

Definition handleSubmitReview (snapshot : t) : UI t unit :=
  (user <- useUser ;;
   match user with
   | Some uid =>
       if JsString.truthy (JsString.trim (reviewText snapshot)) then
         setState (setSubmittingReview true) ;;;
         ui_finally
           (ui_try
              (await (submitReview concertId uid 0 (reviewText snapshot)) ;;;
               setState (setReviewText "") ;;;
               loadReviews ;;;
               setState (alert "Success" "Review submitted successfully!"))
              (λ e, setState (alert "Error"
                                (orElse (message e) "Failed to submit review"))))
           (setSubmittingReview false)
       else setState (alert "Error" "Please enter a review")
   | None => setState (alert "Error" "Please enter a review")
   end)%ui.

Definition handleLikeReview (reviewId : string) : UI t unit :=
  (user <- useUser ;;
   match user with
   | None => ui_ret tt
   | Some uid =>
       ui_try
         (result <- await (toggleReviewLike reviewId uid) ;;
          setState (setReviews (updateReview reviewId (λ review,
            ReviewWithDetails.mk (ReviewWithDetails.id review)
              (Review.with_likesCount (likesCount result) (ReviewWithDetails.review review))
              (ReviewWithDetails.user review)
              (match action result with liked => true | unliked => false end)
              (ReviewWithDetails.comments review) (ReviewWithDetails.showComments review)
              (ReviewWithDetails.newComment review)
              (ReviewWithDetails.isSubmittingComment review)))))
         (λ e, setState (alert "Error" (orElse (message e) "Failed to like review")))
   end)%ui.

Definition setSubmittingComment (b : bool) (review : ReviewWithDetails.t)
  : ReviewWithDetails.t :=
  ReviewWithDetails.mk (ReviewWithDetails.id review) (ReviewWithDetails.review review)
    (ReviewWithDetails.user review) (ReviewWithDetails.hasLiked review)
    (ReviewWithDetails.comments review) (ReviewWithDetails.showComments review)
    (ReviewWithDetails.newComment review) b.

Definition handleAddComment (reviewId commentText : string) : UI t unit :=
  (user <- useUser ;;
   match user with
   | None => ui_ret tt
   | Some uid =>
       if negb (JsString.truthy (JsString.trim commentText)) then ui_ret tt
       else
         setState (setReviews (updateReview reviewId (setSubmittingComment true))) ;;;
         ui_try
           (await (addCommentToReview reviewId uid commentText) ;;;
            updatedComments <- await (getReviewComments reviewId) ;;
            setState (setReviews (updateReview reviewId (λ review,
              ReviewWithDetails.mk (ReviewWithDetails.id review)
                (Review.with_commentsCount (Z.of_nat (length updatedComments))
                   (ReviewWithDetails.review review))
                (ReviewWithDetails.user review) (ReviewWithDetails.hasLiked review)
                updatedComments (ReviewWithDetails.showComments review) "" false))))
           (λ e, setState (alert "Error" (orElse (message e) "Failed to add comment")) ;;;
                 setState (setReviews (updateReview reviewId (setSubmittingComment false))))
   end)%ui.

End Handlers.

End ConcertDetailScreen.

(** The like flag of an entry, when set, is the like of the review's own
    author in [s]: of the document that the [userRef] of the review is the
    path of. *)
Definition flagsAuthorsLike (s : Store) (entry : ReviewWithDetails.t) : Prop :=
  ReviewWithDetails.hasLiked entry = true →
  ∃ uid d,
    ReviewWithDetails.user entry = Some (uid, d)
    ∧ documentAt s (Review.userRef (ReviewWithDetails.review entry)) uid d
    ∧ hasLiked s (ReviewWithDetails.id entry) uid = true.

(** Connected, with the analytics instance as [a0] describes it. *)
Definition quiet (a0 : option Analytics) (w : World) : Prop :=
  connectionState w = connected ∧ analytics w = a0.

(** ** Sample data *)

(** A connected world over the store [s], nobody signed in, no failure
    scheduled. *)
Definition onlineWorld (s : Store) : World := mkWorld s 0 [] connected [] None None.

Definition signedIn (uid : string) (w : World) : World :=
  mkWorld (store w) (clock w) (faults w) (connectionState w) (retryQueue w)
          (Some uid) (analytics w).

Definition unavailable : JsError := HttpsError "unavailable" "The service is unavailable".

(** U+00A0 (no-break space), U+2003 (em space) and U+3000 (ideographic
    space), in UTF-8. *)
Definition nbsp : string := JsString.utf8 [194; 160].
Definition emSpace : string := JsString.utf8 [226; 128; 131].
Definition ideographicSpace : string := JsString.utf8 [227; 128; 128].

(** ["nice!"] between white space of several kinds, and a comment that is
    white space throughout. *)
Definition paddedComment : string :=
  "  " +:+ nbsp +:+ "nice!" +:+ emSpace +:+ " " +:+ ideographicSpace.
Definition blankComment : string := nbsp +:+ emSpace.

Definition sampleConcert : Concert.t :=
  Concert.mk "artists/a1" "venues/v1" 1000 "users/u1" 5 "great show" 2000 2000 None None.

Definition sampleReview : Review.t :=
  Review.mk "concerts/c1" "users/u1" "loved it" 5 3000 3000 0 0.

(** Two users, one concert of [u1] and one review of it, not liked yet. *)
Definition sampleStore : Store :=
  mkStore {[ "u1" := User.mk "u1@example.com" "u1" 0;
             "u2" := User.mk "u2@example.com" "u2" 0 ]}
          ∅ ∅ {[ "c1" := sampleConcert ]} {[ "r1" := sampleReview ]} ∅ ∅ ∅.

(** A concert logged by the user [au1], whose id ends in the id of another
    user, [u1]. *)
Definition suffixOwnerStore : Store :=
  mkStore {[ "au1" := User.mk "au1@example.com" "au1" 1;
             "u1" := User.mk "u1@example.com" "u1" 0 ]}
          ∅ ∅
          {[ "c2" := Concert.mk "artists/a1" "venues/v1" 1000 (docPath "users" "au1") 5 ""
                                2000 2000 None None ]}
          ∅ ∅ ∅ ∅.

(** A store in which nothing was logged yet: the user [u1] and no artist,
    venue or concert. *)
Definition freshStore : Store :=
  mkStore {[ "u1" := User.mk "u1@example.com" "u1" 0 ]} ∅ ∅ ∅ ∅ ∅ ∅ ∅.

(** The schedule that lets the five calls up to the concert write through
    and fails the counter update once. *)
Definition counterUpdateFails : list (option JsError) :=
  [None; None; None; None; None; Some unavailable].

Definition withSchedule (fs : list (option JsError)) (w : World) : World :=
  with_faults fs w.

(** [sampleStore] in which [u2] follows [u1]. *)
Definition feedStore : Store :=
  set_following (insert "u2" {[ "u1" := Follow.mk 2500 ]}) sampleStore.

Definition permissionDenied : JsError :=
  HttpsError "permission-denied" "Missing or insufficient permissions".

(** [sampleStore] with a second, later review of the concert [c1]. *)
Definition laterReview : Review.t :=
  Review.mk "concerts/c1" "users/u2" "me too" 4 4000 4000 0 0.

Definition reviewsStore : Store := set_reviews (insert "r2" laterReview) sampleStore.

(** [reviewsStore] with a review of another concert. *)
Definition strayReview : Review.t :=
  Review.mk "concerts/c2" "users/u2" "elsewhere" 3 5000 5000 0 0.

Definition mixedReviewsStore : Store := set_reviews (insert "r3" strayReview) reviewsStore.

Definition indexBuilding : JsError :=
  HttpsError "failed-precondition"
    "The query requires an index. That index is currently building and cannot be used yet.".

(** [sampleStore] with a later concert of [u1] and a concert of [u2]. *)
Definition laterConcert : Concert.t :=
  Concert.mk "artists/a2" "venues/v1" 3000 "users/u1" 4 "" 3500 3500 None None.

Definition otherConcert : Concert.t :=
  Concert.mk "artists/a1" "venues/v2" 2000 "users/u2" 3 "" 2500 2500 None None.

Definition diaryStore : Store :=
  set_concerts (λ m, <["c2" := laterConcert]> (<["c3" := otherConcert]> m)) sampleStore.

(** [sampleStore] in which the review [r1] has two comments, the earlier
    one by a user whose document is gone. *)
Definition firstComment : Comment.t := Comment.mk "users/u9" "first" 4000.
Definition secondComment : Comment.t := Comment.mk "users/u2" "nice" 5000.

Definition commentedStore : Store :=
  set_comments (insert "r1" {[ "k1" := secondComment; "k2" := firstComment ]})
    (set_reviews (insert "r1" (Review.with_commentsCount 2 sampleReview)) sampleStore).

(** Artists and venues to search. *)
Definition catalogStore : Store :=
  mkStore ∅
    {[ "a1" := Artist.mk "The Who" 100; "a2" := Artist.mk "The Band" 200;
       "a3" := Artist.mk "Them" 300; "a4" := Artist.mk "Abba" 400 ]}
    {[ "v1" := Venue.mk "The Roxy" "Boston" "MA" "US" 100;
       "v2" := Venue.mk "Apollo" "Thebes" "Unknown" "Unknown" 200 ]}
    ∅ ∅ ∅ ∅ ∅.

(** [catalogStore] with the user [u1]. *)
Definition directoryStore : Store :=
  set_users (insert "u1" (User.mk "u1@example.com" "u1" 0)) catalogStore.

(** A world whose connection is down. *)
Definition offlineWorld (s : Store) : World := mkWorld s 0 [] disconnected [] None None.

(** The form of the logging screen, filled in, with a no-break space
    after the artist's name, and left blank, with an ideographic space for
    the artist's name. *)
Definition filledForm : LogConcertScreen.t :=
  LogConcertScreen.mk (" The Band" +:+ nbsp) "The Venue" 1000 5 " great show " false
                      "" "" "" "" [].

Definition blankForm : LogConcertScreen.t :=
  LogConcertScreen.mk ideographicSpace "" 9000 0 "" false "" "" "" "" [].

(** [sampleStore] in which [u2] likes the review [r1], which [u1] wrote. *)
Definition likedStore : Store :=
  set_likedBy (insert "r1" {[ "u2" := Like.mk 3500 ]})
    (set_reviews (insert "r1" (Review.with_likesCount 1 sampleReview)) sampleStore).

(** The screen of a concert before anything is loaded, and with a review
    typed in. *)
Definition emptyScreen : ConcertDetailScreen.t :=
  ConcertDetailScreen.mk [] false "" false [].

Definition typedScreen : ConcertDetailScreen.t :=
  ConcertDetailScreen.mk [] false (" fine" +:+ nbsp) false [].

(** ... and with white space typed in. *)
Definition blankScreen : ConcertDetailScreen.t :=
  ConcertDetailScreen.mk [] false blankComment false [].

(** [sampleStore] once [u1] and [u2] have liked the review [r1], one
    request after the other. *)
Definition likedByBoth : World :=
  serveLikes [mkLikeCall (LikeData.mk "r1" "u1") (mkContext (Some "u1"));
              mkLikeCall (LikeData.mk "r1" "u2") (mkContext (Some "u2"))]
             (onlineWorld sampleStore).

(** ... and once two unlike requests of [u1] have overlapped. *)
Definition unlikedTwice : World :=
  (overlappingLikes (LikeData.mk "r1" "u1") (LikeData.mk "r1" "u1") likedByBoth).2.

(** ** Verification *)

(** *** Strings *)

Lemma append_cons a (s t : string) : String a s +:+ t = String a (s +:+ t).
Proof. reflexivity. Qed.

Lemma lowerChar_idempotent_on_eq a b :
  Ascii.eqb a b = true → Ascii.eqb (JsString.lowerChar a) (JsString.lowerChar b) = true.
Proof.
  intros H. apply Ascii.eqb_eq in H. subst b. apply Ascii.eqb_refl.
Qed.

Lemma startsWith_toLowerCase s p :
  JsString.startsWith s p = true →
  JsString.startsWith (JsString.toLowerCase s) (JsString.toLowerCase p) = true.
Proof.
  revert s. induction p as [|a p IH]; intros s H; [now destruct s|].
  destruct s as [|b s]; [discriminate|]. simpl in *.
  destruct (Ascii.eqb a b) eqn:E; [|discriminate].
  rewrite (lowerChar_idempotent_on_eq _ _ E). auto.
Qed.

Lemma includes_toLowerCase s sub :
  JsString.includes s sub = true →
  JsString.includes (JsString.toLowerCase s) (JsString.toLowerCase sub) = true.
Proof.
  induction s as [|c s IH]; intros H.
  - destruct sub; [reflexivity | discriminate].
  - cbn [JsString.includes] in H. cbn [JsString.includes JsString.toLowerCase].
    destruct (JsString.startsWith (String c s) sub) eqn:E.
    + apply startsWith_toLowerCase in E. cbn [JsString.toLowerCase] in E. now rewrite E.
    + rewrite (IH H).
      match goal with |- (if ?b then _ else _) = _ => now destruct b end.
Qed.

Lemma includes_toLowerCase_fixed s sub :
  JsString.toLowerCase sub = sub →
  JsString.includes s sub = true →
  JsString.includes (JsString.toLowerCase s) sub = true.
Proof. intros Hsub H. rewrite <- Hsub. now apply includes_toLowerCase. Qed.

(** Whatever the description calls transient, the code retries. *)
Lemma transientAsDescribed_isNetworkError e :
  transientAsDescribed e = true → isNetworkError e = true.
Proof.
  unfold transientAsDescribed, isNetworkError, networkErrorCodes.
  cbn [existsb]. rewrite !orb_true_iff. intros H.
  repeat match type of H with
         | _ ∨ _ => destruct H as [H|H]
         end; try discriminate H;
    apply includes_toLowerCase_fixed in H; try reflexivity; tauto.
Qed.

Lemma endsWith_refl s : JsString.endsWith s s = true.
Proof. destruct s; cbn [JsString.endsWith]; now rewrite String.eqb_refl. Qed.

Lemma endsWith_app p s : JsString.endsWith (p +:+ s) s = true.
Proof.
  induction p as [|c p IH].
  - apply endsWith_refl.
  - change (String c p +:+ s) with (String c (p +:+ s)).
    cbn [JsString.endsWith]. rewrite IH.
    match goal with |- (if ?b then _ else _) = _ => now destruct b end.
Qed.

Lemma endsWith_spec s suf :
  JsString.endsWith s suf = true ↔ ∃ p, s = p +:+ suf.
Proof.
  split.
  - induction s as [|c s IH]; cbn [JsString.endsWith].
    + destruct (String.eqb "" suf) eqn:E; intros H; [|discriminate H].
      apply String.eqb_eq in E. subst. now exists "".
    + destruct (String.eqb (String c s) suf) eqn:E; intros H.
      * apply String.eqb_eq in E. subst. now exists "".
      * destruct (IH H) as [p ->]. now exists (String c p).
  - intros [p ->]. apply endsWith_app.
Qed.

(** *** White space *)

Lemma append_nil_l (s : string) : "" +:+ s = s.
Proof. reflexivity. Qed.

Lemma append_nil_r (s : string) : s +:+ "" = s.
Proof. induction s as [|a s IH]; [reflexivity|]. now rewrite append_cons, IH. Qed.

Lemma append_eq_nil (s t : string) : s +:+ t = "" → s = "" ∧ t = "".
Proof. destruct s; [rewrite append_nil_l; auto | discriminate]. Qed.

Lemma append_assoc (s t u : string) : (s +:+ t) +:+ u = s +:+ (t +:+ u).
Proof. induction s as [|a s IH]; [reflexivity|]. now rewrite !append_cons, IH. Qed.

Lemma append_length (s t : string) :
  String.length (s +:+ t) = (String.length s + String.length t)%nat.
Proof. induction s as [|a s IH]; [reflexivity|]. rewrite append_cons. cbn. now rewrite IH. Qed.

Lemma stripPrefix_Some p s rest : JsString.stripPrefix p s = Some rest ↔ s = p +:+ rest.
Proof.
  revert s. induction p as [|a p IH]; intros s.
  - cbn. split; [now intros [= ->] | now intros ->].
  - destruct s as [|b s]; [cbn; split; discriminate|].
    cbn [JsString.stripPrefix]. rewrite append_cons.
    destruct (Ascii.eqb a b) eqn:E.
    + apply Ascii.eqb_eq in E as ->. rewrite IH. split; [now intros -> | now intros [= ->]].
    + apply Ascii.eqb_neq in E. split; [discriminate | intros [= -> _]; now destruct E].
Qed.

Lemma whiteSpace_nonempty code : code ∈ JsString.whiteSpace → code ≠ "".
Proof.
  intros Hin ->. revert Hin. apply (proj1 (bool_decide_eq_true _)). vm_compute. reflexivity.
Qed.

Lemma afterWhitespace_Some s rest :
  JsString.afterWhitespace s = Some rest →
  ∃ code, code ∈ JsString.whiteSpace ∧ s = code +:+ rest.
Proof.
  unfold JsString.afterWhitespace. intros H.
  apply head_Some_elem_of in H. apply list_elem_of_omap in H as (code & Hin & Hs).
  exists code. split; [assumption|]. now apply stripPrefix_Some.
Qed.

Lemma afterWhitespace_None s code rest :
  JsString.afterWhitespace s = None → code ∈ JsString.whiteSpace → s ≠ code +:+ rest.
Proof.
  unfold JsString.afterWhitespace. intros H Hin Hs.
  apply head_None in H.
  assert (Hrest : rest ∈ omap (λ code, JsString.stripPrefix code s) JsString.whiteSpace).
  { apply list_elem_of_omap. exists code. split; [assumption|]. now apply stripPrefix_Some. }
  rewrite H in Hrest. now apply elem_of_nil in Hrest.
Qed.

Lemma Blank_app l r : Blank l → Blank r → Blank (l +:+ r).
Proof.
  induction 1 as [|code l Hcode Hl IH]; intros Hr; [exact Hr|].
  rewrite append_assoc. constructor; auto.
Qed.

Lemma Blank_code code : code ∈ JsString.whiteSpace → Blank code.
Proof. intros H. rewrite <- (append_nil_r code). constructor; [assumption | constructor]. Qed.

Lemma trimStart_from_spec rounds s :
  (String.length s ≤ rounds)%nat →
  ∃ l, Blank l ∧ s = l +:+ JsString.trimStart_from rounds s
       ∧ JsString.afterWhitespace (JsString.trimStart_from rounds s) = None.
Proof.
  revert s. induction rounds as [|rounds IH]; intros s Hlen.
  - destruct s; [|cbn in Hlen; lia]. exists "". split; [constructor|]. split; reflexivity.
  - cbn [JsString.trimStart_from].
    destruct (JsString.afterWhitespace s) as [rest|] eqn:Hs.
    + destruct (afterWhitespace_Some _ _ Hs) as (code & Hcode & ->).
      pose proof (whiteSpace_nonempty _ Hcode) as Hne.
      rewrite append_length in Hlen.
      destruct (IH rest) as (l & Hl & Hrest & Hnone).
      { destruct code; [now destruct Hne | cbn in Hlen; lia]. }
      exists (code +:+ l). split; [now constructor|]. split; [|assumption].
      rewrite append_assoc. now f_equal.
    + exists "". split; [constructor|]. split; [reflexivity | assumption].
Qed.

Lemma trimStart_spec s :
  ∃ l, Blank l ∧ s = l +:+ JsString.trimStart s
       ∧ ∀ code rest, code ∈ JsString.whiteSpace → JsString.trimStart s ≠ code +:+ rest.
Proof.
  destruct (trimStart_from_spec (String.length s) s) as (l & Hl & Hs & Hnone); [lia|].
  exists l. split; [assumption|]. split; [assumption|].
  intros code rest Hcode. now apply afterWhitespace_None.
Qed.

Lemma isWhitespace_spec s : JsString.isWhitespace s = true ↔ s ∈ JsString.whiteSpace.
Proof. unfold JsString.isWhitespace. apply bool_decide_eq_true. Qed.

Lemma append_eq_cons (r code : string) c t :
  String c t = r +:+ code → (r = "" ∧ code = String c t) ∨ ∃ r', r = String c r' ∧ t = r' +:+ code.
Proof.
  destruct r as [|a r]; [rewrite append_nil_l; intros <-; auto|].
  rewrite append_cons. intros [= <- ->]. eauto.
Qed.

Lemma trimEnd_spec s :
  ∃ r, Blank r ∧ s = JsString.trimEnd s +:+ r
       ∧ ∀ code rest, code ∈ JsString.whiteSpace → JsString.trimEnd s ≠ rest +:+ code.
Proof.
  induction s as [|c s (r & Hr & Hs & Hend)].
  - exists "". split; [constructor|]. split; [reflexivity|].
    intros code rest Hcode H. symmetry in H. apply append_eq_nil in H as [_ ->].
    now apply whiteSpace_nonempty in Hcode.
  - cbn [JsString.trimEnd]. cbv zeta.
    destruct (JsString.isWhitespace (String c (JsString.trimEnd s))) eqn:Hw.
    + apply isWhitespace_spec in Hw. exists (String c (JsString.trimEnd s) +:+ r).
      split; [now constructor|]. split; [now rewrite append_nil_l, append_cons, <- Hs|].
      intros code rest Hcode H. symmetry in H. apply append_eq_nil in H as [_ ->].
      now apply whiteSpace_nonempty in Hcode.
    + exists r. split; [assumption|]. split; [now rewrite append_cons, <- Hs|].
      intros code rest Hcode H. apply append_eq_cons in H as [[_ ->] | (r' & -> & H)].
      * apply isWhitespace_spec in Hcode. congruence.
      * now apply (Hend code r').
Qed.

(** [trim] takes the white space off both ends, and nothing else. *)
Lemma trim_spec s : trimmedOf s (JsString.trim s).
Proof.
  unfold JsString.trim.
  destruct (trimStart_spec s) as (l & Hl & Hs & Hstart).
  destruct (trimEnd_spec (JsString.trimStart s)) as (r & Hr & Ht & Hend).
  split; [|split].
  - exists l, r. split; [assumption|]. split; [assumption|]. now rewrite <- Ht.
  - intros code rest Hcode H. apply (Hstart code (rest +:+ r) Hcode).
    rewrite Ht at 1. rewrite H. apply append_assoc.
  - exact Hend.
Qed.


Lemma afterWhitespace_code code s :
  code ∈ JsString.whiteSpace → JsString.afterWhitespace (code +:+ s) = Some s.
Proof.
  intros H. unfold JsString.whiteSpace in H.
  repeat (apply elem_of_cons in H as [->|H]; [vm_compute; reflexivity|]).
  now apply elem_of_nil in H.
Qed.

Lemma Blank_trimStart s : Blank s → JsString.trimStart s = "".
Proof.
  unfold JsString.trimStart. generalize (Nat.le_refl (String.length s)).
  generalize (String.length s) at 2 3 as rounds.
  intros rounds Hlen Hs. revert rounds Hlen.
  induction Hs as [|code s Hcode Hs IH]; intros rounds Hlen.
  - now destruct rounds.
  - pose proof (whiteSpace_nonempty _ Hcode) as Hne. rewrite append_length in Hlen.
    destruct rounds as [|rounds]; [destruct code; [now destruct Hne | cbn in Hlen; lia]|].
    cbn [JsString.trimStart_from]. rewrite afterWhitespace_code by assumption.
    apply IH. destruct code; [now destruct Hne | cbn in Hlen; lia].
Qed.

(** [trim] leaves nothing exactly of the strings that are white space
    throughout. *)
Lemma trim_blank s : JsString.trim s = "" ↔ Blank s.
Proof.
  split.
  - intros H. destruct (trim_spec s) as [(l & r & Hl & Hr & Hs) _].
    rewrite H, append_nil_l in Hs. subst s. now apply Blank_app.
  - intros H. unfold JsString.trim. now rewrite Blank_trimStart.
Qed.

Lemma not_Blank s : JsString.trim s ≠ "" → ¬ Blank s.
Proof. now rewrite trim_blank. Qed.

Lemma blankComment_Blank : Blank blankComment.
Proof.
  unfold blankComment. constructor; [now apply isWhitespace_spec|].
  apply Blank_code. now apply isWhitespace_spec.
Qed.

(** *** The retry policy *)

Lemma maxRetries_rounds : Z.to_nat maxRetries = 3%nat.
Proof. reflexivity. Qed.

Section RetrySteps.
Context {T : Type} (operation : M T) (operationName : string).

Lemma retryLoop_not_connected rounds attempt lastError w :
  connectionState w ≠ connected →
  retryLoop (S rounds) attempt operation operationName lastError w
  = (Pending, with_retryQueue (retryQueue w ++ [operationName])%list w,
     [Queued operationName]).
Proof. intros H. cbn [retryLoop]. now rewrite (decide_False _ _ H). Qed.

Lemma retryLoop_resolved rounds attempt lastError w result w1 :
  connectionState w = connected →
  operation w = (Resolved result, w1) →
  retryLoop (S rounds) attempt operation operationName lastError w
  = (Resolved result, w1, [Invoked attempt]).
Proof. intros H Hop. cbn [retryLoop]. now rewrite (decide_True _ _ H), Hop. Qed.

Lemma retryLoop_pending rounds attempt lastError w w1 :
  connectionState w = connected →
  operation w = (Pending, w1) →
  retryLoop (S rounds) attempt operation operationName lastError w
  = (Pending, w1, [Invoked attempt]).
Proof. intros H Hop. cbn [retryLoop]. now rewrite (decide_True _ _ H), Hop. Qed.

Lemma retryLoop_fatal rounds attempt lastError w e w1 :
  connectionState w = connected →
  operation w = (Rejected e, w1) →
  isNetworkError e = false →
  retryLoop (S rounds) attempt operation operationName lastError w
  = (Rejected e, w1, [Invoked attempt]).
Proof.
  intros H Hop He. cbn [retryLoop]. now rewrite (decide_True _ _ H), Hop, He.
Qed.

Lemma retryLoop_retry rounds attempt lastError w e w1 :
  connectionState w = connected →
  operation w = (Rejected e, w1) →
  isNetworkError e = true →
  attempt < maxRetries →
  retryLoop (S rounds) attempt operation operationName lastError w
  = let '(r, w3, evs) :=
      retryLoop rounds (attempt + 1) operation operationName e
                (delay (retryDelay * attempt) w1).2 in
    (r, w3, Invoked attempt :: Waited (retryDelay * attempt) :: evs).
Proof.
  intros H Hop He Hlt. cbn [retryLoop].
  rewrite (decide_True _ _ H), Hop, He.
  now rewrite (proj2 (Z.ltb_lt _ _) Hlt).
Qed.

Lemma retryLoop_last rounds attempt lastError w e w1 :
  connectionState w = connected →
  operation w = (Rejected e, w1) →
  isNetworkError e = true →
  maxRetries ≤ attempt →
  retryLoop (S rounds) attempt operation operationName lastError w
  = let '(r, w3, evs) :=
      retryLoop rounds (attempt + 1) operation operationName e w1 in
    (r, w3, Invoked attempt :: evs).
Proof.
  intros H Hop He Hge. cbn [retryLoop].
  rewrite (decide_True _ _ H), Hop, He.
  now rewrite (proj2 (Z.ltb_ge _ _) Hge).
Qed.
End RetrySteps.

(** C4. While connected, an operation that always fails with a transient
    error is invoked exactly three times, with waits of [retryDelay * 1] and
    [retryDelay * 2] between the attempts, and the error of the third attempt
    is the one thrown; an operation whose first failure is not transient is
    invoked once and that error is thrown at once.  An error counts as
    transient by [isNetworkError], which holds of every error the
    description names. *)
Theorem executeWithRetry_retry_bound {T} (operation : M T) (operationName : string)
    (w : World) (Hconnected : connectionState w = connected) :
  (alwaysTransient operation →
     ∃ e1 w1 e2 w2 e3 w3 evs,
       operation w = (Rejected e1, w1)
       ∧ operation (delay (retryDelay * 1) w1).2 = (Rejected e2, w2)
       ∧ operation (delay (retryDelay * 2) w2).2 = (Rejected e3, w3)
       ∧ executeWithRetry_events operation operationName w = (Rejected e3, w3, evs)
       ∧ evs = [Invoked 1; Waited (retryDelay * 1); Invoked 2; Waited (retryDelay * 2);
                Invoked 3]
       ∧ invocations evs = 3%nat
       ∧ executeWithRetry operation operationName w = (Rejected e3, w3))
  ∧ (∀ e w1, operation w = (Rejected e, w1) → isNetworkError e = false →
       executeWithRetry_events operation operationName w = (Rejected e, w1, [Invoked 1])
       ∧ invocations [Invoked 1] = 1%nat
       ∧ executeWithRetry operation operationName w = (Rejected e, w1))
  ∧ (∀ e, transientAsDescribed e = true → isNetworkError e = true).
Proof.
  split; [|split; [|exact transientAsDescribed_isNetworkError]].
  - intros Hop.
    destruct (Hop w Hconnected) as (e1 & w1 & H1 & N1 & C1).
    assert (C1' : connectionState (delay (retryDelay * 1) w1).2 = connected) by exact C1.
    destruct (Hop _ C1') as (e2 & w2 & H2 & N2 & C2).
    assert (C2' : connectionState (delay (retryDelay * 2) w2).2 = connected) by exact C2.
    destruct (Hop _ C2') as (e3 & w3 & H3 & N3 & C3).
    assert (Hrun : executeWithRetry_events operation operationName w
                   = (Rejected e3, w3,
                      [Invoked 1; Waited (retryDelay * 1); Invoked 2;
                       Waited (retryDelay * 2); Invoked 3])).
    { unfold executeWithRetry_events. rewrite maxRetries_rounds.
      rewrite (retryLoop_retry _ _ _ _ _ _ _ _ Hconnected H1 N1) by reflexivity.
      change (1 + 1) with 2.
      rewrite (retryLoop_retry _ _ _ _ _ _ _ _ C1' H2 N2) by reflexivity.
      change (2 + 1) with 3.
      rewrite (retryLoop_last _ _ _ _ _ _ _ _ C2' H3 N3) by reflexivity.
      reflexivity. }
    exists e1, w1, e2, w2, e3, w3.
    eexists. repeat split; try eassumption; try reflexivity.
    unfold executeWithRetry. now rewrite Hrun.
  - intros e w1 H1 N1.
    unfold executeWithRetry, executeWithRetry_events. rewrite maxRetries_rounds.
    rewrite (retryLoop_fatal _ _ _ _ _ _ _ _ Hconnected H1 N1). auto.
Qed.

Lemma executeWithRetry_retry_bound_witness :
  connectionState (onlineWorld emptyStore) = connected
  ∧ (∃ w', executeWithRetry (throw unavailable : M unit) "sample" (onlineWorld emptyStore)
           = (Rejected unavailable, w') ∧ clock w' = 3000)
  ∧ executeWithRetry (throw (Error_new "Concert not found") : M unit) "sample"
      (onlineWorld emptyStore)
    = (Rejected (Error_new "Concert not found"), onlineWorld emptyStore).
Proof.
  split; [reflexivity|]. split.
  - destruct (executeWithRetry_retry_bound (throw unavailable : M unit) "sample"
                (onlineWorld emptyStore) eq_refl) as (Htransient & _ & _).
    destruct Htransient as (e1 & w1 & e2 & w2 & e3 & w3 & evs & H1 & H2 & H3 & _ & _ & _ & Hrun).
    { intros w Hw. exists unavailable, w.
      split; [reflexivity|]. split; [reflexivity | exact Hw]. }
    exists w3. rewrite Hrun.
    injection H1 as <- <-. injection H2 as <- <-. injection H3 as <- <-.
    split; reflexivity.
  - destruct (executeWithRetry_retry_bound (throw (Error_new "Concert not found") : M unit)
                "sample" (onlineWorld emptyStore) eq_refl) as (_ & Hfatal & _).
    destruct (Hfatal _ _ eq_refl eq_refl) as (_ & _ & Hrun). exact Hrun.
Defined.

(** *** The backend *)

Lemma orZero_Some n : orZero (Some n) = n.
Proof. unfold orZero. destruct (Z.eqb_spec n 0); congruence. Qed.

Lemma children_insert_eq {D} (sub : gmap string (gmap string D)) parent docs :
  children (<[parent := docs]> sub) parent = docs.
Proof. unfold children. now rewrite lookup_insert_eq. Qed.

Lemma children_insert_ne {D} (sub : gmap string (gmap string D)) parent other docs :
  parent ≠ other → children (<[parent := docs]> sub) other = children sub other.
Proof. intros H. unfold children. now rewrite lookup_insert_ne. Qed.

(** A backend call either fails as scheduled, leaving the store alone, or
    runs its action on the store. *)
Lemma backend_cases {A} (act : Store → Promise A * Store) (w : World) :
  (∃ e, head (faults w) = Some (Some e)
        ∧ backend act w = (Rejected e, with_faults (tail (faults w)) w))
  ∨ (backend act w
     = ((act (store w)).1,
        with_store (λ _, (act (store w)).2) (with_faults (tail (faults w)) w))).
Proof.
  unfold backend. destruct (head (faults w)) as [[e|]|].
  - left. eauto.
  - right. cbn. now destruct (act (store w)).
  - right. cbn. now destruct (act (store w)).
Qed.

(** *** Comments *)


(** C8. [addCommentToReview] rejects a comment that is empty or white
    space throughout, and a caller who is not [userId], without touching
    the world; a call that is rejected for any reason leaves the store as it
    was; a call that succeeds has added one comment under a fresh id,
    holding the text without the white space at its two ends, has raised
    [commentsCount] by one, and has changed nothing else. *)
Theorem addCommentToReview_contract (reviewId userId commentText : string) (w : World) :
  let r := (addCommentToReview reviewId userId commentText w).1 in
  let w' := (addCommentToReview reviewId userId commentText w).2 in
  (Blank commentText → (∃ e, r = Rejected e) ∧ w' = w)
  ∧ (currentUser w ≠ Some userId → (∃ e, r = Rejected e) ∧ w' = w)
  ∧ (∀ e, r = Rejected e → store w' = store w)
  ∧ (∀ res, r = Resolved res →
       ∃ review commentId text,
         reviews (store w) !! reviewId = Some review
         ∧ children (comments (store w)) reviewId !! commentId = None
         ∧ trimmedOf commentText text ∧ text ≠ "" ∧ text = JsString.trim commentText
         ∧ children (comments (store w')) reviewId
           = <[commentId := Comment.mk (docPath "users" userId) text (clock w)]>
               (children (comments (store w)) reviewId)
         ∧ size (children (comments (store w')) reviewId)
           = S (size (children (comments (store w)) reviewId))
         ∧ reviews (store w')
           = <[reviewId := Review.with_commentsCount (Review.commentsCount review + 1)
                             review]> (reviews (store w))
         ∧ (∀ other, other ≠ reviewId →
              children (comments (store w')) other = children (comments (store w)) other)
         ∧ users (store w') = users (store w)
         ∧ artists (store w') = artists (store w)
         ∧ venues (store w') = venues (store w)
         ∧ concerts (store w') = concerts (store w)
         ∧ likedBy (store w') = likedBy (store w)
         ∧ following (store w') = following (store w)).
Proof.
  cbv zeta.
  unfold addCommentToReview, httpsCallable, try_catch, addComment. cbn [auth].
  destruct (currentUser w) as [uid|] eqn:Huser.
  2:{ cbn. repeat split; eauto; try discriminate. }
  cbn [CommentData.reviewId CommentData.userId CommentData.commentText].
  destruct (negb (JsString.truthy reviewId) || negb (JsString.truthy userId)
            || negb (JsString.truthy commentText)
            || (String.length (JsString.trim commentText) =? 0)%nat) eqn:Hargs.
  { cbn. repeat split; eauto; try discriminate. }
  assert (Htext : JsString.trim commentText ≠ "").
  { intros E. rewrite E in Hargs. cbn in Hargs. now rewrite orb_true_r in Hargs. }
  assert (Hblank : ¬ Blank commentText) by (now rewrite <- trim_blank).
  destruct (String.eqb userId uid) eqn:Hsame; cbn [negb].
  2:{ cbn. split; [intros Hb; now destruct Hblank|].
      repeat split; eauto; try discriminate. }
  apply String.eqb_eq in Hsame. subst uid.
  split; [intros Hb; now destruct Hblank|].
  split; [intros Hother; now destruct Hother|].
  unfold try_catch, bind, Timestamp_now, runTransaction.
  destruct (backend_cases
              (λ s, match addCommentTransaction reviewId userId commentText (clock w) s with
                    | (Resolved a, s') => (Resolved a, s')
                    | (Rejected e, _) => (Rejected e, s)
                    | (Pending, _) => (Pending, s) end) w)
    as [(e & _ & ->) | ->].
  { cbn. split; [reflexivity | discriminate]. }
  unfold addCommentTransaction.
  destruct (reviews (store w) !! reviewId) as [review|] eqn:Hreview.
  2:{ cbn. split; [reflexivity | discriminate]. }
  rewrite orZero_Some. cbn.
  split; [discriminate|].
  intros res _.
  exists review, (fresh (dom (children (comments (store w)) reviewId))),
         (JsString.trim commentText).
  assert (Hfresh : children (comments (store w)) reviewId
                     !! fresh (dom (children (comments (store w)) reviewId)) = None).
  { apply not_elem_of_dom, is_fresh. }
  split; [reflexivity|]. split; [assumption|]. split; [apply trim_spec|].
  split; [assumption|]. split; [reflexivity|].
  split; [apply children_insert_eq|].
  split; [rewrite children_insert_eq; now apply map_size_insert_None|].
  split; [reflexivity|].
  split; [intros other Hother; now apply children_insert_ne|].
  repeat split.
Qed.

Lemma addCommentToReview_contract_witness :
  let w := signedIn "u2" (onlineWorld sampleStore) in
  ∃ w1, addCommentToReview "r1" "u2" paddedComment w = (Resolved (mkCommentResult true), w1)
        ∧ size (children (comments (store w)) "r1") = 0%nat
        ∧ map_to_list (children (comments (store w1)) "r1")
          = [("0", Comment.mk "users/u2" "nice!" 0)]
        ∧ Review.commentsCount <$> reviews (store w1) !! "r1" = Some 1
        ∧ (∃ e, (addCommentToReview "r1" "u2" "" w1).1 = Rejected e)
        ∧ (addCommentToReview "r1" "u2" "" w1).2 = w1
        ∧ (∃ e, (addCommentToReview "r1" "u2" blankComment w1).1 = Rejected e)
        ∧ (addCommentToReview "r1" "u2" blankComment w1).2 = w1.
Proof.
  intros w.
  destruct (addCommentToReview_contract "r1" "u2" paddedComment w) as (_ & _ & _ & Hok).
  destruct (Hok (mkCommentResult true) eq_refl)
    as (review & commentId & text & Hreview & _ & _ & _ & Htext & Hcomments & _ & Hreviews & _).
  exists (addCommentToReview "r1" "u2" paddedComment w).2.
  split; [reflexivity|]. split; [reflexivity|].
  split; [vm_compute; reflexivity|].
  split.
  { rewrite Hreviews, lookup_insert_eq.
    vm_compute in Hreview. injection Hreview as <-. reflexivity. }
  destruct (addCommentToReview_contract "r1" "u2" ""
              (addCommentToReview "r1" "u2" paddedComment w).2) as (Hempty & _).
  destruct (Hempty Blank_nil) as [Hrejected Hsame].
  split; [assumption|]. split; [assumption|].
  destruct (addCommentToReview_contract "r1" "u2" blankComment
              (addCommentToReview "r1" "u2" paddedComment w).2) as (Hblank & _).
  apply Hblank, blankComment_Blank.
Defined.

(** *** Likes *)

Ltac backend_step :=
  match goal with
  | |- context [backend ?act ?w] =>
      let e := fresh "e" in
      destruct (backend_cases act w) as [(e & _ & ->) | ->]
  end.

(** What one call to [likeReview] does to the store: nothing, in which
    case it does not resolve; or, for a verified caller and an existing
    review, exactly what the transaction of the branch chosen by the
    membership read does. *)
Lemma likeReview_effect (data : LikeData.t) (context : CallableContext) (w : World) :
  let reviewId := LikeData.reviewId data in
  let userId := LikeData.userId data in
  let r := (likeReview data context w).1 in
  let w' := (likeReview data context w).2 in
  (store w' = store w ∧ ∀ res, r ≠ Resolved res)
  ∨ (auth context = Some userId
     ∧ is_Some (reviews (store w) !! reviewId)
     ∧ ((hasLiked (store w) reviewId userId = true
         ∧ store w' = (unlikeTransaction reviewId userId (store w)).2
         ∧ ∀ res, r = Resolved res → action res = unliked)
        ∨ (hasLiked (store w) reviewId userId = false
           ∧ store w' = (likeTransaction reviewId userId (clock w) (store w)).2
           ∧ ∀ res, r = Resolved res → action res = liked))).
Proof.
  cbv zeta. unfold likeReview, likeReview_checks.
  destruct (auth context) as [uid|]; [|left; split; [reflexivity | discriminate]].
  destruct (negb (JsString.truthy (LikeData.reviewId data))
            || negb (JsString.truthy (LikeData.userId data)));
    [left; split; [reflexivity | discriminate]|].
  destruct (String.eqb (LikeData.userId data) uid) eqn:Hsame; cbn [negb];
    [|left; split; [reflexivity | discriminate]].
  apply String.eqb_eq in Hsame. subst uid.
  unfold bind at 1. unfold ret at 1.
  unfold try_catch, likeReview_read, likeReview_write, getLikesCount, getDoc,
    runTransaction, Timestamp_now, bind, ret, throw.
  backend_step; [left; split; [reflexivity | discriminate]|].
  cbn [fst snd].
  unfold hasLiked.
  destruct (bool_decide (is_Some (children (likedBy (store w)) (LikeData.reviewId data)
                                    !! LikeData.userId data))) eqn:Hmember.
  - backend_step; [left; split; [reflexivity | discriminate]|].
    cbn [fst snd store with_store with_faults].
    unfold unlikeTransaction.
    destruct (reviews (store w) !! LikeData.reviewId data) as [review|] eqn:Hreview;
      [|left; cbn; split; [reflexivity | discriminate]].
    cbn [fst snd].
    backend_step; cbn [fst snd store with_store with_faults]; right;
      (split; [reflexivity|]); (split; [eauto|]); left;
      (split; [reflexivity|]);
      (split; [reflexivity|]); intros res Hres; inversion Hres; reflexivity.
  - backend_step; [left; split; [reflexivity | discriminate]|].
    cbn [fst snd store with_store with_faults clock].
    unfold likeTransaction.
    destruct (reviews (store w) !! LikeData.reviewId data) as [review|] eqn:Hreview;
      [|left; cbn; split; [reflexivity | discriminate]].
    cbn [fst snd].
    backend_step; cbn [fst snd store with_store with_faults]; right;
      (split; [reflexivity|]); (split; [eauto|]); right;
      (split; [reflexivity|]);
      (split; [reflexivity|]); intros res Hres; inversion Hres; reflexivity.
Qed.

Lemma with_likesCount_same r : Review.with_likesCount (Review.likesCount r) r = r.
Proof. now destruct r. Qed.

Lemma hasLiked_true s reviewId userId :
  hasLiked s reviewId userId = true ↔ is_Some (children (likedBy s) reviewId !! userId).
Proof. unfold hasLiked. apply bool_decide_eq_true. Qed.

Lemma hasLiked_false s reviewId userId :
  hasLiked s reviewId userId = false ↔ children (likedBy s) reviewId !! userId = None.
Proof.
  unfold hasLiked. rewrite bool_decide_eq_false, <- eq_None_not_Some. reflexivity.
Qed.

(** What the two transactions write. *)
Lemma unlikeTransaction_writes s reviewId userId review :
  reviews s !! reviewId = Some review →
  (unlikeTransaction reviewId userId s).2
  = set_likedBy (insert reviewId (delete userId (children (likedBy s) reviewId)))
      (set_reviews
         (insert reviewId
            (Review.with_likesCount (Z.max 0 (Review.likesCount review - 1)) review)) s).
Proof. intros H. unfold unlikeTransaction. now rewrite H, orZero_Some. Qed.

Lemma likeTransaction_writes s reviewId userId now review :
  reviews s !! reviewId = Some review →
  (likeTransaction reviewId userId now s).2
  = set_likedBy (insert reviewId (<[userId := Like.mk now]> (children (likedBy s) reviewId)))
      (set_reviews
         (insert reviewId (Review.with_likesCount (Review.likesCount review + 1) review)) s).
Proof. intros H. unfold likeTransaction. now rewrite H, orZero_Some. Qed.

Lemma likeRecords_member s reviewId userId :
  hasLiked s reviewId userId = true → 1 ≤ likeRecords s reviewId.
Proof.
  intros H. apply hasLiked_true in H. apply map_size_ne_0_lookup_2 in H.
  unfold likeRecords. lia.
Qed.

Lemma unlikeTransaction_consistent s reviewId userId :
  likesConsistent s →
  is_Some (reviews s !! reviewId) →
  hasLiked s reviewId userId = true →
  likesConsistent (unlikeTransaction reviewId userId s).2.
Proof.
  intros Hs [review Hreview] Hliked.
  rewrite (unlikeTransaction_writes _ _ _ _ Hreview).
  intros other r. unfold likeRecords. cbn [reviews likedBy set_likedBy set_reviews].
  destruct (decide (reviewId = other)) as [<-|Hne].
  - rewrite lookup_insert_eq, children_insert_eq. intros [= <-]. cbn.
    pose proof (likeRecords_member _ _ _ Hliked) as Hone.
    pose proof (Hs _ _ Hreview) as Hcount. unfold likeRecords in *.
    rewrite map_size_delete_Some by now apply hasLiked_true. lia.
  - rewrite lookup_insert_ne, children_insert_ne by assumption. apply Hs.
Qed.

Lemma likeTransaction_consistent s reviewId userId now :
  likesConsistent s →
  is_Some (reviews s !! reviewId) →
  hasLiked s reviewId userId = false →
  likesConsistent (likeTransaction reviewId userId now s).2.
Proof.
  intros Hs [review Hreview] Hliked.
  rewrite (likeTransaction_writes _ _ _ _ _ Hreview).
  intros other r. unfold likeRecords. cbn [reviews likedBy set_likedBy set_reviews].
  destruct (decide (reviewId = other)) as [<-|Hne].
  - rewrite lookup_insert_eq, children_insert_eq. intros [= <-]. cbn.
    pose proof (Hs _ _ Hreview) as Hcount. unfold likeRecords in *.
    rewrite map_size_insert_None by now apply hasLiked_false. lia.
  - rewrite lookup_insert_ne, children_insert_ne by assumption. apply Hs.
Qed.

(** Served one at a time, like requests keep every counter equal to the
    number of Like records, whoever calls and whatever fails. *)
Lemma likeReview_likesConsistent data context w :
  likesConsistent (store w) → likesConsistent (store (likeReview data context w).2).
Proof.
  intros Hs.
  destruct (likeReview_effect data context w)
    as [[-> _] | (_ & Hreview & [(Hliked & -> & _) | (Hliked & -> & _)])].
  - exact Hs.
  - now apply unlikeTransaction_consistent.
  - now apply likeTransaction_consistent.
Qed.

Lemma serveLikes_likesConsistent calls w :
  likesConsistent (store w) → likesConsistent (store (serveLikes calls w)).
Proof.
  revert w. induction calls as [|c calls IH]; intros w Hs; [exact Hs|].
  cbn [serveLikes]. apply IH. now apply likeReview_likesConsistent.
Qed.

(** C1. The membership read of [likeReview] is not part of its
    transaction.  Two requests of the same user that overlap both read "not
    liked"; each then runs the "like" transaction, and the review ends with
    [likesCount = 2] and a single Like record, from a store in which the
    counter was right. *)
Theorem overlapping_likes_desynchronise :
  let data := LikeData.mk "r1" "u1" in
  let w := signedIn "u1" (onlineWorld sampleStore) in
  let run := overlappingLikes data data w in
  likesConsistent (store w)
  ∧ run.1 = Resolved (mkLikeResult liked 1, mkLikeResult liked 2)
  ∧ likesCounter (store run.2) "r1" = 2
  ∧ likeRecords (store run.2) "r1" = 1
  ∧ ¬ likesConsistent (store run.2).
Proof.
  cbv zeta.
  assert (H2 : likesCounter
                 (store (overlappingLikes (LikeData.mk "r1" "u1") (LikeData.mk "r1" "u1")
                           (signedIn "u1" (onlineWorld sampleStore))).2) "r1" = 2)
    by (vm_compute; reflexivity).
  assert (H1 : likeRecords
                 (store (overlappingLikes (LikeData.mk "r1" "u1") (LikeData.mk "r1" "u1")
                           (signedIn "u1" (onlineWorld sampleStore))).2) "r1" = 1)
    by (vm_compute; reflexivity).
  split; [|split; [|split; [|split]]].
  - intros reviewId r Hr. cbn in Hr.
    destruct (decide (reviewId = "r1")) as [->|Hne].
    + rewrite lookup_singleton_eq in Hr. injection Hr as <-. reflexivity.
    + rewrite lookup_singleton_ne in Hr by congruence. discriminate.
  - vm_compute. reflexivity.
  - exact H2.
  - exact H1.
  - intros Hbad.
    assert (Hr : ∃ r, reviews (store (overlappingLikes (LikeData.mk "r1" "u1")
                                         (LikeData.mk "r1" "u1")
                                         (signedIn "u1" (onlineWorld sampleStore))).2)
                         !! "r1" = Some r ∧ Review.likesCount r = 2).
    { eexists. split; [vm_compute; reflexivity | reflexivity]. }
    destruct Hr as (r & Hr & Hcount).
    specialize (Hbad _ _ Hr). rewrite H1 in Hbad. lia.
Qed.

Lemma toggleReviewLike_likeReview reviewId userId w :
  toggleReviewLike reviewId userId w
  = likeReview (LikeData.mk reviewId userId) (mkContext (currentUser w)) w.
Proof.
  unfold toggleReviewLike, try_catch, httpsCallable, throw.
  now destruct (likeReview _ _ w) as [[?|?|] ?].
Qed.

(** A toggle that resolves has run the transaction that the membership it
    found calls for. *)
Lemma toggleReviewLike_resolved reviewId userId w res w' :
  toggleReviewLike reviewId userId w = (Resolved res, w') →
  ∃ review, reviews (store w) !! reviewId = Some review
    ∧ ((hasLiked (store w) reviewId userId = true
        ∧ store w' = (unlikeTransaction reviewId userId (store w)).2)
       ∨ (hasLiked (store w) reviewId userId = false
          ∧ store w' = (likeTransaction reviewId userId (clock w) (store w)).2)).
Proof.
  rewrite toggleReviewLike_likeReview. intros Hrun.
  pose proof (likeReview_effect (LikeData.mk reviewId userId)
                (mkContext (currentUser w)) w) as Heffect.
  cbv zeta in Heffect. rewrite Hrun in Heffect. cbn [fst snd LikeData.reviewId
    LikeData.userId] in Heffect.
  destruct Heffect as [[_ Hnot] | (_ & [review Hreview] & Hbranch)].
  - now destruct (Hnot res).
  - exists review. split; [assumption|].
    destruct Hbranch as [(? & ? & _) | (? & ? & _)]; auto.
Qed.

(** Unlike then like, and like then unlike, at the level of the store. *)
Lemma like_after_unlike s reviewId userId now review :
  reviews s !! reviewId = Some review →
  1 ≤ Review.likesCount review →
  hasLiked s reviewId userId = true →
  let s2 := (likeTransaction reviewId userId now
               (unlikeTransaction reviewId userId s).2).2 in
  reviews s2 = reviews s
  ∧ dom (children (likedBy s2) reviewId) = dom (children (likedBy s) reviewId).
Proof.
  intros Hreview Hone Hliked. cbv zeta.
  rewrite (unlikeTransaction_writes _ _ _ _ Hreview).
  erewrite likeTransaction_writes
    by (cbn [reviews set_likedBy set_reviews]; apply lookup_insert_eq).
  cbn [reviews likedBy set_likedBy set_reviews].
  rewrite !children_insert_eq, insert_insert_eq. split.
  - apply insert_id. rewrite Hreview. destruct review. cbn in *.
    unfold Review.with_likesCount. cbn. do 2 f_equal. lia.
  - rewrite insert_delete_eq. apply dom_insert_lookup_L. now apply hasLiked_true.
Qed.

Lemma unlike_after_like s reviewId userId now review :
  reviews s !! reviewId = Some review →
  0 ≤ Review.likesCount review →
  hasLiked s reviewId userId = false →
  let s2 := (unlikeTransaction reviewId userId
               (likeTransaction reviewId userId now s).2).2 in
  reviews s2 = reviews s
  ∧ dom (children (likedBy s2) reviewId) = dom (children (likedBy s) reviewId).
Proof.
  intros Hreview Hzero Hliked. cbv zeta.
  rewrite (likeTransaction_writes _ _ _ _ _ Hreview).
  erewrite unlikeTransaction_writes
    by (cbn [reviews set_likedBy set_reviews]; apply lookup_insert_eq).
  cbn [reviews likedBy set_likedBy set_reviews].
  rewrite !children_insert_eq, insert_insert_eq. split.
  - apply insert_id. rewrite Hreview. destruct review. cbn in *.
    unfold Review.with_likesCount. cbn. do 2 f_equal. lia.
  - rewrite delete_insert_eq. f_equal. apply delete_id. now apply hasLiked_false.
Qed.

Lemma hasLiked_after_unlike s reviewId userId :
  is_Some (reviews s !! reviewId) →
  hasLiked (unlikeTransaction reviewId userId s).2 reviewId userId = false.
Proof.
  intros [review Hreview]. rewrite (unlikeTransaction_writes _ _ _ _ Hreview).
  apply hasLiked_false. cbn [likedBy set_likedBy set_reviews].
  rewrite children_insert_eq. apply lookup_delete_eq.
Qed.

Lemma hasLiked_after_like s reviewId userId now :
  is_Some (reviews s !! reviewId) →
  hasLiked (likeTransaction reviewId userId now s).2 reviewId userId = true.
Proof.
  intros [review Hreview]. rewrite (likeTransaction_writes _ _ _ _ _ Hreview).
  apply hasLiked_true. cbn [likedBy set_likedBy set_reviews].
  rewrite children_insert_eq, lookup_insert_eq. eauto.
Qed.

(** C2, as amended. Two consecutive toggles of the same user on the same
    review, both of which resolve, leave the review document, hence its
    [likesCount], and the set of users who like the review as they were,
    provided the counter was not below the number of Like records to begin
    with. *)
Theorem toggleReviewLike_involution (reviewId userId : string) (w w1 w2 : World)
    (res1 res2 : LikeResult)
    (Hfirst : toggleReviewLike reviewId userId w = (Resolved res1, w1))
    (Hsecond : toggleReviewLike reviewId userId w1 = (Resolved res2, w2))
    (Hcounter : likeRecords (store w) reviewId ≤ likesCounter (store w) reviewId) :
  likesCounter (store w2) reviewId = likesCounter (store w) reviewId
  ∧ reviews (store w2) = reviews (store w)
  ∧ dom (children (likedBy (store w2)) reviewId) = dom (children (likedBy (store w)) reviewId)
  ∧ (∀ u, hasLiked (store w2) reviewId u = hasLiked (store w) reviewId u).
Proof.
  destruct (toggleReviewLike_resolved _ _ _ _ _ Hfirst) as (review & Hreview & Hstep1).
  destruct (toggleReviewLike_resolved _ _ _ _ _ Hsecond) as (review1 & Hreview1 & Hstep2).
  assert (Hcount : likesCounter (store w) reviewId = Review.likesCount review).
  { unfold likesCounter. now rewrite Hreview. }
  assert (Hrecords : 0 ≤ likeRecords (store w) reviewId) by (unfold likeRecords; lia).
  assert (Hgoal : reviews (store w2) = reviews (store w)
                  ∧ dom (children (likedBy (store w2)) reviewId)
                    = dom (children (likedBy (store w)) reviewId)).
  { destruct Hstep1 as [[Hliked Hw1] | [Hliked Hw1]].
    - (* liked before: unlike, then like again *)
      pose proof (likeRecords_member _ _ _ Hliked) as Hone.
      assert (Hliked1 : hasLiked (store w1) reviewId userId = false)
        by (rewrite Hw1; apply hasLiked_after_unlike; eauto).
      destruct Hstep2 as [[Hyes _] | [_ Hw2]]; [congruence|].
      rewrite Hw2, Hw1. apply (like_after_unlike _ _ _ _ review); [assumption|lia|assumption].
    - (* not liked before: like, then unlike *)
      assert (Hliked1 : hasLiked (store w1) reviewId userId = true)
        by (rewrite Hw1; apply hasLiked_after_like; eauto).
      destruct Hstep2 as [[_ Hw2] | [Hno _]]; [|congruence].
      rewrite Hw2, Hw1. apply (unlike_after_like _ _ _ _ review); [assumption|lia|assumption]. }
  destruct Hgoal as [Hreviews Hdom].
  split; [|split; [assumption | split; [assumption|]]].
  - unfold likesCounter. now rewrite Hreviews.
  - intros u. unfold hasLiked. apply bool_decide_ext.
    rewrite <- !elem_of_dom. now rewrite Hdom.
Qed.

Lemma toggleReviewLike_involution_witness :
  let w := signedIn "u2" (onlineWorld sampleStore) in
  ∃ w1 w2,
    toggleReviewLike "r1" "u2" w = (Resolved (mkLikeResult liked 1), w1)
    ∧ toggleReviewLike "r1" "u2" w1 = (Resolved (mkLikeResult unliked 0), w2)
    ∧ likesCounter (store w1) "r1" = 1
    ∧ likesCounter (store w2) "r1" = likesCounter (store w) "r1"
    ∧ hasLiked (store w1) "r1" "u2" = true
    ∧ hasLiked (store w2) "r1" "u2" = hasLiked (store w) "r1" "u2".
Proof.
  intros w.
  exists (toggleReviewLike "r1" "u2" w).2,
         (toggleReviewLike "r1" "u2" (toggleReviewLike "r1" "u2" w).2).2.
  assert (Hfirst : toggleReviewLike "r1" "u2" w
                   = (Resolved (mkLikeResult liked 1), (toggleReviewLike "r1" "u2" w).2))
    by (vm_compute; reflexivity).
  assert (Hsecond : toggleReviewLike "r1" "u2" (toggleReviewLike "r1" "u2" w).2
                    = (Resolved (mkLikeResult unliked 0),
                       (toggleReviewLike "r1" "u2" (toggleReviewLike "r1" "u2" w).2).2))
    by (vm_compute; reflexivity).
  assert (Hcounter : likeRecords (store w) "r1" ≤ likesCounter (store w) "r1")
    by (vm_compute; discriminate).
  destruct (toggleReviewLike_involution "r1" "u2" w _ _ _ _ Hfirst Hsecond Hcounter)
    as (Hcount & _ & _ & Hliked).
  split; [exact Hfirst|]. split; [exact Hsecond|].
  split; [vm_compute; reflexivity|]. split; [exact Hcount|].
  split; [vm_compute; reflexivity | apply Hliked].
Defined.

(** Not for every review: when the counter is below the number of Like
    records, unliking stops at 0 and liking again gives 1.  Requests that
    overlap lead there.  [u1] and [u2] like the review, the counter is 2;
    two unlike requests of [u1] overlap and bring it to 0 with the record of
    [u2] left; the two toggles of [u2] then end with the counter at 1. *)
Lemma toggleReviewLike_counter_not_restored :
  let w := signedIn "u2" unlikedTwice in
  let w1 := (toggleReviewLike "r1" "u2" w).2 in
  let w2 := (toggleReviewLike "r1" "u2" w1).2 in
  likesConsistent (store likedByBoth)
  ∧ likesCounter (store likedByBoth) "r1" = 2
  ∧ hasLiked (store w) "r1" "u2" = true
  ∧ likeRecords (store w) "r1" = 1
  ∧ likesCounter (store w) "r1" = 0
  ∧ toggleReviewLike "r1" "u2" w = (Resolved (mkLikeResult unliked 0), w1)
  ∧ toggleReviewLike "r1" "u2" w1 = (Resolved (mkLikeResult liked 1), w2)
  ∧ hasLiked (store w2) "r1" "u2" = hasLiked (store w) "r1" "u2"
  ∧ likesCounter (store w2) "r1" = 1
  ∧ likesCounter (store w2) "r1" ≠ likesCounter (store w) "r1".
Proof.
  cbv zeta. split.
  { apply (serveLikes_likesConsistent
             [mkLikeCall (LikeData.mk "r1" "u1") (mkContext (Some "u1"));
              mkLikeCall (LikeData.mk "r1" "u2") (mkContext (Some "u2"))]
             (onlineWorld sampleStore)).
    intros reviewId r Hr. cbn in Hr.
    destruct (decide (reviewId = "r1")) as [->|Hne].
    - rewrite lookup_singleton_eq in Hr. injection Hr as <-. reflexivity.
    - rewrite lookup_singleton_ne in Hr by congruence. discriminate. }
  repeat (split; [vm_compute; reflexivity|]).
  vm_compute. discriminate.
Qed.

(** *** Reviews *)

(** What a successful [submitReview] stores. *)
Lemma submitReview_stores concertId userId rating text w id w' :
  submitReview concertId userId rating text w = (Resolved id, w') →
  ∃ concert,
    concerts (store w) !! concertId = Some concert
    ∧ reviews (store w) !! id = None
    ∧ reviews (store w')
      = <[id := Review.mk (docPath "concerts" concertId) (docPath "users" userId)
                  (JsString.trim text)
                  (if JsString.endsWith (Concert.userRef concert) userId
                   then Concert.rating concert else rating)
                  (clock w) (clock w) 0 0]> (reviews (store w)).
Proof.
  unfold submitReview, getConcertById, try_catch, bind, getDoc, addDoc, Timestamp_now,
    throw, ret.
  backend_step; [discriminate|]. cbn [fst snd].
  destruct (concerts (store w) !! concertId) as [concert|] eqn:Hconcert; [|discriminate].
  backend_step; [discriminate|]. cbn [fst snd store with_store with_faults clock].
  intros [= <- <-]. exists concert. split; [reflexivity|]. split.
  - apply not_elem_of_dom, is_fresh.
  - reflexivity.
Qed.

(** The owner's review carries the concert's rating, whatever was passed. *)
Lemma submitReview_owner concertId owner rating text w id w' concert :
  submitReview concertId owner rating text w = (Resolved id, w') →
  concerts (store w) !! concertId = Some concert →
  Concert.userRef concert = docPath "users" owner →
  Review.rating <$> reviews (store w') !! id = Some (Concert.rating concert).
Proof.
  intros Hrun Hconcert Howner.
  destruct (submitReview_stores _ _ _ _ _ _ _ Hrun) as (concert' & Hsame & _ & ->).
  assert (concert' = concert) as -> by congruence.
  rewrite lookup_insert_eq. cbn. rewrite Howner. unfold docPath.
  change ("users" +:+ "/" +:+ owner) with ("users/" +:+ owner).
  now rewrite endsWith_app.
Qed.

(** A reviewer whose id is not the end of the owner's reference gets the
    rating that was passed. *)
Lemma submitReview_stranger concertId userId rating text w id w' concert :
  submitReview concertId userId rating text w = (Resolved id, w') →
  concerts (store w) !! concertId = Some concert →
  JsString.endsWith (Concert.userRef concert) userId = false →
  Review.rating <$> reviews (store w') !! id = Some rating.
Proof.
  intros Hrun Hconcert Hends.
  destruct (submitReview_stores _ _ _ _ _ _ _ Hrun) as (concert' & Hsame & _ & ->).
  assert (concert' = concert) as -> by congruence.
  rewrite lookup_insert_eq. cbn. now rewrite Hends.
Qed.

(** C3. The owner test is [concert.userRef.endsWith(userId)].  The concert
    [c2] belongs to [au1]; the review that [u1], who is not its owner,
    submits with rating 2 is stored with the concert's rating, 5. *)
Theorem submitReview_suffix_takes_owner_rating :
  let w := signedIn "u1" (onlineWorld suffixOwnerStore) in
  let run := submitReview "c2" "u1" 2 "fine" w in
  Concert.userRef <$> concerts (store w) !! "c2" = Some (docPath "users" "au1")
  ∧ docPath "users" "u1" ≠ docPath "users" "au1"
  ∧ ∃ id, run.1 = Resolved id
          ∧ Review.userRef <$> reviews (store run.2) !! id = Some (docPath "users" "u1")
          ∧ Review.rating <$> reviews (store run.2) !! id = Some 5.
Proof.
  cbv zeta. split; [reflexivity|]. split; [discriminate|].
  eexists. split; [vm_compute; reflexivity|]. split; vm_compute; reflexivity.
Qed.

(** *** Rules for [hoare] *)

Section HoareRules.
Context {A B : Type}.

Lemma hoare_ret (a : A) (P : World → Prop) (Q : A → World → Prop) E :
  (∀ w, P w → Q a w) → hoare P (ret a) Q E.
Proof. intros H w Hp. cbn. auto. Qed.

Lemma hoare_throw (e : JsError) (P : World → Prop) (Q : A → World → Prop)
    (E : World → Prop) :
  (∀ w, P w → E w) → hoare P (throw e) Q E.
Proof. intros H w Hp. cbn. auto. Qed.

Lemma hoare_bind (m : M A) (k : A → M B) P Q R E :
  hoare P m Q E → (∀ a, hoare (Q a) (k a) R E) → hoare P (bind m k) R E.
Proof.
  intros Hm Hk w Hp. unfold bind. specialize (Hm w Hp).
  destruct (m w) as [[a|e|] w1]; [|assumption|assumption].
  exact (Hk a w1 Hm).
Qed.

Lemma hoare_try_catch (m : M A) (h : JsError → M A) P Q E' E :
  hoare P m Q E' → (∀ e, hoare E' (h e) Q E) → hoare P (try_catch m h) Q E.
Proof.
  intros Hm Hh w Hp. unfold try_catch. specialize (Hm w Hp).
  destruct (m w) as [[a|e|] w1]; [assumption| |assumption].
  exact (Hh e w1 Hm).
Qed.

Lemma hoare_consequence (m : M A) (P P' : World → Prop) (Q Q' : A → World → Prop)
    (E E' : World → Prop) :
  hoare P' m Q' E' →
  (∀ w, P w → P' w) → (∀ a w, Q' a w → Q a w) → (∀ w, E' w → E w) →
  hoare P m Q E.
Proof.
  intros Hm HP HQ HE w Hp. specialize (Hm w (HP _ Hp)).
  destruct (m w) as [[a|e|] w1]; auto.
Qed.

(** A backend call: when the schedule fails it, the world with one entry
    less must satisfy [E]; otherwise the action decides. *)
Lemma hoare_backend (act : Store → Promise A * Store) (P : World → Prop) Q
    (E : World → Prop) :
  (∀ w e fs, P w → faults w = Some e :: fs → E (with_faults fs w)) →
  (∀ w, P w → (∀ e fs, faults w ≠ Some e :: fs) →
     match act (store w) with
     | (Resolved a, s') => Q a (with_store (λ _, s') (with_faults (tail (faults w)) w))
     | (Rejected _, s') => E (with_store (λ _, s') (with_faults (tail (faults w)) w))
     | (Pending, _) => False
     end) →
  hoare P (backend act) Q E.
Proof.
  intros Hfail Hact w Hp. unfold backend.
  destruct (faults w) as [|[e|] fs] eqn:Hfs; cbn [head tail].
  - specialize (Hact w Hp). rewrite Hfs in Hact. cbn [tail] in Hact.
    destruct (act (store (with_faults [] w))) as [r s'] eqn:Hr.
    change (store (with_faults [] w)) with (store w) in Hr. rewrite Hr in Hact.
    apply Hact. congruence.
  - apply (Hfail w e fs Hp Hfs).
  - specialize (Hact w Hp). rewrite Hfs in Hact. cbn [tail] in Hact.
    destruct (act (store (with_faults fs w))) as [r s'] eqn:Hr.
    change (store (with_faults fs w)) with (store w) in Hr. rewrite Hr in Hact.
    apply Hact. congruence.
Qed.

Lemma hoare_Timestamp_now (P : World → Prop) (Q : Z → World → Prop) E :
  (∀ w, P w → Q (clock w) w) → hoare P Timestamp_now Q E.
Proof. intros H w Hp. cbn. auto. Qed.

(** The retry loop keeps an invariant that holds only while connected, that
    waiting does not disturb and that every failed attempt restores. *)
Lemma hoare_retryLoop (operation : M A) name (I : World → Prop) Q rounds attempt lastError :
  (∀ w, I w → connectionState w = connected) →
  (∀ w ms, I w → I (with_clock (clock w + ms) w)) →
  hoare I operation Q I →
  ∀ w, I w →
    match (retryLoop rounds attempt operation name lastError w).1 with
    | (Resolved a, w') => Q a w'
    | (Rejected _, w') => I w'
    | (Pending, _) => False
    end.
Proof.
  intros Hconn Hwait Hop. revert attempt lastError.
  induction rounds as [|rounds IH]; intros attempt lastError w Hi; [cbn; auto|].
  cbn [retryLoop]. rewrite (decide_True _ _ (Hconn _ Hi)).
  specialize (Hop w Hi).
  destruct (operation w) as [[a|e|] w1]; [exact Hop| |exact Hop].
  destruct (isNetworkError e); [|cbn; auto].
  destruct (attempt <? maxRetries).
  - specialize (IH (attempt + 1) e (delay (retryDelay * attempt) w1).2 (Hwait _ _ Hop)).
    destruct (retryLoop rounds (attempt + 1) operation name e _) as [[r w3] evs].
    exact IH.
  - specialize (IH (attempt + 1) e w1 Hop).
    destruct (retryLoop rounds (attempt + 1) operation name e _) as [[r w3] evs].
    exact IH.
Qed.

Lemma hoare_executeWithRetry (operation : M A) name (I : World → Prop) Q :
  (∀ w, I w → connectionState w = connected) →
  (∀ w ms, I w → I (with_clock (clock w + ms) w)) →
  hoare I operation Q I → hoare I (executeWithRetry operation name) Q I.
Proof.
  intros Hconn Hwait Hop w Hi. unfold executeWithRetry, executeWithRetry_events.
  apply (hoare_retryLoop _ _ _ _ _ _ _ Hconn Hwait Hop w Hi).
Qed.

End HoareRules.

Lemma hoare_logAnalyticsEvent name parameters (P : World → Prop) (Q : unit → World → Prop)
    (E : World → Prop) :
  (∀ w sink, P w → Q tt (with_analytics sink w)) → (∀ w, P w → Q tt w) →
  hoare P (logAnalyticsEvent name parameters) Q E.
Proof.
  intros H H' w Hp. unfold logAnalyticsEvent, try_catch, logEvent, ret.
  destruct (analytics w) as [instance|]; [|now apply H'].
  destruct (logEventFaults instance) as [|[e|] rest]; cbn; auto.
Qed.

(** *** Queries and counts *)

Lemma where_head {D} (p : D → bool) (coll : gmap string D) id d rest :
  where_ p coll = (id, d) :: rest → coll !! id = Some d ∧ p d = true.
Proof.
  intros H.
  assert (Hin : (id, d) ∈ where_ p coll) by (rewrite H; left).
  unfold where_ in Hin. apply list_elem_of_filter in Hin as [Hp Hin].
  apply elem_of_map_to_list in Hin. auto.
Qed.

Lemma where_elem {D} (p : D → bool) (coll : gmap string D) id d :
  (id, d) ∈ where_ p coll ↔ coll !! id = Some d ∧ p d = true.
Proof.
  unfold where_. rewrite list_elem_of_filter, elem_of_map_to_list. cbn. tauto.
Qed.

Lemma where_NoDup {D} (p : D → bool) (coll : gmap string D) : NoDup (where_ p coll).*1.
Proof.
  unfold where_. eapply sublist_NoDup; [apply (NoDup_fst_map_to_list coll)|].
  apply fmap_sublist, sublist_filter.
Qed.

Lemma countWhere_insert {D} (p : D → bool) (coll : gmap string D) id d :
  coll !! id = None →
  countWhere p (<[id := d]> coll) = ((if p d then 1 else 0) + countWhere p coll)%nat.
Proof.
  intros Hnone. unfold countWhere, where_.
  rewrite (Permutation_length
             (filter_Permutation _ _ _ (map_to_list_insert coll id d Hnone))).
  rewrite filter_cons. cbn. destruct (p d); cbn.
  - rewrite decide_True by reflexivity. reflexivity.
  - rewrite decide_False by discriminate. reflexivity.
Qed.

Lemma countWhere_positive {D} (p : D → bool) (coll : gmap string D) id d :
  coll !! id = Some d → p d = true → (1 ≤ countWhere p coll)%nat.
Proof.
  intros Hd Hp. assert (Hin : (id, d) ∈ where_ p coll) by now apply where_elem.
  unfold countWhere. destruct (where_ p coll); [inversion Hin | cbn; lia].
Qed.

Lemma failures_tail fs : (failures (tail fs) ≤ failures fs)%nat.
Proof. destruct fs as [|[e|] fs]; cbn; lia. Qed.

Lemma underway_refl w : connectionState w = connected → underway w w.
Proof. intros H. split; [assumption | lia]. Qed.

(** *** Entity resolution *)

Ltac world_simpl :=
  unfold underway in *;
  cbn [store clock faults connectionState retryQueue currentUser analytics
       with_store with_clock with_faults with_retryQueue with_analytics
       head tail failures] in *.

Section FindOrCreate.
Context {D : Type} (coll : Store → gmap string D)
  (put : (gmap string D → gmap string D) → Store → Store)
  (p : D → bool) (make : Z → D) (collName label : string).
Hypothesis make_matches : ∀ t, p (make t) = true.

(** Whatever fails on the way, [findOrCreate] either resolves, having found
    a matching document or created the only one, or is rejected with the
    store as it was. *)
Lemma findOrCreate_spec (w0 : World) :
  hoare (λ w, underway w0 w ∧ store w = store w0)
        (findOrCreate coll put p make collName label)
        (λ ref w, underway w0 w
                  ∧ ∃ id d, ref = docPath collName id ∧ p d = true
                            ∧ resolvedIn coll put p make (store w0) id d (store w))
        (λ w, underway w0 w ∧ store w = store w0).
Proof.
  unfold findOrCreate. apply hoare_executeWithRetry.
  - intros w [[Hc _] _]. exact Hc.
  - intros w ms H. exact H.
  - apply (hoare_bind _ _ _
             (λ snapshot w, (underway w0 w ∧ store w = store w0)
                            ∧ snapshot = where_ p (coll (store w0)))).
    + apply hoare_backend.
      * intros w e fs [[Hc Hf] Hs] Hfs. rewrite Hfs in Hf. world_simpl.
        repeat split; [assumption | lia | assumption].
      * intros w [[Hc Hf] Hs] _.
        pose proof (failures_tail (faults w)). world_simpl.
        repeat split; [assumption | lia | assumption | now rewrite Hs].
    + intros snapshot. destruct snapshot as [|[id d] rest].
      * apply (hoare_bind _ _ _
                 (λ _ w, (underway w0 w ∧ store w = store w0)
                         ∧ countWhere p (coll (store w0)) = 0%nat)).
        { apply hoare_Timestamp_now. intros w [H Hnil]. split; [exact H|].
          unfold countWhere. now rewrite <- Hnil. }
        intros now.
        apply (hoare_bind _ _ _
                 (λ id w, underway w0 w
                          ∧ countWhere p (coll (store w0)) = 0%nat
                          ∧ coll (store w0) !! id = None
                          ∧ store w = put (insert id (make now)) (store w0))).
        { unfold addDoc. apply hoare_backend.
          - intros w e fs [[[Hc Hf] Hs] _] Hfs. rewrite Hfs in Hf. world_simpl.
            repeat split; [assumption | lia | assumption].
          - intros w [[[Hc Hf] Hs] Hzero] _.
            pose proof (failures_tail (faults w)). world_simpl.
            repeat split; [assumption | lia | assumption | | now rewrite Hs].
            rewrite Hs. apply not_elem_of_dom, is_fresh. }
        intros id. apply hoare_ret. intros w (Hu & Hzero & Hnone & Hs).
        split; [exact Hu|]. exists id, (make now).
        repeat split; [apply make_matches|]. right. unfold resolvedIn. eauto 10.
      * apply hoare_ret. intros w [[Hu Hs] Hsnap]. split; [exact Hu|].
        symmetry in Hsnap. apply where_head in Hsnap as [Hd Hp].
        exists id, d. repeat split; [assumption|]. left. auto.
Qed.

End FindOrCreate.

Lemma findOrCreateArtist_shape artistName :
  findOrCreateArtist artistName
  = findOrCreate artists set_artists (artistNamed artistName) (newArtist artistName)
      "artists" "findOrCreateArtist".
Proof. reflexivity. Qed.

Lemma findOrCreateVenue_shape venueName :
  findOrCreateVenue venueName
  = findOrCreate venues set_venues (venueNamed venueName) (newVenue venueName)
      "venues" "findOrCreateVenue".
Proof. reflexivity. Qed.

Lemma hoare_ghost {A} (m : M A) (P : World → Prop) Q E :
  (∀ w1, P w1 → hoare (λ w, w = w1) m Q E) → hoare P m Q E.
Proof. intros H w Hp. exact (H w Hp w eq_refl). Qed.

Lemma underway_trans w0 w1 w : underway w0 w1 → underway w1 w → underway w0 w.
Proof. unfold underway. intros [_ H1] [Hc H2]. split; [assumption | lia]. Qed.

Section Grown.
Context {D : Type} (p : D → bool) (make : Z → D).
Hypothesis make_matches : ∀ t, p (make t) = true.

Lemma grown_subseteq (m0 m : gmap string D) : grown p make m0 m → m0 ⊆ m.
Proof.
  intros [-> | (_ & id & t & Hnone & ->)]; [reflexivity|]. now apply insert_subseteq.
Qed.

(** A look-up on a grown collection keeps it grown. *)
Lemma grown_step (m0 m1 m : gmap string D) id d :
  grown p make m0 m1 →
  (m1 !! id = Some d ∧ m = m1)
  ∨ (countWhere p m1 = 0%nat ∧ m1 !! id = None ∧ (∃ t, d = make t) ∧ m = <[id := d]> m1) →
  grown p make m0 m ∧ m1 ⊆ m ∧ m !! id = Some d.
Proof.
  intros Hgrown [[Hd ->] | (Hzero & Hnone & [t ->] & ->)].
  - repeat split; [assumption | reflexivity | assumption].
  - split; [|split; [now apply insert_subseteq | apply lookup_insert_eq]].
    destruct Hgrown as [-> | (_ & id' & t' & Hnone' & ->)].
    + right. split; [assumption|]. eauto.
    + rewrite countWhere_insert, make_matches in Hzero by assumption. discriminate.
Qed.

(** In a collection grown from one without a match, the match is unique. *)
Lemma grown_count (m0 m : gmap string D) id d :
  grown p make m0 m → m !! id = Some d → p d = true →
  countWhere p m = Nat.max 1 (countWhere p m0).
Proof.
  intros [-> | (Hzero & id' & t' & Hnone & ->)] Hd Hp.
  - pose proof (countWhere_positive _ _ _ _ Hd Hp). lia.
  - rewrite countWhere_insert, make_matches, Hzero by assumption. reflexivity.
Qed.

End Grown.

Section LogConcert.
Variables (userId artistName venueName : string) (date rating : Z) (notes : option string).

Local Abbreviation logged_ := (logged userId artistName venueName date rating notes).
Local Abbreviation loggedConcert_ :=
  (loggedConcert userId artistName venueName date rating notes).

Lemma artistNamed_newArtist t : artistNamed artistName (newArtist artistName t) = true.
Proof. unfold artistNamed, newArtist. cbn. apply String.eqb_refl. Qed.

Lemma venueNamed_newVenue t : venueNamed venueName (newVenue venueName t) = true.
Proof. unfold venueNamed, newVenue. cbn. apply String.eqb_refl. Qed.

Lemma loggedConcert_mono s s' c :
  artists s ⊆ artists s' → venues s ⊆ venues s' →
  loggedConcert_ s c → loggedConcert_ s' c.
Proof.
  intros Ha Hv (H1 & H2 & H3 & H4 & H5 & H6 & (aid & a & Hra & Hla & Hna)
                & (vid & v & Hrv & Hlv & Hnv)).
  repeat split; try assumption.
  - exists aid, a. repeat split; try assumption. eapply lookup_weaken; eassumption.
  - exists vid, v. repeat split; try assumption. eapply lookup_weaken; eassumption.
Qed.

Lemma logged_refl s : logged_ s s.
Proof.
  unfold logged. split; [now left|]. split; [now left|]. split; [reflexivity|].
  split; [intros cid c H1 H2; congruence|]. repeat split; reflexivity.
Qed.

Lemma logged_resolve_artist s0 s1 s id d :
  logged_ s0 s1 →
  resolvedIn artists set_artists (artistNamed artistName) (newArtist artistName) s1 id d s →
  logged_ s0 s ∧ users s = users s1 ∧ concerts s = concerts s1
  ∧ artists s !! id = Some d.
Proof.
  intros (Ha & Hv & Hsub & Hnew & Hr & Hl & Hc & Hf) Hres.
  assert (Hstep : (artists s1 !! id = Some d ∧ artists s = artists s1)
                  ∨ (countWhere (artistNamed artistName) (artists s1) = 0%nat
                     ∧ artists s1 !! id = None ∧ (∃ t, d = newArtist artistName t)
                     ∧ artists s = <[id := d]> (artists s1))).
  { destruct Hres as [[Hd ->] | (Hz & Hn & Ht & ->)]; [left | right]; auto. }
  assert (Hrest : users s = users s1 ∧ venues s = venues s1 ∧ concerts s = concerts s1
                  ∧ reviews s = reviews s1 ∧ likedBy s = likedBy s1
                  ∧ comments s = comments s1 ∧ following s = following s1).
  { destruct Hres as [[_ ->] | (_ & _ & _ & ->)]; repeat split; reflexivity. }
  destruct Hrest as (Hu' & Hv' & Hc' & Hr' & Hl' & Hcm' & Hf').
  destruct (grown_step _ _ artistNamed_newArtist _ _ _ _ _ Ha Hstep)
    as (Hgrown & Hsub' & Hlook).
  split; [|auto].
  unfold logged. split; [assumption|]. split; [now rewrite Hv'|].
  split; [now rewrite Hc'|]. split; [|repeat split; congruence].
  intros cid c Hcid Hfresh. rewrite Hc' in Hcid.
  apply (loggedConcert_mono s1); [assumption | now rewrite Hv' | eapply Hnew; eassumption].
Qed.

Lemma logged_resolve_venue s0 s1 s id d :
  logged_ s0 s1 →
  resolvedIn venues set_venues (venueNamed venueName) (newVenue venueName) s1 id d s →
  logged_ s0 s ∧ users s = users s1 ∧ concerts s = concerts s1
  ∧ artists s = artists s1 ∧ venues s !! id = Some d.
Proof.
  intros (Ha & Hv & Hsub & Hnew & Hr & Hl & Hc & Hf) Hres.
  assert (Hstep : (venues s1 !! id = Some d ∧ venues s = venues s1)
                  ∨ (countWhere (venueNamed venueName) (venues s1) = 0%nat
                     ∧ venues s1 !! id = None ∧ (∃ t, d = newVenue venueName t)
                     ∧ venues s = <[id := d]> (venues s1))).
  { destruct Hres as [[Hd ->] | (Hz & Hn & Ht & ->)]; [left | right]; auto. }
  assert (Hrest : users s = users s1 ∧ artists s = artists s1 ∧ concerts s = concerts s1
                  ∧ reviews s = reviews s1 ∧ likedBy s = likedBy s1
                  ∧ comments s = comments s1 ∧ following s = following s1).
  { destruct Hres as [[_ ->] | (_ & _ & _ & ->)]; repeat split; reflexivity. }
  destruct Hrest as (Hu' & Ha' & Hc' & Hr' & Hl' & Hcm' & Hf').
  destruct (grown_step _ _ venueNamed_newVenue _ _ _ _ _ Hv Hstep)
    as (Hgrown & Hsub' & Hlook).
  split; [|auto].
  unfold logged. split; [now rewrite Ha'|]. split; [assumption|].
  split; [now rewrite Hc'|]. split; [|repeat split; congruence].
  intros cid c Hcid Hfresh. rewrite Hc' in Hcid.
  apply (loggedConcert_mono s1); [now rewrite Ha' | assumption | eapply Hnew; eassumption].
Qed.

End LogConcert.

Section LogConcertRun.
Variables (userId artistName venueName : string) (date rating : Z) (notes : option string).

Local Abbreviation Inv := (logConcertInv userId artistName venueName date rating notes).
Local Abbreviation Post := (logConcertPost userId artistName venueName date rating notes).
Local Abbreviation logged_ := (logged userId artistName venueName date rating notes).

Lemma logConcertInv_underway w0 w1 w :
  Inv w0 w1 → underway w1 w → store w = store w1 → Inv w0 w.
Proof.
  intros (Hu1 & Hlog & Husers & Hsize) Hu Hs. unfold logConcertInv. rewrite Hs.
  split; [eapply underway_trans; eassumption|]. split; [assumption|].
  split; [assumption|]. intros Hsome. specialize (Hsize Hsome).
  destruct Hu as [_ Hf]. lia.
Qed.

(** The artist look-up inside an attempt. *)
Lemma logConcert_resolves_artist w0 :
  hoare (Inv w0) (findOrCreateArtist artistName)
        (λ artistRef w, Inv w0 w
           ∧ ∃ id a, artistRef = docPath "artists" id
                     ∧ artists (store w) !! id = Some a ∧ Artist.name a = artistName)
        (Inv w0).
Proof.
  apply hoare_ghost. intros w1 Hinv. rewrite findOrCreateArtist_shape.
  eapply hoare_consequence;
    [apply (findOrCreate_spec _ _ _ _ _ _ (artistNamed_newArtist artistName) w1) | | |].
  - intros w ->. split; [|reflexivity]. apply underway_refl. apply Hinv.
  - intros ref w (Hu & id & d & -> & Hp & Hres).
    destruct Hinv as (Hu1 & Hlog & Husers & Hsize).
    destruct (logged_resolve_artist _ _ _ _ _ _ _ _ _ _ _ Hlog Hres)
      as (Hlog' & Hu' & Hc' & Hlook).
    split.
    + unfold logConcertInv. split; [eapply underway_trans; eassumption|].
      split; [assumption|]. split; [congruence|].
      intros Hsome. specialize (Hsize Hsome). rewrite Hc'. destruct Hu as [_ Hf]. lia.
    + exists id, d. split; [reflexivity|]. split; [assumption|].
      now apply String.eqb_eq in Hp.
  - intros w [Hu Hs]. eapply logConcertInv_underway; eassumption.
Qed.

(** The venue look-up inside an attempt; it does not disturb the artist
    that was resolved before. *)
Lemma logConcert_resolves_venue w0 (aid : string) (a : Artist.t) :
  hoare (λ w, Inv w0 w ∧ artists (store w) !! aid = Some a)
        (findOrCreateVenue venueName)
        (λ venueRef w, (Inv w0 w ∧ artists (store w) !! aid = Some a)
           ∧ ∃ id v, venueRef = docPath "venues" id
                     ∧ venues (store w) !! id = Some v ∧ Venue.name v = venueName)
        (Inv w0).
Proof.
  apply hoare_ghost. intros w1 [Hinv Hartist]. rewrite findOrCreateVenue_shape.
  eapply hoare_consequence;
    [apply (findOrCreate_spec _ _ _ _ _ _ (venueNamed_newVenue venueName) w1) | | |].
  - intros w ->. split; [|reflexivity]. apply underway_refl. apply Hinv.
  - intros ref w (Hu & id & d & -> & Hp & Hres).
    destruct Hinv as (Hu1 & Hlog & Husers & Hsize).
    destruct (logged_resolve_venue _ _ _ _ _ _ _ _ _ _ _ Hlog Hres)
      as (Hlog' & Hu' & Hc' & Ha' & Hlook).
    split; [split|].
    + unfold logConcertInv. split; [eapply underway_trans; eassumption|].
      split; [assumption|]. split; [congruence|].
      intros Hsome. specialize (Hsize Hsome). rewrite Hc'. destruct Hu as [_ Hf]. lia.
    + now rewrite Ha'.
    + exists id, d. split; [reflexivity|]. split; [assumption|].
      now apply String.eqb_eq in Hp.
  - intros w [Hu Hs]. eapply logConcertInv_underway; eassumption.
Qed.

(** The state between the concert write and the counter update. *)
Local Abbreviation Written := (λ (w0 : World) (concertId : string) (w : World),
  underway w0 w
  ∧ logged_ (store w0) (store w)
  ∧ users (store w) = users (store w0)
  ∧ is_Some (concerts (store w) !! concertId)
  ∧ concerts (store w0) !! concertId = None
  ∧ (is_Some (users (store w0) !! userId) →
     (size (concerts (store w)) + failures (faults w)
      ≤ S (size (concerts (store w0)) + failures (faults w0)))%nat)).

Lemma logConcert_writes_concert w0 aid a vid v now :
  Artist.name a = artistName → Venue.name v = venueName →
  hoare (λ w, (Inv w0 w ∧ artists (store w) !! aid = Some a)
              ∧ venues (store w) !! vid = Some v)
        (addDoc concerts set_concerts
           (Concert.mk (docPath "artists" aid) (docPath "venues" vid) date
                       (docPath "users" userId) rating (default "" notes) now now
                       None None))
        (Written w0)
        (Inv w0).
Proof.
  intros Hna Hnv. unfold addDoc. apply hoare_backend.
  - intros w e fs [[((Hc & Hf) & Hlog & Husers & Hsize) _] _] Hfs.
    unfold logConcertInv. rewrite Hfs in Hf, Hsize. world_simpl.
    split; [split; [assumption | lia]|]. split; [assumption|]. split; [assumption|].
    intros Hsome. specialize (Hsize Hsome). lia.
  - intros w [[((Hc & Hf) & Hlog & Husers & Hsize) Hartist] Hvenue] _.
    pose proof (failures_tail (faults w)) as Htail.
    set (cid := fresh (dom (concerts (store w)))).
    assert (Hfresh : concerts (store w) !! cid = None)
      by apply not_elem_of_dom, is_fresh.
    destruct Hlog as (Ha & Hv & Hsub & Hnew & Hrest).
    world_simpl. cbn [concerts set_concerts artists venues users reviews likedBy
                      comments following].
    split; [split; [assumption | lia]|].
    split; [|split; [assumption|split; [|split]]].
    + unfold logged. cbn [concerts set_concerts artists venues users reviews likedBy
                            comments following].
      split; [assumption|]. split; [assumption|].
      split; [etrans; [exact Hsub | now apply insert_subseteq]|].
      split; [|assumption].
      intros id c Hid Hold. destruct (decide (cid = id)) as [<-|Hne].
      * rewrite lookup_insert_eq in Hid. injection Hid as <-.
        unfold loggedConcert. cbn.
        repeat split; try reflexivity; eauto.
      * rewrite lookup_insert_ne in Hid by assumption.
        specialize (Hnew _ _ Hid Hold).
        revert Hnew. apply loggedConcert_mono; reflexivity.
    + rewrite lookup_insert_eq. eauto.
    + destruct (concerts (store w0) !! cid) as [c|] eqn:Hold; [|reflexivity].
      pose proof (lookup_weaken _ _ _ _ Hold Hsub). congruence.
    + intros Hsome. specialize (Hsize Hsome).
      rewrite map_size_insert_None by assumption. lia.
Qed.

Lemma logConcert_updates_counter w0 concertId :
  hoare (Written w0 concertId)
        (updateDoc users set_users userId (increment 1))
        (λ _, Post w0 concertId)
        (Inv w0).
Proof.
  unfold updateDoc. apply hoare_backend.
  - intros w e fs ((Hc & Hf) & Hlog & Husers & Hcid & Hnew & Hsize) Hfs.
    unfold logConcertInv. rewrite Hfs in Hf, Hsize. world_simpl.
    split; [split; [assumption | lia]|]. split; [assumption|]. split; [assumption|].
    intros Hsome. specialize (Hsize Hsome). lia.
  - intros w ((Hc & Hf) & Hlog & Husers & Hcid & Hnew & Hsize) _.
    pose proof (failures_tail (faults w)) as Htail.
    destruct (users (store w) !! userId) as [u|] eqn:Huser.
    + unfold logConcertPost. world_simpl.
      cbn [concerts set_users artists venues users reviews likedBy comments following].
      rewrite Husers in Huser.
      split; [split; [assumption | lia]|].
      split; [exact Hlog|]. split; [exists u; now rewrite Husers|].
      split; [assumption|]. split; [assumption|].
      assert (Hsome : is_Some (users (store w0) !! userId)) by eauto.
      specialize (Hsize Hsome). lia.
    + unfold logConcertInv. world_simpl.
      split; [split; [assumption | lia]|]. split; [assumption|]. split; [assumption|].
      rewrite Husers in Huser. rewrite Huser. intros [? ?]. discriminate.
Qed.

(** [logConcert], whatever the schedule: a call that resolves has found or
    created the artist and the venue, written at least one concert, each
    one a concert as logged, and raised the user's counter once; every
    concert beyond the first has cost a scheduled failure. *)
Lemma logConcert_spec w0 :
  hoare (Inv w0) (logConcert userId artistName venueName date rating notes)
        (Post w0) (Inv w0).
Proof.
  unfold logConcert. apply hoare_executeWithRetry.
  - intros w ((Hc & _) & _). exact Hc.
  - intros w ms H. exact H.
  - eapply hoare_bind; [apply logConcert_resolves_artist|].
    intros artistRef. apply hoare_ghost.
    intros w1 (Hinv1 & aid & a & -> & Hartist & Hna).
    eapply hoare_bind.
    { eapply hoare_consequence; [apply (logConcert_resolves_venue w0 aid a) | | |].
      - intros w ->. auto.
      - intros venueRef w H. exact H.
      - auto. }
    intros venueRef. apply hoare_ghost.
    intros w2 ((Hinv2 & Hartist2) & vid & v & -> & Hvenue & Hnv).
    eapply hoare_bind.
    { apply (hoare_Timestamp_now _ (λ _ w, w = w2)). auto. }
    intros now. cbv zeta.
    eapply hoare_bind.
    { eapply hoare_consequence;
        [apply (logConcert_writes_concert w0 aid a vid v now Hna Hnv) | | |].
      - intros w ->. auto.
      - intros concertId w H. exact H.
      - auto. }
    intros concertId.
    eapply hoare_bind; [apply logConcert_updates_counter|].
    intros [].
    eapply hoare_bind.
    { unfold logConcertLogged.
      apply (hoare_logAnalyticsEvent _ _ _ (λ _, Post w0 concertId)).
      - intros w sink H. exact H.
      - auto. }
    intros []. apply hoare_ret. auto.
Qed.

End LogConcertRun.

(** *** Logging a concert *)

Lemma logConcertInv_start userId artistName venueName date rating notes w :
  connectionState w = connected →
  logConcertInv userId artistName venueName date rating notes w w.
Proof.
  intros Hc. unfold logConcertInv. split; [now apply underway_refl|].
  split; [apply logged_refl|]. split; [reflexivity|]. intros _. lia.
Qed.

(** [logConcert_spec], read off a run. *)
Lemma logConcert_resolved userId artistName venueName date rating notes w concertId w' :
  connectionState w = connected →
  logConcert userId artistName venueName date rating notes w = (Resolved concertId, w') →
  logConcertPost userId artistName venueName date rating notes w concertId w'.
Proof.
  intros Hc Hrun.
  pose proof (logConcert_spec userId artistName venueName date rating notes w w
                (logConcertInv_start _ _ _ _ _ _ _ Hc)) as H.
  now rewrite Hrun in H.
Qed.

Lemma grown_from_empty {D} (p : D → bool) (make : Z → D) (m : gmap string D) id d :
  grown p make ∅ m → m !! id = Some d → ∃ t, m = {[id := make t]} ∧ d = make t.
Proof.
  intros [-> | (_ & id' & t & _ & ->)] Hd.
  - rewrite lookup_empty in Hd. discriminate.
  - destruct (decide (id' = id)) as [->|Hne].
    + rewrite lookup_insert_eq in Hd. injection Hd as <-. now exists t.
    + rewrite lookup_insert_ne, lookup_empty in Hd by assumption. discriminate.
Qed.

(** C6, as amended. On a store without artists, venues and concerts, a
    call of [logConcert] that resolves leaves exactly one artist, with the
    given name, exactly one venue, with the given name and "Unknown" for
    city, state and country, and has raised the user's counter by one; the
    concert it returns exists, every concert of the store carries the
    given rating and points to that artist and that venue, and there is one
    concert, plus at most one for each scheduled failure the call has used
    up: exactly one when no failure is scheduled. *)
Theorem logConcert_on_fresh_store
    (userId artistName venueName : string) (date rating : Z) (notes : option string)
    (w w' : World) (concertId : string)
    (Hconnected : connectionState w = connected)
    (Hartists : artists (store w) = ∅)
    (Hvenues : venues (store w) = ∅)
    (Hconcerts : concerts (store w) = ∅)
    (Hrun : logConcert userId artistName venueName date rating notes w
            = (Resolved concertId, w')) :
  ∃ artistId venueId t1 t2 u,
    artists (store w') = {[artistId := Artist.mk artistName t1]}
    ∧ venues (store w') = {[venueId := Venue.mk venueName "Unknown" "Unknown" "Unknown" t2]}
    ∧ users (store w) !! userId = Some u
    ∧ users (store w')
      = <[userId := User.mk (User.email u) (User.displayName u)
                            (User.loggedConcertsCount u + 1)]> (users (store w))
    ∧ is_Some (concerts (store w') !! concertId)
    ∧ (∀ id c, concerts (store w') !! id = Some c →
         Concert.rating c = rating
         ∧ Concert.userRef c = docPath "users" userId
         ∧ Concert.artistRef c = docPath "artists" artistId
         ∧ Concert.venueRef c = docPath "venues" venueId)
    ∧ (1 ≤ size (concerts (store w')))%nat
    ∧ (size (concerts (store w')) + failures (faults w') ≤ 1 + failures (faults w))%nat
    ∧ (failures (faults w) = 0%nat → size (concerts (store w')) = 1%nat).
Proof.
  destruct (logConcert_resolved _ _ _ _ _ _ _ _ _ Hconnected Hrun)
    as (Hu & (Ha & Hv & Hsub & Hnew & _) & (u & Huser & Husers) & [c Hc] & _ & Hsize).
  rewrite Hartists in Ha. rewrite Hvenues in Hv. rewrite Hconcerts in Hnew, Hsize.
  assert (Hall : ∀ id c, concerts (store w') !! id = Some c →
                   loggedConcert userId artistName venueName date rating notes (store w') c)
    by (intros id c' Hid; apply (Hnew id c' Hid), lookup_empty).
  destruct (Hall _ _ Hc)
    as (_ & _ & _ & _ & _ & _ & (aid & a & _ & Hla & _) & (vid & v & _ & Hlv & _)).
  destruct (grown_from_empty _ _ _ _ _ Ha Hla) as (t1 & Hartists' & _).
  destruct (grown_from_empty _ _ _ _ _ Hv Hlv) as (t2 & Hvenues' & _).
  exists aid, vid, t1, t2, u.
  split; [exact Hartists'|]. split; [exact Hvenues'|]. split; [exact Huser|].
  split; [exact Husers|]. split; [eauto|]. split; [|split; [|split]].
  - intros id c' Hid.
    destruct (Hall _ _ Hid)
      as (Huref & Hrating & _ & _ & _ & _ & (aid' & a' & Hra & Hla' & _)
          & (vid' & v' & Hrv & Hlv' & _)).
    rewrite Hartists' in Hla'. rewrite Hvenues' in Hlv'.
    apply lookup_singleton_Some in Hla' as [<- _].
    apply lookup_singleton_Some in Hlv' as [<- _]. auto.
  - assert (size (concerts (store w')) ≠ 0)%nat
      by (apply (map_size_ne_0_lookup_2 _ concertId); eauto).
    lia.
  - rewrite map_size_empty in Hsize. lia.
  - intros Hnone. rewrite map_size_empty in Hsize.
    assert (size (concerts (store w')) ≠ 0)%nat
      by (apply (map_size_ne_0_lookup_2 _ concertId); eauto).
    lia.
Qed.

Lemma logConcert_on_fresh_store_witness :
  let w := onlineWorld freshStore in
  ∃ concertId w',
    logConcert "u1" "The Band" "The Venue" 1000 5 (Some "great show") w
    = (Resolved concertId, w')
    ∧ size (artists (store w')) = 1%nat
    ∧ size (venues (store w')) = 1%nat
    ∧ size (concerts (store w')) = 1%nat
    ∧ User.loggedConcertsCount <$> users (store w) !! "u1" = Some 0
    ∧ User.loggedConcertsCount <$> users (store w') !! "u1" = Some 1.
Proof.
  intros w.
  set (run := logConcert "u1" "The Band" "The Venue" 1000 5 (Some "great show") w).
  assert (Hrun : run = (Resolved "0", run.2)) by (vm_compute; reflexivity).
  destruct (logConcert_on_fresh_store "u1" "The Band" "The Venue" 1000 5
              (Some "great show") w run.2 "0" eq_refl eq_refl eq_refl eq_refl Hrun)
    as (aid & vid & t1 & t2 & u & Ha & Hv & Hu & Hu' & _ & _ & _ & _ & Hone).
  exists "0", run.2. split; [exact Hrun|].
  split; [rewrite Ha; apply map_size_singleton|].
  split; [rewrite Hv; apply map_size_singleton|].
  split; [apply Hone; reflexivity|].
  split; [reflexivity|].
  rewrite Hu', lookup_insert_eq. cbn.
  vm_compute in Hu. injection Hu as <-. reflexivity.
Defined.

(** Not always exactly one concert: when the counter update fails once
    with [unavailable], the retry logs the concert again, and the call that
    resolves leaves two concerts. *)
Lemma logConcert_retry_logs_twice :
  let w := withSchedule counterUpdateFails (onlineWorld freshStore) in
  let run := logConcert "u1" "The Band" "The Venue" 1000 5 (Some "great show") w in
  artists (store w) = ∅ ∧ venues (store w) = ∅ ∧ concerts (store w) = ∅
  ∧ (∃ concertId, run.1 = Resolved concertId)
  ∧ size (concerts (store run.2)) = 2%nat
  ∧ size (concerts (store run.2)) ≠ 1%nat.
Proof.
  cbv zeta. split; [reflexivity|]. split; [reflexivity|]. split; [reflexivity|].
  split; [eexists; vm_compute; reflexivity|].
  split; [vm_compute; reflexivity | vm_compute; discriminate].
Qed.

Section GrownFacts.
Context {D : Type} (p : D → bool) (make : Z → D).
Hypothesis make_matches : ∀ t, p (make t) = true.

Lemma grown_created (m0 m : gmap string D) id d :
  grown p make m0 m → countWhere p m0 = 0%nat → m !! id = Some d → p d = true →
  ∃ t, m0 !! id = None ∧ d = make t ∧ m = <[id := make t]> m0
       ∧ countWhere p m = 1%nat.
Proof.
  intros [-> | (_ & id' & t & Hnone & ->)] Hzero Hd Hp.
  - pose proof (countWhere_positive _ _ _ _ Hd Hp). lia.
  - destruct (decide (id' = id)) as [->|Hne].
    + rewrite lookup_insert_eq in Hd. injection Hd as <-. exists t.
      repeat split; try assumption.
      rewrite countWhere_insert, make_matches, Hzero by assumption. reflexivity.
    + rewrite lookup_insert_ne in Hd by assumption.
      pose proof (countWhere_positive _ _ _ _ Hd Hp). lia.
Qed.

Lemma grown_unchanged (m0 m : gmap string D) :
  grown p make m0 m → (1 ≤ countWhere p m0)%nat → m = m0.
Proof. intros [-> | (Hzero & _)] Hone; [reflexivity | lia]. Qed.

(** In a collection with one match, created under [id], a match is [id]. *)
Lemma created_unique (m0 : gmap string D) id t id' d :
  countWhere p m0 = 0%nat → <[id := make t]> m0 !! id' = Some d → p d = true → id' = id.
Proof.
  intros Hzero Hd Hp. destruct (decide (id = id')) as [->|Hne]; [reflexivity|].
  rewrite lookup_insert_ne in Hd by assumption.
  pose proof (countWhere_positive _ _ _ _ Hd Hp). lia.
Qed.

End GrownFacts.

(** What a look-up that resolves has done, for the two kinds of entity. *)
Lemma findOrCreate_resolved {D} (coll : Store → gmap string D)
    (put : (gmap string D → gmap string D) → Store → Store)
    (p : D → bool) (make : Z → D) (collName label : string)
    (Hmake : ∀ t, p (make t) = true) (Hput : ∀ f s, coll (put f s) = f (coll s))
    (w : World) ref w' :
  connectionState w = connected →
  findOrCreate coll put p make collName label w = (Resolved ref, w') →
  ∃ id d,
    ref = docPath collName id ∧ coll (store w') !! id = Some d ∧ p d = true
    ∧ ((1 ≤ countWhere p (coll (store w)))%nat →
         store w' = store w ∧ coll (store w) !! id = Some d)
    ∧ (countWhere p (coll (store w)) = 0%nat →
         coll (store w) !! id = None
         ∧ ∃ t, d = make t ∧ store w' = put (insert id (make t)) (store w)).
Proof.
  intros Hc Hrun.
  pose proof (findOrCreate_spec coll put p make collName label Hmake w w
                (conj (underway_refl _ Hc) eq_refl)) as H.
  rewrite Hrun in H. destruct H as (_ & id & d & -> & Hp & Hres).
  exists id, d. split; [reflexivity|].
  destruct Hres as [[Hd Hs] | (Hzero & Hnone & [t ->] & Hs)].
  - rewrite Hs. split; [assumption|]. split; [assumption|]. split; [auto|].
    intros Hzero. pose proof (countWhere_positive _ _ _ _ Hd Hp). lia.
  - rewrite Hs, Hput, lookup_insert_eq. split; [reflexivity|]. split; [assumption|].
    split; [lia|]. intros _. eauto.
Qed.

(** C7. A look-up that resolves returns the reference of a document with
    exactly the given name; when the store holds such a document it is one
    of those and the store is as it was; otherwise the document is new, the
    only change to the store (for a venue, with "Unknown" for city, state
    and country).  Two calls of [logConcert] in a row with the same two
    names, on a store that has neither, that both resolve, leave one artist
    and one venue with these names, the only ones added, and every concert
    added points to them. *)
Theorem entity_resolution_reuses (artistName venueName : string) (w : World)
    (Hconnected : connectionState w = connected) :
  (∀ ref w', findOrCreateArtist artistName w = (Resolved ref, w') →
     ∃ id d,
       ref = docPath "artists" id ∧ artists (store w') !! id = Some d
       ∧ Artist.name d = artistName
       ∧ ((1 ≤ countWhere (artistNamed artistName) (artists (store w)))%nat →
            store w' = store w ∧ artists (store w) !! id = Some d)
       ∧ (countWhere (artistNamed artistName) (artists (store w)) = 0%nat →
            artists (store w) !! id = None
            ∧ ∃ t, d = Artist.mk artistName t
                   ∧ store w' = set_artists (insert id d) (store w)))
  ∧ (∀ ref w', findOrCreateVenue venueName w = (Resolved ref, w') →
       ∃ id d,
         ref = docPath "venues" id ∧ venues (store w') !! id = Some d
         ∧ Venue.name d = venueName
         ∧ ((1 ≤ countWhere (venueNamed venueName) (venues (store w)))%nat →
              store w' = store w ∧ venues (store w) !! id = Some d)
         ∧ (countWhere (venueNamed venueName) (venues (store w)) = 0%nat →
              venues (store w) !! id = None
              ∧ ∃ t, d = Venue.mk venueName "Unknown" "Unknown" "Unknown" t
                     ∧ store w' = set_venues (insert id d) (store w)))
  ∧ (∀ userId1 date1 rating1 notes1 userId2 date2 rating2 notes2 concertId1 w1
       concertId2 w2,
       countWhere (artistNamed artistName) (artists (store w)) = 0%nat →
       countWhere (venueNamed venueName) (venues (store w)) = 0%nat →
       logConcert userId1 artistName venueName date1 rating1 notes1 w
       = (Resolved concertId1, w1) →
       logConcert userId2 artistName venueName date2 rating2 notes2 w1
       = (Resolved concertId2, w2) →
       ∃ artistId venueId t1 t2,
         artists (store w) !! artistId = None
         ∧ artists (store w2) = <[artistId := Artist.mk artistName t1]> (artists (store w))
         ∧ countWhere (artistNamed artistName) (artists (store w2)) = 1%nat
         ∧ venues (store w) !! venueId = None
         ∧ venues (store w2)
           = <[venueId := Venue.mk venueName "Unknown" "Unknown" "Unknown" t2]>
               (venues (store w))
         ∧ countWhere (venueNamed venueName) (venues (store w2)) = 1%nat
         ∧ concertId1 ≠ concertId2
         ∧ is_Some (concerts (store w2) !! concertId1)
         ∧ is_Some (concerts (store w2) !! concertId2)
         ∧ (∀ id c, concerts (store w2) !! id = Some c → concerts (store w) !! id = None →
              Concert.artistRef c = docPath "artists" artistId
              ∧ Concert.venueRef c = docPath "venues" venueId)).
Proof.
  split; [|split].
  - intros ref w' Hrun. rewrite findOrCreateArtist_shape in Hrun.
    destruct (findOrCreate_resolved artists set_artists _ _ _ _
                (artistNamed_newArtist artistName) (λ _ _, eq_refl) w ref w'
                Hconnected Hrun)
      as (id & d & -> & Hd & Hp & Hfound & Hcreated).
    exists id, d. split; [reflexivity|]. split; [assumption|].
    split; [now apply String.eqb_eq in Hp|]. split; [assumption|].
    intros Hzero. destruct (Hcreated Hzero) as (Hnone & t & -> & Hs). eauto.
  - intros ref w' Hrun. rewrite findOrCreateVenue_shape in Hrun.
    destruct (findOrCreate_resolved venues set_venues _ _ _ _
                (venueNamed_newVenue venueName) (λ _ _, eq_refl) w ref w'
                Hconnected Hrun)
      as (id & d & -> & Hd & Hp & Hfound & Hcreated).
    exists id, d. split; [reflexivity|]. split; [assumption|].
    split; [now apply String.eqb_eq in Hp|]. split; [assumption|].
    intros Hzero. destruct (Hcreated Hzero) as (Hnone & t & -> & Hs). eauto.
  - intros userId1 date1 rating1 notes1 userId2 date2 rating2 notes2 concertId1 w1
      concertId2 w2 Hnoartist Hnovenue Hrun1 Hrun2.
    destruct (logConcert_resolved _ _ _ _ _ _ _ _ _ Hconnected Hrun1)
      as ((Hconnected1 & _) & (Ha1 & Hv1 & Hsub1 & Hnew1 & _) & _ & [c1 Hc1] & Hfresh1 & _).
    destruct (logConcert_resolved _ _ _ _ _ _ _ _ _ Hconnected1 Hrun2)
      as (_ & (Ha2 & Hv2 & Hsub2 & Hnew2 & _) & _ & [c2 Hc2] & Hfresh2 & _).
    (* the first call created the artist and the venue *)
    destruct (Hnew1 _ _ Hc1 Hfresh1)
      as (_ & _ & _ & _ & _ & _ & (aid & a & _ & Hla & Hna) & (vid & v & _ & Hlv & Hnv)).
    assert (Hpa : artistNamed artistName a = true) by (apply String.eqb_eq; exact Hna).
    assert (Hpv : venueNamed venueName v = true) by (apply String.eqb_eq; exact Hnv).
    destruct (grown_created _ _ (artistNamed_newArtist artistName) _ _ _ _
                Ha1 Hnoartist Hla Hpa) as (t1 & Hnone_a & -> & Hartists1 & Hcount_a).
    destruct (grown_created _ _ (venueNamed_newVenue venueName) _ _ _ _
                Hv1 Hnovenue Hlv Hpv) as (t2 & Hnone_v & -> & Hvenues1 & Hcount_v).
    (* the second call found them *)
    assert (Hartists2 : artists (store w2) = artists (store w1))
      by (apply (grown_unchanged _ _ _ _ Ha2); lia).
    assert (Hvenues2 : venues (store w2) = venues (store w1))
      by (apply (grown_unchanged _ _ _ _ Hv2); lia).
    exists aid, vid, t1, t2.
    split; [assumption|]. split; [now rewrite Hartists2|].
    split; [now rewrite Hartists2|].
    split; [assumption|]. split; [now rewrite Hvenues2|].
    split; [now rewrite Hvenues2|].
    split; [intros ->; congruence|].
    split; [exists c1; eapply lookup_weaken; eassumption|].
    split; [eauto|].
    intros id c Hid Hold.
    assert (Hlogged : ∃ aid' a' vid' v',
               Concert.artistRef c = docPath "artists" aid'
               ∧ artists (store w1) !! aid' = Some a' ∧ Artist.name a' = artistName
               ∧ Concert.venueRef c = docPath "venues" vid'
               ∧ venues (store w1) !! vid' = Some v' ∧ Venue.name v' = venueName).
    { destruct (concerts (store w1) !! id) as [c'|] eqn:Hmid.
      - assert (c' = c) as -> by (pose proof (lookup_weaken _ _ _ _ Hmid Hsub2); congruence).
        destruct (Hnew1 _ _ Hmid Hold)
          as (_ & _ & _ & _ & _ & _ & (aid' & a' & ? & ? & ?) & (vid' & v' & ? & ? & ?)).
        exists aid', a', vid', v'. auto 10.
      - destruct (Hnew2 _ _ Hid Hmid)
          as (_ & _ & _ & _ & _ & _ & (aid' & a' & ? & Hla' & ?) & (vid' & v' & ? & Hlv' & ?)).
        rewrite Hartists2 in Hla'. rewrite Hvenues2 in Hlv'.
        exists aid', a', vid', v'. auto 10. }
    destruct Hlogged as (aid' & a' & vid' & v' & Hra & Hla' & Hna' & Hrv & Hlv' & Hnv').
    rewrite Hartists1 in Hla'. rewrite Hvenues1 in Hlv'.
    assert (aid' = aid) as ->.
    { eapply (created_unique (artistNamed artistName)); [exact Hnoartist | exact Hla' |].
      now apply String.eqb_eq. }
    assert (vid' = vid) as ->.
    { eapply (created_unique (venueNamed venueName)); [exact Hnovenue | exact Hlv' |].
      now apply String.eqb_eq. }
    auto.
Qed.

Lemma entity_resolution_reuses_witness :
  let w := onlineWorld freshStore in
  let first := logConcert "u1" "The Band" "The Venue" 1000 5 (Some "great show") w in
  let second := logConcert "u1" "The Band" "The Venue" 2000 4 None first.2 in
  let other := findOrCreateArtist "the band" second.2 in
  first.1 = Resolved "0" ∧ second.1 = Resolved "1"
  ∧ size (artists (store second.2)) = 1%nat
  ∧ size (venues (store second.2)) = 1%nat
  ∧ size (concerts (store second.2)) = 2%nat
  ∧ Concert.artistRef <$> concerts (store second.2) !! "0"
    = Concert.artistRef <$> concerts (store second.2) !! "1"
  ∧ size (artists (store other.2)) = 2%nat.
Proof.
  intros w first second other.
  assert (Hfirst : first = (Resolved "0", first.2)) by (vm_compute; reflexivity).
  assert (Hsecond : second = (Resolved "1", second.2)) by (vm_compute; reflexivity).
  destruct (entity_resolution_reuses "The Band" "The Venue" w eq_refl) as (_ & _ & Htwice).
  destruct (Htwice "u1" 1000 5 (Some "great show") "u1" 2000 4 None "0" first.2 "1" second.2
              eq_refl eq_refl Hfirst Hsecond)
    as (aid & vid & t1 & t2 & Hna & Ha & _ & Hnv & Hv & _ & _ & [c1 Hc1] & [c2 Hc2] & Hrefs).
  split; [now rewrite Hfirst|]. split; [now rewrite Hsecond|].
  split; [rewrite Ha; now rewrite map_size_insert_None|].
  split; [rewrite Hv; now rewrite map_size_insert_None|].
  split; [vm_compute; reflexivity|].
  split.
  - rewrite Hc1, Hc2. cbn.
    destruct (Hrefs _ _ Hc1 eq_refl) as [-> _].
    destruct (Hrefs _ _ Hc2 eq_refl) as [-> _]. reflexivity.
  - destruct (entity_resolution_reuses "the band" "The Venue" second.2 eq_refl)
      as (Hartist & _).
    assert (Hother : other = (Resolved "artists/1", other.2)) by (vm_compute; reflexivity).
    destruct (Hartist _ _ Hother) as (id & d & _ & _ & _ & _ & Hcreated).
    destruct (Hcreated eq_refl) as (Hnone & t & -> & ->).
    cbn [artists set_artists]. rewrite map_size_insert_None by assumption.
    rewrite Ha. now rewrite map_size_insert_None.
Defined.

(** *** Sorting *)

Section JsSort.
Context {A : Type} (key : A → Z) (compare : A → A → Z).
Hypothesis compare_key : ∀ a b, compare a b = key b - key a.

Local Abbreviation before := (λ a b : A, key b ≤ key a).

Lemma js_insert_Permutation x l : js_insert compare x l ≡ₚ x :: l.
Proof.
  induction l as [|y l IH]; cbn; [reflexivity|].
  destruct (compare x y <=? 0); [reflexivity|].
  rewrite IH. apply perm_swap.
Qed.

Lemma js_sort_Permutation l : js_sort compare l ≡ₚ l.
Proof.
  induction l as [|x l IH]; cbn; [reflexivity|].
  rewrite js_insert_Permutation. now rewrite IH.
Qed.

Lemma js_insert_sorted x l :
  StronglySorted before l → StronglySorted before (js_insert compare x l).
Proof.
  induction 1 as [|y l Hl IH Hy]; cbn.
  - repeat constructor.
  - destruct (Z.leb_spec (compare x y) 0) as [Hle|Hgt]; rewrite compare_key in *.
    + constructor; [now constructor|].
      constructor; [lia|]. eapply Forall_impl; [exact Hy|]. cbn. intros z Hz. lia.
    + constructor; [assumption|].
      rewrite (js_insert_Permutation x l). constructor; [lia | assumption].
Qed.

Lemma js_sort_sorted l : StronglySorted before (js_sort compare l).
Proof.
  induction l as [|x l IH]; cbn; [constructor | now apply js_insert_sorted].
Qed.

Lemma StronglySorted_take n l :
  StronglySorted before l → StronglySorted before (take n l).
Proof.
  intros H. revert n. induction H as [|x l Hl IH Hx]; intros [|n]; cbn;
    try constructor; auto.
  eapply Forall_forall. intros y Hy. rewrite Forall_forall in Hx. apply Hx.
  eapply subseteq_take, Hy.
Qed.

Lemma StronglySorted_descending l : StronglySorted before l → descending key l.
Proof.
  induction 1 as [|x l Hl IH Hx]; intros i j a b Hij Hi Hj.
  - rewrite lookup_nil in Hi. discriminate.
  - destruct j as [|j]; [lia|]. cbn in Hj. destruct i as [|i]; cbn in Hi.
    + injection Hi as <-. rewrite Forall_forall in Hx. apply Hx.
      eapply list_elem_of_lookup_2, Hj.
    + apply (IH i j); [lia | assumption | assumption].
Qed.

Lemma js_sort_limit_descending n l : descending key (limit n (js_sort compare l)).
Proof. apply StronglySorted_descending, StronglySorted_take, js_sort_sorted. Qed.

End JsSort.

Lemma limit_length {A} n (l : list A) : (length (limit n l) ≤ n)%nat.
Proof. unfold limit. rewrite length_take. lia. Qed.

(** *** The feed *)

Lemma hoare_getDocs {D} (select : Store → Snapshot D) s0 :
  hoare (reading s0) (getDocs select)
        (λ snapshot w, reading s0 w ∧ snapshot = select s0) (reading s0).
Proof.
  unfold getDocs. apply hoare_backend.
  - intros w e fs [Hc Hs] _. split; assumption.
  - intros w [Hc Hs] _. cbn. rewrite Hs. repeat split; assumption.
Qed.

Lemma hoare_forEachAsync {X Y} (f : X → M Y) (R : X → Y → Prop) (I : World → Prop) xs :
  (∀ x, x ∈ xs → hoare I (f x) (λ y w, I w ∧ R x y) I) →
  hoare I (forEachAsync f xs) (λ ys w, I w ∧ Forall2 R xs ys) I.
Proof.
  induction xs as [|x xs IH]; intros Hf; cbn [forEachAsync].
  - apply hoare_ret. intros w Hw. split; [assumption | constructor].
  - eapply hoare_bind; [apply Hf; left|]. intros y.
    apply hoare_ghost. intros w1 [Hw1 Hy].
    eapply hoare_bind.
    { eapply hoare_consequence;
        [apply IH; intros x' Hx'; apply Hf; now right | | |].
      - intros w ->. exact Hw1.
      - intros ys w H. exact H.
      - auto. }
    intros ys. apply hoare_ret. intros w [Hw Hys]. split; [assumption|].
    now constructor.
Qed.

(** [getFollowingUsers] never rejects, and finds nobody when nobody is
    followed. *)
Lemma getFollowingUsers_spec userId s0 :
  hoare (reading s0) (getFollowingUsers userId)
        (λ ids w, reading s0 w ∧ (children (following s0) userId = ∅ → ids = []))
        (λ _, False).
Proof.
  unfold getFollowingUsers.
  apply (hoare_try_catch _ _ _ _ (reading s0)).
  - apply hoare_executeWithRetry.
    + intros w [Hc _]. exact Hc.
    + intros w ms H. exact H.
    + eapply hoare_bind; [apply hoare_getDocs|].
      intros snapshot. apply hoare_ret. intros w [Hw ->]. split; [assumption|].
      intros ->. now rewrite map_to_list_empty.
  - intros e. apply hoare_ret. auto.
Qed.

Lemma concertActivity_spec s0 concertDoc :
  concerts s0 !! concertDoc.1 = Some concertDoc.2 →
  hoare (reading s0) (concertActivity concertDoc)
        (λ item w, reading s0 w ∧ showsConcertOf s0 item) (reading s0).
Proof.
  intros Hdoc. unfold concertActivity.
  eapply hoare_bind; [apply hoare_getDocs|].
  intros userDoc. apply hoare_ret. intros w [Hw _]. split; [assumption|].
  intros _. cbn. eauto.
Qed.

Lemma reviewActivity_spec s0 reviewDoc :
  hoare (reading s0) (reviewActivity reviewDoc)
        (λ item w, reading s0 w ∧ showsConcertOf s0 item) (reading s0).
Proof.
  unfold reviewActivity.
  eapply hoare_bind; [apply hoare_getDocs|]. intros userDoc.
  apply hoare_ghost. intros w1 [Hw1 _].
  eapply hoare_bind.
  { eapply hoare_consequence; [apply (hoare_getDocs _ s0) | | |].
    - intros w ->. exact Hw1.
    - intros a w H. exact H.
    - auto. }
  intros concertDoc.
  destruct concertDoc as [|[? concertData] ?]; cbn;
    apply hoare_ret; intros w [Hw _]; (split; [assumption|]); intros H; discriminate H.
Qed.

Lemma limit_orderByDesc_elem {D} (key : D → Z) n (docs : Snapshot D) x :
  x ∈ limit n (orderByDesc key docs) → x ∈ docs.
Proof.
  intros H. apply subseteq_take in H. unfold orderByDesc in H.
  now rewrite merge_sort_Permutation in H.
Qed.

Lemma Forall2_ignore_l {X Y} (Q : Y → Prop) (xs : list X) (ys : list Y) :
  Forall2 (λ _ y, Q y) xs ys → Forall Q ys.
Proof. induction 1; constructor; assumption. Qed.

Lemma feedOf_nil s userId : feedOf s userId [].
Proof.
  unfold feedOf. split; [cbn; lia|]. split; [|split; [reflexivity | constructor]].
  intros i j a b _ Hi. rewrite lookup_nil in Hi. discriminate.
Qed.

(** One attempt at the feed. *)
Lemma getFeedActivities_attempt_spec userId s0 :
  hoare (reading s0) (getFeedActivities_attempt userId)
        (λ l w, reading s0 w ∧ feedOf s0 userId l) (reading s0).
Proof.
  unfold getFeedActivities_attempt.
  eapply hoare_bind.
  { eapply hoare_consequence; [apply (getFollowingUsers_spec userId s0) | auto | | ].
    - intros ids w H. exact H.
    - intros w []. }
  intros followingUserIds. apply hoare_ghost. intros w1 [Hw1 Hnobody].
  destruct (length followingUserIds =? 0)%nat eqn:Hlen.
  { apply hoare_ret. intros w ->. split; [assumption | apply feedOf_nil]. }
  cbv zeta.
  eapply hoare_bind.
  { eapply hoare_consequence; [apply (hoare_getDocs _ s0) | | |].
    - intros w ->. exact Hw1.
    - intros a w H. exact H.
    - auto. }
  intros concertsSnapshot. apply hoare_ghost. intros w2 [Hw2 ->].
  eapply hoare_bind.
  { eapply hoare_consequence;
      [apply (hoare_forEachAsync concertActivity (λ _ item, showsConcertOf s0 item)
                (reading s0)) | | |].
    - intros concertDoc Hin. apply concertActivity_spec.
      apply limit_orderByDesc_elem in Hin. destruct concertDoc as [id c].
      now apply where_elem in Hin as [Hdoc _].
    - intros w ->. exact Hw2.
    - intros a w H. exact H.
    - auto. }
  intros concertItems. apply hoare_ghost. intros w3 [Hw3 Hconcerts].
  eapply hoare_bind.
  { eapply hoare_consequence; [apply (hoare_getDocs _ s0) | | |].
    - intros w ->. exact Hw3.
    - intros a w H. exact H.
    - auto. }
  intros reviewsSnapshot. apply hoare_ghost. intros w4 [Hw4 _].
  eapply hoare_bind.
  { eapply hoare_consequence;
      [apply (hoare_forEachAsync reviewActivity (λ _ item, showsConcertOf s0 item)
                (reading s0)) | | |].
    - intros reviewDoc _. apply reviewActivity_spec.
    - intros w ->. exact Hw4.
    - intros a w H. exact H.
    - auto. }
  intros reviewItems. apply hoare_ret. intros w [Hw Hreviews]. split; [assumption|].
  split; [apply limit_length|]. split; [|split].
  - apply (js_sort_limit_descending FeedItem.timestamp byTimestampDesc). reflexivity.
  - intros Hempty. specialize (Hnobody Hempty). subst followingUserIds. discriminate.
  - apply Forall_forall. intros item Hitem.
    apply subseteq_take in Hitem.
    rewrite (js_sort_Permutation byTimestampDesc) in Hitem.
    apply elem_of_app in Hitem as [Hitem | Hitem].
    + apply Forall2_ignore_l in Hconcerts. rewrite Forall_forall in Hconcerts. auto.
    + apply Forall2_ignore_l in Hreviews. rewrite Forall_forall in Hreviews. auto.
Qed.

(** The feed, started while connected: it resolves, never rejects, and does
    not change the store. *)
Lemma getFeedActivities_spec userId s0 :
  hoare (reading s0) (getFeedActivities userId)
        (λ l w, reading s0 w ∧ feedOf s0 userId l) (λ _, False).
Proof.
  unfold getFeedActivities.
  apply (hoare_try_catch _ _ _ _ (reading s0)).
  - apply hoare_executeWithRetry.
    + intros w [Hc _]. exact Hc.
    + intros w ms H. exact H.
    + apply getFeedActivities_attempt_spec.
  - intros e. apply hoare_ret. intros w Hw. split; [assumption | apply feedOf_nil].
Qed.

(** C5. [getFeedActivities] never rejects; a list it resolves to has at
    most 30 items, in order of non-increasing timestamp; started while
    connected it does resolve, to the empty list when the user follows
    nobody; when the retried pipeline ends in a rejection, it resolves to
    the empty list; and it leaves the store alone. *)
Theorem getFeedActivities_contract (userId : string) (w : World) :
  let r := (getFeedActivities userId w).1 in
  let w' := (getFeedActivities userId w).2 in
  (∀ e, r ≠ Rejected e)
  ∧ (∀ l, r = Resolved l →
       (length l ≤ 30)%nat ∧ descending FeedItem.timestamp l)
  ∧ (connectionState w = connected → ∃ l, r = Resolved l)
  ∧ (connectionState w = connected → children (following (store w)) userId = ∅ →
       r = Resolved [])
  ∧ (∀ e w1, executeWithRetry (getFeedActivities_attempt userId) "getFeedActivities" w
             = (Rejected e, w1) → r = Resolved [])
  ∧ store w' = store w.
Proof.
  cbv zeta.
  assert (Hcatch : ∀ e w1,
             executeWithRetry (getFeedActivities_attempt userId) "getFeedActivities" w
             = (Rejected e, w1) → (getFeedActivities userId w).1 = Resolved []).
  { intros e w1 H. unfold getFeedActivities, try_catch. now rewrite H. }
  destruct (decide (connectionState w = connected)) as [Hc|Hc].
  - pose proof (getFeedActivities_spec userId (store w) w (conj Hc eq_refl)) as H.
    destruct (getFeedActivities userId w) as [[l|e|] w1]; [|destruct H|destruct H].
    destruct H as [[_ Hs] (Hlen & Hsorted & Hnobody & _)]. cbn [fst snd].
    split; [discriminate|]. split; [intros ? [= <-]; auto|].
    split; [eauto|]. split; [intros _ Hempty; now rewrite (Hnobody Hempty)|].
    split; [exact Hcatch | exact Hs].
  - assert (Hrun : getFeedActivities userId w
                   = (Pending, with_retryQueue (retryQueue w ++ ["getFeedActivities"])%list w)).
    { unfold getFeedActivities, try_catch, executeWithRetry, executeWithRetry_events.
      rewrite maxRetries_rounds, retryLoop_not_connected by assumption. reflexivity. }
    rewrite Hrun. cbn [fst snd].
    split; [discriminate|]. split; [discriminate|].
    split; [contradiction|]. split; [contradiction|].
    split; [|reflexivity].
    intros e w1 H. specialize (Hcatch e w1 H). rewrite Hrun in Hcatch. discriminate.
Qed.

Lemma getFeedActivities_contract_witness :
  let w := onlineWorld feedStore in
  (∃ a b, (getFeedActivities "u2" w).1 = Resolved [a; b]
          ∧ FeedItem.type a = review_posted ∧ FeedItem.timestamp a = 3000
          ∧ FeedItem.type b = concert_logged ∧ FeedItem.timestamp b = 2000)
  ∧ (getFeedActivities "u1" w).1 = Resolved []
  ∧ (getFeedActivities "u2" (withSchedule [None; Some permissionDenied] w)).1 = Resolved [].
Proof.
  intros w. split; [|split].
  - destruct (getFeedActivities_contract "u2" w) as (_ & Hbound & Hresolves & _).
    destruct (Hresolves eq_refl) as [l Hl]. destruct (Hbound l Hl) as [_ Hsorted].
    assert (Hrun : (getFeedActivities "u2" w).1
                   = Resolved [FeedItem.mk "review_r1" review_posted "u1" "u1" "c1"
                                 "Unknown Artist at Unknown Venue" "Unknown Artist"
                                 "Unknown Venue" (Some "r1") 3000;
                               FeedItem.mk "concert_c1" concert_logged "u1" "u1" "c1"
                                 "undefined at undefined" "Unknown Artist"
                                 "Unknown Venue" None 2000])
      by (vm_compute; reflexivity).
    eexists _, _. split; [exact Hrun|]. repeat split.
  - destruct (getFeedActivities_contract "u1" w) as (_ & _ & _ & Hnobody & _).
    apply Hnobody; reflexivity.
  - destruct (getFeedActivities_contract "u2" (withSchedule [None; Some permissionDenied] w))
      as (_ & _ & _ & _ & Hcatch & _).
    eapply Hcatch. vm_compute. reflexivity.
Defined.

(** *** Concerts without names *)

Lemma executeWithRetry_not_connected {T} (operation : M T) name w :
  connectionState w ≠ connected →
  executeWithRetry operation name w
  = (Pending, with_retryQueue (retryQueue w ++ [name])%list w).
Proof.
  intros Hc. unfold executeWithRetry, executeWithRetry_events.
  now rewrite maxRetries_rounds, retryLoop_not_connected.
Qed.

(** Whatever becomes of a call to [logConcert], a concert it has added has
    neither [artistName] nor [venueName]. *)
Lemma logConcert_adds_unnamed userId artistName venueName date rating notes w id c :
  concerts (store (logConcert userId artistName venueName date rating notes w).2) !! id
  = Some c →
  concerts (store w) !! id = None →
  Concert.artistName c = None ∧ Concert.venueName c = None.
Proof.
  intros Hnew Hold.
  destruct (decide (connectionState w = connected)) as [Hc|Hc].
  - pose proof (logConcert_spec userId artistName venueName date rating notes w w
                  (logConcertInv_start _ _ _ _ _ _ _ Hc)) as H.
    destruct (logConcert userId artistName venueName date rating notes w)
      as [[cid|e|] w1]; cbn [snd] in Hnew; [| |destruct H].
    + destruct H as (_ & (_ & _ & _ & Hlogged & _) & _).
      destruct (Hlogged _ _ Hnew Hold) as (_ & _ & _ & _ & ? & ? & _). auto.
    + destruct H as (_ & (_ & _ & _ & Hlogged & _) & _).
      destruct (Hlogged _ _ Hnew Hold) as (_ & _ & _ & _ & ? & ? & _). auto.
  - unfold logConcert in Hnew. rewrite executeWithRetry_not_connected in Hnew by assumption.
    cbn in Hnew. congruence.
Qed.

Lemma pushUnlessPresent_elem {D} (venueSnapshot acc : Snapshot D) x :
  x ∈ fold_left pushUnlessPresent venueSnapshot acc → x ∈ acc ∨ x ∈ venueSnapshot.
Proof.
  revert acc. induction venueSnapshot as [|y ys IH]; intros acc H; cbn in H; [now left|].
  apply IH in H as [H|H]; [|right; now right].
  unfold pushUnlessPresent in H. destruct (existsb _ acc); [now left|].
  apply elem_of_app in H as [H|H]; [now left|].
  apply list_elem_of_singleton in H as ->. right. left.
Qed.

Lemma limit_orderByString_elem {D} (key : D → string) n (docs : Snapshot D) x :
  x ∈ limit n (orderByString key docs) → x ∈ docs.
Proof.
  intros H. apply subseteq_take in H. unfold orderByString in H.
  now rewrite merge_sort_Permutation in H.
Qed.

(** What [searchConcerts] returns are concerts of the store whose
    [artistName] or [venueName] is in the range of the search term. *)
Lemma searchConcerts_returns searchTerm w l w' id c :
  searchConcerts searchTerm w = (Resolved l, w') →
  (id, c) ∈ l →
  concerts (store w) !! id = Some c
  ∧ (inPrefixRange searchTerm (Concert.artistName c) = true
     ∨ inPrefixRange searchTerm (Concert.venueName c) = true).
Proof.
  unfold searchConcerts, try_catch, bind, getDocs, ret.
  backend_step; [intros [= <- _] Hin; inversion Hin|]. cbn [fst snd].
  backend_step; [intros [= <- _] Hin; inversion Hin|]. cbn [fst snd store with_store
    with_faults].
  match goal with |- (Resolved ?x, _) = _ → _ => remember x as found eqn:Hfound end.
  intros [= <- _] Hin. subst found. unfold limit at 1 in Hin.
  apply subseteq_take, pushUnlessPresent_elem in Hin as [Hin|Hin];
    apply limit_orderByString_elem, where_elem in Hin as [Hdoc Hrange]; auto.
Qed.

(** C10. A concert document that a call of [logConcert] has added has no
    [artistName] and no [venueName]; whenever such a document sits in the
    store, no search, for any term, returns it, and every feed item of
    type [concert_logged] that refers to it shows "Unknown Artist" and
    "Unknown Venue". *)
Theorem logged_concerts_are_anonymous
    (userId artistName venueName : string) (date rating : Z) (notes : option string)
    (w : World) (id : string) (c : Concert.t)
    (Hadded : concerts (store (logConcert userId artistName venueName date rating notes
                                w).2) !! id = Some c)
    (Hnew : concerts (store w) !! id = None) :
  (Concert.artistName c = None ∧ Concert.venueName c = None)
  ∧ (∀ searchTerm w1 l w1',
       concerts (store w1) !! id = Some c →
       searchConcerts searchTerm w1 = (Resolved l, w1') →
       id ∉ l.*1)
  ∧ (∀ viewer w1 l item,
       concerts (store w1) !! id = Some c →
       (getFeedActivities viewer w1).1 = Resolved l →
       item ∈ l →
       FeedItem.type item = concert_logged →
       FeedItem.concertId item = id →
       FeedItem.artistName item = "Unknown Artist"
       ∧ FeedItem.venueName item = "Unknown Venue").
Proof.
  destruct (logConcert_adds_unnamed _ _ _ _ _ _ _ _ _ Hadded Hnew) as [Hartist Hvenue].
  split; [auto|]. split.
  - intros searchTerm w1 l w1' Hdoc Hrun Hin.
    apply list_elem_of_fmap in Hin as ([id' c'] & -> & Hin).
    destruct (searchConcerts_returns _ _ _ _ _ _ Hrun Hin) as [Hdoc' Hrange].
    cbn in Hdoc. assert (c' = c) as -> by congruence.
    rewrite Hartist, Hvenue in Hrange. cbn in Hrange. destruct Hrange; discriminate.
  - intros viewer w1 l item Hdoc Hrun Hin Htype Hid.
    destruct (decide (connectionState w1 = connected)) as [Hc|Hc].
    + pose proof (getFeedActivities_spec viewer (store w1) w1 (conj Hc eq_refl)) as H.
      destruct (getFeedActivities viewer w1) as [[l'|e|] w2]; [|destruct H|destruct H].
      cbn in Hrun. injection Hrun as ->.
      destruct H as (_ & _ & _ & _ & Hitems). rewrite Forall_forall in Hitems.
      destruct (Hitems _ Hin Htype) as (c' & Hdoc' & -> & ->).
      rewrite Hid in Hdoc'. assert (c' = c) as -> by congruence.
      now rewrite Hartist, Hvenue.
    + unfold getFeedActivities, try_catch in Hrun.
      rewrite executeWithRetry_not_connected in Hrun by assumption. discriminate.
Qed.

Lemma logged_concerts_are_anonymous_witness :
  let w := onlineWorld feedStore in
  let w1 := (logConcert "u1" "The Band" "The Venue" 1000 5 (Some "great show") w).2 in
  ∃ id c,
    concerts (store w) !! id = None
    ∧ concerts (store w1) !! id = Some c
    ∧ Concert.artistName c = None ∧ Concert.venueName c = None
    ∧ (searchConcerts "The" w1).1 = Resolved []
    ∧ ∃ first second item,
        (getFeedActivities "u2" w1).1 = Resolved [first; second; item]
        ∧ FeedItem.type item = concert_logged
        ∧ FeedItem.concertId item = id
        ∧ FeedItem.artistName item = "Unknown Artist"
        ∧ FeedItem.venueName item = "Unknown Venue".
Proof.
  intros w w1.
  assert (Hnew : concerts (store w) !! "0" = None) by (vm_compute; reflexivity).
  assert (Hadded : ∃ c, concerts (store w1) !! "0" = Some c)
    by (eexists; vm_compute; reflexivity).
  destruct Hadded as [c Hadded].
  destruct (logged_concerts_are_anonymous "u1" "The Band" "The Venue" 1000 5
              (Some "great show") w "0" c Hadded Hnew) as ([Ha Hv] & _ & Hfeed).
  exists "0", c. split; [assumption|]. split; [assumption|].
  split; [assumption|]. split; [assumption|].
  split; [vm_compute; reflexivity|].
  assert (Hrun : ∃ first second item,
             (getFeedActivities "u2" w1).1 = Resolved [first; second; item]
             ∧ FeedItem.type item = concert_logged
             ∧ FeedItem.concertId item = "0").
  { eexists _, _, _. split; [vm_compute; reflexivity|]. split; reflexivity. }
  destruct Hrun as (first & second & item & Hrun & Htype & Hid).
  exists first, second, item. split; [assumption|]. split; [assumption|].
  split; [assumption|].
  apply (Hfeed "u2" w1 [first; second; item] item Hadded Hrun);
    [right; right; left | assumption | assumption].
Defined.

(** *** What the retry wrapper returns *)

(** While connected, what [executeWithRetry] returns is what one of the
    attempts returned, provided an attempt that is rejected restores the
    invariant [I] under which attempts are made. *)
Lemma retryLoop_is_an_attempt {T} (operation : M T) name (I : World → Prop)
    rounds attempt lastError w :
  (∀ w, I w → connectionState w = connected) →
  (∀ w ms, I w → I (with_clock (clock w + ms) w)) →
  (∀ w, I w → match operation w with
              | (Rejected _, w') => I w'
              | (Pending, _) => False
              | _ => True
              end) →
  Z.of_nat rounds = maxRetries - attempt + 1 →
  (0 < rounds)%nat →
  I w →
  ∃ w1, I w1
        ∧ operation w1 = (retryLoop rounds attempt operation name lastError w).1.
Proof.
  intros Hconn Hwait Hop. revert attempt lastError w.
  induction rounds as [|rounds IH]; intros attempt lastError w Hrounds Hpos Hi; [lia|].
  cbn [retryLoop]. rewrite (decide_True _ _ (Hconn _ Hi)).
  pose proof (Hop w Hi) as Hw.
  destruct (operation w) as [[a|e|] w1] eqn:Hrun; [eauto|  |destruct Hw].
  destruct (isNetworkError e); [|eauto].
  destruct (Z.ltb_spec attempt maxRetries) as [Hlt|Hge].
  - destruct (IH (attempt + 1) e (delay (retryDelay * attempt) w1).2 ltac:(lia) ltac:(lia)
                (Hwait _ _ Hw)) as (w2 & Hi2 & Hrun2).
    exists w2. split; [assumption|]. rewrite Hrun2.
    now destruct (retryLoop rounds (attempt + 1) operation name e _) as [[r w3] evs].
  - assert (rounds = 0%nat) as -> by lia. cbn. eauto.
Qed.

Lemma executeWithRetry_is_an_attempt {T} (operation : M T) name (I : World → Prop) w :
  (∀ w, I w → connectionState w = connected) →
  (∀ w ms, I w → I (with_clock (clock w + ms) w)) →
  (∀ w, I w → match operation w with
              | (Rejected _, w') => I w'
              | (Pending, _) => False
              | _ => True
              end) →
  I w →
  ∃ w1, I w1 ∧ operation w1 = executeWithRetry operation name w.
Proof.
  intros Hconn Hwait Hop Hi. unfold executeWithRetry, executeWithRetry_events.
  apply (retryLoop_is_an_attempt operation name I); auto.
  rewrite maxRetries_rounds. lia.
Qed.

(** *** Reviews of a concert *)

Lemma orderByDesc_descending {D} (key : D → Z) (docs : Snapshot D) :
  descending (λ kd, key kd.2) (orderByDesc key docs).
Proof.
  apply (StronglySorted_descending (λ kd : string * D, key kd.2)).
  unfold orderByDesc.
  assert (Transitive (newestFirst key)) by (intros a b c; unfold newestFirst; lia).
  assert (Total (newestFirst key)) by (intros a b; unfold newestFirst; lia).
  apply (StronglySorted_merge_sort (newestFirst key)).
Qed.

(** One attempt, case by case on what the store answers. *)
Lemma getConcertReviews_attempt_cases concertId w :
  let primary := orderByDesc Review.createdAt (reviewsOf concertId (store w)) in
  let fallback := js_sort byCreatedAtDesc (reviewsOf concertId (store w)) in
  match faults w with
  | Some e :: fs =>
      if isIndexError e then
        match fs with
        | Some e' :: fs' =>
            getConcertReviews_attempt concertId w = (Rejected e', with_faults fs' w)
        | _ =>
            getConcertReviews_attempt concertId w
            = (Resolved (mkReviewsResult fallback true), with_faults (tail fs) w)
        end
      else getConcertReviews_attempt concertId w = (Rejected e, with_faults fs w)
  | _ =>
      getConcertReviews_attempt concertId w
      = (Resolved (mkReviewsResult primary false), with_faults (tail (faults w)) w)
  end.
Proof.
  cbv zeta. unfold getConcertReviews_attempt, try_catch, bind, getDocs, backend, ret.
  destruct w as [s t fs c q u a]. cbn [faults store with_faults with_store head tail].
  destruct fs as [|[e|] fs]; cbn [head tail]; try reflexivity.
  unfold isIndexError.
  destruct (JsString.includes (default "" (message e)) "currently building") eqn:E1;
    cbn [orb].
  - unfold fallbackReviews, bind, getDocs, backend, ret.
    cbn [faults store with_faults with_store head tail].
    destruct fs as [|[e'|] fs]; reflexivity.
  - destruct (JsString.includes (default "" (message e)) "requires an index") eqn:E2.
    + unfold fallbackReviews, bind, getDocs, backend, ret.
      cbn [faults store with_faults with_store head tail].
      destruct fs as [|[e'|] fs]; reflexivity.
    + reflexivity.
Qed.

(** An attempt settles, and only reads. *)
Lemma getConcertReviews_attempt_reads concertId s0 w :
  reading s0 w →
  match getConcertReviews_attempt concertId w with
  | (Pending, _) => False
  | (_, w') => reading s0 w'
  end.
Proof.
  intros [Hc Hs]. pose proof (getConcertReviews_attempt_cases concertId w) as H.
  cbv zeta in H.
  destruct (faults w) as [|[e|] fs].
  - rewrite H. split; assumption.
  - destruct (isIndexError e).
    + destruct fs as [|[e'|] fs']; rewrite H; split; assumption.
    + rewrite H. split; assumption.
  - rewrite H. split; assumption.
Qed.

Lemma getConcertReviews_attempt_usingFallback concertId w res w' :
  getConcertReviews_attempt concertId w = (Resolved res, w') →
  (usingFallback res = true ↔ ∃ e fs, faults w = Some e :: fs ∧ isIndexError e = true).
Proof.
  intros Hrun. pose proof (getConcertReviews_attempt_cases concertId w) as H.
  cbv zeta in H.
  destruct (faults w) as [|[e|] fs] eqn:Hfs.
  - rewrite H in Hrun. injection Hrun as <- _. cbn.
    split; [discriminate | intros (? & ? & ? & _); discriminate].
  - destruct (isIndexError e) eqn:He.
    + destruct fs as [|[e'|] fs']; rewrite H in Hrun; try discriminate;
        injection Hrun as <- _; cbn; (split; [eauto | reflexivity]).
    + rewrite H in Hrun. discriminate.
  - rewrite H in Hrun. injection Hrun as <- _. cbn.
    split; [discriminate | intros (? & ? & ? & _); discriminate].
Qed.

(** C9. While connected: the primary path returns the reviews whose
    [concertRef] is the path of the concert, each once and no other review,
    ordered by creation time, newest first, with [usingFallback = false];
    when the store answers the ordered query with an index error, the
    unordered query is run, its result sorted newest first in memory, and
    [usingFallback = true]; any other error is rethrown by the attempt, and
    reaches the caller at once unless it is transient, in which case it
    reaches the caller when it persists over the three attempts.  What is
    returned is always what one attempt on the same store returned, and an
    attempt sets [usingFallback] exactly when its ordered query met an
    index error. *)
Theorem getConcertReviews_fallback_contract (concertId : string) (w : World)
    (Hconnected : connectionState w = connected) :
  let matching := reviewsOf concertId (store w) in
  let primary := orderByDesc Review.createdAt matching in
  let fallback := js_sort byCreatedAtDesc matching in
  ((∀ id r, (id, r) ∈ matching
             ↔ reviews (store w) !! id = Some r
               ∧ Review.concertRef r = docPath "concerts" concertId)
   ∧ NoDup matching.*1
   ∧ primary ≡ₚ matching ∧ descending (λ r, Review.createdAt r.2) primary
   ∧ fallback ≡ₚ matching ∧ descending (λ r, Review.createdAt r.2) fallback)
  ∧ ((∀ e fs, faults w ≠ Some e :: fs) →
       getConcertReviews concertId w
       = (Resolved (mkReviewsResult primary false), with_faults (tail (faults w)) w))
  ∧ (∀ e fs, faults w = Some e :: fs → isIndexError e = true →
       (∀ e' fs', fs ≠ Some e' :: fs') →
       getConcertReviews concertId w
       = (Resolved (mkReviewsResult fallback true), with_faults (tail fs) w))
  ∧ (∀ e fs, faults w = Some e :: fs → isIndexError e = false →
       getConcertReviews_attempt concertId w = (Rejected e, with_faults fs w)
       ∧ (isNetworkError e = false →
            getConcertReviews concertId w = (Rejected e, with_faults fs w)))
  ∧ (∀ e1 e2 e3 fs, faults w = Some e1 :: Some e2 :: Some e3 :: fs →
       isIndexError e1 = false → isIndexError e2 = false → isIndexError e3 = false →
       isNetworkError e1 = true → isNetworkError e2 = true → isNetworkError e3 = true →
       getConcertReviews concertId w
       = (Rejected e3,
          with_clock (clock w + retryDelay * 1 + retryDelay * 2) (with_faults fs w)))
  ∧ (∃ w1, connectionState w1 = connected ∧ store w1 = store w
           ∧ getConcertReviews_attempt concertId w1 = getConcertReviews concertId w)
  ∧ (∀ w1 res w', getConcertReviews_attempt concertId w1 = (Resolved res, w') →
       (usingFallback res = true
        ↔ ∃ e fs, faults w1 = Some e :: fs ∧ isIndexError e = true)).
Proof.
  cbv zeta.
  pose proof (getConcertReviews_attempt_cases concertId w) as Hcases. cbv zeta in Hcases.
  split; [|split; [|split; [|split; [|split; [|split]]]]].
  - split.
    { intros id r. unfold reviewsOf. rewrite where_elem.
      now rewrite String.eqb_eq. }
    split; [apply where_NoDup|].
    split; [apply merge_sort_Permutation|]. split; [apply orderByDesc_descending|].
    split; [apply js_sort_Permutation|].
    apply (StronglySorted_descending (λ r : string * Review.t, Review.createdAt r.2)).
    apply (js_sort_sorted (λ r : string * Review.t, Review.createdAt r.2)). reflexivity.
  - intros Hno. unfold getConcertReviews, executeWithRetry, executeWithRetry_events.
    rewrite maxRetries_rounds.
    erewrite retryLoop_resolved; [reflexivity | assumption |].
    destruct (faults w) as [|[e|] fs]; [exact Hcases | now destruct (Hno e fs) | exact Hcases].
  - intros e fs Hfs He Hno. rewrite Hfs, He in Hcases.
    unfold getConcertReviews, executeWithRetry, executeWithRetry_events.
    rewrite maxRetries_rounds.
    erewrite retryLoop_resolved; [reflexivity | assumption |].
    destruct fs as [|[e'|] fs']; [exact Hcases | now destruct (Hno e' fs') | exact Hcases].
  - intros e fs Hfs He. rewrite Hfs, He in Hcases. split; [exact Hcases|].
    intros Hfatal. unfold getConcertReviews, executeWithRetry, executeWithRetry_events.
    rewrite maxRetries_rounds.
    erewrite retryLoop_fatal; [reflexivity | assumption | exact Hcases | assumption].
  - intros e1 e2 e3 fs Hfs Hi1 Hi2 Hi3 Hn1 Hn2 Hn3. rewrite Hfs, Hi1 in Hcases.
    unfold getConcertReviews, executeWithRetry, executeWithRetry_events.
    rewrite maxRetries_rounds.
    erewrite retryLoop_retry; [| assumption | exact Hcases | assumption | reflexivity].
    pose proof (getConcertReviews_attempt_cases concertId
                  (delay (retryDelay * 1) (with_faults (Some e2 :: Some e3 :: fs) w)).2)
      as Hsecond.
    cbv zeta in Hsecond. cbn [delay snd faults with_clock with_faults] in Hsecond.
    rewrite Hi2 in Hsecond.
    erewrite retryLoop_retry; [| exact Hconnected | exact Hsecond | assumption | reflexivity].
    match type of Hsecond with _ = (_, ?w2) =>
      pose proof (getConcertReviews_attempt_cases concertId (delay (retryDelay * (1 + 1)) w2).2)
        as Hthird
    end.
    cbv zeta in Hthird.
    cbn [delay snd faults with_clock with_faults store clock connectionState retryQueue
         currentUser analytics] in Hthird.
    rewrite Hi3 in Hthird.
    erewrite retryLoop_last; [| exact Hconnected | exact Hthird | assumption | reflexivity].
    cbn [retryLoop]. reflexivity.
  - destruct (executeWithRetry_is_an_attempt (getConcertReviews_attempt concertId)
                "getConcertReviews" (reading (store w)) w) as (w1 & [Hc1 Hs1] & Hrun).
    + intros w0 [Hc _]. exact Hc.
    + intros w0 ms H. exact H.
    + intros w0 Hw0. pose proof (getConcertReviews_attempt_reads concertId _ _ Hw0) as H.
      destruct (getConcertReviews_attempt concertId w0) as [[?|?|] ?]; auto.
    + split; [assumption | reflexivity].
    + exists w1. auto.
  - intros w1 res w'. apply getConcertReviews_attempt_usingFallback.
Qed.

Lemma getConcertReviews_fallback_contract_witness :
  let w := onlineWorld mixedReviewsStore in
  reviews (store w) !! "r3" = Some strayReview
  ∧ (getConcertReviews "c1" w).1
    = Resolved (mkReviewsResult [("r2", laterReview); ("r1", sampleReview)] false)
  ∧ (getConcertReviews "c2" w).1 = Resolved (mkReviewsResult [("r3", strayReview)] false)
  ∧ (getConcertReviews "c1" (withSchedule [Some indexBuilding] w)).1
    = Resolved (mkReviewsResult [("r2", laterReview); ("r1", sampleReview)] true)
  ∧ (getConcertReviews "c1" (withSchedule [Some permissionDenied] w)).1
    = Rejected permissionDenied.
Proof.
  intros w. split; [reflexivity|]. split; [|split; [|split]].
  - destruct (getConcertReviews_fallback_contract "c1" w eq_refl) as (_ & Hprimary & _).
    rewrite Hprimary by discriminate. vm_compute. reflexivity.
  - destruct (getConcertReviews_fallback_contract "c2" w eq_refl) as (_ & Hprimary & _).
    rewrite Hprimary by discriminate. vm_compute. reflexivity.
  - destruct (getConcertReviews_fallback_contract "c1" (withSchedule [Some indexBuilding] w)
                eq_refl) as (_ & _ & Hfallback & _).
    rewrite (Hfallback indexBuilding [] eq_refl eq_refl) by discriminate.
    vm_compute. reflexivity.
  - destruct (getConcertReviews_fallback_contract "c1"
                (withSchedule [Some permissionDenied] w) eq_refl)
      as (_ & _ & _ & Hother & _).
    destruct (Hother permissionDenied [] eq_refl eq_refl) as [_ Hthrown].
    now rewrite (Hthrown eq_refl).
Defined.

(** ** Further properties of the services and the screens *)

(** *** Prefix ranges *)

Lemma string_leb_cons a s b t :
  String.leb (String a s) (String b t)
  = match Ascii.compare a b with
    | Eq => String.leb s t
    | Lt => true
    | Gt => false
    end.
Proof.
  unfold String.leb. cbn [String.compare]. now destruct (Ascii.compare a b).
Qed.

Lemma ascii_compare_refl a : Ascii.compare a a = Eq.
Proof. unfold Ascii.compare. apply N.compare_refl. Qed.

Lemma string_leb_app_l t r s : String.leb (t +:+ r) (t +:+ s) = String.leb r s.
Proof.
  induction t as [|a t IH]; [reflexivity|].
  rewrite !append_cons. now rewrite string_leb_cons, ascii_compare_refl.
Qed.

Lemma string_leb_prefix t r : String.leb t (t +:+ r) = true.
Proof.
  induction t as [|a t IH]; [now destruct r|].
  rewrite !append_cons. now rewrite string_leb_cons, ascii_compare_refl.
Qed.

Lemma startsWith_app t r : JsString.startsWith (t +:+ r) t = true.
Proof.
  induction t as [|a t IH]; [now destruct r|].
  rewrite append_cons. cbn [JsString.startsWith]. now rewrite Ascii.eqb_refl.
Qed.

Lemma inPrefixRange_remainder searchTerm v :
  inPrefixRange searchTerm (Some v) = true ↔
  ∃ r, v = searchTerm +:+ r ∧ String.leb r sentinel = true.
Proof.
  unfold inPrefixRange. split.
  - revert v. induction searchTerm as [|a t IH]; intros v H.
    + apply andb_true_iff in H as [_ H]. now exists v.
    + destruct v as [|b v]; [discriminate H|].
      apply andb_true_iff in H as [H1 H2]. rewrite append_cons in H2.
      rewrite string_leb_cons in H1, H2.
      rewrite Ascii.compare_antisym in H2.
      destruct (Ascii.compare a b) eqn:Hab; cbn in H2; try discriminate.
      apply Ascii.compare_eq_iff in Hab as <-.
      destruct (IH v) as (r & -> & Hr); [now rewrite H1, H2|].
      now exists r.
  - intros (r & -> & Hr). now rewrite string_leb_prefix, string_leb_app_l.
Qed.

(** X1. The range [where(field, '>=', term), where(field, '<=', term +
    sentinel)] of the searches selects exactly the values that are [term]
    followed by a remainder that does not sort above the sentinel U+F8FF.
    So every value selected starts with the term, the term itself is
    selected, a continuation that begins with a byte below 0xEF is selected,
    and one that begins with a byte above 0xEF (the lead byte of a four-byte
    character) is not. *)
Theorem inPrefixRange_is_prefix_search (searchTerm v : string) :
  (inPrefixRange searchTerm (Some v) = true ↔
   ∃ r, v = searchTerm +:+ r ∧ String.leb r sentinel = true)
  ∧ (inPrefixRange searchTerm (Some v) = true → JsString.startsWith v searchTerm = true)
  ∧ inPrefixRange searchTerm (Some searchTerm) = true
  ∧ (∀ c r, (N_of_ascii c < 239)%N →
       inPrefixRange searchTerm (Some (searchTerm +:+ String c r)) = true)
  ∧ (∀ c r, (239 < N_of_ascii c)%N →
       inPrefixRange searchTerm (Some (searchTerm +:+ String c r)) = false).
Proof.
  split; [apply inPrefixRange_remainder|].
  split.
  { intros H. apply inPrefixRange_remainder in H as (r & -> & _). apply startsWith_app. }
  split.
  { apply inPrefixRange_remainder. exists "". split; [|reflexivity].
    clear. induction searchTerm as [|a t IH]; [reflexivity|]. rewrite append_cons. now rewrite <- IH. }
  split.
  - intros c r Hc. apply inPrefixRange_remainder. exists (String c r).
    split; [reflexivity|]. unfold sentinel. rewrite string_leb_cons.
    unfold Ascii.compare. change (N_of_ascii (ascii_of_nat 239)) with 239%N.
    now rewrite (proj2 (N.compare_lt_iff _ _) Hc).
  - intros c r Hc. unfold inPrefixRange.
    rewrite string_leb_prefix, string_leb_app_l. unfold sentinel.
    rewrite string_leb_cons.
    unfold Ascii.compare. change (N_of_ascii (ascii_of_nat 239)) with 239%N.
    now rewrite (proj2 (N.compare_gt_iff _ _) Hc).
Qed.

Lemma inPrefixRange_is_prefix_search_witness :
  inPrefixRange "The" (Some "The Band") = true
  ∧ JsString.startsWith "The Band" "The" = true
  ∧ inPrefixRange "The" (Some "The") = true
  ∧ inPrefixRange "The" (Some "the band") = false.
Proof.
  destruct (inPrefixRange_is_prefix_search "The" "The Band")
    as (_ & Hstarts & Hself & Hbelow & _).
  assert (H : inPrefixRange "The" (Some "The Band") = true)
    by exact (Hbelow " "%char "Band" eq_refl).
  split; [exact H|]. split; [exact (Hstarts H)|]. split; [exact Hself | reflexivity].
Defined.

(** *** Bounds of the retry loop *)

Lemma retryLoop_invocations {T} (operation : M T) name rounds attempt lastError w :
  (invocations (retryLoop rounds attempt operation name lastError w).2 ≤ rounds)%nat.
Proof.
  revert attempt lastError w.
  induction rounds as [|rounds IH]; intros attempt lastError w; cbn [retryLoop];
    [cbn; lia|].
  destruct (decide (connectionState w = connected)) as [Hc|Hc]; [|cbn; lia].
  destruct (operation w) as [[a|e|] w1]; [cbn; lia| |cbn; lia].
  destruct (isNetworkError e); [|cbn; lia].
  destruct (attempt <? maxRetries).
  - specialize (IH (attempt + 1) e (delay (retryDelay * attempt) w1).2).
    destruct (retryLoop rounds (attempt + 1) operation name e _) as [[r w3] evs].
    cbn in *. lia.
  - specialize (IH (attempt + 1) e w1).
    destruct (retryLoop rounds (attempt + 1) operation name e _) as [[r w3] evs].
    cbn in *. lia.
Qed.

Lemma retryLoop_waited {T} (operation : M T) name rounds attempt lastError w :
  1 ≤ attempt →
  0 ≤ waited (retryLoop rounds attempt operation name lastError w).2
  ≤ (if attempt <? 2 then retryDelay * 1 + retryDelay * 2
     else if attempt <? 3 then retryDelay * 2 else 0).
Proof.
  revert attempt lastError w.
  assert (Hbound : ∀ attempt, 1 ≤ attempt →
            0 ≤ (if attempt <? 2 then retryDelay * 1 + retryDelay * 2
                 else if attempt <? 3 then retryDelay * 2 else 0)).
  { intros attempt _. unfold retryDelay.
    destruct (attempt <? 2); [lia|]. destruct (attempt <? 3); lia. }
  induction rounds as [|rounds IH]; intros attempt lastError w Hattempt; cbn [retryLoop];
    [cbn [snd waited]; split; [lia | now apply Hbound]|].
  destruct (decide (connectionState w = connected)) as [Hc|Hc];
    [|cbn [snd waited]; split; [lia | now apply Hbound]].
  destruct (operation w) as [[a|e|] w1];
    try (cbn [snd waited]; split; [lia | now apply Hbound]).
  destruct (isNetworkError e); [|cbn [snd waited]; split; [lia | now apply Hbound]].
  destruct (Z.ltb_spec attempt maxRetries) as [Hlt|Hge].
  - specialize (IH (attempt + 1) e (delay (retryDelay * attempt) w1).2 ltac:(lia)).
    destruct (retryLoop rounds (attempt + 1) operation name e _) as [[r w3] evs].
    cbn [snd waited] in *. unfold maxRetries, retryDelay in *.
    destruct (Z.ltb_spec attempt 2), (Z.ltb_spec attempt 3),
      (Z.ltb_spec (attempt + 1) 2), (Z.ltb_spec (attempt + 1) 3); lia.
  - specialize (IH (attempt + 1) e w1 ltac:(lia)).
    destruct (retryLoop rounds (attempt + 1) operation name e _) as [[r w3] evs].
    cbn [snd waited] in *. unfold maxRetries, retryDelay in *.
    destruct (Z.ltb_spec attempt 2), (Z.ltb_spec attempt 3),
      (Z.ltb_spec (attempt + 1) 2), (Z.ltb_spec (attempt + 1) 3); lia.
Qed.

(** What the loop returns was returned by an invocation of the operation,
    unless the operation was handed to the queue. *)
Lemma retryLoop_outcome {T} (operation : M T) name rounds attempt lastError w :
  Z.of_nat rounds = maxRetries - attempt + 1 →
  (0 < rounds)%nat →
  (∃ w1, operation w1 = (retryLoop rounds attempt operation name lastError w).1)
  ∨ (∃ w1, connectionState w1 ≠ connected
           ∧ (retryLoop rounds attempt operation name lastError w).1
             = (Pending, with_retryQueue (retryQueue w1 ++ [name])%list w1)).
Proof.
  revert attempt lastError w.
  induction rounds as [|rounds IH]; intros attempt lastError w Hrounds Hpos; [lia|].
  cbn [retryLoop].
  destruct (decide (connectionState w = connected)) as [Hc|Hc]; [|right; eauto].
  destruct (operation w) as [[a|e|] w1] eqn:Hrun; [left; eauto| |left; eauto].
  destruct (isNetworkError e); [|left; eauto].
  destruct (Z.ltb_spec attempt maxRetries) as [Hlt|Hge].
  - destruct (IH (attempt + 1) e (delay (retryDelay * attempt) w1).2
                ltac:(lia) ltac:(lia)) as [(w2 & H)|(w2 & Hw2 & H)];
      destruct (retryLoop rounds (attempt + 1) operation name e _) as [[r w3] evs];
      cbn [fst] in *; eauto.
  - assert (rounds = 0%nat) as -> by lia. cbn. eauto.
Qed.

(** X2. Whatever the operation, [executeWithRetry] invokes it at most
    three times and waits at most 1000 + 2000 ms between attempts; what it
    returns is what one invocation returned, unless it queued the operation.
    When the manager is not connected the operation is not invoked at all:
    its name goes to the end of the queue, nothing else changes, and the
    promise stays pending. *)
Theorem executeWithRetry_is_bounded {T} (operation : M T) (operationName : string)
    (w : World) :
  let run := executeWithRetry_events operation operationName w in
  (invocations run.2 ≤ 3)%nat
  ∧ 0 ≤ waited run.2 ≤ retryDelay * 1 + retryDelay * 2
  ∧ ((∃ w1, operation w1 = run.1)
     ∨ (∃ w1, connectionState w1 ≠ connected
              ∧ run.1 = (Pending, with_retryQueue (retryQueue w1 ++ [operationName])%list w1)))
  ∧ (connectionState w ≠ connected →
       run = (Pending, with_retryQueue (retryQueue w ++ [operationName])%list w,
              [Queued operationName])
       ∧ invocations run.2 = 0%nat).
Proof.
  cbv zeta. unfold executeWithRetry_events. rewrite maxRetries_rounds.
  split; [apply retryLoop_invocations|].
  split; [apply (retryLoop_waited operation operationName 3 1); lia|].
  split; [apply retryLoop_outcome; [reflexivity | lia]|].
  intros Hc. rewrite retryLoop_not_connected by assumption. split; reflexivity.
Qed.

Lemma executeWithRetry_is_bounded_witness :
  let failing := executeWithRetry_events (throw unavailable : M unit) "sample"
                   (onlineWorld emptyStore) in
  let queued := executeWithRetry_events (throw unavailable : M unit) "sample"
                  (offlineWorld emptyStore) in
  invocations failing.2 = 3%nat ∧ waited failing.2 = 3000
  ∧ (invocations failing.2 ≤ 3)%nat
  ∧ 0 ≤ waited failing.2 ≤ retryDelay * 1 + retryDelay * 2
  ∧ queued.1.1 = Pending ∧ retryQueue queued.1.2 = ["sample"]
  ∧ invocations queued.2 = 0%nat.
Proof.
  intros failing queued.
  destruct (executeWithRetry_is_bounded (throw unavailable : M unit) "sample"
              (onlineWorld emptyStore)) as (Hinvoked & Hwaited & _).
  destruct (executeWithRetry_is_bounded (throw unavailable : M unit) "sample"
              (offlineWorld emptyStore)) as (_ & _ & _ & Hqueued).
  destruct Hqueued as [Hrun Hnone]; [discriminate|].
  split; [reflexivity|]. split; [reflexivity|]. split; [exact Hinvoked|].
  split; [exact Hwaited|]. unfold queued. rewrite Hrun. repeat split. 
Defined.

(** *** Reads under the retry policy *)

Section RetriedRead.
Context {D B : Type} (select : Store → Snapshot D) (k : Snapshot D → B) (name : string).

Local Abbreviation attempt_ := (bind (getDocs select) (λ querySnapshot, ret (k querySnapshot))).

Lemma read_attempt_cases w :
  match faults w with
  | Some e :: fs => attempt_ w = (Rejected e, with_faults fs w)
  | _ => attempt_ w = (Resolved (k (select (store w))), with_faults (tail (faults w)) w)
  end.
Proof.
  unfold bind, getDocs, backend, ret.
  destruct w as [s t fs c q u a]. cbn [faults store with_faults with_store head tail].
  destruct fs as [|[e|] fs]; reflexivity.
Qed.

Lemma read_attempt_passes w :
  (∀ e fs, faults w ≠ Some e :: fs) →
  attempt_ w = (Resolved (k (select (store w))), with_faults (tail (faults w)) w).
Proof.
  intros Hno. pose proof (read_attempt_cases w) as H.
  destruct (faults w) as [|[e|] fs]; [exact H | now destruct (Hno e fs) | exact H].
Qed.

Lemma read_attempt_reads s0 w :
  reading s0 w →
  match attempt_ w with
  | (Resolved b, w') => reading s0 w' ∧ b = k (select s0)
  | (Rejected _, w') => reading s0 w'
  | (Pending, _) => False
  end.
Proof.
  intros [Hc Hs]. pose proof (read_attempt_cases w) as H.
  destruct (faults w) as [|[e|] fs]; rewrite H; rewrite <- ?Hs; repeat split; assumption.
Qed.

(** The wrapper around a read returns what the query selects on the store
    it started with, and leaves that store as it is. *)
Lemma retried_read_result w :
  connectionState w = connected →
  match executeWithRetry attempt_ name w with
  | (Resolved b, w') => b = k (select (store w)) ∧ reading (store w) w'
  | (Rejected _, w') => reading (store w) w'
  | (Pending, _) => False
  end.
Proof.
  intros Hc.
  destruct (executeWithRetry_is_an_attempt attempt_ name (reading (store w)) w)
    as (w1 & Hw1 & Hrun).
  - intros w0 [H _]. exact H.
  - intros w0 ms H. exact H.
  - intros w0 Hw0. pose proof (read_attempt_reads _ _ Hw0) as H.
    destruct (attempt_ w0) as [[?|?|] ?]; auto.
  - split; [assumption | reflexivity].
  - rewrite <- Hrun. pose proof (read_attempt_reads _ _ Hw1) as H.
    destruct (attempt_ w1) as [[?|?|] ?]; [|assumption..]. destruct H; auto.
Qed.

(** The schedules under which the wrapper resolves, and what it has waited. *)
Lemma retried_read_first w :
  connectionState w = connected →
  (∀ e fs, faults w ≠ Some e :: fs) →
  executeWithRetry attempt_ name w
  = (Resolved (k (select (store w))), with_faults (tail (faults w)) w).
Proof.
  intros Hc Hno. unfold executeWithRetry, executeWithRetry_events.
  rewrite maxRetries_rounds.
  erewrite retryLoop_resolved; [reflexivity | assumption |].
  now apply read_attempt_passes.
Qed.

Lemma retried_read_fatal w e fs :
  connectionState w = connected →
  faults w = Some e :: fs → isNetworkError e = false →
  executeWithRetry attempt_ name w = (Rejected e, with_faults fs w).
Proof.
  intros Hc Hfs He. unfold executeWithRetry, executeWithRetry_events.
  rewrite maxRetries_rounds.
  pose proof (read_attempt_cases w) as H. rewrite Hfs in H.
  erewrite retryLoop_fatal; [reflexivity | assumption | exact H | assumption].
Qed.

Lemma retried_read_second w e1 fs :
  connectionState w = connected →
  faults w = Some e1 :: fs → isNetworkError e1 = true →
  (∀ e fs', fs ≠ Some e :: fs') →
  executeWithRetry attempt_ name w
  = (Resolved (k (select (store w))),
     with_faults (tail fs) (with_clock (clock w + retryDelay * 1) w)).
Proof.
  intros Hc Hfs He1 Hno. unfold executeWithRetry, executeWithRetry_events.
  rewrite maxRetries_rounds.
  pose proof (read_attempt_cases w) as H. rewrite Hfs in H.
  erewrite retryLoop_retry; [| assumption | exact H | assumption | reflexivity].
  erewrite retryLoop_resolved; [reflexivity | exact Hc |].
  rewrite read_attempt_passes; [reflexivity|]. exact Hno.
Qed.

Lemma retried_read_third w e1 e2 fs :
  connectionState w = connected →
  faults w = Some e1 :: Some e2 :: fs →
  isNetworkError e1 = true → isNetworkError e2 = true →
  (∀ e fs', fs ≠ Some e :: fs') →
  executeWithRetry attempt_ name w
  = (Resolved (k (select (store w))),
     with_faults (tail fs) (with_clock (clock w + retryDelay * 1 + retryDelay * 2) w)).
Proof.
  intros Hc Hfs He1 He2 Hno. unfold executeWithRetry, executeWithRetry_events.
  rewrite maxRetries_rounds.
  pose proof (read_attempt_cases w) as H. rewrite Hfs in H.
  erewrite retryLoop_retry; [| assumption | exact H | assumption | reflexivity].
  pose proof (read_attempt_cases (delay (retryDelay * 1) (with_faults (Some e2 :: fs) w)).2)
    as H2.
  cbn [delay snd faults with_clock with_faults] in H2.
  erewrite retryLoop_retry; [| exact Hc | exact H2 | assumption | reflexivity].
  erewrite retryLoop_resolved; [reflexivity | exact Hc |].
  rewrite read_attempt_passes; [reflexivity|]. exact Hno.
Qed.

Lemma retried_read_gives_up w e1 e2 e3 fs :
  connectionState w = connected →
  faults w = Some e1 :: Some e2 :: Some e3 :: fs →
  isNetworkError e1 = true → isNetworkError e2 = true → isNetworkError e3 = true →
  executeWithRetry attempt_ name w
  = (Rejected e3,
     with_faults fs (with_clock (clock w + retryDelay * 1 + retryDelay * 2) w)).
Proof.
  intros Hc Hfs He1 He2 He3. unfold executeWithRetry, executeWithRetry_events.
  rewrite maxRetries_rounds.
  pose proof (read_attempt_cases w) as H. rewrite Hfs in H.
  erewrite retryLoop_retry; [| assumption | exact H | assumption | reflexivity].
  pose proof (read_attempt_cases
                (delay (retryDelay * 1) (with_faults (Some e2 :: Some e3 :: fs) w)).2) as H2.
  cbn [delay snd faults with_clock with_faults] in H2.
  erewrite retryLoop_retry; [| exact Hc | exact H2 | assumption | reflexivity].
  match type of H2 with _ = (_, ?w2) =>
    pose proof (read_attempt_cases (delay (retryDelay * (1 + 1)) w2).2) as H3
  end.
  cbn [delay snd faults with_clock with_faults store clock connectionState retryQueue
       currentUser analytics] in H3.
  erewrite retryLoop_last; [| exact Hc | exact H3 | assumption | reflexivity].
  cbn [retryLoop]. reflexivity.
Qed.

End RetriedRead.

(** *** The concerts of a user *)

Lemma loggedBy_spec userId d :
  loggedBy userId d = true ↔ Concert.userRef d = docPath "users" userId.
Proof. unfold loggedBy. apply String.eqb_eq. Qed.

Lemma getUserConcerts_result userId w :
  connectionState w = connected →
  match getUserConcerts userId w with
  | (Resolved l, w') =>
      l = js_sort byDateDesc (where_ (loggedBy userId) (concerts (store w)))
      ∧ reading (store w) w'
  | (Rejected _, w') => reading (store w) w'
  | (Pending, _) => False
  end.
Proof.
  intros Hc. unfold getUserConcerts.
  exact (retried_read_result (λ s, where_ (loggedBy userId) (concerts s))
           (js_sort byDateDesc) "getUserConcerts" w Hc).
Qed.

(** X3. While connected, a list that [getUserConcerts] resolves to holds
    exactly the concerts of the store whose [userRef] is the user's path,
    each once, ordered by concert date, latest first; the call never stays
    pending and leaves the store as it was. *)
Theorem getUserConcerts_lists_own_concerts (userId : string) (w : World)
    (Hconnected : connectionState w = connected) :
  let run := getUserConcerts userId w in
  (∀ l, run.1 = Resolved l →
     l ≡ₚ where_ (loggedBy userId) (concerts (store w))
     ∧ (∀ id c, (id, c) ∈ l ↔
          concerts (store w) !! id = Some c ∧ Concert.userRef c = docPath "users" userId)
     ∧ NoDup l.*1
     ∧ descending (λ c, Concert.date c.2) l)
  ∧ run.1 ≠ Pending
  ∧ store run.2 = store w.
Proof.
  cbv zeta. pose proof (getUserConcerts_result userId w Hconnected) as H.
  destruct (getUserConcerts userId w) as [[l|e|] w']; cbn [fst snd]; [|  |destruct H].
  - destruct H as [-> [_ Hs]].
    split; [|split; [discriminate | assumption]].
    intros l [= <-].
    assert (Hperm : js_sort byDateDesc (where_ (loggedBy userId) (concerts (store w)))
                    ≡ₚ where_ (loggedBy userId) (concerts (store w)))
      by apply js_sort_Permutation.
    split; [exact Hperm|]. split; [|split].
    + intros id c. rewrite Hperm, where_elem, loggedBy_spec. reflexivity.
    + rewrite Hperm. apply where_NoDup.
    + apply (StronglySorted_descending (λ c : string * Concert.t, Concert.date c.2)).
      apply (js_sort_sorted (λ c : string * Concert.t, Concert.date c.2)). reflexivity.
  - destruct H as [_ Hs]. split; [discriminate|]. split; [discriminate | assumption].
Qed.

(** X4. [getUserConcerts] under failures of the store: it resolves to the
    user's concerts at once when the query goes through, after waiting 1000
    ms when one transient failure precedes, after 1000 + 2000 ms when two
    do; three transient failures in a row reject with the third after the
    same wait, and a failure that is not transient rejects at once, without
    a wait. *)
Theorem getUserConcerts_retries_transient_failures (userId : string) (w : World)
    (Hconnected : connectionState w = connected) :
  let mine := js_sort byDateDesc (where_ (loggedBy userId) (concerts (store w))) in
  ((∀ e fs, faults w ≠ Some e :: fs) →
     getUserConcerts userId w = (Resolved mine, with_faults (tail (faults w)) w))
  ∧ (∀ e1 fs, faults w = Some e1 :: fs → isNetworkError e1 = true →
       (∀ e fs', fs ≠ Some e :: fs') →
       getUserConcerts userId w
       = (Resolved mine, with_faults (tail fs) (with_clock (clock w + retryDelay * 1) w)))
  ∧ (∀ e1 e2 fs, faults w = Some e1 :: Some e2 :: fs →
       isNetworkError e1 = true → isNetworkError e2 = true →
       (∀ e fs', fs ≠ Some e :: fs') →
       getUserConcerts userId w
       = (Resolved mine,
          with_faults (tail fs)
            (with_clock (clock w + retryDelay * 1 + retryDelay * 2) w)))
  ∧ (∀ e1 e2 e3 fs, faults w = Some e1 :: Some e2 :: Some e3 :: fs →
       isNetworkError e1 = true → isNetworkError e2 = true → isNetworkError e3 = true →
       getUserConcerts userId w
       = (Rejected e3,
          with_faults fs (with_clock (clock w + retryDelay * 1 + retryDelay * 2) w)))
  ∧ (∀ e fs, faults w = Some e :: fs → isNetworkError e = false →
       getUserConcerts userId w = (Rejected e, with_faults fs w)).
Proof.
  cbv zeta. unfold getUserConcerts.
  split; [|split; [|split; [|split]]].
  - now apply retried_read_first.
  - intros e1 fs. now apply retried_read_second.
  - intros e1 e2 fs. now apply retried_read_third.
  - intros e1 e2 e3 fs. now apply retried_read_gives_up.
  - intros e fs. now apply retried_read_fatal.
Qed.

(** *** Documents by reference *)

Lemma append_inj_l (p s t : string) : p +:+ s = p +:+ t → s = t.
Proof.
  induction p as [|a p IH]; [auto|]. rewrite !append_cons. intros [= H]. auto.
Qed.

Lemma docPath_inj coll id id' : docPath coll id = docPath coll id' → id = id'.
Proof. unfold docPath. intros H. now apply append_inj_l, append_inj_l in H. Qed.

Lemma byReference_elem {D} coll ref (docs : gmap string D) id d :
  (id, d) ∈ byReference coll ref docs ↔ docs !! id = Some d ∧ docPath coll id = ref.
Proof.
  unfold byReference. rewrite list_elem_of_filter, elem_of_map_to_list. cbn.
  rewrite String.eqb_eq. tauto.
Qed.

Lemma inCollection_Some {D} coll (docs : gmap string D) wrap ref id d :
  inCollection coll docs wrap ref = Some (id, d) →
  ∃ x, d = wrap x ∧ docs !! id = Some x ∧ ref = docPath coll id.
Proof.
  unfold inCollection. intros H. apply fmap_Some in H as ([k x] & Hhead & [= -> ->]).
  apply head_Some_elem_of, byReference_elem in Hhead as [Hx <-]. eauto.
Qed.

Lemma inCollection_None {D} coll (docs : gmap string D) wrap ref :
  (∀ id, docPath coll id ≠ ref) → inCollection coll docs wrap ref = None.
Proof.
  intros Hno. destruct (inCollection coll docs wrap ref) as [[id d]|] eqn:H; [|reflexivity].
  apply inCollection_Some in H as (x & _ & _ & ->). now destruct (Hno id).
Qed.

Lemma inCollection_docPath {D} coll (docs : gmap string D) wrap id :
  inCollection coll docs wrap (docPath coll id) = (λ d, (id, wrap d)) <$> docs !! id.
Proof.
  destruct (inCollection coll docs wrap (docPath coll id)) as [[k d]|] eqn:H.
  - apply inCollection_Some in H as (x & -> & Hx & Hk).
    apply docPath_inj in Hk as <-. now rewrite Hx.
  - destruct (docs !! id) as [x|] eqn:Hx; [|reflexivity].
    unfold inCollection in H. apply fmap_None, head_None in H.
    assert (Hin : (id, x) ∈ byReference coll (docPath coll id) docs)
      by now apply byReference_elem.
    rewrite H in Hin. now apply elem_of_nil in Hin.
Qed.

Lemma inSubcollections_Some {D} coll sub (docs : gmap string (gmap string D)) wrap ref id d :
  inSubcollections coll sub docs wrap ref = Some (id, d) →
  ∃ parent x, d = wrap x ∧ children docs parent !! id = Some x
              ∧ ref = docPath (docPath (docPath coll parent) sub) id.
Proof.
  unfold inSubcollections. intros H.
  apply head_Some_elem_of, list_elem_of_omap in H as ([parent kids] & Hin & H).
  apply elem_of_map_to_list in Hin. cbn in H.
  apply inCollection_Some in H as (x & -> & Hx & ->).
  exists parent, x. unfold children. rewrite Hin. auto.
Qed.

(** What [docAt] finds is the document at that path. *)
Lemma docAt_documentAt s ref id d : docAt s ref = Some (id, d) → documentAt s ref id d.
Proof.
  unfold docAt. intros H.
  repeat match type of H with
         | ?a ∪ ?b = Some _ =>
             apply union_Some in H as [H | [_ H]]
         end;
    try (apply inCollection_Some in H as (x & -> & Hx & ->); now constructor);
    apply inSubcollections_Some in H as (parent & x & -> & Hx & ->); now constructor.
Qed.

Lemma documentAt_user s ref id u :
  documentAt s ref id (UserDoc u) → ref = docPath "users" id ∧ users s !! id = Some u.
Proof. inversion 1; auto. Qed.

Lemma docPath_head coll coll' id id' a b rest rest' :
  coll = String a rest → coll' = String b rest' → a ≠ b →
  docPath coll id ≠ docPath coll' id'.
Proof. intros -> -> Hne. unfold docPath. rewrite !append_cons. congruence. Qed.

Lemma option_union_None_l {A} (my : option A) : None ∪ my = my.
Proof. now destruct my. Qed.

Lemma docAt_user s id d :
  users s !! id = Some d → docAt s (docPath "users" id) = Some (id, UserDoc d).
Proof.
  intros H. unfold docAt. rewrite inCollection_docPath, H. cbn [fmap option_fmap option_map].
  now rewrite !union_Some_l.
Qed.

Lemma docAt_artist s id d :
  artists s !! id = Some d → docAt s (docPath "artists" id) = Some (id, ArtistDoc d).
Proof.
  intros H. unfold docAt.
  rewrite (inCollection_None "users")
    by (intros k; eapply docPath_head; [reflexivity | reflexivity | discriminate]).
  rewrite inCollection_docPath, H. cbn [fmap option_fmap option_map].
  now rewrite option_union_None_l, !union_Some_l.
Qed.

Lemma docAt_venue s id d :
  venues s !! id = Some d → docAt s (docPath "venues" id) = Some (id, VenueDoc d).
Proof.
  intros H. unfold docAt.
  rewrite (inCollection_None "users"), (inCollection_None "artists")
    by (intros k; eapply docPath_head; [reflexivity | reflexivity | discriminate]).
  rewrite inCollection_docPath, H. cbn [fmap option_fmap option_map].
  now rewrite !option_union_None_l, !union_Some_l.
Qed.

Lemma documentAt_docAt s ref id d : documentAt s ref id d → is_Some (docAt s ref).
Proof.
  assert (Hsub : ∀ D coll sub (docs : gmap string (gmap string D)) wrap parent k x,
            children docs parent !! k = Some x →
            is_Some (inSubcollections coll sub docs wrap
                       (docPath (docPath (docPath coll parent) sub) k))).
  { intros D coll sub docs wrap parent k x Hx. unfold inSubcollections.
    apply head_is_Some. intros Hnil.
    unfold children in Hx. destruct (docs !! parent) as [kids|] eqn:Hkids; cbn in Hx;
      [|now rewrite lookup_empty in Hx].
    assert (Hin : (k, wrap x)
                  ∈ omap (λ parent0 : string * gmap string D,
                            inCollection (docPath (docPath coll parent0.1) sub) parent0.2
                              wrap (docPath (docPath (docPath coll parent) sub) k))
                         (map_to_list docs)).
    { apply list_elem_of_omap. exists (parent, kids).
      split; [now apply elem_of_map_to_list|]. cbn. now rewrite inCollection_docPath, Hx. }
    rewrite Hnil in Hin. now apply elem_of_nil in Hin. }
  unfold docAt. intros H. rewrite !union_is_Some.
  destruct H as [k x Hx|k x Hx|k x Hx|k x Hx|k x Hx|parent k x Hx|parent k x Hx|parent k x Hx].
  - do 7 left. rewrite inCollection_docPath, Hx. cbn. eauto.
  - do 6 left. right. rewrite inCollection_docPath, Hx. cbn. eauto.
  - do 5 left. right. rewrite inCollection_docPath, Hx. cbn. eauto.
  - do 4 left. right. rewrite inCollection_docPath, Hx. cbn. eauto.
  - do 3 left. right. rewrite inCollection_docPath, Hx. cbn. eauto.
  - do 2 left. right. eapply Hsub, Hx.
  - left. right. eapply Hsub, Hx.
  - right. eapply Hsub, Hx.
Qed.

(** The look-ups by reference: a failure of the store, a missing document
    and, for artists and venues, a document without [createdAt] all give
    [null]. *)
Lemma getUserByRef_cases userRef w :
  getUserByRef userRef w
  = (Resolved (match faults w with
               | Some e :: _ => None
               | _ => docAt (store w) userRef
               end),
     with_faults (tail (faults w)) w).
Proof.
  unfold getUserByRef, try_catch, bind, getDoc, backend, ret.
  destruct w as [s t fs c q u a]. cbn [faults store with_faults with_store head tail].
  destruct fs as [|[e|] fs]; cbn [head tail]; try reflexivity;
    now destruct (docAt s userRef).
Qed.

Lemma getArtistByRef_cases artistRef w :
  getArtistByRef artistRef w
  = (Resolved (match faults w with
               | Some e :: _ => None
               | _ => match docAt (store w) artistRef with
                      | Some found =>
                          match createdAtOf found.2 with
                          | Some _ => Some found
                          | None => None
                          end
                      | None => None
                      end
               end),
     with_faults (tail (faults w)) w).
Proof.
  unfold getArtistByRef, try_catch, bind, getDoc, backend, ret, throw.
  destruct w as [s t fs c q u a]. cbn [faults store with_faults with_store head tail].
  destruct fs as [|[e|] fs]; cbn [head tail]; try reflexivity;
    (destruct (docAt s artistRef) as [found|]; [|reflexivity]);
    now destruct (createdAtOf found.2).
Qed.

Lemma getVenueByRef_cases venueRef w :
  getVenueByRef venueRef w
  = (Resolved (match faults w with
               | Some e :: _ => None
               | _ => match docAt (store w) venueRef with
                      | Some found =>
                          match createdAtOf found.2 with
                          | Some _ => Some found
                          | None => None
                          end
                      | None => None
                      end
               end),
     with_faults (tail (faults w)) w).
Proof. exact (getArtistByRef_cases venueRef w). Qed.

Lemma getConcertById_cases concertId w :
  getConcertById concertId w
  = (match faults w with
     | Some e :: _ => Rejected e
     | _ => Resolved (concerts (store w) !! concertId)
     end, with_faults (tail (faults w)) w).
Proof.
  unfold getConcertById, try_catch, getDoc, backend, throw.
  destruct w as [s t fs c q u a]. cbn [faults store with_faults with_store head tail].
  destruct fs as [|[e|] fs]; reflexivity.
Qed.

(** X5. A concert that [logConcert] resolved to can be read back: the
    document has the caller as owner and the given rating, date and notes
    (empty when none were given); a [getConcertById] whose read goes
    through returns it, [getArtistByRef] and [getVenueByRef] on its two
    references return an artist and a venue that carry the names passed to
    [logConcert], and every list [getUserConcerts] resolves to for the
    owner contains it. *)
Theorem logConcert_reads_back
    (userId artistName venueName : string) (date rating : Z) (notes : option string)
    (w w' : World) (concertId : string)
    (Hconnected : connectionState w = connected)
    (Hrun : logConcert userId artistName venueName date rating notes w
            = (Resolved concertId, w')) :
  ∃ c artistId a venueId v,
    concerts (store w') !! concertId = Some c
    ∧ Concert.userRef c = docPath "users" userId
    ∧ Concert.rating c = rating ∧ Concert.date c = date
    ∧ Concert.notes c = default "" notes
    ∧ Artist.name a = artistName ∧ Venue.name v = venueName
    ∧ (∀ w1, store w1 = store w' → (∀ e fs, faults w1 ≠ Some e :: fs) →
         getConcertById concertId w1
         = (Resolved (Some c), with_faults (tail (faults w1)) w1)
         ∧ getArtistByRef (Concert.artistRef c) w1
           = (Resolved (Some (artistId, ArtistDoc a)), with_faults (tail (faults w1)) w1)
         ∧ getVenueByRef (Concert.venueRef c) w1
           = (Resolved (Some (venueId, VenueDoc v)), with_faults (tail (faults w1)) w1))
    ∧ (∀ w1 l, store w1 = store w' → connectionState w1 = connected →
         (getUserConcerts userId w1).1 = Resolved l → (concertId, c) ∈ l).
Proof.
  pose proof (logConcert_resolved _ _ _ _ _ _ _ _ _ Hconnected Hrun) as Hpost.
  destruct Hpost as (_ & Hlogged & _ & [c Hc] & Hnew & _).
  destruct Hlogged as (_ & _ & _ & Hadded & _).
  destruct (Hadded _ _ Hc Hnew)
    as (Hu & Hr & Hd & Hn & _ & _ & (aid & a & Ha & Hai & Han) & (vid & v & Hv & Hvi & Hvn)).
  exists c, aid, a, vid, v.
  repeat (split; [assumption|]). split.
  - intros w1 Hs Hno.
    rewrite getConcertById_cases, getArtistByRef_cases, getVenueByRef_cases.
    destruct (faults w1) as [|[e|] fs] eqn:E; [|now destruct (Hno e fs)|];
      rewrite Hs, Hc, Ha, Hv, (docAt_artist _ _ _ Hai), (docAt_venue _ _ _ Hvi); auto.
  - intros w1 l Hs Hc1 Hl.
    pose proof (getUserConcerts_result userId w1 Hc1) as H.
    destruct (getUserConcerts userId w1) as [[l'|e|] w2]; cbn in Hl; try discriminate.
    injection Hl as ->. destruct H as [-> _].
    rewrite (js_sort_Permutation byDateDesc), where_elem, loggedBy_spec, Hs. auto.
Qed.

Lemma getUserConcerts_lists_own_concerts_witness :
  let w := onlineWorld diaryStore in
  connectionState w = connected
  ∧ (getUserConcerts "u1" w).1 = Resolved [("c2", laterConcert); ("c1", sampleConcert)]
  ∧ descending (λ c, Concert.date c.2) [("c2", laterConcert); ("c1", sampleConcert)]
  ∧ NoDup ["c2"; "c1"].
Proof.
  intros w. split; [reflexivity|].
  assert (Hrun : (getUserConcerts "u1" w).1
                 = Resolved [("c2", laterConcert); ("c1", sampleConcert)])
    by (vm_compute; reflexivity).
  split; [exact Hrun|].
  destruct (getUserConcerts_lists_own_concerts "u1" w eq_refl) as (Hlist & _).
  destruct (Hlist _ Hrun) as (_ & _ & Hnodup & Hsorted).
  split; [exact Hsorted | exact Hnodup].
Defined.

Lemma getUserConcerts_retries_transient_failures_witness :
  let w := withSchedule [Some unavailable; Some unavailable] (onlineWorld diaryStore) in
  connectionState w = connected
  ∧ ∃ w', getUserConcerts "u1" w
          = (Resolved [("c2", laterConcert); ("c1", sampleConcert)], w')
          ∧ clock w' = 3000 ∧ faults w' = [].
Proof.
  intros w. split; [reflexivity|].
  destruct (getUserConcerts_retries_transient_failures "u1" w eq_refl)
    as (_ & _ & Hthird & _).
  assert (Hno : ∀ (e : JsError) (fs' : list (option JsError)), [] ≠ Some e :: fs')
    by discriminate.
  specialize (Hthird unavailable unavailable [] eq_refl eq_refl eq_refl Hno).
  eexists. split; [rewrite Hthird; vm_compute; reflexivity|]. split; reflexivity.
Defined.

Lemma logConcert_reads_back_witness :
  let w := onlineWorld freshStore in
  ∃ w' c artistId a venueId v,
    logConcert "u1" "The Band" "The Venue" 1000 5 (Some "great show") w
    = (Resolved "0", w')
    ∧ (getConcertById "0" w').1 = Resolved (Some c)
    ∧ Concert.rating c = 5 ∧ Concert.notes c = "great show"
    ∧ (getArtistByRef (Concert.artistRef c) w').1 = Resolved (Some (artistId, ArtistDoc a))
    ∧ Artist.name a = "The Band"
    ∧ (getVenueByRef (Concert.venueRef c) w').1 = Resolved (Some (venueId, VenueDoc v))
    ∧ Venue.name v = "The Venue"
    ∧ ∃ l, (getUserConcerts "u1" w').1 = Resolved l ∧ ("0", c) ∈ l.
Proof.
  intros w.
  set (w' := (logConcert "u1" "The Band" "The Venue" 1000 5 (Some "great show") w).2).
  assert (Hrun : logConcert "u1" "The Band" "The Venue" 1000 5 (Some "great show") w
                 = (Resolved "0", w')) by (vm_compute; reflexivity).
  destruct (logConcert_reads_back _ _ _ _ _ _ w w' "0" eq_refl Hrun)
    as (c & artistId & a & venueId & v & _ & _ & Hrating & _ & Hnotes & Ha & Hv
        & Hread & Hlisted).
  assert (Hno : ∀ e fs, faults w' ≠ Some e :: fs) by discriminate.
  destruct (Hread w' eq_refl Hno) as (Hconcert & Hartist & Hvenue).
  exists w', c, artistId, a, venueId, v.
  split; [exact Hrun|]. split; [now rewrite Hconcert|].
  split; [exact Hrating|]. split; [exact Hnotes|].
  split; [now rewrite Hartist|]. split; [exact Ha|].
  split; [now rewrite Hvenue|]. split; [exact Hv|].
  assert (Hlist : ∃ l, (getUserConcerts "u1" w').1 = Resolved l)
    by (eexists; vm_compute; reflexivity).
  destruct Hlist as [l Hl]. exists l. split; [exact Hl|].
  exact (Hlisted w' l eq_refl eq_refl Hl).
Defined.

(** *** Look-ups by reference *)

(** X23. [getUserByRef], [getArtistByRef] and [getVenueByRef] always
    resolve, after one read, and leave the store alone.  What they return
    is the document whose path is the reference, in whichever collection it
    lies: on the path of a venue [getArtistByRef] returns the venue.
    [getArtistByRef] and [getVenueByRef], which convert [createdAt], answer
    [null] on a document without that field, such as a user; all three
    answer [null] when the read fails and when there is no document at the
    path. *)
Theorem lookups_follow_any_path (ref : string) (w : World) :
  ∃ user artist,
    getUserByRef ref w = (Resolved user, with_faults (tail (faults w)) w)
    ∧ getArtistByRef ref w = (Resolved artist, with_faults (tail (faults w)) w)
    ∧ getVenueByRef ref w = (Resolved artist, with_faults (tail (faults w)) w)
    ∧ (∀ id d, user = Some (id, d) → documentAt (store w) ref id d)
    ∧ (∀ id d, artist = Some (id, d) → user = Some (id, d) ∧ is_Some (createdAtOf d))
    ∧ (∀ e fs, faults w = Some e :: fs → user = None ∧ artist = None)
    ∧ ((∀ e fs, faults w ≠ Some e :: fs) →
         (∀ id u, users (store w) !! id = Some u → ref = docPath "users" id →
            user = Some (id, UserDoc u) ∧ artist = None)
         ∧ (∀ id a, artists (store w) !! id = Some a → ref = docPath "artists" id →
              user = Some (id, ArtistDoc a) ∧ artist = Some (id, ArtistDoc a))
         ∧ (∀ id v, venues (store w) !! id = Some v → ref = docPath "venues" id →
              user = Some (id, VenueDoc v) ∧ artist = Some (id, VenueDoc v))
         ∧ (∀ id d, user = Some (id, d) → is_Some (createdAtOf d) → artist = Some (id, d))
         ∧ ((∀ id d, ¬ documentAt (store w) ref id d) → user = None)).
Proof.
  rewrite getUserByRef_cases, getArtistByRef_cases, getVenueByRef_cases.
  eexists _, _. split; [reflexivity|]. split; [reflexivity|]. split; [reflexivity|].
  destruct (faults w) as [|[e|] fs] eqn:Hfs.
  2:{ split; [discriminate|]. split; [discriminate|]. split; [auto|].
      intros Hno. now destruct (Hno e fs). }
  all: split; [intros id d; apply docAt_documentAt|];
    split; [intros id d; destruct (docAt (store w) ref) as [[k x]|]; [|discriminate];
            cbn [snd]; destruct (createdAtOf x) eqn:Hc; [|discriminate];
            intros [= -> ->]; rewrite Hc; eauto|];
    split; [discriminate|]; intros _;
    split; [intros id u Hu ->; now rewrite (docAt_user _ _ _ Hu)|];
    split; [intros id a Ha ->; now rewrite (docAt_artist _ _ _ Ha)|];
    split; [intros id v Hv ->; now rewrite (docAt_venue _ _ _ Hv)|];
    split; [intros id d -> [t Ht]; cbn [snd]; now rewrite Ht|];
    intros Hnone; destruct (docAt (store w) ref) as [[k x]|] eqn:Hdoc; [|reflexivity];
    now destruct (Hnone k x (docAt_documentAt _ _ _ _ Hdoc)).
Qed.

Lemma lookups_follow_any_path_witness :
  let w := onlineWorld directoryStore in
  (getArtistByRef "venues/v1" w).1
  = Resolved (Some ("v1", VenueDoc (Venue.mk "The Roxy" "Boston" "MA" "US" 100)))
  ∧ (getUserByRef "users/u1" w).1
    = Resolved (Some ("u1", UserDoc (User.mk "u1@example.com" "u1" 0)))
  ∧ (getArtistByRef "users/u1" w).1 = Resolved None
  ∧ (getUserByRef "users/u1" (withSchedule [Some unavailable] w)).1 = Resolved None
  ∧ (getUserByRef "reviews/r1/likedBy/u2" (onlineWorld likedStore)).1
    = Resolved (Some ("u2", LikeDoc (Like.mk 3500)))
  ∧ (getUserByRef "users/u9" w).1 = Resolved None.
Proof.
  intros w.
  destruct (lookups_follow_any_path "venues/v1" w)
    as (user & artist & _ & -> & _ & _ & _ & _ & Hfound).
  destruct (Hfound ltac:(discriminate)) as (_ & _ & Hvenue & _).
  destruct (Hvenue "v1" (Venue.mk "The Roxy" "Boston" "MA" "US" 100) eq_refl eq_refl)
    as [_ ->].
  split; [reflexivity|].
  clear Hfound Hvenue.
  destruct (lookups_follow_any_path "users/u1" w)
    as (user1 & artist1 & -> & -> & _ & _ & _ & _ & Hfound).
  destruct (Hfound ltac:(discriminate)) as (Huser & _).
  destruct (Huser "u1" (User.mk "u1@example.com" "u1" 0) eq_refl eq_refl) as [-> ->].
  split; [reflexivity|]. split; [reflexivity|].
  destruct (lookups_follow_any_path "users/u1" (withSchedule [Some unavailable] w))
    as (user2 & artist2 & -> & _ & _ & _ & _ & Hfails & _).
  destruct (Hfails unavailable [] eq_refl) as [-> _].
  split; [reflexivity|]. split; [vm_compute; reflexivity|]. vm_compute. reflexivity.
Defined.

(** *** Comments of a review *)

Lemma getUserByRef_spec s0 userRef (E : World → Prop) :
  hoare (λ w, store w = s0) (getUserByRef userRef)
        (λ user w, store w = s0
                   ∧ match user with
                     | Some (uid, d) => documentAt s0 userRef uid d
                     | None => True
                     end)
        E.
Proof.
  intros w Hs. rewrite getUserByRef_cases.
  split; [exact Hs|].
  destruct (faults w) as [|[e|] fs]; [|exact I|]; rewrite Hs;
    (destruct (docAt s0 userRef) as [[uid d]|] eqn:Hdoc;
       [now apply docAt_documentAt | exact I]).
Qed.

Lemma orderByAsc_ascending {D} (key : D → Z) (docs : Snapshot D) :
  ascending (λ kd, key kd.2) (orderByAsc key docs).
Proof.
  unfold orderByAsc.
  assert (Transitive (oldestFirst key)) by (intros a b c; unfold oldestFirst; lia).
  assert (Total (oldestFirst key)) by (intros a b; unfold oldestFirst; lia).
  pose proof (StronglySorted_merge_sort (oldestFirst key) docs) as Hsorted.
  induction Hsorted as [|x l Hl IH Hx]; intros i j a b Hij Hi Hj.
  - rewrite lookup_nil in Hi. discriminate.
  - destruct j as [|j]; [lia|]. cbn in Hj. destruct i as [|i]; cbn in Hi.
    + injection Hi as <-. rewrite Forall_forall in Hx. apply Hx.
      eapply list_elem_of_lookup_2, Hj.
    + apply (IH i j); [lia | assumption | assumption].
Qed.

Lemma getDocs_passes {D} (select : Store → Snapshot D) w :
  (∀ e fs, faults w ≠ Some e :: fs) →
  getDocs select w = (Resolved (select (store w)), with_faults (tail (faults w)) w).
Proof.
  intros Hno. unfold getDocs, backend. destruct w as [s t fs c q u a].
  cbn [faults store with_faults with_store head tail] in *.
  destruct fs as [|[e|] fs]; [reflexivity | now destruct (Hno e fs) | reflexivity].
Qed.

Lemma getDocs_fails {D} (select : Store → Snapshot D) w e fs :
  faults w = Some e :: fs → getDocs select w = (Rejected e, with_faults fs w).
Proof. intros Hfs. unfold getDocs, backend. now rewrite Hfs. Qed.

Lemma bind_resolved {A B} (m : M A) (k : A → M B) w a w1 :
  m w = (Resolved a, w1) → bind m k w = k a w1.
Proof. unfold bind. now intros ->. Qed.

(** The loop of [getReviewComments] settles whatever the author look-ups
    meet. *)
Lemma comment_views_resolve s0 (docs : Snapshot Comment.t) w :
  store w = s0 →
  ∃ l w',
    forEachAsync
      (λ docSnap : string * Comment.t,
         user <- getUserByRef (Comment.userRef docSnap.2) ;;
         ret (CommentView.mk docSnap.1 docSnap.2 user))
      docs w = (Resolved l, w')
    ∧ store w' = s0
    ∧ map (λ v, (CommentView.id v, CommentView.data v)) l = docs
    ∧ Forall (authorOf s0) l.
Proof.
  revert w. induction docs as [|[id c] docs IH]; intros w Hs.
  - exists [], w. repeat split; [assumption | constructor].
  - pose proof (getUserByRef_spec s0 (Comment.userRef c) (λ _, False) w Hs) as Huser.
    destruct (getUserByRef (Comment.userRef c) w) as [[user| |] w1] eqn:Hu;
      [destruct Huser as [Hs1 Huser] | destruct Huser | destruct Huser].
    destruct (IH w1) as (l & w' & Hrun & Hs' & Hl & Hall); [assumption|].
    exists (CommentView.mk id c user :: l), w'.
    split.
    { cbn [forEachAsync fst snd].
      erewrite bind_resolved; [|erewrite bind_resolved; [reflexivity | exact Hu]].
      erewrite bind_resolved; [reflexivity | exact Hrun]. }
    split; [assumption|]. split; [cbn; now rewrite Hl|].
    constructor; [|assumption]. unfold authorOf. cbn. assumption.
Qed.

(** Only the query itself can make [getReviewComments] fail. *)
Lemma getReviewComments_cases reviewId w :
  match faults w with
  | Some e :: fs => getReviewComments reviewId w = (Rejected e, with_faults fs w)
  | _ =>
      ∃ l w',
        getReviewComments reviewId w = (Resolved l, w')
        ∧ store w' = store w
        ∧ map (λ v, (CommentView.id v, CommentView.data v)) l
          = orderByAsc Comment.createdAt
              (map_to_list (children (comments (store w)) reviewId))
        ∧ Forall (authorOf (store w)) l
  end.
Proof.
  destruct (faults w) as [|[e|] fs] eqn:Hfs.
  2:{ unfold getReviewComments, try_catch, bind.
      now rewrite (getDocs_fails _ _ _ _ Hfs). }
  all: destruct (comment_views_resolve (store w)
                   (orderByAsc Comment.createdAt
                      (map_to_list (children (comments (store w)) reviewId)))
                   (with_faults (tail (faults w)) w) eq_refl)
      as (l & w' & Hloop & Hs' & Hl & Hall);
    exists l, w'; (split; [|auto]);
    unfold getReviewComments, try_catch;
    erewrite bind_resolved; [rewrite Hloop; reflexivity|];
    apply getDocs_passes; rewrite Hfs; discriminate.
Qed.

Lemma getReviewComments_length reviewId w l :
  (getReviewComments reviewId w).1 = Resolved l →
  length l = size (children (comments (store w)) reviewId).
Proof.
  intros Hrun. pose proof (getReviewComments_cases reviewId w) as H.
  assert (∃ l' w', getReviewComments reviewId w = (Resolved l', w')
            ∧ map (λ v, (CommentView.id v, CommentView.data v)) l'
              = orderByAsc Comment.createdAt
                  (map_to_list (children (comments (store w)) reviewId)))
    as (l' & w' & Hrun' & Hl).
  { destruct (faults w) as [|[e|] fs]; [|rewrite H in Hrun; discriminate|];
      destruct H as (l' & w' & ? & _ & ? & _); eauto. }
  rewrite Hrun' in Hrun. injection Hrun as ->.
  rewrite <- (length_map (λ v, (CommentView.id v, CommentView.data v))), Hl.
  unfold orderByAsc. now rewrite merge_sort_Permutation, length_map_to_list.
Qed.

Lemma getReviewComments_views (reviewId : string) (w : World) :
  let stored := children (comments (store w)) reviewId in
  let run := getReviewComments reviewId w in
  (∀ e fs, faults w = Some e :: fs → run = (Rejected e, with_faults fs w))
  ∧ ((∀ e fs, faults w ≠ Some e :: fs) → ∃ l, run.1 = Resolved l)
  ∧ (∀ l, run.1 = Resolved l →
       map (λ v, (CommentView.id v, CommentView.data v)) l
       = orderByAsc Comment.createdAt (map_to_list stored)
       ∧ length l = size stored
       ∧ (∀ id c, (id, c) ∈ map (λ v, (CommentView.id v, CommentView.data v)) l
                  ↔ stored !! id = Some c)
       ∧ ascending (λ v, Comment.createdAt (CommentView.data v)) l
       ∧ Forall (authorOf (store w)) l)
  ∧ store run.2 = store w.
Proof.
  cbv zeta. pose proof (getReviewComments_cases reviewId w) as H.
  destruct (faults w) as [|[e|] fs] eqn:Hfs.
  2:{ rewrite H. cbn [fst snd].
      split; [intros e1 fs1 [= -> ->]; reflexivity|].
      split; [intros Hno; now destruct (Hno e fs)|].
      split; [discriminate | reflexivity]. }
  all: destruct H as (l & w' & Hrun & Hs' & Hl & Hall);
    pose proof (getReviewComments_length reviewId w l) as Hlen;
    rewrite Hrun in *; cbn [fst snd] in *;
    (split; [discriminate|]); (split; [eauto|]); (split; [|assumption]);
    intros l' [= <-]; (split; [assumption|]); (split; [auto|]);
    (split; [intros id c; rewrite Hl; unfold orderByAsc;
             rewrite merge_sort_Permutation; apply elem_of_map_to_list|]);
    (split; [|assumption]).
  all: intros i j a b Hij Hi Hj;
    apply (orderByAsc_ascending Comment.createdAt
             (map_to_list (children (comments (store w)) reviewId)) i j
             (CommentView.id a, CommentView.data a) (CommentView.id b, CommentView.data b)
             Hij); rewrite <- Hl, list_lookup_fmap; [now rewrite Hi | now rewrite Hj].
Qed.

(** X6. [getReviewComments] fails only if its query fails, with that
    error; otherwise it resolves to the comments of the review in the store,
    each once, by creation time, oldest first, as many as the review has
    Comment records.  An author look-up that fails or finds nothing leaves
    [user] empty and does not fail the call; what is attached as [user] is
    the document that the comment's [userRef] is the path of, so that an
    attached user document is the one the comment refers to.  The store is
    not changed. *)
Theorem getReviewComments_contract (reviewId : string) (w : World) :
  let stored := children (comments (store w)) reviewId in
  let run := getReviewComments reviewId w in
  (∀ e fs, faults w = Some e :: fs → run = (Rejected e, with_faults fs w))
  ∧ ((∀ e fs, faults w ≠ Some e :: fs) → ∃ l, run.1 = Resolved l)
  ∧ (∀ l, run.1 = Resolved l →
       map (λ v, (CommentView.id v, CommentView.data v)) l
       = orderByAsc Comment.createdAt (map_to_list stored)
       ∧ length l = size stored
       ∧ (∀ id c, (id, c) ∈ map (λ v, (CommentView.id v, CommentView.data v)) l
                  ↔ stored !! id = Some c)
       ∧ ascending (λ v, Comment.createdAt (CommentView.data v)) l
       ∧ Forall (authorOf (store w)) l
       ∧ (∀ v uid u, v ∈ l → CommentView.user v = Some (uid, UserDoc u) →
            Comment.userRef (CommentView.data v) = docPath "users" uid
            ∧ users (store w) !! uid = Some u))
  ∧ store run.2 = store w.
Proof.
  destruct (getReviewComments_views reviewId w) as (Hfails & Hpasses & Hviews & Hstore).
  cbv zeta. split; [exact Hfails|]. split; [exact Hpasses|]. split; [|exact Hstore].
  intros l Hl. destruct (Hviews l Hl) as (Hdocs & Hlen & Hmem & Hasc & Hauthors).
  do 5 (split; [assumption|]).
  intros v uid u Hv Huser. rewrite Forall_forall in Hauthors.
  specialize (Hauthors v Hv). unfold authorOf in Hauthors. rewrite Huser in Hauthors.
  now apply documentAt_user in Hauthors.
Qed.

Lemma getReviewComments_contract_witness :
  let w := onlineWorld commentedStore in
  ∃ a b,
    (getReviewComments "r1" w).1 = Resolved [a; b]
    ∧ CommentView.id a = "k2" ∧ CommentView.data a = firstComment
    ∧ CommentView.user a = None
    ∧ CommentView.id b = "k1" ∧ CommentView.data b = secondComment
    ∧ CommentView.user b = Some ("u2", UserDoc (User.mk "u2@example.com" "u2" 0))
    ∧ length [a; b] = size (children (comments (store w)) "r1")
    ∧ (∃ w', getReviewComments "r1" (withSchedule [Some permissionDenied] w)
             = (Rejected permissionDenied, w')).
Proof.
  intros w.
  assert (Hrun : ∃ a b, (getReviewComments "r1" w).1 = Resolved [a; b]
                        ∧ CommentView.id a = "k2" ∧ CommentView.data a = firstComment
                        ∧ CommentView.user a = None
                        ∧ CommentView.id b = "k1" ∧ CommentView.data b = secondComment
                        ∧ CommentView.user b
                          = Some ("u2", UserDoc (User.mk "u2@example.com" "u2" 0))).
  { eexists _, _. split; [vm_compute; reflexivity|].
    repeat (split; [reflexivity|]). reflexivity. }
  destruct Hrun as (a & b & Hrun & Ha).
  exists a, b. split; [exact Hrun|].
  destruct (getReviewComments_contract "r1" w) as (_ & _ & Hresolved & _).
  destruct (Hresolved _ Hrun) as (_ & Hlength & _).
  destruct (getReviewComments_contract "r1" (withSchedule [Some permissionDenied] w))
    as (Hfails & _).
  destruct Ha as (? & ? & ? & ? & ? & ?).
  do 6 (split; [assumption|]). split; [exact Hlength|].
  eexists. exact (Hfails permissionDenied [] eq_refl).
Defined.

(** *** The two counters of a review *)

Lemma addComment_effect (data : CommentData.t) (context : CallableContext) (w : World) :
  let reviewId := CommentData.reviewId data in
  let userId := CommentData.userId data in
  let r := (addComment data context w).1 in
  let w' := (addComment data context w).2 in
  (store w' = store w ∧ ∀ res, r ≠ Resolved res)
  ∨ (auth context = Some userId
     ∧ is_Some (reviews (store w) !! reviewId)
     ∧ JsString.trim (CommentData.commentText data) ≠ ""
     ∧ store w' = (addCommentTransaction reviewId userId (CommentData.commentText data)
                     (clock w) (store w)).2
     ∧ r = Resolved (mkCommentResult true)).
Proof.
  cbv zeta. unfold addComment.
  destruct (auth context) as [uid|]; [|left; split; [reflexivity | discriminate]].
  destruct (negb (JsString.truthy (CommentData.reviewId data))
            || negb (JsString.truthy (CommentData.userId data))
            || negb (JsString.truthy (CommentData.commentText data))
            || (String.length (JsString.trim (CommentData.commentText data)) =? 0)%nat)
    eqn:Hargs; [left; split; [reflexivity | discriminate]|].
  destruct (String.eqb (CommentData.userId data) uid) eqn:Hsame; cbn [negb];
    [|left; split; [reflexivity | discriminate]].
  apply String.eqb_eq in Hsame. subst uid.
  assert (Htext : JsString.trim (CommentData.commentText data) ≠ "").
  { intros E. rewrite E in Hargs. cbn in Hargs. now rewrite orb_true_r in Hargs. }
  unfold try_catch, bind, Timestamp_now, runTransaction, ret, throw.
  backend_step; [left; split; [reflexivity | discriminate]|].
  cbn [fst snd]. unfold addCommentTransaction.
  destruct (reviews (store w) !! CommentData.reviewId data) as [review|] eqn:Hreview;
    [|left; cbn; split; [reflexivity | discriminate]].
  right. cbn. repeat split; eauto.
Qed.


Lemma addCommentTransaction_comments s reviewId userId commentText now :
  commentsConsistent s →
  is_Some (reviews s !! reviewId) →
  commentsConsistent (addCommentTransaction reviewId userId commentText now s).2.
Proof.
  intros Hcons [review Hreview]. unfold addCommentTransaction. rewrite Hreview, orZero_Some.
  cbn [snd]. intros id r. cbn [reviews comments set_reviews set_comments].
  destruct (decide (id = reviewId)) as [->|Hne].
  - rewrite lookup_insert_eq. intros [= <-]. cbn [Review.commentsCount Review.with_commentsCount].
    rewrite children_insert_eq, (Hcons _ _ Hreview).
    rewrite map_size_insert_None by apply not_elem_of_dom, is_fresh. lia.
  - rewrite lookup_insert_ne by congruence. intros Hr.
    rewrite children_insert_ne by congruence. now apply Hcons.
Qed.




Lemma addComment_commentsConsistent data context w :
  commentsConsistent (store w) → commentsConsistent (store (addComment data context w).2).
Proof.
  intros Hcons.
  destruct (addComment_effect data context w) as [[-> _]|(_ & Hreview & _ & -> & _)];
    [assumption|].
  now apply addCommentTransaction_comments.
Qed.

Lemma addCommentToReview_addComment reviewId userId commentText w :
  addCommentToReview reviewId userId commentText w
  = addComment (CommentData.mk reviewId userId commentText) (mkContext (currentUser w)) w.
Proof.
  unfold addCommentToReview, try_catch, httpsCallable, throw.
  now destruct (addComment _ _ w) as [[?|?|] ?].
Qed.




(** *** What a like reports *)

Lemma likeReview_resolved (data : LikeData.t) (context : CallableContext) (w : World)
    res w' :
  let reviewId := LikeData.reviewId data in
  let userId := LikeData.userId data in
  likeReview data context w = (Resolved res, w') →
  auth context = Some userId
  ∧ ∃ review, reviews (store w) !! reviewId = Some review
      ∧ ((hasLiked (store w) reviewId userId = true
          ∧ store w' = (unlikeTransaction reviewId userId (store w)).2
          ∧ res = mkLikeResult unliked (Z.max 0 (Review.likesCount review - 1)))
         ∨ (hasLiked (store w) reviewId userId = false
            ∧ store w' = (likeTransaction reviewId userId (clock w) (store w)).2
            ∧ res = mkLikeResult liked (Review.likesCount review + 1))).
Proof.
  cbv zeta. unfold likeReview, likeReview_checks.
  destruct (auth context) as [uid|]; [|discriminate].
  destruct (negb (JsString.truthy (LikeData.reviewId data))
            || negb (JsString.truthy (LikeData.userId data))); [discriminate|].
  destruct (String.eqb (LikeData.userId data) uid) eqn:Hsame; cbn [negb]; [|discriminate].
  apply String.eqb_eq in Hsame. subst uid.
  unfold bind at 1. unfold ret at 1.
  unfold try_catch, likeReview_read, likeReview_write, getLikesCount, getDoc,
    runTransaction, Timestamp_now, bind, ret, throw.
  backend_step; [discriminate|].
  cbn [fst snd].
  unfold hasLiked.
  destruct (bool_decide (is_Some (children (likedBy (store w)) (LikeData.reviewId data)
                                    !! LikeData.userId data))) eqn:Hmember.
  - backend_step; [discriminate|].
    cbn [fst snd store with_store with_faults].
    unfold unlikeTransaction.
    destruct (reviews (store w) !! LikeData.reviewId data) as [review|] eqn:Hreview;
      [|discriminate].
    cbn [fst snd].
    backend_step; [discriminate|].
    cbn [fst snd store with_store with_faults reviews set_likedBy set_reviews].
    rewrite lookup_insert_eq. cbn [fmap option_fmap option_map Review.likesCount
                                   Review.with_likesCount].
    rewrite !orZero_Some. intros [= <- <-].
    split; [reflexivity|]. exists review. split; [reflexivity|]. left. auto.
  - backend_step; [discriminate|].
    cbn [fst snd store with_store with_faults clock].
    unfold likeTransaction.
    destruct (reviews (store w) !! LikeData.reviewId data) as [review|] eqn:Hreview;
      [|discriminate].
    cbn [fst snd].
    backend_step; [discriminate|].
    cbn [fst snd store with_store with_faults reviews set_likedBy set_reviews].
    rewrite lookup_insert_eq. cbn [fmap option_fmap option_map Review.likesCount
                                   Review.with_likesCount].
    rewrite !orZero_Some. intros [= <- <-].
    split; [reflexivity|]. exists review. split; [reflexivity|]. right. auto.
Qed.

Lemma hasUserLikedReview_cases reviewId userId w :
  hasUserLikedReview reviewId userId w
  = (Resolved (match faults w with
               | Some e :: _ => false
               | _ => hasLiked (store w) reviewId userId
               end),
     with_faults (tail (faults w)) w).
Proof.
  unfold hasUserLikedReview, try_catch, bind, getDoc, backend, ret, hasLiked.
  destruct w as [s t fs c q u a]. cbn [faults store with_faults with_store head tail].
  destruct fs as [|[e|] fs]; reflexivity.
Qed.



Lemma likesCounter_unlike s reviewId userId review :
  reviews s !! reviewId = Some review →
  likesCounter (unlikeTransaction reviewId userId s).2 reviewId
  = Z.max 0 (Review.likesCount review - 1).
Proof.
  intros Hreview. rewrite (unlikeTransaction_writes _ _ _ _ Hreview).
  unfold likesCounter. cbn [reviews set_likedBy set_reviews].
  now rewrite lookup_insert_eq.
Qed.

Lemma likesCounter_like s reviewId userId now review :
  reviews s !! reviewId = Some review →
  likesCounter (likeTransaction reviewId userId now s).2 reviewId
  = Review.likesCount review + 1.
Proof.
  intros Hreview. rewrite (likeTransaction_writes _ _ _ _ _ Hreview).
  unfold likesCounter. cbn [reviews set_likedBy set_reviews].
  now rewrite lookup_insert_eq.
Qed.

(** The result of a toggle that resolved, against the store it left. *)
Lemma toggleReviewLike_result reviewId userId w res w' :
  toggleReviewLike reviewId userId w = (Resolved res, w') →
  likesCount res = likesCounter (store w') reviewId
  ∧ match action res with liked => true | unliked => false end
    = hasLiked (store w') reviewId userId.
Proof.
  intros Hrun. rewrite toggleReviewLike_likeReview in Hrun.
  apply likeReview_resolved in Hrun as (_ & review & Hreview & Hcase).
  cbn [LikeData.reviewId LikeData.userId] in *.
  destruct Hcase as [(_ & Hstore & ->)|(_ & Hstore & ->)]; cbn [action likesCount];
    rewrite Hstore.
  - rewrite (likesCounter_unlike _ _ _ _ Hreview).
    now rewrite (hasLiked_after_unlike _ _ _ (ex_intro _ review Hreview)).
  - rewrite (likesCounter_like _ _ _ _ _ Hreview).
    now rewrite (hasLiked_after_like _ _ _ _ (ex_intro _ review Hreview)).
Qed.




(** *** How the callable functions fail *)

Lemma truthy_false s : JsString.truthy s = false ↔ s = "".
Proof. destruct s; cbn; split; congruence. Qed.

Lemma likeReview_internal (data : LikeData.t) (w : World) :
  let reviewId := LikeData.reviewId data in
  let userId := LikeData.userId data in
  let body :=
    try_catch
      (likedByDoc_exists <- likeReview_read data ;;
       likeReview_write data likedByDoc_exists)
      (λ _, throw (HttpsError "internal" "Failed to process like operation")) in
  (∀ e, (body w).1 = Rejected e →
     e = HttpsError "internal" "Failed to process like operation")
  ∧ (reviews (store w) !! reviewId = None → ∀ res, (body w).1 ≠ Resolved res)
  ∧ (body w).1 ≠ Pending.
Proof.
  cbv zeta.
  unfold try_catch, likeReview_read, likeReview_write, getLikesCount, getDoc,
    runTransaction, Timestamp_now, bind, ret, throw.
  backend_step; [cbn; repeat split; congruence|].
  cbn [fst snd].
  destruct (bool_decide (is_Some (children (likedBy (store w)) (LikeData.reviewId data)
                                    !! LikeData.userId data))).
  - backend_step; [cbn; repeat split; congruence|].
    cbn [fst snd store with_store with_faults].
    unfold unlikeTransaction.
    destruct (reviews (store w) !! LikeData.reviewId data) as [review|] eqn:Hreview;
      [|cbn; repeat split; congruence].
    cbn [fst snd].
    backend_step; cbn; repeat split; congruence.
  - backend_step; [cbn; repeat split; congruence|].
    cbn [fst snd store with_store with_faults clock].
    unfold likeTransaction.
    destruct (reviews (store w) !! LikeData.reviewId data) as [review|] eqn:Hreview;
      [|cbn; repeat split; congruence].
    cbn [fst snd].
    backend_step; cbn; repeat split; congruence.
Qed.

Lemma likeReview_cases (data : LikeData.t) (context : CallableContext) (w : World) :
  likeReview data context w
  = match auth context with
    | None => (Rejected (HttpsError "unauthenticated" "User must be authenticated"), w)
    | Some uid =>
        if negb (JsString.truthy (LikeData.reviewId data))
           || negb (JsString.truthy (LikeData.userId data))
        then (Rejected (HttpsError "invalid-argument" "Review ID and User ID are required"),
              w)
        else if negb (String.eqb (LikeData.userId data) uid)
        then (Rejected (HttpsError "permission-denied"
                          "Cannot like reviews for other users"), w)
        else try_catch
               (likedByDoc_exists <- likeReview_read data ;;
                likeReview_write data likedByDoc_exists)
               (λ _, throw (HttpsError "internal" "Failed to process like operation")) w
    end.
Proof.
  unfold likeReview, likeReview_checks.
  destruct (auth context) as [uid|]; [|reflexivity].
  destruct (negb (JsString.truthy (LikeData.reviewId data))
            || negb (JsString.truthy (LikeData.userId data))); [reflexivity|].
  now destruct (negb (String.eqb (LikeData.userId data) uid)).
Qed.

(** X9. [likeReview] settles, and rejects only with
    [unauthenticated] (no caller), [invalid-argument] (an empty id),
    [permission-denied] (the caller is not [userId]), checked in this order
    and before anything is read, or [internal].  A review that does not
    exist gives [internal] and an unchanged store: the [not-found] thrown
    inside the transaction never reaches the caller. *)
Theorem likeReview_error_codes (data : LikeData.t) (context : CallableContext)
    (w : World) :
  let reviewId := LikeData.reviewId data in
  let userId := LikeData.userId data in
  let run := likeReview data context w in
  run.1 ≠ Pending
  ∧ (∀ e, run.1 = Rejected e →
       (auth context = None
        ∧ e = HttpsError "unauthenticated" "User must be authenticated" ∧ run.2 = w)
       ∨ (is_Some (auth context) ∧ (reviewId = "" ∨ userId = "")
          ∧ e = HttpsError "invalid-argument" "Review ID and User ID are required"
          ∧ run.2 = w)
       ∨ (is_Some (auth context) ∧ auth context ≠ Some userId
          ∧ reviewId ≠ "" ∧ userId ≠ ""
          ∧ e = HttpsError "permission-denied" "Cannot like reviews for other users"
          ∧ run.2 = w)
       ∨ (auth context = Some userId ∧ reviewId ≠ "" ∧ userId ≠ ""
          ∧ e = HttpsError "internal" "Failed to process like operation"))
  ∧ (reviews (store w) !! reviewId = None →
       store run.2 = store w ∧ ∀ res, run.1 ≠ Resolved res)
  ∧ (auth context = Some userId → reviewId ≠ "" → userId ≠ "" →
     reviews (store w) !! reviewId = None →
       run.1 = Rejected (HttpsError "internal" "Failed to process like operation")).
Proof.
  cbv zeta.
  assert (Hmissing : reviews (store w) !! LikeData.reviewId data = None →
            store (likeReview data context w).2 = store w
            ∧ ∀ res, (likeReview data context w).1 ≠ Resolved res).
  { intros Hnone.
    destruct (likeReview_effect data context w) as [H|(_ & [r Hr] & _)]; [exact H|].
    congruence. }
  pose proof (likeReview_internal data w) as Hbody. cbv zeta in Hbody.
  remember (likeReview data context w) as run eqn:Hrun.
  rewrite likeReview_cases in Hrun.
  destruct (auth context) as [uid|] eqn:Hauth.
  2:{ subst run. cbn. split; [discriminate|]. split; [|split; [assumption | discriminate]].
      intros e [= <-]. left. auto. }
  destruct (JsString.truthy (LikeData.reviewId data)) eqn:Hrid; cbn [negb orb] in Hrun.
  2:{ subst run. cbn. split; [discriminate|]. apply truthy_false in Hrid.
      split; [|split; [assumption | congruence]].
      intros e [= <-]. right. left. eauto 10. }
  destruct (JsString.truthy (LikeData.userId data)) eqn:Huid; cbn [negb orb] in Hrun.
  2:{ subst run. cbn. split; [discriminate|]. apply truthy_false in Huid.
      split; [|split; [assumption | congruence]].
      intros e [= <-]. right. left. eauto 10. }
  assert (LikeData.reviewId data ≠ "") by (intros E; now rewrite E in Hrid).
  assert (LikeData.userId data ≠ "") by (intros E; now rewrite E in Huid).
  destruct (String.eqb (LikeData.userId data) uid) eqn:Hsame; cbn [negb] in Hrun.
  2:{ subst run. cbn. split; [discriminate|]. apply String.eqb_neq in Hsame.
      split; [|split; [assumption | congruence]].
      intros e [= <-]. right. right. left. repeat split; eauto. congruence. }
  apply String.eqb_eq in Hsame. subst uid.
  rewrite <- Hrun in Hbody.
  destruct Hbody as (Hcode & Hnone & Hpending).
  split; [assumption|]. split; [|split; [assumption|]].
  - intros e He. right. right. right. rewrite (Hcode e He). auto.
  - intros _ _ _ Hnone'. specialize (Hnone Hnone').
    destruct run.1 as [res|e|] eqn:Hr.
    + now destruct (Hnone res).
    + now rewrite (Hcode e eq_refl).
    + now destruct Hpending.
Qed.

Lemma addComment_cases (data : CommentData.t) (context : CallableContext) (w : World) :
  let reviewId := CommentData.reviewId data in
  let userId := CommentData.userId data in
  let commentText := CommentData.commentText data in
  addComment data context w
  = match auth context with
    | None => (Rejected (HttpsError "unauthenticated" "User must be authenticated"), w)
    | Some uid =>
        if negb (JsString.truthy reviewId) || negb (JsString.truthy userId)
           || negb (JsString.truthy commentText)
           || (String.length (JsString.trim commentText) =? 0)%nat
        then (Rejected (HttpsError "invalid-argument"
                          "Review ID, User ID, and comment text are required"), w)
        else if negb (String.eqb userId uid)
        then (Rejected (HttpsError "permission-denied" "Cannot comment for other users"), w)
        else
          match head (faults w) with
          | Some (Some _) =>
              (Rejected (HttpsError "internal" "Failed to add comment"),
               with_faults (tail (faults w)) w)
          | _ =>
              match reviews (store w) !! reviewId with
              | None =>
                  (Rejected (HttpsError "internal" "Failed to add comment"),
                   with_faults (tail (faults w)) w)
              | Some _ =>
                  (Resolved (mkCommentResult true),
                   with_store
                     (λ _, (addCommentTransaction reviewId userId commentText (clock w)
                              (store w)).2)
                     (with_faults (tail (faults w)) w))
              end
          end
    end.
Proof.
  cbv zeta. unfold addComment.
  destruct (auth context) as [uid|]; [|reflexivity].
  destruct (negb (JsString.truthy (CommentData.reviewId data))
            || negb (JsString.truthy (CommentData.userId data))
            || negb (JsString.truthy (CommentData.commentText data))
            || (String.length (JsString.trim (CommentData.commentText data)) =? 0)%nat);
    [reflexivity|].
  destruct (negb (String.eqb (CommentData.userId data) uid)); [reflexivity|].
  unfold try_catch, bind, Timestamp_now, runTransaction, backend, ret, throw.
  destruct w as [s t fs c q u a].
  cbn [faults store clock with_faults with_store head tail fst snd].
  destruct fs as [|[e|] fs]; cbn [head tail]; try reflexivity;
    unfold addCommentTransaction;
    destruct (reviews s !! CommentData.reviewId data); reflexivity.
Qed.

Lemma length_zero_empty (s : string) : (String.length s =? 0)%nat = false ↔ s ≠ "".
Proof. destruct s; cbn; split; congruence. Qed.

Lemma addComment_rejections (data : CommentData.t) (context : CallableContext)
    (w : World) :
  let reviewId := CommentData.reviewId data in
  let userId := CommentData.userId data in
  let commentText := CommentData.commentText data in
  let run := addComment data context w in
  run.1 ≠ Pending
  ∧ (∀ e, run.1 = Rejected e →
       store run.2 = store w
       ∧ ((auth context = None
           ∧ e = HttpsError "unauthenticated" "User must be authenticated" ∧ run.2 = w)
          ∨ (is_Some (auth context)
             ∧ (reviewId = "" ∨ userId = "" ∨ JsString.trim commentText = "")
             ∧ e = HttpsError "invalid-argument"
                     "Review ID, User ID, and comment text are required"
             ∧ run.2 = w)
          ∨ (is_Some (auth context) ∧ auth context ≠ Some userId
             ∧ reviewId ≠ "" ∧ userId ≠ "" ∧ JsString.trim commentText ≠ ""
             ∧ e = HttpsError "permission-denied" "Cannot comment for other users"
             ∧ run.2 = w)
          ∨ (auth context = Some userId
             ∧ reviewId ≠ "" ∧ userId ≠ "" ∧ JsString.trim commentText ≠ ""
             ∧ e = HttpsError "internal" "Failed to add comment")))
  ∧ (auth context = Some userId → reviewId ≠ "" → userId ≠ "" →
     JsString.trim commentText ≠ "" →
     reviews (store w) !! reviewId = None →
       run.1 = Rejected (HttpsError "internal" "Failed to add comment")).
Proof.
  cbv zeta. rewrite addComment_cases. cbv zeta.
  destruct (auth context) as [uid|] eqn:Hauth.
  2:{ cbn. split; [discriminate|]. split; [|discriminate].
      intros e [= <-]. split; [reflexivity|]. left. auto. }
  destruct (JsString.truthy (CommentData.reviewId data)) eqn:Hrid; cbn [negb orb].
  2:{ cbn. split; [discriminate|]. apply truthy_false in Hrid.
      split; [|congruence].
      intros e [= <-]. split; [reflexivity|]. right. left. eauto 10. }
  destruct (JsString.truthy (CommentData.userId data)) eqn:Huid; cbn [negb orb].
  2:{ cbn. split; [discriminate|]. apply truthy_false in Huid.
      split; [|congruence].
      intros e [= <-]. split; [reflexivity|]. right. left. eauto 10. }
  destruct (JsString.truthy (CommentData.commentText data)) eqn:Htext; cbn [negb orb].
  2:{ cbn. split; [discriminate|]. apply truthy_false in Htext.
      assert (JsString.trim (CommentData.commentText data) = "") by now rewrite Htext.
      split; [|congruence].
      intros e [= <-]. split; [reflexivity|]. right. left. eauto 10. }
  destruct (String.length (JsString.trim (CommentData.commentText data)) =? 0)%nat
    eqn:Htrim.
  { cbn. split; [discriminate|].
    assert (JsString.trim (CommentData.commentText data) = "").
    { destruct (JsString.trim (CommentData.commentText data)); [reflexivity | discriminate]. }
    split; [|congruence].
    intros e [= <-]. split; [reflexivity|]. right. left. eauto 10. }
  apply length_zero_empty in Htrim.
  assert (CommentData.reviewId data ≠ "") by (intros E; now rewrite E in Hrid).
  assert (CommentData.userId data ≠ "") by (intros E; now rewrite E in Huid).
  destruct (String.eqb (CommentData.userId data) uid) eqn:Hsame; cbn [negb].
  2:{ cbn. split; [discriminate|]. apply String.eqb_neq in Hsame.
      split; [|congruence].
      intros e [= <-]. split; [reflexivity|]. right. right. left.
      repeat split; eauto. congruence. }
  apply String.eqb_eq in Hsame. subst uid.
  destruct (head (faults w)) as [[e0|]|];
    try (destruct (reviews (store w) !! CommentData.reviewId data) eqn:Hreview);
    cbn [fst snd]; (split; [discriminate|]); split;
    try (intros e [= <-]; split; [reflexivity|]; right; right; right; now auto 10);
    try discriminate; try reflexivity; try congruence.
Qed.

(** X10. [addComment] settles, leaves the store unchanged whenever it
    rejects, and rejects only with [unauthenticated], [invalid-argument]
    (an empty id, or a text that is empty or white space throughout),
    [permission-denied], checked in this order and before anything is read,
    or [internal], which is also what a review that does not exist gives. *)
Theorem addComment_error_codes (data : CommentData.t) (context : CallableContext)
    (w : World) :
  let reviewId := CommentData.reviewId data in
  let userId := CommentData.userId data in
  let commentText := CommentData.commentText data in
  let run := addComment data context w in
  run.1 ≠ Pending
  ∧ (∀ e, run.1 = Rejected e →
       store run.2 = store w
       ∧ ((auth context = None
           ∧ e = HttpsError "unauthenticated" "User must be authenticated" ∧ run.2 = w)
          ∨ (is_Some (auth context)
             ∧ (reviewId = "" ∨ userId = "" ∨ Blank commentText)
             ∧ e = HttpsError "invalid-argument"
                     "Review ID, User ID, and comment text are required"
             ∧ run.2 = w)
          ∨ (is_Some (auth context) ∧ auth context ≠ Some userId
             ∧ reviewId ≠ "" ∧ userId ≠ "" ∧ ¬ Blank commentText
             ∧ e = HttpsError "permission-denied" "Cannot comment for other users"
             ∧ run.2 = w)
          ∨ (auth context = Some userId
             ∧ reviewId ≠ "" ∧ userId ≠ "" ∧ ¬ Blank commentText
             ∧ e = HttpsError "internal" "Failed to add comment")))
  ∧ (auth context = Some userId → reviewId ≠ "" → userId ≠ "" →
     ¬ Blank commentText →
     reviews (store w) !! reviewId = None →
       run.1 = Rejected (HttpsError "internal" "Failed to add comment")).
Proof.
  pose proof (addComment_rejections data context w) as H. cbv zeta in *.
  setoid_rewrite <- trim_blank. exact H.
Qed.

Lemma likeReview_error_codes_witness :
  let w := onlineWorld sampleStore in
  let data := LikeData.mk "r1" "u2" in
  let late := likeReview data (mkContext (Some "u2"))
                (withSchedule [None; None; Some unavailable] w) in
  likeReview data (mkContext None) w
  = (Rejected (HttpsError "unauthenticated" "User must be authenticated"), w)
  ∧ likeReview data (mkContext (Some "u1")) w
    = (Rejected (HttpsError "permission-denied" "Cannot like reviews for other users"), w)
  ∧ (likeReview (LikeData.mk "r9" "u2") (mkContext (Some "u2")) w).1
    = Rejected (HttpsError "internal" "Failed to process like operation")
  ∧ late.1 = Rejected (HttpsError "internal" "Failed to process like operation")
  ∧ hasLiked (store late.2) "r1" "u2" = true.
Proof.
  intros w data late.
  destruct (likeReview_error_codes data (mkContext None) w) as (_ & Hcodes & _).
  destruct (likeReview_error_codes (LikeData.mk "r9" "u2") (mkContext (Some "u2")) w)
    as (_ & _ & _ & Hmissing).
  split; [reflexivity|]. split; [reflexivity|].
  split; [apply Hmissing; [reflexivity | discriminate | discriminate | reflexivity]|].
  split; reflexivity.
Defined.

Lemma addComment_error_codes_witness :
  let w := onlineWorld sampleStore in
  addComment (CommentData.mk "r1" "u2" "   ") (mkContext (Some "u2")) w
  = (Rejected (HttpsError "invalid-argument"
                 "Review ID, User ID, and comment text are required"), w)
  ∧ addComment (CommentData.mk "r1" "u2" blankComment) (mkContext (Some "u2")) w
    = (Rejected (HttpsError "invalid-argument"
                   "Review ID, User ID, and comment text are required"), w)
  ∧ addComment (CommentData.mk "r1" "u2" "nice!") (mkContext None) w
    = (Rejected (HttpsError "unauthenticated" "User must be authenticated"), w)
  ∧ (addComment (CommentData.mk "r9" "u2" "nice!") (mkContext (Some "u2")) w).1
    = Rejected (HttpsError "internal" "Failed to add comment")
  ∧ store (addComment (CommentData.mk "r9" "u2" "nice!") (mkContext (Some "u2")) w).2
    = store w.
Proof.
  intros w.
  destruct (addComment_error_codes (CommentData.mk "r9" "u2" "nice!")
              (mkContext (Some "u2")) w) as (_ & Hcodes & Hmissing).
  assert (Hrun : (addComment (CommentData.mk "r9" "u2" "nice!") (mkContext (Some "u2")) w).1
                 = Rejected (HttpsError "internal" "Failed to add comment")).
  { apply Hmissing; [reflexivity | discriminate | discriminate | | reflexivity].
    apply not_Blank. vm_compute. discriminate. }
  split; [reflexivity|]. split; [reflexivity|]. split; [reflexivity|]. split; [exact Hrun|].
  exact (proj1 (Hcodes _ Hrun)).
Defined.

(** *** Following *)

Section Following.
Variables currentUserId targetUserId : string.

Local Abbreviation followAttempt :=
  (bind Timestamp_now (λ now,
     bind (setSubDoc following set_following currentUserId targetUserId (Follow.mk now))
          (λ _, ret true))).

Local Abbreviation unfollowAttempt :=
  (bind (deleteSubDoc following set_following currentUserId targetUserId) (λ _, ret true)).

Lemma followAttempt_cases w :
  followAttempt w
  = match faults w with
    | Some e :: fs => (Rejected e, with_faults fs w)
    | _ =>
        (Resolved true,
         with_store
           (set_following
              (insert currentUserId
                 (<[targetUserId := Follow.mk (clock w)]>
                    (children (following (store w)) currentUserId))))
           (with_faults (tail (faults w)) w))
    end.
Proof.
  unfold bind, Timestamp_now, setSubDoc, backend, ret.
  destruct w as [s t fs c q u a].
  cbn [faults store clock with_faults with_store head tail].
  destruct fs as [|[e|] fs]; reflexivity.
Qed.

Lemma unfollowAttempt_cases w :
  unfollowAttempt w
  = match faults w with
    | Some e :: fs => (Rejected e, with_faults fs w)
    | _ =>
        (Resolved true,
         with_store
           (set_following
              (insert currentUserId
                 (delete targetUserId (children (following (store w)) currentUserId))))
           (with_faults (tail (faults w)) w))
    end.
Proof.
  unfold bind, deleteSubDoc, backend, ret.
  destruct w as [s t fs c q u a].
  cbn [faults store clock with_faults with_store head tail].
  destruct fs as [|[e|] fs]; reflexivity.
Qed.

Lemma followUser_outcome w :
  connectionState w = connected →
  (∃ w', followUser currentUserId targetUserId w = (Resolved false, w')
         ∧ connectionState w' = connected ∧ store w' = store w)
  ∨ (∃ w' t, followUser currentUserId targetUserId w = (Resolved true, w')
             ∧ connectionState w' = connected
             ∧ store w'
               = set_following
                   (insert currentUserId
                      (<[targetUserId := Follow.mk t]>
                         (children (following (store w)) currentUserId)))
                   (store w)).
Proof.
  intros Hc. unfold followUser, try_catch.
  destruct (executeWithRetry_is_an_attempt followAttempt "followUser"
              (reading (store w)) w) as (w1 & [Hc1 Hs1] & Hrun).
  - intros w0 [H _]. exact H.
  - intros w0 ms H. exact H.
  - intros w0 [Hc0 Hs0]. rewrite followAttempt_cases.
    destruct (faults w0) as [|[e|] fs]; [exact I | split; assumption | exact I].
  - split; [assumption | reflexivity].
  - rewrite <- Hrun, followAttempt_cases.
    destruct (faults w1) as [|[e|] fs].
    + right. eexists _, _. split; [reflexivity|]. split; [exact Hc1|]. cbn. now rewrite Hs1.
    + left. eexists. split; [reflexivity|]. split; [exact Hc1 | exact Hs1].
    + right. eexists _, _. split; [reflexivity|]. split; [exact Hc1|]. cbn. now rewrite Hs1.
Qed.

Lemma unfollowUser_outcome w :
  connectionState w = connected →
  (∃ w', unfollowUser currentUserId targetUserId w = (Resolved false, w')
         ∧ connectionState w' = connected ∧ store w' = store w)
  ∨ (∃ w', unfollowUser currentUserId targetUserId w = (Resolved true, w')
           ∧ connectionState w' = connected
           ∧ store w'
             = set_following
                 (insert currentUserId
                    (delete targetUserId (children (following (store w)) currentUserId)))
                 (store w)).
Proof.
  intros Hc. unfold unfollowUser, try_catch.
  destruct (executeWithRetry_is_an_attempt unfollowAttempt "unfollowUser"
              (reading (store w)) w) as (w1 & [Hc1 Hs1] & Hrun).
  - intros w0 [H _]. exact H.
  - intros w0 ms H. exact H.
  - intros w0 [Hc0 Hs0]. rewrite unfollowAttempt_cases.
    destruct (faults w0) as [|[e|] fs]; [exact I | split; assumption | exact I].
  - split; [assumption | reflexivity].
  - rewrite <- Hrun, unfollowAttempt_cases.
    destruct (faults w1) as [|[e|] fs].
    + right. eexists. split; [reflexivity|]. split; [exact Hc1|]. cbn. now rewrite Hs1.
    + left. eexists. split; [reflexivity|]. split; [exact Hc1 | exact Hs1].
    + right. eexists. split; [reflexivity|]. split; [exact Hc1|]. cbn. now rewrite Hs1.
Qed.

End Following.

(** What [getFollowingUsers] returns while connected: everybody the user
    follows, or nobody when the read failed. *)
Lemma getFollowingUsers_outcome userId w :
  connectionState w = connected →
  ∃ ids w', getFollowingUsers userId w = (Resolved ids, w')
    ∧ reading (store w) w'
    ∧ (ids = (map_to_list (children (following (store w)) userId)).*1 ∨ ids = [])
    ∧ ((∀ e fs, faults w ≠ Some e :: fs) →
         ids = (map_to_list (children (following (store w)) userId)).*1).
Proof.
  intros Hc. unfold getFollowingUsers, try_catch.
  pose proof (retried_read_result (λ s, map_to_list (children (following s) userId))
                (map fst) "getFollowingUsers" w Hc) as H.
  pose proof (retried_read_first (λ s, map_to_list (children (following s) userId))
                (map fst) "getFollowingUsers" w Hc) as Hfirst.
  destruct (executeWithRetry _ "getFollowingUsers" w) as [[ids|e|] w'] eqn:Hrun;
    [| |destruct H].
  - destruct H as [-> Hs]. eexists _, _. split; [reflexivity|]. auto.
  - eexists _, _. split; [reflexivity|]. split; [assumption|].
    split; [now right|]. intros Hno. specialize (Hfirst Hno). discriminate Hfirst.
Qed.

Lemma follows_set s a docs a' u :
  follows (set_following (insert a docs) s) a' u
  = if decide (a' = a) then bool_decide (is_Some (docs !! u)) else follows s a' u.
Proof.
  unfold follows. cbn [following set_following].
  destruct (decide (a' = a)) as [->|Hne];
    [now rewrite children_insert_eq | now rewrite children_insert_ne].
Qed.

Lemma follows_after_follow s a t now a' u :
  follows (set_following (insert a (<[t := Follow.mk now]> (children (following s) a))) s)
          a' u
  = if decide (a' = a ∧ u = t) then true else follows s a' u.
Proof.
  rewrite follows_set. destruct (decide (a' = a)) as [->|Hne].
  - destruct (decide (u = t)) as [->|Hu].
    + rewrite decide_True by auto. rewrite lookup_insert_eq. reflexivity.
    + rewrite decide_False by (intros [_ ?]; contradiction).
      now rewrite lookup_insert_ne by congruence.
  - now rewrite decide_False by (intros [? _]; contradiction).
Qed.

Lemma follows_after_unfollow s a t a' u :
  follows (set_following (insert a (delete t (children (following s) a))) s) a' u
  = if decide (a' = a ∧ u = t) then false else follows s a' u.
Proof.
  rewrite follows_set. destruct (decide (a' = a)) as [->|Hne].
  - destruct (decide (u = t)) as [->|Hu].
    + rewrite decide_True by auto. rewrite lookup_delete_eq. reflexivity.
    + rewrite decide_False by (intros [_ ?]; contradiction).
      now rewrite lookup_delete_ne by congruence.
  - now rewrite decide_False by (intros [? _]; contradiction).
Qed.

Lemma follows_listed s a u :
  follows s a u = true ↔ u ∈ (map_to_list (children (following s) a)).*1.
Proof.
  unfold follows. rewrite bool_decide_eq_true, list_elem_of_fmap. split.
  - intros [d Hd]. exists (u, d). split; [reflexivity|]. now apply elem_of_map_to_list.
  - intros ([u' d] & -> & Hin). apply elem_of_map_to_list in Hin. eauto.
Qed.

(** X11. While connected, [followUser] and [unfollowUser] never reject:
    they resolve to [false] with the store unchanged, or to [true] with
    exactly the one Follow record added, or removed.  After a follow that
    resolved to [true], [getFollowingUsers] (its read going through) lists
    the target, and an unfollow that then resolves to [true] removes the
    target again and leaves every other follow as it was before the two
    calls; after an unfollow that resolved to [true] no list
    [getFollowingUsers] resolves to contains the target. *)
Theorem follow_unfollow_round_trip (currentUserId targetUserId : string) (w : World)
    (Hconnected : connectionState w = connected) :
  (∃ done w1,
     followUser currentUserId targetUserId w = (Resolved done, w1)
     ∧ (done = false → store w1 = store w)
     ∧ (done = true →
          ∀ a u, follows (store w1) a u
                 = if decide (a = currentUserId ∧ u = targetUserId) then true
                   else follows (store w) a u)
     ∧ (done = true → ∀ ids w2,
          (∀ e fs, faults w1 ≠ Some e :: fs) →
          getFollowingUsers currentUserId w1 = (Resolved ids, w2) → targetUserId ∈ ids)
     ∧ (done = true → ∀ gone w2,
          unfollowUser currentUserId targetUserId w1 = (Resolved gone, w2) →
          gone = true →
          ∀ a u, follows (store w2) a u
                 = if decide (a = currentUserId ∧ u = targetUserId) then false
                   else follows (store w) a u))
  ∧ (∃ gone w1,
       unfollowUser currentUserId targetUserId w = (Resolved gone, w1)
       ∧ (gone = false → store w1 = store w)
       ∧ (gone = true →
            ∀ a u, follows (store w1) a u
                   = if decide (a = currentUserId ∧ u = targetUserId) then false
                     else follows (store w) a u)
       ∧ (gone = true → ∀ ids w2,
            getFollowingUsers currentUserId w1 = (Resolved ids, w2) → targetUserId ∉ ids)).
Proof.
  split.
  - destruct (followUser_outcome currentUserId targetUserId w Hconnected)
      as [(w1 & Hrun & Hc1 & Hs1)|(w1 & t & Hrun & Hc1 & Hs1)].
    + exists false, w1. split; [assumption|]. split; [auto|].
      split; [discriminate|]. split; discriminate.
    + exists true, w1. split; [assumption|]. split; [discriminate|].
      split; [intros _ a u; rewrite Hs1; apply follows_after_follow|].
      split.
      * intros _ ids w2 Hno Hids.
        destruct (getFollowingUsers_outcome currentUserId w1 Hc1)
          as (ids' & w2' & Hrun' & _ & _ & Hall).
        rewrite Hrun' in Hids. injection Hids as <- <-. rewrite (Hall Hno).
        apply follows_listed. rewrite Hs1, follows_after_follow.
        now rewrite decide_True by auto.
      * intros _ gone w2 Hgone ->.
        destruct (unfollowUser_outcome currentUserId targetUserId w1 Hc1)
          as [(w2' & Hrun' & _)|(w2' & Hrun' & _ & Hs2)];
          rewrite Hrun' in Hgone; [discriminate|].
        injection Hgone as <-. intros a u.
        rewrite Hs2, follows_after_unfollow.
        destruct (decide (a = currentUserId ∧ u = targetUserId)) as [Hau|Hau];
          [reflexivity|].
        rewrite Hs1, follows_after_follow. now rewrite decide_False by assumption.
  - destruct (unfollowUser_outcome currentUserId targetUserId w Hconnected)
      as [(w1 & Hrun & Hc1 & Hs1)|(w1 & Hrun & Hc1 & Hs1)].
    + exists false, w1. split; [assumption|]. split; [auto|].
      split; discriminate.
    + exists true, w1. split; [assumption|]. split; [discriminate|].
      split; [intros _ a u; rewrite Hs1; apply follows_after_unfollow|].
      intros _ ids w2 Hids.
      destruct (getFollowingUsers_outcome currentUserId w1 Hc1)
        as (ids' & w2' & Hrun' & _ & [Hall|Hnone] & _).
      * rewrite Hrun' in Hids. injection Hids as <- <-. rewrite Hall.
        rewrite <- follows_listed, Hs1, follows_after_unfollow.
        now rewrite decide_True by auto.
      * rewrite Hrun' in Hids. injection Hids as <- <-. rewrite Hnone.
        apply not_elem_of_nil.
Qed.

Lemma ReferenceError_is_fatal : isNetworkError (ReferenceError "getDoc") = false.
Proof. reflexivity. Qed.

(** X12. [isFollowing] calls [getDoc], which [feedService.ts] does not
    import: while connected it resolves to [false] and changes nothing,
    whatever the store holds, also right after a [followUser] that resolved
    to [true]; while not connected it is queued.  It never resolves to
    [true]. *)
Theorem isFollowing_never_true (currentUserId targetUserId : string) (w : World) :
  (connectionState w = connected →
     isFollowing currentUserId targetUserId w = (Resolved false, w))
  ∧ (connectionState w ≠ connected →
       isFollowing currentUserId targetUserId w
       = (Pending, with_retryQueue (retryQueue w ++ ["isFollowing"])%list w))
  ∧ (isFollowing currentUserId targetUserId w).1 ≠ Resolved true
  ∧ (connectionState w = connected → ∀ w1,
       followUser currentUserId targetUserId w = (Resolved true, w1) →
       follows (store w1) currentUserId targetUserId = true
       ∧ isFollowing currentUserId targetUserId w1 = (Resolved false, w1)).
Proof.
  assert (Hconn : ∀ w0, connectionState w0 = connected →
            isFollowing currentUserId targetUserId w0 = (Resolved false, w0)).
  { intros w0 Hc. unfold isFollowing, try_catch, executeWithRetry, executeWithRetry_events.
    rewrite maxRetries_rounds.
    erewrite retryLoop_fatal;
      [reflexivity | assumption | reflexivity | apply ReferenceError_is_fatal]. }
  assert (Hqueue : connectionState w ≠ connected →
            isFollowing currentUserId targetUserId w
            = (Pending, with_retryQueue (retryQueue w ++ ["isFollowing"])%list w)).
  { intros Hc. unfold isFollowing, try_catch.
    now rewrite executeWithRetry_not_connected. }
  split; [apply Hconn|]. split; [exact Hqueue|]. split.
  - destruct (decide (connectionState w = connected)) as [Hc|Hc];
      [rewrite (Hconn w Hc) | rewrite (Hqueue Hc)]; discriminate.
  - intros Hc w1 Hrun.
    destruct (followUser_outcome currentUserId targetUserId w Hc)
      as [(w1' & Hrun' & _)|(w1' & t & Hrun' & Hc1 & Hs1)];
      rewrite Hrun' in Hrun; [discriminate|].
    injection Hrun as <-. split; [|now apply Hconn].
    rewrite Hs1, follows_after_follow. now rewrite decide_True by auto.
Qed.

Lemma follow_unfollow_round_trip_witness :
  let w := onlineWorld sampleStore in
  ∃ w1 w2,
    connectionState w = connected
    ∧ followUser "u2" "u1" w = (Resolved true, w1)
    ∧ follows (store w) "u2" "u1" = false
    ∧ follows (store w1) "u2" "u1" = true
    ∧ (getFollowingUsers "u2" w1).1 = Resolved ["u1"]
    ∧ unfollowUser "u2" "u1" w1 = (Resolved true, w2)
    ∧ follows (store w2) "u2" "u1" = false
    ∧ (followUser "u2" "u1" (withSchedule [Some permissionDenied] w)).1 = Resolved false.
Proof.
  intros w.
  destruct (follow_unfollow_round_trip "u2" "u1" w eq_refl)
    as ((done & w1 & Hrun & _ & Hfollows & _ & Hback) & _).
  assert (Hdone : done = true) by (vm_compute in Hrun; congruence).
  subst done.
  set (w2 := (unfollowUser "u2" "u1" w1).2).
  assert (Hgone : unfollowUser "u2" "u1" w1 = (Resolved true, w2)).
  { injection Hrun as <-. vm_compute. reflexivity. }
  exists w1, w2. split; [reflexivity|]. split; [exact Hrun|].
  split; [reflexivity|].
  split; [rewrite (Hfollows eq_refl); reflexivity|].
  split; [injection Hrun as <-; vm_compute; reflexivity|].
  split; [exact Hgone|].
  split; [rewrite (Hback eq_refl true w2 Hgone eq_refl); reflexivity|].
  vm_compute. reflexivity.
Defined.

Lemma isFollowing_never_true_witness :
  let w := onlineWorld sampleStore in
  ∃ w1,
    followUser "u2" "u1" w = (Resolved true, w1)
    ∧ follows (store w1) "u2" "u1" = true
    ∧ isFollowing "u2" "u1" w1 = (Resolved false, w1)
    ∧ (isFollowing "u2" "u1" (offlineWorld sampleStore)).1 = Pending.
Proof.
  intros w.
  set (w1 := (followUser "u2" "u1" w).2).
  assert (Hrun : followUser "u2" "u1" w = (Resolved true, w1)) by (vm_compute; reflexivity).
  destruct (isFollowing_never_true "u2" "u1" w) as (_ & _ & _ & Hafter).
  destruct (Hafter eq_refl w1 Hrun) as [Hfollows Hfalse].
  destruct (isFollowing_never_true "u2" "u1" (offlineWorld sampleStore))
    as (_ & Hqueued & _).
  exists w1. split; [exact Hrun|]. split; [exact Hfollows|]. split; [exact Hfalse|].
  rewrite Hqueued by discriminate. reflexivity.
Defined.

(** *** Listings in order *)

Lemma string_leb_nil s : String.leb "" s = true.
Proof. now destruct s. Qed.

Lemma string_leb_trans a b c :
  String.leb a b = true → String.leb b c = true → String.leb a c = true.
Proof.
  revert b c. induction a as [|x a IH]; intros b c Hab Hbc; [apply string_leb_nil|].
  destruct b as [|y b]; [discriminate Hab|].
  destruct c as [|z c]; [discriminate Hbc|].
  rewrite string_leb_cons in *. unfold Ascii.compare in *.
  destruct (N.compare_spec (N_of_ascii x) (N_of_ascii y)) as [Hxy|Hxy|Hxy];
    destruct (N.compare_spec (N_of_ascii y) (N_of_ascii z)) as [Hyz|Hyz|Hyz];
    try discriminate;
    destruct (N.compare_spec (N_of_ascii x) (N_of_ascii z)) as [Hxz|Hxz|Hxz];
    try reflexivity; try lia.
  eauto.
Qed.

#[local] Instance alphabetical_trans {D} (key : D → string) : Transitive (alphabetical key).
Proof. intros a b c. unfold alphabetical. apply string_leb_trans. Qed.

#[local] Instance alphabetical_total {D} (key : D → string) : Total (alphabetical key).
Proof. intros a b. unfold alphabetical. apply String.leb_total. Qed.

#[local] Instance newestFirst_trans {D} (key : D → Z) : Transitive (newestFirst key).
Proof. intros a b c. unfold newestFirst. lia. Qed.

#[local] Instance newestFirst_total {D} (key : D → Z) : Total (newestFirst key).
Proof. intros a b. unfold newestFirst. lia. Qed.

(** The first [n] elements of a sorted list come before all the others. *)
Lemma take_sorted_first {A} (R : relation A) n (l : list A) x y :
  StronglySorted R l → x ∈ take n l → y ∈ l → y ∉ take n l → R x y.
Proof.
  intros Hsorted Hx Hy Hny. rewrite <- (take_drop n l) in Hsorted, Hy.
  apply elem_of_app in Hy as [Hy|Hy]; [contradiction|].
  eapply StronglySorted_app_1_elem_of; eassumption.
Qed.

Lemma take_sorted {A} (R : relation A) n (l : list A) :
  StronglySorted R l → StronglySorted R (take n l).
Proof.
  intros Hsorted. rewrite <- (take_drop n l) in Hsorted.
  eapply StronglySorted_app_1_l, Hsorted.
Qed.

Lemma take_all {A} n (l : list A) x : (length l ≤ n)%nat → x ∈ l → x ∈ take n l.
Proof. intros Hlen Hx. now rewrite take_ge. Qed.

(** A query [where … orderBy … limit n] on one collection. *)
Section OrderedQuery.
Context {D : Type} (R : relation (string * D)) `{!RelDecision R, !Transitive R, !Total R}.
Context (p : D → bool) (n : nat) (coll : gmap string D).

Local Abbreviation answer := (take n (merge_sort R (where_ p coll))).

Lemma query_elem id d : (id, d) ∈ answer → coll !! id = Some d ∧ p d = true.
Proof.
  intros Hin. apply where_elem. rewrite <- (merge_sort_Permutation R).
  eapply subseteq_take, Hin.
Qed.

Lemma query_NoDup : NoDup answer.*1.
Proof.
  eapply sublist_NoDup; [|apply fmap_sublist, sublist_take].
  rewrite (merge_sort_Permutation R). apply where_NoDup.
Qed.

Lemma query_sorted : StronglySorted R answer.
Proof. apply take_sorted, StronglySorted_merge_sort; assumption. Qed.

Lemma query_first id d x :
  coll !! id = Some d → p d = true → x ∈ answer → (id, d) ∉ answer → R x (id, d).
Proof.
  intros Hd Hp Hx Hnot.
  eapply (take_sorted_first R n (merge_sort R (where_ p coll)));
    [apply StronglySorted_merge_sort; assumption | exact Hx | | exact Hnot].
  rewrite (merge_sort_Permutation R). now apply where_elem.
Qed.

Lemma query_complete id d :
  (countWhere p coll ≤ n)%nat → coll !! id = Some d → p d = true → (id, d) ∈ answer.
Proof.
  intros Hcount Hd Hp. apply take_all.
  - now rewrite (merge_sort_Permutation R).
  - rewrite (merge_sort_Permutation R). now apply where_elem.
Qed.

Lemma query_full id d :
  coll !! id = Some d → p d = true → (id, d) ∉ answer → length answer = n.
Proof.
  intros Hd Hp Hnot. rewrite length_take.
  destruct (decide (length (merge_sort R (where_ p coll)) ≤ n)%nat) as [Hle|Hgt]; [|lia].
  exfalso. apply Hnot, take_all; [assumption|].
  rewrite (merge_sort_Permutation R). now apply where_elem.
Qed.

End OrderedQuery.

(** A query wrapped in [try] with a handler that returns no result. *)
Lemma guarded_query_cases {D} (select : Store → Snapshot D) w :
  try_catch (querySnapshot <- getDocs select ;; ret querySnapshot) (λ _, ret []) w
  = (Resolved (match faults w with
               | Some e :: _ => []
               | _ => select (store w)
               end),
     with_faults (tail (faults w)) w).
Proof.
  unfold try_catch, bind, getDocs, backend, ret.
  destruct w as [s t fs c q u a]. cbn [faults store with_faults with_store head tail].
  destruct fs as [|[e|] fs]; reflexivity.
Qed.

(** X13. [searchArtists] always resolves, without going through the
    connection manager and without changing the store: to at most ten
    artists of the store, each once, in alphabetical order of name, every
    name starting with the term; to the empty list when the query fails.
    When the query goes through, an artist in the range that is missing
    from the result is preceded alphabetically by the ten returned. *)
Theorem searchArtists_contract (searchTerm : string) (w : World) :
  ∃ l,
    searchArtists searchTerm w = (Resolved l, with_faults (tail (faults w)) w)
    ∧ (length l ≤ 10)%nat
    ∧ NoDup l.*1
    ∧ StronglySorted (alphabetical Artist.name) l
    ∧ (∀ id a, (id, a) ∈ l →
         artists (store w) !! id = Some a
         ∧ JsString.startsWith (Artist.name a) searchTerm = true)
    ∧ (∀ e fs, faults w = Some e :: fs → l = [])
    ∧ ((∀ e fs, faults w ≠ Some e :: fs) →
         ∀ id a, artists (store w) !! id = Some a →
           inPrefixRange searchTerm (Some (Artist.name a)) = true →
           (id, a) ∈ l
           ∨ (length l = 10%nat
              ∧ ∀ x, x ∈ l → String.leb (Artist.name x.2) (Artist.name a) = true)).
Proof.
  unfold searchArtists. rewrite guarded_query_cases. eexists. split; [reflexivity|].
  destruct (faults w) as [|[e|] fs] eqn:Hfs.
  2:{ split; [cbn; lia|]. split; [constructor|]. split; [constructor|].
      split; [intros id a Hin; now apply not_elem_of_nil in Hin|].
      split; [reflexivity|]. intros Hno. now destruct (Hno e fs). }
  all: unfold limit, orderByString;
    (split; [rewrite length_take; lia|]);
    (split; [apply (query_NoDup (alphabetical Artist.name))|]);
    (split; [apply (query_sorted (alphabetical Artist.name))|]);
    (split; [intros id a Hin;
             apply (query_elem (alphabetical Artist.name)) in Hin as [Hd Hp];
             split; [assumption|];
             now apply inPrefixRange_remainder in Hp as (r & -> & _);
             apply startsWith_app|]);
    (split; [discriminate|]);
    intros _ id a Hd Hp;
    match goal with |- (id, a) ∈ ?l ∨ _ => destruct (decide ((id, a) ∈ l)) as [Hin|Hnot] end;
    [now left|right];
    (split; [now apply (query_full (alphabetical Artist.name) _ _ _ id a)|]);
    intros x Hx;
    apply (query_first (alphabetical Artist.name)
             (λ d, inPrefixRange searchTerm (Some (Artist.name d))) 10
             (artists (store w)) id a x); assumption.
Qed.


Lemma searchArtists_contract_witness :
  let w := onlineWorld catalogStore in
  (searchArtists "The" w).1
  = Resolved [("a2", Artist.mk "The Band" 200); ("a1", Artist.mk "The Who" 100);
              ("a3", Artist.mk "Them" 300)]
  ∧ artists (store w) !! "a4" = Some (Artist.mk "Abba" 400)
  ∧ JsString.startsWith "The Band" "The" = true
  ∧ (searchArtists "The" (withSchedule [Some unavailable] w)).1 = Resolved [].
Proof.
  intros w.
  destruct (searchArtists_contract "The" w) as (l & Hrun & _ & _ & _ & Hfound & _).
  assert (Hl : l = [("a2", Artist.mk "The Band" 200); ("a1", Artist.mk "The Who" 100);
                    ("a3", Artist.mk "Them" 300)])
    by (vm_compute in Hrun; congruence).
  subst l. rewrite Hrun.
  split; [reflexivity|]. split; [reflexivity|].
  split; [apply (Hfound "a2" (Artist.mk "The Band" 200)); left|].
  destruct (searchArtists_contract "The" (withSchedule [Some unavailable] w))
    as (l' & Hrun' & _ & _ & _ & _ & Hfailed & _).
  rewrite Hrun'. cbn [fst]. now rewrite (Hfailed unavailable [] eq_refl).
Defined.

Lemma where_all {D} (coll : gmap string D) : where_ (λ _, true) coll = map_to_list coll.
Proof.
  unfold where_. induction (map_to_list coll) as [|x l IH]; [reflexivity|].
  rewrite filter_cons_True by reflexivity. now rewrite IH.
Qed.

(** [orderBy('createdAt', 'desc'), limit(n)] on a whole collection. *)
Lemma newest_listing {D} (key : D → Z) (n : nat) (coll : gmap string D) :
  let l := limit n (orderByDesc key (map_to_list coll)) in
  length l = Nat.min n (size coll)
  ∧ NoDup l.*1
  ∧ descending (λ kd, key kd.2) l
  ∧ (∀ id d, (id, d) ∈ l → coll !! id = Some d)
  ∧ (∀ id d x, coll !! id = Some d → x ∈ l → (id, d) ∉ l → key d ≤ key x.2).
Proof.
  cbv zeta. unfold limit, orderByDesc. rewrite <- where_all.
  split; [|split; [|split; [|split]]].
  - rewrite length_take, (merge_sort_Permutation (newestFirst key)), where_all.
    now rewrite length_map_to_list.
  - apply (query_NoDup (newestFirst key)).
  - apply (StronglySorted_descending (λ kd : string * D, key kd.2)).
    apply (query_sorted (newestFirst key)).
  - intros id d Hin. now apply (query_elem (newestFirst key)) in Hin as [Hd _].
  - intros id d x Hd Hx Hnot.
    now apply (query_first (newestFirst key) (λ _, true) n coll id d x).
Qed.

(** X14. [getTrendingConcerts] and [getPopularArtists] always resolve: to
    the [min 5 n] most recently created documents of the [n] in the
    collection, each once, newest first (nothing left out is newer than
    anything returned), or to the empty list when the query fails.
    [getPopularArtists] depends on the artists collection alone: concerts
    logged for an artist do not change its answer. *)
Theorem newest_first_listings (w : World) :
  (∃ l,
     getTrendingConcerts w = (Resolved l, with_faults (tail (faults w)) w)
     ∧ (length l ≤ 5)%nat
     ∧ NoDup l.*1
     ∧ descending (λ c, Concert.createdAt c.2) l
     ∧ (∀ id c, (id, c) ∈ l → concerts (store w) !! id = Some c)
     ∧ (∀ e fs, faults w = Some e :: fs → l = [])
     ∧ ((∀ e fs, faults w ≠ Some e :: fs) →
          length l = Nat.min 5 (size (concerts (store w)))
          ∧ ∀ id c x, concerts (store w) !! id = Some c → x ∈ l → (id, c) ∉ l →
              Concert.createdAt c ≤ Concert.createdAt x.2))
  ∧ (∃ l,
       getPopularArtists w = (Resolved l, with_faults (tail (faults w)) w)
       ∧ (length l ≤ 5)%nat
       ∧ NoDup l.*1
       ∧ descending (λ a, Artist.createdAt a.2) l
       ∧ (∀ id a, (id, a) ∈ l → artists (store w) !! id = Some a)
       ∧ (∀ e fs, faults w = Some e :: fs → l = [])
       ∧ ((∀ e fs, faults w ≠ Some e :: fs) →
            length l = Nat.min 5 (size (artists (store w)))
            ∧ ∀ id a x, artists (store w) !! id = Some a → x ∈ l → (id, a) ∉ l →
                Artist.createdAt a ≤ Artist.createdAt x.2)
       ∧ (∀ w2, artists (store w2) = artists (store w) → faults w2 = faults w →
            (getPopularArtists w2).1 = Resolved l)).
Proof.
  unfold getTrendingConcerts, getPopularArtists. rewrite !guarded_query_cases.
  pose proof (newest_listing Concert.createdAt 5 (concerts (store w))) as Hc.
  pose proof (newest_listing Artist.createdAt 5 (artists (store w))) as Ha.
  cbv zeta in Hc, Ha.
  destruct Hc as (Hc1 & Hc2 & Hc3 & Hc4 & Hc5), Ha as (Ha1 & Ha2 & Ha3 & Ha4 & Ha5).
  split; eexists; (split; [reflexivity|]).
  - destruct (faults w) as [|[e|] fs] eqn:Hfs.
    2:{ split; [cbn; lia|]. split; [constructor|].
        split; [intros i j a b _ Hi; now rewrite lookup_nil in Hi|].
        split; [intros id a Hin; now apply not_elem_of_nil in Hin|].
        split; [reflexivity|]. intros Hno. now destruct (Hno e fs). }
    all: (split; [rewrite Hc1; lia|]); (split; [assumption|]); (split; [assumption|]);
      (split; [assumption|]); (split; [discriminate|]); intros _; split; assumption.
  - destruct (faults w) as [|[e|] fs] eqn:Hfs.
    2:{ split; [cbn; lia|]. split; [constructor|].
        split; [intros i j a b _ Hi; now rewrite lookup_nil in Hi|].
        split; [intros id a Hin; now apply not_elem_of_nil in Hin|].
        split; [reflexivity|]. split; [intros Hno; now destruct (Hno e fs)|].
        intros w2 _ Hf. rewrite guarded_query_cases, Hf. reflexivity. }
    all: (split; [rewrite Ha1; lia|]); (split; [assumption|]); (split; [assumption|]);
      (split; [assumption|]); (split; [discriminate|]);
      (split; [intros _; split; assumption|]);
      intros w2 Hs Hf; rewrite guarded_query_cases, Hf, Hs; reflexivity.
Qed.

Lemma newest_first_listings_witness :
  let w := onlineWorld diaryStore in
  (∃ l, (getTrendingConcerts w).1 = Resolved l ∧ l.*1 = ["c2"; "c3"; "c1"]
        ∧ descending (λ c, Concert.createdAt c.2) l)
  ∧ (∃ l, (getPopularArtists (onlineWorld catalogStore)).1 = Resolved l
          ∧ l.*1 = ["a4"; "a3"; "a2"; "a1"]
          ∧ descending (λ a, Artist.createdAt a.2) l)
  ∧ (getTrendingConcerts (withSchedule [Some unavailable] w)).1 = Resolved [].
Proof.
  intros w.
  destruct (newest_first_listings w) as ((l & Hrun & _ & _ & Hsorted & _) & _).
  destruct (newest_first_listings (onlineWorld catalogStore))
    as (_ & (l' & Hrun' & _ & _ & Hsorted' & _)).
  split; [|split].
  - exists l. rewrite Hrun. split; [reflexivity|]. split; [|exact Hsorted].
    vm_compute in Hrun. injection Hrun as <-. reflexivity.
  - exists l'. rewrite Hrun'. split; [reflexivity|]. split; [|exact Hsorted'].
    vm_compute in Hrun'. injection Hrun' as <-. reflexivity.
  - reflexivity.
Defined.

(** *** Searches over two fields *)

Lemma pushUnlessPresent_spec {D} (b a : Snapshot D) :
  ∃ extra,
    fold_left pushUnlessPresent b a = (a ++ extra)%list
    ∧ (∀ x, x ∈ extra → x ∈ b)
    ∧ (NoDup a.*1 → NoDup ((a ++ extra)%list).*1).
Proof.
  revert a. induction b as [|x b IH]; intros a.
  - exists []. rewrite app_nil_r. split; [reflexivity|]. split; [|auto].
    intros x Hx. now apply not_elem_of_nil in Hx.
  - cbn [fold_left]. unfold pushUnlessPresent at 2.
    destruct (existsb (λ c : string * D, String.eqb c.1 x.1) a) eqn:Hseen.
    + destruct (IH a) as (extra & -> & Hsub & Hnodup).
      exists extra. split; [reflexivity|]. split; [|assumption].
      intros y Hy. right. auto.
    + destruct (IH (a ++ [x])%list) as (extra & -> & Hsub & Hnodup).
      exists (x :: extra). rewrite <- app_assoc. split; [reflexivity|].
      split.
      * intros y Hy. apply elem_of_cons in Hy as [->|Hy]; [left | right; auto].
      * intros Ha. change (a ++ x :: extra)%list with (a ++ [x] ++ extra)%list.
        rewrite app_assoc. apply Hnodup.
        rewrite fmap_app. apply NoDup_app. split; [assumption|].
        split; [|cbn; apply NoDup_singleton].
        intros k Hk Hk'. apply list_elem_of_singleton in Hk'. subst k.
        apply list_elem_of_fmap in Hk as (y & Hy1 & Hy2).
        assert (existsb (λ c : string * D, String.eqb c.1 x.1) a = true); [|congruence].
        apply existsb_exists. exists y. split; [now apply list_elem_of_In|].
        apply String.eqb_eq. auto.
Qed.

(** Two queries whose answers are merged, in [try] with a handler that
    returns no result. *)
Lemma merged_search_cases {D} (select1 select2 : Store → Snapshot D) w :
  try_catch
    (querySnapshot <- getDocs select1 ;;
     otherSnapshot <- getDocs select2 ;;
     ret (limit 10 (fold_left pushUnlessPresent otherSnapshot querySnapshot)))
    (λ _, ret []) w
  = match faults w with
    | Some e :: fs => (Resolved [], with_faults fs w)
    | _ =>
        match tail (faults w) with
        | Some e :: fs => (Resolved [], with_faults fs w)
        | _ =>
            (Resolved (limit 10 (fold_left pushUnlessPresent (select2 (store w))
                                   (select1 (store w)))),
             with_faults (tail (tail (faults w))) w)
        end
    end.
Proof.
  unfold try_catch, bind, getDocs, backend, ret.
  destruct w as [s t fs c q u a]. cbn [faults store with_faults with_store head tail].
  destruct fs as [|[e|] [|[e'|] fs]]; reflexivity.
Qed.

(** What the merged answer of two ordered queries on one collection is. *)
Lemma merged_answer {D} (R1 R2 : relation (string * D))
    `{!RelDecision R1, !RelDecision R2} (p1 p2 : D → bool) (coll : gmap string D) :
  let first := limit 10 (merge_sort R1 (where_ p1 coll)) in
  let second := limit 10 (merge_sort R2 (where_ p2 coll)) in
  let l := limit 10 (fold_left pushUnlessPresent second first) in
  (length l ≤ 10)%nat
  ∧ NoDup l.*1
  ∧ (∀ id d, (id, d) ∈ l → coll !! id = Some d ∧ (p1 d = true ∨ p2 d = true))
  ∧ take (length first) l = first
  ∧ (length first = 10%nat → l = first).
Proof.
  cbv zeta. unfold limit.
  destruct (pushUnlessPresent_spec (take 10 (merge_sort R2 (where_ p2 coll)))
              (take 10 (merge_sort R1 (where_ p1 coll)))) as (extra & -> & Hsub & Hnodup).
  assert (Hlen : (length (take 10 (merge_sort R1 (where_ p1 coll))) ≤ 10)%nat)
    by (rewrite length_take; lia).
  split; [rewrite length_take; lia|]. split; [|split; [|split]].
  - eapply sublist_NoDup; [|apply fmap_sublist, sublist_take].
    apply Hnodup. eapply sublist_NoDup; [|apply fmap_sublist, sublist_take].
    rewrite (merge_sort_Permutation R1). apply where_NoDup.
  - intros id d Hin. apply subseteq_take in Hin. apply elem_of_app in Hin as [Hin|Hin].
    + apply subseteq_take in Hin. rewrite (merge_sort_Permutation R1) in Hin.
      apply where_elem in Hin as [? ?]. auto.
    + apply Hsub, subseteq_take in Hin. rewrite (merge_sort_Permutation R2) in Hin.
      apply where_elem in Hin as [? ?]. auto.
  - rewrite take_take, Nat.min_l by assumption. now rewrite take_app_length.
  - intros Hfull. rewrite <- Hfull at 1. now rewrite take_app_length.
Qed.

Lemma inPrefixRange_field searchTerm field :
  inPrefixRange searchTerm field = true →
  ∃ v, field = Some v ∧ JsString.startsWith v searchTerm = true.
Proof.
  destruct field as [v|]; [|discriminate]. intros H. exists v. split; [reflexivity|].
  apply inPrefixRange_remainder in H as (r & -> & _). apply startsWith_app.
Qed.

(** X15. [searchVenues] and [searchConcerts] always resolve and leave the
    store alone: to at most ten documents of the collection, no id twice,
    each with one of the two searched fields starting with the term; to the
    empty list when either of the two queries fails.  The hits on the first
    field (name, artist name) come first, so that ten hits there leave no
    room for a hit on the second field alone. *)
Theorem searches_over_two_fields (searchTerm : string) (w : World) :
  (∃ l,
     (searchVenues searchTerm w).1 = Resolved l
     ∧ store (searchVenues searchTerm w).2 = store w
     ∧ (length l ≤ 10)%nat
     ∧ NoDup l.*1
     ∧ (∀ id v, (id, v) ∈ l →
          venues (store w) !! id = Some v
          ∧ (JsString.startsWith (Venue.name v) searchTerm = true
             ∨ JsString.startsWith (Venue.city v) searchTerm = true))
     ∧ (∀ e fs, faults w = Some e :: fs → l = [])
     ∧ (∀ f e fs, faults w = f :: Some e :: fs → l = [])
     ∧ ((∀ e fs, faults w ≠ Some e :: fs) → (∀ f e fs, faults w ≠ f :: Some e :: fs) →
          let byName :=
            limit 10 (orderByString Venue.name
                        (where_ (λ d, inPrefixRange searchTerm (Some (Venue.name d)))
                                (venues (store w)))) in
          take (length byName) l = byName ∧ (length byName = 10%nat → l = byName)))
  ∧ (∃ l,
       (searchConcerts searchTerm w).1 = Resolved l
       ∧ store (searchConcerts searchTerm w).2 = store w
       ∧ (length l ≤ 10)%nat
       ∧ NoDup l.*1
       ∧ (∀ id c, (id, c) ∈ l →
            concerts (store w) !! id = Some c
            ∧ ((∃ v, Concert.artistName c = Some v
                     ∧ JsString.startsWith v searchTerm = true)
               ∨ (∃ v, Concert.venueName c = Some v
                       ∧ JsString.startsWith v searchTerm = true)))
       ∧ (∀ e fs, faults w = Some e :: fs → l = [])
       ∧ (∀ f e fs, faults w = f :: Some e :: fs → l = [])
       ∧ ((∀ e fs, faults w ≠ Some e :: fs) → (∀ f e fs, faults w ≠ f :: Some e :: fs) →
            let byArtist :=
              limit 10 (orderByString (λ d, default "" (Concert.artistName d))
                          (where_ (λ d, inPrefixRange searchTerm (Concert.artistName d))
                                  (concerts (store w)))) in
            take (length byArtist) l = byArtist
            ∧ (length byArtist = 10%nat → l = byArtist))).
Proof.
  unfold searchVenues, searchConcerts. cbv zeta. rewrite !merged_search_cases.
  pose proof (merged_answer (alphabetical Venue.name) (alphabetical Venue.city)
                (λ d, inPrefixRange searchTerm (Some (Venue.name d)))
                (λ d, inPrefixRange searchTerm (Some (Venue.city d)))
                (venues (store w))) as Hv.
  pose proof (merged_answer (alphabetical (λ d, default "" (Concert.artistName d)))
                (alphabetical (λ d, default "" (Concert.venueName d)))
                (λ d, inPrefixRange searchTerm (Concert.artistName d))
                (λ d, inPrefixRange searchTerm (Concert.venueName d))
                (concerts (store w))) as Hc.
  cbv zeta in Hv, Hc.
  destruct Hv as (Hv1 & Hv2 & Hv3 & Hv4 & Hv5), Hc as (Hc1 & Hc2 & Hc3 & Hc4 & Hc5).
  assert (Hempty : ∀ D (P : string → D → Prop) (Q : list (string * D) → Prop),
            (length ([] : list (string * D)) ≤ 10)%nat
            ∧ NoDup ([] : list (string * D)).*1
            ∧ (∀ id d, (id, d) ∈ ([] : list (string * D)) → P id d)).
  { intros D P Q. split; [cbn; lia|]. split; [constructor|].
    intros id d Hin. now apply not_elem_of_nil in Hin. }
  split.
  - destruct (faults w) as [|[e|] [|[e'|] fs]] eqn:Hfs; cbn [tail fst snd];
      eexists; (split; [reflexivity|]); (split; [reflexivity|]).
    all: try (destruct (Hempty Venue.t
                 (λ id v, venues (store w) !! id = Some v
                          ∧ (JsString.startsWith (Venue.name v) searchTerm = true
                             ∨ JsString.startsWith (Venue.city v) searchTerm = true))
                 (λ _, True)) as (He1 & He2 & He3);
              (split; [exact He1|]); (split; [exact He2|]); (split; [exact He3|]);
              (split; [reflexivity|]); (split; [reflexivity|]);
              intros Hno1 Hno2;
              first [now destruct (Hno1 _ _ eq_refl) | now destruct (Hno2 _ _ _ eq_refl)]).
    all: (split; [exact Hv1|]); (split; [exact Hv2|]);
      (split; [intros id v Hin; destruct (Hv3 id v Hin) as [Hd [Hp|Hp]];
               (split; [exact Hd|]);
               apply inPrefixRange_field in Hp as (v' & [= <-] & Hp); auto|]);
      (split; [discriminate|]); (split; [discriminate|]);
      intros _ _; split; assumption.
  - destruct (faults w) as [|[e|] [|[e'|] fs]] eqn:Hfs; cbn [tail fst snd];
      eexists; (split; [reflexivity|]); (split; [reflexivity|]).
    all: try (destruct (Hempty Concert.t
                 (λ id c, concerts (store w) !! id = Some c
                          ∧ ((∃ v, Concert.artistName c = Some v
                                   ∧ JsString.startsWith v searchTerm = true)
                             ∨ (∃ v, Concert.venueName c = Some v
                                     ∧ JsString.startsWith v searchTerm = true)))
                 (λ _, True)) as (He1 & He2 & He3);
              (split; [exact He1|]); (split; [exact He2|]); (split; [exact He3|]);
              (split; [reflexivity|]); (split; [reflexivity|]);
              intros Hno1 Hno2;
              first [now destruct (Hno1 _ _ eq_refl) | now destruct (Hno2 _ _ _ eq_refl)]).
    all: (split; [exact Hc1|]); (split; [exact Hc2|]);
      (split; [intros id c Hin; destruct (Hc3 id c Hin) as [Hd [Hp|Hp]];
               (split; [exact Hd|]);
               apply inPrefixRange_field in Hp; auto|]);
      (split; [discriminate|]); (split; [discriminate|]);
      intros _ _; split; assumption.
Qed.

Lemma searches_over_two_fields_witness :
  let w := onlineWorld catalogStore in
  (∃ l, (searchVenues "The" w).1 = Resolved l ∧ l.*1 = ["v1"; "v2"] ∧ NoDup l.*1)
  ∧ Venue.name <$> venues (store w) !! "v1" = Some "The Roxy"
  ∧ Venue.city <$> venues (store w) !! "v2" = Some "Thebes"
  ∧ (searchVenues "The" (withSchedule [None; Some unavailable] w)).1 = Resolved []
  ∧ (searchConcerts "The" (onlineWorld diaryStore)).1 = Resolved [].
Proof.
  intros w.
  destruct (searches_over_two_fields "The" w) as ((l & Hrun & _ & _ & Hnodup & _) & _).
  split; [|repeat split].
  exists l. split; [exact Hrun|]. split; [|exact Hnodup].
  vm_compute in Hrun. injection Hrun as <-. reflexivity.
Defined.

(** *** A review, once submitted *)

Lemma where_insert {D} (p : D → bool) (coll : gmap string D) id d :
  coll !! id = None → p d = true →
  where_ p (<[id := d]> coll) ≡ₚ (id, d) :: where_ p coll.
Proof.
  intros Hnone Hp. unfold where_.
  rewrite (filter_Permutation _ _ _ (map_to_list_insert coll id d Hnone)).
  now rewrite filter_cons_True.
Qed.

(** What [getConcertReviews] resolves to, whichever path it took. *)
Lemma getConcertReviews_result concertId w res :
  connectionState w = connected →
  (getConcertReviews concertId w).1 = Resolved res →
  reviewList res ≡ₚ reviewsOf concertId (store w)
  ∧ descending (λ r, Review.createdAt r.2) (reviewList res).
Proof.
  intros Hc Hres.
  destruct (executeWithRetry_is_an_attempt (getConcertReviews_attempt concertId)
              "getConcertReviews" (reading (store w)) w) as (w1 & [Hc1 Hs1] & Hrun).
  - intros w0 [H _]. exact H.
  - intros w0 ms H. exact H.
  - intros w0 Hw0. pose proof (getConcertReviews_attempt_reads concertId _ _ Hw0) as H.
    destruct (getConcertReviews_attempt concertId w0) as [[?|?|] ?]; auto.
  - split; [assumption | reflexivity].
  - unfold getConcertReviews in Hres. rewrite <- Hrun in Hres.
    pose proof (getConcertReviews_attempt_cases concertId w1) as Hcases. cbv zeta in Hcases.
    rewrite Hs1 in Hcases.
    assert (Hprimary : orderByDesc Review.createdAt (reviewsOf concertId (store w))
                       ≡ₚ reviewsOf concertId (store w)
                       ∧ descending (λ r : string * Review.t, Review.createdAt r.2)
                           (orderByDesc Review.createdAt (reviewsOf concertId (store w)))).
    { split; [apply merge_sort_Permutation | apply orderByDesc_descending]. }
    assert (Hfallback : js_sort byCreatedAtDesc (reviewsOf concertId (store w))
                        ≡ₚ reviewsOf concertId (store w)
                        ∧ descending (λ r : string * Review.t, Review.createdAt r.2)
                            (js_sort byCreatedAtDesc (reviewsOf concertId (store w)))).
    { split; [apply js_sort_Permutation|].
      apply (StronglySorted_descending (λ r : string * Review.t, Review.createdAt r.2)).
      apply (js_sort_sorted (λ r : string * Review.t, Review.createdAt r.2)). reflexivity. }
    destruct (faults w1) as [|[e|] fs].
    + rewrite Hcases in Hres. injection Hres as <-. exact Hprimary.
    + destruct (isIndexError e).
      * destruct fs as [|[e'|] fs']; rewrite Hcases in Hres; try discriminate;
          injection Hres as <-; exact Hfallback.
      * rewrite Hcases in Hres. discriminate.
    + rewrite Hcases in Hres. injection Hres as <-. exact Hprimary.
Qed.

(** X16. [submitReview] resolves only for a concert that exists; the
    review it resolved to is stored under a new id with the text without the
    white space at its two ends, the time of the call, and both counters at
    0.  Every result [getConcertReviews] then resolves to for that concert
    lists, each once and newest first, the new review and the reviews of the
    store before whose [concertRef] is the path of the concert, and no
    other. *)
Theorem submitted_review_is_listed (concertId userId : string) (rating : Z)
    (text : string) (w w' : World) (reviewId : string)
    (Hrun : submitReview concertId userId rating text w = (Resolved reviewId, w')) :
  ∃ r,
    is_Some (concerts (store w) !! concertId)
    ∧ reviews (store w) !! reviewId = None
    ∧ reviews (store w') = <[reviewId := r]> (reviews (store w))
    ∧ Review.concertRef r = docPath "concerts" concertId
    ∧ Review.userRef r = docPath "users" userId
    ∧ Review.text r = JsString.trim text
    ∧ trimmedOf text (Review.text r)
    ∧ Review.createdAt r = clock w
    ∧ Review.likesCount r = 0 ∧ Review.commentsCount r = 0
    ∧ (∀ w1 res, store w1 = store w' → connectionState w1 = connected →
         (getConcertReviews concertId w1).1 = Resolved res →
         reviewList res ≡ₚ (reviewId, r) :: reviewsOf concertId (store w)
         ∧ (reviewId, r) ∈ reviewList res
         ∧ length (reviewList res) = S (length (reviewsOf concertId (store w)))
         ∧ descending (λ r, Review.createdAt r.2) (reviewList res)
         ∧ NoDup (reviewList res).*1
         ∧ (∀ id r', (id, r') ∈ reviewList res
                     ↔ (id = reviewId ∧ r' = r)
                       ∨ (reviews (store w) !! id = Some r'
                          ∧ Review.concertRef r' = docPath "concerts" concertId))).
Proof.
  destruct (submitReview_stores _ _ _ _ _ _ _ Hrun) as (concert & Hconcert & Hnew & Hstore).
  set (r := Review.mk _ _ _ _ _ _ _ _) in Hstore.
  exists r. split; [eauto|]. split; [exact Hnew|]. split; [exact Hstore|].
  cbn [Review.concertRef Review.userRef Review.text Review.createdAt Review.likesCount
       Review.commentsCount].
  do 3 (split; [reflexivity|]). split; [apply trim_spec|].
  do 3 (split; [reflexivity|]).
  intros w1 res Hs Hc Hres.
  destruct (getConcertReviews_result concertId w1 res Hc Hres) as [Hperm Hdesc].
  assert (Hall : reviewList res ≡ₚ (reviewId, r) :: reviewsOf concertId (store w)).
  { rewrite Hperm, Hs. unfold reviewsOf. rewrite Hstore.
    apply where_insert; [exact Hnew|]. cbn. apply String.eqb_refl. }
  split; [exact Hall|]. split; [rewrite Hall; left|].
  split; [now rewrite Hall|]. split; [exact Hdesc|].
  split.
  { rewrite Hperm, Hs. apply where_NoDup. }
  intros id r'. rewrite Hall, elem_of_cons. unfold reviewsOf. rewrite where_elem.
  rewrite String.eqb_eq. split.
  - intros [[= -> ->] | H]; auto.
  - intros [[-> ->] | H]; auto.
Qed.

Lemma submitted_review_is_listed_witness :
  let w := signedIn "u2" (onlineWorld mixedReviewsStore) in
  let text := " fine" +:+ nbsp in
  ∃ w' r res,
    submitReview "c1" "u2" 0 text w = (Resolved "0", w')
    ∧ reviews (store w') !! "0" = Some r
    ∧ Review.text r = "fine" ∧ Review.likesCount r = 0 ∧ Review.commentsCount r = 0
    ∧ (getConcertReviews "c1" w').1 = Resolved res
    ∧ map fst (reviewList res) = ["r2"; "r1"; "0"]
    ∧ ("0", r) ∈ reviewList res
    ∧ ("r3", strayReview) ∉ reviewList res.
Proof.
  intros w text.
  set (w' := (submitReview "c1" "u2" 0 text w).2).
  assert (Hrun : submitReview "c1" "u2" 0 text w = (Resolved "0", w'))
    by (vm_compute; reflexivity).
  destruct (submitted_review_is_listed "c1" "u2" 0 text w w' "0" Hrun)
    as (r & _ & _ & Hstore & _ & _ & Htext & _ & _ & Hlikes & Hcomments & Hlisted).
  assert (Hres : ∃ res, (getConcertReviews "c1" w').1 = Resolved res)
    by (eexists; vm_compute; reflexivity).
  destruct Hres as [res Hres].
  destruct (Hlisted w' res eq_refl eq_refl Hres) as (_ & Hin & _ & _ & _ & Hiff).
  exists w', r, res. split; [exact Hrun|].
  split; [rewrite Hstore; apply lookup_insert_eq|].
  split; [rewrite Htext; vm_compute; reflexivity|].
  split; [exact Hlikes|]. split; [exact Hcomments|].
  split; [exact Hres|].
  split; [vm_compute in Hres; injection Hres as <-; reflexivity|].
  split; [exact Hin|].
  rewrite Hiff. intros [[? _] | [_ ?]]; discriminate.
Defined.

(** *** Whose activity the feed shows *)

Lemma getFollowingUsers_followed userId s0 :
  hoare (reading s0) (getFollowingUsers userId)
        (λ ids w, reading s0 w ∧ ∀ u, u ∈ ids → follows s0 userId u = true)
        (λ _, False).
Proof.
  intros w [Hc Hs].
  destruct (getFollowingUsers_outcome userId w Hc) as (ids & w' & -> & Hw' & Hids & _).
  rewrite Hs in *. split; [assumption|]. intros u Hu.
  destruct Hids as [-> | ->]; [now apply follows_listed | now apply not_elem_of_nil in Hu].
Qed.

Lemma isOneOf_followed ids ref :
  isOneOf (map (docPath "users") ids) ref = true → ∃ u, u ∈ ids ∧ ref = docPath "users" u.
Proof.
  unfold isOneOf. intros H. apply existsb_exists in H as (x & Hx & Heq).
  apply String.eqb_eq in Heq. subst x. apply in_map_iff in Hx as (u & <- & Hu).
  exists u. split; [now apply list_elem_of_In | reflexivity].
Qed.

Lemma concertActivity_origin s0 concertDoc :
  hoare (reading s0) (concertActivity concertDoc)
        (λ item w, reading s0 w
                   ∧ FeedItem.type item = concert_logged
                   ∧ FeedItem.concertId item = concertDoc.1
                   ∧ FeedItem.timestamp item = Concert.createdAt concertDoc.2)
        (reading s0).
Proof.
  unfold concertActivity.
  eapply hoare_bind; [apply hoare_getDocs|].
  intros userDoc. apply hoare_ret. intros w [Hw _]. split; [assumption|].
  cbn. auto.
Qed.

Lemma reviewActivity_origin s0 reviewDoc :
  hoare (reading s0) (reviewActivity reviewDoc)
        (λ item w, reading s0 w
                   ∧ FeedItem.type item = review_posted
                   ∧ FeedItem.reviewId item = Some reviewDoc.1
                   ∧ FeedItem.timestamp item = Review.createdAt reviewDoc.2)
        (reading s0).
Proof.
  unfold reviewActivity.
  eapply hoare_bind; [apply hoare_getDocs|]. intros userDoc.
  apply hoare_ghost. intros w1 [Hw1 _].
  eapply hoare_bind.
  { eapply hoare_consequence; [apply (hoare_getDocs _ s0) | | |].
    - intros w ->. exact Hw1.
    - intros a w H. exact H.
    - auto. }
  intros concertDoc.
  destruct concertDoc as [|[? concertData] ?]; cbn;
    apply hoare_ret; intros w [Hw _]; (split; [assumption|]); cbn; auto.
Qed.

Lemma Forall2_elem_of_r {X Y} (R : X → Y → Prop) xs ys y :
  Forall2 R xs ys → y ∈ ys → ∃ x, x ∈ xs ∧ R x y.
Proof.
  induction 1 as [|x y' xs ys Hxy _ IH]; intros Hy; [now apply not_elem_of_nil in Hy|].
  apply elem_of_cons in Hy as [->|Hy].
  - exists x. split; [left | assumption].
  - destruct (IH Hy) as (x' & Hx' & HR). exists x'. split; [now right | assumption].
Qed.

Lemma getFeedActivities_attempt_origin userId s0 :
  hoare (reading s0) (getFeedActivities_attempt userId)
        (λ l w, reading s0 w ∧ Forall (fromFollowed s0 userId) l) (reading s0).
Proof.
  unfold getFeedActivities_attempt.
  eapply hoare_bind.
  { eapply hoare_consequence; [apply (getFollowingUsers_followed userId s0) | auto | | ].
    - intros ids w H. exact H.
    - intros w []. }
  intros followingUserIds. apply hoare_ghost. intros w1 [Hw1 Hfollowed].
  destruct (length followingUserIds =? 0)%nat eqn:Hlen.
  { apply hoare_ret. intros w ->. split; [assumption | constructor]. }
  cbv zeta.
  eapply hoare_bind.
  { eapply hoare_consequence; [apply (hoare_getDocs _ s0) | | |].
    - intros w ->. exact Hw1.
    - intros a w H. exact H.
    - auto. }
  intros concertsSnapshot. apply hoare_ghost. intros w2 [Hw2 ->].
  eapply hoare_bind.
  { eapply hoare_consequence;
      [apply (hoare_forEachAsync concertActivity
                (λ concertDoc item,
                   FeedItem.type item = concert_logged
                   ∧ FeedItem.concertId item = concertDoc.1
                   ∧ FeedItem.timestamp item = Concert.createdAt concertDoc.2)
                (reading s0)) | | |].
    - intros concertDoc _. apply concertActivity_origin.
    - intros w ->. exact Hw2.
    - intros a w H. exact H.
    - auto. }
  intros concertItems. apply hoare_ghost. intros w3 [Hw3 Hconcerts].
  eapply hoare_bind.
  { eapply hoare_consequence; [apply (hoare_getDocs _ s0) | | |].
    - intros w ->. exact Hw3.
    - intros a w H. exact H.
    - auto. }
  intros reviewsSnapshot. apply hoare_ghost. intros w4 [Hw4 ->].
  eapply hoare_bind.
  { eapply hoare_consequence;
      [apply (hoare_forEachAsync reviewActivity
                (λ reviewDoc item,
                   FeedItem.type item = review_posted
                   ∧ FeedItem.reviewId item = Some reviewDoc.1
                   ∧ FeedItem.timestamp item = Review.createdAt reviewDoc.2)
                (reading s0)) | | |].
    - intros reviewDoc _. apply reviewActivity_origin.
    - intros w ->. exact Hw4.
    - intros a w H. exact H.
    - auto. }
  intros reviewItems. apply hoare_ret. intros w [Hw Hreviews]. split; [assumption|].
  apply Forall_forall. intros item Hitem.
  apply subseteq_take in Hitem.
  rewrite (js_sort_Permutation byTimestampDesc) in Hitem.
  apply elem_of_app in Hitem as [Hitem | Hitem].
  - destruct (Forall2_elem_of_r _ _ _ _ Hconcerts Hitem)
      as ([id c] & Hin & Htype & Hid & Htime).
    apply limit_orderByDesc_elem, where_elem in Hin as [Hc Hone].
    apply isOneOf_followed in Hone as (u & Hu & Href).
    cbn [fst snd] in *. unfold fromFollowed. rewrite Htype, Hid. exists c, u.
    split; [exact Hc|]. split; [exact Href|]. split; [now apply Hfollowed | exact Htime].
  - destruct (Forall2_elem_of_r _ _ _ _ Hreviews Hitem)
      as ([id r] & Hin & Htype & Hid & Htime).
    apply limit_orderByDesc_elem, where_elem in Hin as [Hr Hone].
    apply isOneOf_followed in Hone as (u & Hu & Href).
    cbn [fst snd] in *. unfold fromFollowed. rewrite Htype. exists id, r, u.
    split; [exact Hid|]. split; [exact Hr|]. split; [exact Href|].
    split; [now apply Hfollowed | exact Htime].
Qed.

(** X17. Every item of a feed that [getFeedActivities] resolves to stems
    from a concert or a review of the store whose [userRef] is the path of a
    user the viewer follows, and carries its creation time: the feed never
    shows activity of somebody who is not followed. *)
Theorem feed_shows_followed_users_only (userId : string) (w : World)
    (l : list FeedItem.t) :
  (getFeedActivities userId w).1 = Resolved l →
  Forall (fromFollowed (store w) userId) l
  ∧ (∀ item, item ∈ l →
       ∃ u, follows (store w) userId u = true
            ∧ (FeedItem.type item = concert_logged →
                 Concert.userRef <$> concerts (store w) !! FeedItem.concertId item
                 = Some (docPath "users" u))).
Proof.
  intros Hl.
  assert (Hall : Forall (fromFollowed (store w) userId) l).
  { destruct (decide (connectionState w = connected)) as [Hc|Hc].
    - assert (Hspec : hoare (reading (store w)) (getFeedActivities userId)
                        (λ l w', reading (store w) w'
                                 ∧ Forall (fromFollowed (store w) userId) l)
                        (λ _, False)).
      { unfold getFeedActivities.
        apply (hoare_try_catch _ _ _ _ (reading (store w))).
        - apply hoare_executeWithRetry.
          + intros w0 [H _]. exact H.
          + intros w0 ms H. exact H.
          + apply getFeedActivities_attempt_origin.
        - intros e. apply hoare_ret. intros w0 Hw0. split; [assumption | constructor]. }
      specialize (Hspec w (conj Hc eq_refl)).
      destruct (getFeedActivities userId w) as [[l'|e|] w']; cbn in Hl; try discriminate.
      injection Hl as ->. apply Hspec.
    - unfold getFeedActivities, try_catch in Hl.
      rewrite executeWithRetry_not_connected in Hl by assumption. discriminate Hl. }
  split; [exact Hall|].
  intros item Hitem. rewrite Forall_forall in Hall. specialize (Hall item Hitem).
  unfold fromFollowed in Hall.
  destruct (FeedItem.type item).
  - destruct Hall as (c & u & Hc & Href & Hu & _). exists u. split; [assumption|].
    intros _. now rewrite Hc, <- Href.
  - destruct Hall as (rid & r & u & _ & _ & _ & Hu & _). exists u. split; [assumption|].
    discriminate.
Qed.

Lemma feed_shows_followed_users_only_witness :
  let w := onlineWorld feedStore in
  ∃ a b,
    (getFeedActivities "u2" w).1 = Resolved [a; b]
    ∧ fromFollowed (store w) "u2" a ∧ fromFollowed (store w) "u2" b
    ∧ FeedItem.userId a = "u1" ∧ FeedItem.userId b = "u1"
    ∧ follows (store w) "u2" "u1" = true.
Proof.
  intros w.
  assert (Hrun : ∃ a b, (getFeedActivities "u2" w).1 = Resolved [a; b]
                        ∧ FeedItem.userId a = "u1" ∧ FeedItem.userId b = "u1").
  { eexists _, _. split; [vm_compute; reflexivity|]. split; reflexivity. }
  destruct Hrun as (a & b & Hrun & Ha & Hb).
  destruct (feed_shows_followed_users_only "u2" w _ Hrun) as [Hall _].
  exists a, b. split; [exact Hrun|].
  split; [exact (Forall_inv Hall)|].
  split; [exact (Forall_inv (Forall_inv_tail Hall))|].
  split; [exact Ha|]. split; [exact Hb | reflexivity].
Defined.

(** *** The screen that logs a concert *)

Lemma handleSubmit_cases (snapshot st : LogConcertScreen.t) (w : World) :
  LogConcertScreen.handleSubmit snapshot st w
  = match currentUser w with
    | None =>
        (Resolved tt,
         LogConcertScreen.alert "Error" "You must be logged in to log a concert" st, w)
    | Some uid =>
        let checked := LogConcertScreen.validateForm snapshot (clock w) st in
        if negb checked.1 then (Resolved tt, checked.2, w)
        else
          let busy := LogConcertScreen.setLoading true checked.2 in
          match logConcert uid (JsString.trim (LogConcertScreen.artistName snapshot))
                  (JsString.trim (LogConcertScreen.venueName snapshot))
                  (LogConcertScreen.date snapshot) (LogConcertScreen.rating snapshot)
                  (Some (JsString.trim (LogConcertScreen.notes snapshot))) w with
          | (Resolved _, w1) =>
              (Resolved tt,
               LogConcertScreen.setLoading false
                 (LogConcertScreen.alert "🎉 Success!" "Your concert memory has been saved!"
                    busy), w1)
          | (Rejected e, w1) =>
              (Resolved tt,
               LogConcertScreen.setLoading false
                 (LogConcertScreen.alert "Failed to Log Concert"
                    (orElse (message e) "Please try again") busy), w1)
          | (Pending, w1) => (Pending, busy, w1)
          end
    end.
Proof.
  unfold LogConcertScreen.handleSubmit, ui_bind, useUser.
  destruct (currentUser w) as [uid|]; [|reflexivity].
  cbv zeta.
  destruct (LogConcertScreen.validateForm snapshot (clock w) st) as [isValid st1].
  cbn [fst snd]. destruct isValid; cbn [negb]; [|reflexivity].
  unfold setState, ui_finally, ui_try, await, ui_bind.
  now destruct (logConcert _ _ _ _ _ _ w) as [[?|?|] ?].
Qed.

Lemma validateForm_valid (snapshot st : LogConcertScreen.t) (now : Z) :
  (LogConcertScreen.validateForm snapshot now st).1 = true
  ↔ JsString.trim (LogConcertScreen.artistName snapshot) ≠ ""
    ∧ JsString.trim (LogConcertScreen.venueName snapshot) ≠ ""
    ∧ LogConcertScreen.rating snapshot ≠ 0
    ∧ LogConcertScreen.date snapshot ≤ now.
Proof.
  unfold LogConcertScreen.validateForm.
  destruct (JsString.truthy (JsString.trim (LogConcertScreen.artistName snapshot))) eqn:Ha;
    destruct (JsString.truthy (JsString.trim (LogConcertScreen.venueName snapshot))) eqn:Hv;
    destruct (Z.eqb_spec (LogConcertScreen.rating snapshot) 0) as [Hr|Hr];
    destruct (Z.ltb_spec now (LogConcertScreen.date snapshot)) as [Hd|Hd];
    cbn [negb fst snd]; try apply truthy_false in Ha; try apply truthy_false in Hv;
    (split; [try discriminate; intros _|try reflexivity; intros (? & ? & ? & ?)]);
    try contradiction; try lia;
    repeat split; try assumption;
    intros E; rewrite E in *; discriminate.
Qed.

Lemma validateForm_keeps (snapshot st : LogConcertScreen.t) (now : Z) :
  LogConcertScreen.alerts (LogConcertScreen.validateForm snapshot now st).2
  = LogConcertScreen.alerts st
  ∧ LogConcertScreen.loading (LogConcertScreen.validateForm snapshot now st).2
    = LogConcertScreen.loading st.
Proof.
  unfold LogConcertScreen.validateForm.
  destruct (negb (JsString.truthy (JsString.trim (LogConcertScreen.artistName snapshot))));
    destruct (negb (JsString.truthy (JsString.trim (LogConcertScreen.venueName snapshot))));
    destruct (LogConcertScreen.rating snapshot =? 0);
    destruct (now <? LogConcertScreen.date snapshot); split; reflexivity.
Qed.

(** While connected [logConcert] settles, and what it has made of the
    store by then is what attempts to log this concert make of it. *)
Lemma logConcert_settles userId artistName venueName date rating notes w :
  connectionState w = connected →
  (logConcert userId artistName venueName date rating notes w).1 ≠ Pending
  ∧ logged userId artistName venueName date rating notes (store w)
      (store (logConcert userId artistName venueName date rating notes w).2).
Proof.
  intros Hc.
  pose proof (logConcert_spec userId artistName venueName date rating notes w w
                (logConcertInv_start _ _ _ _ _ _ w Hc)) as H.
  destruct (logConcert userId artistName venueName date rating notes w) as [[id|e|] w1];
    cbn [fst snd]; [| |destruct H].
  - destruct H as (_ & Hlogged & _). split; [discriminate | exact Hlogged].
  - destruct H as (_ & Hlogged & _). split; [discriminate | exact Hlogged].
Qed.

Lemma logConcert_queued userId artistName venueName date rating notes w :
  connectionState w ≠ connected →
  logConcert userId artistName venueName date rating notes w
  = (Pending, with_retryQueue (retryQueue w ++ ["logConcert"])%list w).
Proof. intros Hc. unfold logConcert. now apply executeWithRetry_not_connected. Qed.

Lemma handleSubmit_outcomes (snapshot st : LogConcertScreen.t)
    (w : World) :
  let run := LogConcertScreen.handleSubmit snapshot st w in
  let artistName := JsString.trim (LogConcertScreen.artistName snapshot) in
  let venueName := JsString.trim (LogConcertScreen.venueName snapshot) in
  let valid := artistName ≠ "" ∧ venueName ≠ ""
               ∧ LogConcertScreen.rating snapshot ≠ 0
               ∧ LogConcertScreen.date snapshot ≤ clock w in
  (currentUser w = None →
     run = (Resolved tt,
            LogConcertScreen.alert "Error" "You must be logged in to log a concert" st, w))
  ∧ (is_Some (currentUser w) → ¬ valid →
       run.1.1 = Resolved tt ∧ run.2 = w
       ∧ LogConcertScreen.alerts run.1.2 = LogConcertScreen.alerts st
       ∧ LogConcertScreen.loading run.1.2 = LogConcertScreen.loading st)
  ∧ (store run.2 = store w
     ∨ ∃ uid, currentUser w = Some uid ∧ valid ∧ connectionState w = connected
              ∧ logged uid artistName venueName (LogConcertScreen.date snapshot)
                  (LogConcertScreen.rating snapshot)
                  (Some (JsString.trim (LogConcertScreen.notes snapshot)))
                  (store w) (store run.2))
  ∧ (is_Some (currentUser w) → valid → connectionState w = connected →
       run.1.1 = Resolved tt
       ∧ LogConcertScreen.loading run.1.2 = false
       ∧ ∃ a, LogConcertScreen.alerts run.1.2 = (LogConcertScreen.alerts st ++ [a])%list
              ∧ (alertTitle a = "🎉 Success!" ∨ alertTitle a = "Failed to Log Concert"))
  ∧ (is_Some (currentUser w) → valid → connectionState w ≠ connected →
       run.1.1 = Pending
       ∧ LogConcertScreen.loading run.1.2 = true
       ∧ store run.2 = store w
       ∧ retryQueue run.2 = (retryQueue w ++ ["logConcert"])%list).
Proof.
  cbv zeta. rewrite handleSubmit_cases.
  destruct (currentUser w) as [uid|] eqn:Huser.
  2:{ split; [reflexivity|]. split; [intros [? ?]; discriminate|].
      split; [now left|]. split; intros [? ?]; discriminate. }
  cbv zeta.
  pose proof (validateForm_valid snapshot st (clock w)) as Hvalid.
  pose proof (validateForm_keeps snapshot st (clock w)) as [Halerts Hloading].
  destruct (LogConcertScreen.validateForm snapshot (clock w) st) as [isValid st1].
  cbn [fst snd] in *.
  split; [discriminate|].
  destruct isValid; cbn [negb].
  2:{ split; [auto|]. split; [now left|].
      split; intros _ Hv; apply Hvalid in Hv; discriminate. }
  pose proof (proj1 Hvalid eq_refl) as Hv.
  split; [intros _ Hnot; contradiction|].
  destruct (decide (connectionState w = connected)) as [Hc|Hc].
  - destruct (logConcert_settles uid
                (JsString.trim (LogConcertScreen.artistName snapshot))
                (JsString.trim (LogConcertScreen.venueName snapshot))
                (LogConcertScreen.date snapshot) (LogConcertScreen.rating snapshot)
                (Some (JsString.trim (LogConcertScreen.notes snapshot))) w Hc)
      as [Hsettles Hlogged].
    destruct (logConcert _ _ _ _ _ _ w) as [[id|e|] w1]; cbn [fst snd] in *;
      [| |contradiction].
    + split; [right; eauto 10|]. split; [|intros _ _ ?; contradiction].
      intros _ _ _. split; [reflexivity|]. split; [reflexivity|].
      eexists. cbn. rewrite Halerts. split; [reflexivity|]. now left.
    + split; [right; eauto 10|]. split; [|intros _ _ ?; contradiction].
      intros _ _ _. split; [reflexivity|]. split; [reflexivity|].
      eexists. cbn. rewrite Halerts. split; [reflexivity|]. now right.
  - rewrite logConcert_queued by assumption. cbn [fst snd].
    split; [now left|]. split; [intros _ _ ?; contradiction|].
    intros _ _ _. repeat split.
Qed.

(** X18. [handleSubmit] of the screen that logs a concert.  Nobody signed
    in: one alert, nothing else.  A form whose artist or venue name is empty
    or white space throughout, with rating 0 or a date after now: no alert,
    no call, the world unchanged.  So the store changes only for a signed-in
    user and a valid form, and then as attempts of [logConcert] change it
    with the names and notes without the white space at their ends.  While
    connected the handler ends with [loading] off and one alert; while not
    connected it stays pending with [loading] on. *)
Theorem handleSubmit_logs_valid_forms_only (snapshot st : LogConcertScreen.t)
    (w : World) :
  let run := LogConcertScreen.handleSubmit snapshot st w in
  let artistName := JsString.trim (LogConcertScreen.artistName snapshot) in
  let venueName := JsString.trim (LogConcertScreen.venueName snapshot) in
  let valid := ¬ Blank (LogConcertScreen.artistName snapshot)
               ∧ ¬ Blank (LogConcertScreen.venueName snapshot)
               ∧ LogConcertScreen.rating snapshot ≠ 0
               ∧ LogConcertScreen.date snapshot ≤ clock w in
  (currentUser w = None →
     run = (Resolved tt,
            LogConcertScreen.alert "Error" "You must be logged in to log a concert" st, w))
  ∧ (is_Some (currentUser w) → ¬ valid →
       run.1.1 = Resolved tt ∧ run.2 = w
       ∧ LogConcertScreen.alerts run.1.2 = LogConcertScreen.alerts st
       ∧ LogConcertScreen.loading run.1.2 = LogConcertScreen.loading st)
  ∧ (store run.2 = store w
     ∨ ∃ uid, currentUser w = Some uid ∧ valid ∧ connectionState w = connected
              ∧ trimmedOf (LogConcertScreen.artistName snapshot) artistName
              ∧ trimmedOf (LogConcertScreen.venueName snapshot) venueName
              ∧ logged uid artistName venueName (LogConcertScreen.date snapshot)
                  (LogConcertScreen.rating snapshot)
                  (Some (JsString.trim (LogConcertScreen.notes snapshot)))
                  (store w) (store run.2))
  ∧ (is_Some (currentUser w) → valid → connectionState w = connected →
       run.1.1 = Resolved tt
       ∧ LogConcertScreen.loading run.1.2 = false
       ∧ ∃ a, LogConcertScreen.alerts run.1.2 = (LogConcertScreen.alerts st ++ [a])%list
              ∧ (alertTitle a = "🎉 Success!" ∨ alertTitle a = "Failed to Log Concert"))
  ∧ (is_Some (currentUser w) → valid → connectionState w ≠ connected →
       run.1.1 = Pending
       ∧ LogConcertScreen.loading run.1.2 = true
       ∧ store run.2 = store w
       ∧ retryQueue run.2 = (retryQueue w ++ ["logConcert"])%list).
Proof.
  pose proof (handleSubmit_outcomes snapshot st w) as H. cbv zeta in *.
  setoid_rewrite <- trim_blank.
  destruct H as (Hnobody & Hinvalid & Hstore & Hconnected & Hqueued).
  split; [exact Hnobody|]. split; [exact Hinvalid|].
  split; [|split; assumption].
  destruct Hstore as [Hsame | (uid & Huser & Hvalid & Hc & Hlogged)]; [now left|].
  right. exists uid. repeat (split; [assumption || apply trim_spec|]). exact Hlogged.
Qed.

Lemma handleSubmit_logs_valid_forms_only_witness :
  let w := with_clock 5000 (signedIn "u1" (onlineWorld freshStore)) in
  let logged := LogConcertScreen.handleSubmit filledForm filledForm w in
  let refused := LogConcertScreen.handleSubmit blankForm blankForm w in
  let queued := LogConcertScreen.handleSubmit filledForm filledForm
                  (with_clock 5000 (signedIn "u1" (offlineWorld freshStore))) in
  logged.1.1 = Resolved tt
  ∧ LogConcertScreen.loading logged.1.2 = false
  ∧ LogConcertScreen.alerts logged.1.2
    = [mkAlert "🎉 Success!" "Your concert memory has been saved!"]
  ∧ Artist.name <$> artists (store logged.2) !! "0" = Some "The Band"
  ∧ Concert.notes <$> concerts (store logged.2) !! "0" = Some "great show"
  ∧ refused.2 = w
  ∧ LogConcertScreen.alerts refused.1.2 = []
  ∧ LogConcertScreen.artistError refused.1.2 = "Artist name is required"
  ∧ LogConcertScreen.dateError refused.1.2 = "Concert date cannot be in the future"
  ∧ queued.1.1 = Pending
  ∧ LogConcertScreen.loading queued.1.2 = true.
Proof.
  intros w logged refused queued.
  assert (Hvalid : ¬ Blank (LogConcertScreen.artistName filledForm)
                   ∧ ¬ Blank (LogConcertScreen.venueName filledForm)
                   ∧ LogConcertScreen.rating filledForm ≠ 0
                   ∧ LogConcertScreen.date filledForm ≤ 5000).
  { split; [apply not_Blank; vm_compute; discriminate|].
    split; [apply not_Blank; vm_compute; discriminate|].
    split; [discriminate | cbn; lia]. }
  destruct (handleSubmit_logs_valid_forms_only filledForm filledForm w)
    as (_ & _ & _ & Hsubmitted & _).
  destruct Hsubmitted as (Hresolved & Hloading & _);
    [eexists; reflexivity | exact Hvalid | reflexivity |].
  destruct (handleSubmit_logs_valid_forms_only blankForm blankForm w)
    as (_ & Hrefused & _).
  destruct Hrefused as (_ & Hsame & Halerts & _);
    [eexists; reflexivity
    | intros (Hartist & _); apply Hartist, Blank_code; now apply isWhitespace_spec |].
  destruct (handleSubmit_logs_valid_forms_only filledForm filledForm
              (with_clock 5000 (signedIn "u1" (offlineWorld freshStore))))
    as (_ & _ & _ & _ & Hqueued).
  destruct Hqueued as (Hpending & Hbusy & _);
    [eexists; reflexivity | exact Hvalid | discriminate |].
  split; [exact Hresolved|]. split; [exact Hloading|].
  split; [reflexivity|]. split; [reflexivity|]. split; [reflexivity|].
  split; [exact Hsame|]. split; [exact Halerts|]. split; [reflexivity|].
  split; [reflexivity|]. split; [exact Hpending | exact Hbusy].
Defined.

(** *** The screen of a concert *)

Lemma getConcertReviews_store concertId w :
  store (getConcertReviews concertId w).2 = store w.
Proof.
  destruct (decide (connectionState w = connected)) as [Hc|Hc].
  - destruct (executeWithRetry_is_an_attempt (getConcertReviews_attempt concertId)
                "getConcertReviews" (reading (store w)) w) as (w1 & Hw1 & Hrun).
    + intros w0 [H _]. exact H.
    + intros w0 ms H. exact H.
    + intros w0 Hw0. pose proof (getConcertReviews_attempt_reads concertId _ _ Hw0) as H.
      destruct (getConcertReviews_attempt concertId w0) as [[?|?|] ?]; auto.
    + split; [assumption | reflexivity].
    + unfold getConcertReviews. rewrite <- Hrun.
      pose proof (getConcertReviews_attempt_reads concertId _ _ Hw1) as H.
      destruct (getConcertReviews_attempt concertId w1) as [[?|?|] ?]; cbn [snd];
        [apply H | apply H | destruct H].
  - unfold getConcertReviews. now rewrite executeWithRetry_not_connected.
Qed.

Lemma reviewWithDetails_resolves (review : string * Review.t) w :
  ∃ entry w',
    ConcertDetailScreen.reviewWithDetails review w = (Resolved entry, w')
    ∧ store w' = store w
    ∧ (ReviewWithDetails.id entry, ReviewWithDetails.review entry) = review
    ∧ flagsAuthorsLike (store w) entry
    ∧ ReviewWithDetails.comments entry = [].
Proof.
  unfold ConcertDetailScreen.reviewWithDetails.
  pose proof (getUserByRef_spec (store w) (Review.userRef review.2) (λ _, False) w eq_refl)
    as Huser.
  destruct (getUserByRef (Review.userRef review.2) w) as [[user| |] w1] eqn:Hu;
    [destruct Huser as [Hs1 Huser] | destruct Huser | destruct Huser].
  erewrite bind_resolved by exact Hu.
  destruct user as [[uid u]|].
  - erewrite bind_resolved by apply hasUserLikedReview_cases.
    eexists _, _. split; [reflexivity|]. split; [exact Hs1|].
    split; [now destruct review|]. split; [|reflexivity].
    unfold flagsAuthorsLike. cbn. intros Hflag. exists uid, u.
    split; [reflexivity|]. split; [exact Huser|].
    rewrite <- Hs1. destruct (faults w1) as [|[e|] fs]; [exact Hflag | discriminate | exact Hflag].
  - erewrite bind_resolved by reflexivity.
    eexists _, _. split; [reflexivity|]. split; [exact Hs1|].
    split; [now destruct review|]. split; [|reflexivity].
    unfold flagsAuthorsLike. cbn. discriminate.
Qed.

Lemma details_resolve (reviews : Snapshot Review.t) w :
  ∃ entries w',
    forEachAsync ConcertDetailScreen.reviewWithDetails reviews w = (Resolved entries, w')
    ∧ store w' = store w
    ∧ map (λ entry, (ReviewWithDetails.id entry, ReviewWithDetails.review entry)) entries
      = reviews
    ∧ Forall (flagsAuthorsLike (store w)) entries.
Proof.
  revert w. induction reviews as [|review reviews IH]; intros w.
  - exists [], w. repeat split. constructor.
  - destruct (reviewWithDetails_resolves review w) as (entry & w1 & Hrun & Hs1 & Hid & Hflag & _).
    destruct (IH w1) as (entries & w' & Hloop & Hs' & Hids & Hall).
    exists (entry :: entries), w'. split.
    { cbn [forEachAsync]. erewrite bind_resolved by exact Hrun.
      erewrite bind_resolved by exact Hloop. reflexivity. }
    split; [congruence|]. split; [cbn; now rewrite Hid, Hids|].
    constructor; [exact Hflag|]. now rewrite <- Hs1.
Qed.

Lemma loadReviews_cases concertId st w :
  ConcertDetailScreen.loadReviews concertId st w
  = match getConcertReviews concertId w with
    | (Resolved result, w1) =>
        match forEachAsync ConcertDetailScreen.reviewWithDetails (reviewList result) w1 with
        | (Resolved entries, w2) =>
            (Resolved tt,
             ConcertDetailScreen.setReviews (λ _, entries)
               (ConcertDetailScreen.setUsingFallbackQuery (usingFallback result)
                  (ConcertDetailScreen.setUsingFallbackQuery false st)), w2)
        | (Rejected _, w2) =>
            (Resolved tt,
             ConcertDetailScreen.setUsingFallbackQuery (usingFallback result)
               (ConcertDetailScreen.setUsingFallbackQuery false st), w2)
        | (Pending, w2) =>
            (Pending,
             ConcertDetailScreen.setUsingFallbackQuery (usingFallback result)
               (ConcertDetailScreen.setUsingFallbackQuery false st), w2)
        end
    | (Rejected _, w1) =>
        (Resolved tt, ConcertDetailScreen.setUsingFallbackQuery false st, w1)
    | (Pending, w1) => (Pending, ConcertDetailScreen.setUsingFallbackQuery false st, w1)
    end.
Proof.
  unfold ConcertDetailScreen.loadReviews, ui_try, ui_bind, setState, await, ui_ret.
  destruct (getConcertReviews concertId w) as [[result|e|] w1]; try reflexivity.
  now destruct (forEachAsync _ (reviewList result) w1) as [[?|?|] ?].
Qed.

Lemma loadReviews_outcomes (concertId : string)
    (st : ConcertDetailScreen.t) (w : World) :
  let run := ConcertDetailScreen.loadReviews concertId st w in
  (∀ e, run.1.1 ≠ Rejected e)
  ∧ store run.2 = store w
  ∧ ConcertDetailScreen.alerts run.1.2 = ConcertDetailScreen.alerts st
  ∧ (∀ result w1, getConcertReviews concertId w = (Resolved result, w1) →
       run.1.1 = Resolved tt
       ∧ ConcertDetailScreen.usingFallbackQuery run.1.2 = usingFallback result
       ∧ map (λ entry, (ReviewWithDetails.id entry, ReviewWithDetails.review entry))
             (ConcertDetailScreen.reviews run.1.2)
         = reviewList result
       ∧ Forall (flagsAuthorsLike (store w)) (ConcertDetailScreen.reviews run.1.2))
  ∧ (∀ e w1, getConcertReviews concertId w = (Rejected e, w1) →
       run.1.1 = Resolved tt
       ∧ ConcertDetailScreen.reviews run.1.2 = ConcertDetailScreen.reviews st
       ∧ ConcertDetailScreen.usingFallbackQuery run.1.2 = false)
  ∧ (connectionState w ≠ connected → run.1.1 = Pending).
Proof.
  cbv zeta. rewrite loadReviews_cases.
  pose proof (getConcertReviews_store concertId w) as Hstore.
  assert (Hqueued : connectionState w ≠ connected →
            (getConcertReviews concertId w).1 = Pending).
  { intros Hc. unfold getConcertReviews. now rewrite executeWithRetry_not_connected. }
  destruct (getConcertReviews concertId w) as [[result|e|] w1]; cbn [fst snd] in *.
  - destruct (details_resolve (reviewList result) w1)
      as (entries & w2 & -> & Hs2 & Hids & Hall).
    cbn [fst snd]. split; [discriminate|]. split; [congruence|]. split; [reflexivity|].
    split; [|split; [discriminate|intros Hc; now specialize (Hqueued Hc)]].
    intros result' w1' [= <- <-]. split; [reflexivity|]. split; [reflexivity|].
    split; [exact Hids|]. now rewrite <- Hstore.
  - split; [discriminate|]. split; [assumption|]. split; [reflexivity|].
    split; [discriminate|]. split; [|intros Hc; now specialize (Hqueued Hc)].
    intros e' w1' _. repeat split.
  - split; [discriminate|]. split; [assumption|]. split; [reflexivity|].
    split; [discriminate|]. split; [discriminate | reflexivity].
Qed.

(** X19. [loadReviews] never rejects and does not change the store.  When
    the reviews load, the screen holds them in the order returned, and the
    [hasLiked] flag of an entry, when set, is the Like record of the
    review's own author, the document that the review's [userRef] is the
    path of: the [user] of the loop shadows the signed-in user, whose likes
    are not consulted.  When the query rejects the list on screen stays as
    it was; while not connected the handler stays pending. *)
Theorem loadReviews_flags_the_authors_like (concertId : string)
    (st : ConcertDetailScreen.t) (w : World) :
  let run := ConcertDetailScreen.loadReviews concertId st w in
  (∀ e, run.1.1 ≠ Rejected e)
  ∧ store run.2 = store w
  ∧ ConcertDetailScreen.alerts run.1.2 = ConcertDetailScreen.alerts st
  ∧ (∀ result w1, getConcertReviews concertId w = (Resolved result, w1) →
       run.1.1 = Resolved tt
       ∧ ConcertDetailScreen.usingFallbackQuery run.1.2 = usingFallback result
       ∧ map (λ entry, (ReviewWithDetails.id entry, ReviewWithDetails.review entry))
             (ConcertDetailScreen.reviews run.1.2)
         = reviewList result
       ∧ Forall (flagsAuthorsLike (store w)) (ConcertDetailScreen.reviews run.1.2)
       ∧ (∀ entry uid u, entry ∈ ConcertDetailScreen.reviews run.1.2 →
            ReviewWithDetails.hasLiked entry = true →
            ReviewWithDetails.user entry = Some (uid, UserDoc u) →
            Review.userRef (ReviewWithDetails.review entry) = docPath "users" uid
            ∧ hasLiked (store w) (ReviewWithDetails.id entry) uid = true))
  ∧ (∀ e w1, getConcertReviews concertId w = (Rejected e, w1) →
       run.1.1 = Resolved tt
       ∧ ConcertDetailScreen.reviews run.1.2 = ConcertDetailScreen.reviews st
       ∧ ConcertDetailScreen.usingFallbackQuery run.1.2 = false)
  ∧ (connectionState w ≠ connected → run.1.1 = Pending).
Proof.
  destruct (loadReviews_outcomes concertId st w)
    as (Hsettles & Hstore & Halerts & Hloaded & Hfailed & Hqueued).
  cbv zeta. do 3 (split; [assumption|]). split; [|split; assumption].
  intros result w1 Hrun. destruct (Hloaded result w1 Hrun) as (Hdone & Hfb & Hids & Hflags).
  do 4 (split; [assumption|]).
  intros entry uid u Hentry Hflag Huser. rewrite Forall_forall in Hflags.
  destruct (Hflags entry Hentry Hflag) as (uid' & d & Huser' & Hat & Hliked).
  rewrite Huser in Huser'. injection Huser' as <- <-.
  apply documentAt_user in Hat as [Href _]. auto.
Qed.

Lemma loadReviews_flags_the_authors_like_witness :
  let w := signedIn "u2" (onlineWorld likedStore) in
  let run := ConcertDetailScreen.loadReviews "c1" emptyScreen w in
  ∃ entry,
    ConcertDetailScreen.reviews run.1.2 = [entry]
    ∧ ReviewWithDetails.id entry = "r1"
    ∧ ReviewWithDetails.user entry = Some ("u1", UserDoc (User.mk "u1@example.com" "u1" 0))
    ∧ hasLiked (store w) "r1" "u2" = true
    ∧ hasLiked (store w) "r1" "u1" = false
    ∧ ReviewWithDetails.hasLiked entry = false
    ∧ flagsAuthorsLike (store w) entry.
Proof.
  intros w run.
  assert (Hrun : ∃ entry, ConcertDetailScreen.reviews run.1.2 = [entry]
                          ∧ ReviewWithDetails.id entry = "r1"
                          ∧ ReviewWithDetails.user entry
                            = Some ("u1", UserDoc (User.mk "u1@example.com" "u1" 0))
                          ∧ ReviewWithDetails.hasLiked entry = false).
  { eexists. split; [vm_compute; reflexivity|]. repeat (split; [reflexivity|]). reflexivity. }
  destruct Hrun as (entry & Hentry & Hid & Huser & Hflag).
  destruct (loadReviews_flags_the_authors_like "c1" emptyScreen w)
    as (_ & _ & _ & Hloaded & _).
  assert (Hreviews : ∃ result w1, getConcertReviews "c1" w = (Resolved result, w1))
    by (eexists _, _; vm_compute; reflexivity).
  destruct Hreviews as (result & w1 & Hreviews).
  destruct (Hloaded result w1 Hreviews) as (_ & _ & _ & Hall & _).
  fold run in Hall. rewrite Hentry in Hall.
  exists entry. split; [exact Hentry|]. split; [exact Hid|]. split; [exact Huser|].
  split; [reflexivity|]. split; [reflexivity|]. split; [exact Hflag|].
  exact (Forall_inv Hall).
Defined.

Lemma backend_connection {A} (act : Store → Promise A * Store) w :
  connectionState (backend act w).2 = connectionState w.
Proof.
  unfold backend. destruct (head (faults w)) as [[e|]|]; try reflexivity;
    now destruct (act (store (with_faults (tail (faults w)) w))).
Qed.

Lemma submitReview_connection concertId userId rating text w :
  connectionState (submitReview concertId userId rating text w).2 = connectionState w.
Proof.
  unfold submitReview, getConcertById, try_catch, bind, getDoc, addDoc, Timestamp_now,
    throw, ret.
  match goal with |- context [backend ?act w] =>
    pose proof (backend_connection act w) as H1; destruct (backend act w) as [[c| |] w1]
  end; cbn [fst snd] in *; try assumption.
  destruct c as [concert|]; [|assumption].
  match goal with |- context [backend ?act w1] =>
    pose proof (backend_connection act w1) as H2; destruct (backend act w1) as [[?| |] w2]
  end; cbn [fst snd] in *; congruence.
Qed.

Lemma loadReviews_settles concertId st w :
  store (ConcertDetailScreen.loadReviews concertId st w).2 = store w
  ∧ (∀ e, (ConcertDetailScreen.loadReviews concertId st w).1.1 ≠ Rejected e)
  ∧ (connectionState w = connected →
       (ConcertDetailScreen.loadReviews concertId st w).1.1 = Resolved tt)
  ∧ (connectionState w ≠ connected →
       (ConcertDetailScreen.loadReviews concertId st w).1
       = (Pending, ConcertDetailScreen.setUsingFallbackQuery false st))
  ∧ (∀ result, (getConcertReviews concertId w).1 = Resolved result →
       map (λ entry, (ReviewWithDetails.id entry, ReviewWithDetails.review entry))
           (ConcertDetailScreen.reviews (ConcertDetailScreen.loadReviews concertId st w).1.2)
       = reviewList result)
  ∧ ConcertDetailScreen.reviewText (ConcertDetailScreen.loadReviews concertId st w).1.2
    = ConcertDetailScreen.reviewText st
  ∧ ConcertDetailScreen.submittingReview (ConcertDetailScreen.loadReviews concertId st w).1.2
    = ConcertDetailScreen.submittingReview st
  ∧ ConcertDetailScreen.alerts (ConcertDetailScreen.loadReviews concertId st w).1.2
    = ConcertDetailScreen.alerts st.
Proof.
  rewrite loadReviews_cases.
  pose proof (getConcertReviews_store concertId w) as Hstore.
  assert (Hqueued : connectionState w ≠ connected →
            getConcertReviews concertId w
            = (Pending, with_retryQueue (retryQueue w ++ ["getConcertReviews"])%list w)).
  { intros Hc. unfold getConcertReviews. now rewrite executeWithRetry_not_connected. }
  assert (Hsettles : connectionState w = connected →
            (getConcertReviews concertId w).1 ≠ Pending).
  { intros Hc. 
    destruct (executeWithRetry_is_an_attempt (getConcertReviews_attempt concertId)
                "getConcertReviews" (reading (store w)) w) as (w1 & Hw1 & Hrun).
    - intros w0 [H _]. exact H.
    - intros w0 ms H. exact H.
    - intros w0 Hw0. pose proof (getConcertReviews_attempt_reads concertId _ _ Hw0) as H.
      destruct (getConcertReviews_attempt concertId w0) as [[?|?|] ?]; auto.
    - split; [assumption | reflexivity].
    - unfold getConcertReviews. rewrite <- Hrun.
      pose proof (getConcertReviews_attempt_reads concertId _ _ Hw1) as H.
      destruct (getConcertReviews_attempt concertId w1) as [[?|?|] ?]; cbn [fst];
        [discriminate | discriminate | destruct H]. }
  destruct (getConcertReviews concertId w) as [[result|e|] w1]; cbn [fst snd] in *.
  - destruct (details_resolve (reviewList result) w1)
      as (entries & w2 & -> & Hs2 & Hids & Hall).
    cbn [fst snd]. split; [congruence|]. split; [discriminate|]. split; [reflexivity|].
    split; [intros Hc; specialize (Hqueued Hc); discriminate|].
    split; [intros result' [= <-]; exact Hids|]. repeat split.
  - split; [assumption|]. split; [discriminate|]. split; [reflexivity|].
    split; [intros Hc; specialize (Hqueued Hc); discriminate|].
    split; [discriminate|]. repeat split.
  - split; [assumption|]. split; [discriminate|].
    split; [intros Hc; now destruct (Hsettles Hc)|].
    split; [reflexivity|]. split; [discriminate|]. repeat split.
Qed.

Lemma handleSubmitReview_cases concertId (snapshot st : ConcertDetailScreen.t) w :
  ConcertDetailScreen.handleSubmitReview concertId snapshot st w
  = match currentUser w with
    | Some uid =>
        if JsString.truthy (JsString.trim (ConcertDetailScreen.reviewText snapshot)) then
          let busy := ConcertDetailScreen.setSubmittingReview true st in
          match submitReview concertId uid 0 (ConcertDetailScreen.reviewText snapshot) w with
          | (Resolved _, w1) =>
              match ConcertDetailScreen.loadReviews concertId
                      (ConcertDetailScreen.setReviewText "" busy) w1 with
              | (Resolved _, st2, w2) =>
                  (Resolved tt,
                   ConcertDetailScreen.setSubmittingReview false
                     (ConcertDetailScreen.alert "Success" "Review submitted successfully!"
                        st2), w2)
              | (Rejected e, st2, w2) =>
                  (Resolved tt,
                   ConcertDetailScreen.setSubmittingReview false
                     (ConcertDetailScreen.alert "Error"
                        (orElse (message e) "Failed to submit review") st2), w2)
              | (Pending, st2, w2) => (Pending, st2, w2)
              end
          | (Rejected e, w1) =>
              (Resolved tt,
               ConcertDetailScreen.setSubmittingReview false
                 (ConcertDetailScreen.alert "Error"
                    (orElse (message e) "Failed to submit review") busy), w1)
          | (Pending, w1) => (Pending, busy, w1)
          end
        else (Resolved tt, ConcertDetailScreen.alert "Error" "Please enter a review" st, w)
    | None => (Resolved tt, ConcertDetailScreen.alert "Error" "Please enter a review" st, w)
    end.
Proof.
  unfold ConcertDetailScreen.handleSubmitReview, ui_bind, useUser.
  destruct (currentUser w) as [uid|]; [|reflexivity].
  destruct (JsString.truthy (JsString.trim (ConcertDetailScreen.reviewText snapshot)));
    [|reflexivity].
  unfold setState, ui_finally, ui_try, await, ui_bind. cbv zeta.
  destruct (submitReview concertId uid 0 _ w) as [[?|?|] w1]; try reflexivity.
  now destruct (ConcertDetailScreen.loadReviews concertId _ w1) as [[[?|?|] ?] ?].
Qed.

Lemma handleSubmitReview_outcomes (concertId : string)
    (snapshot st : ConcertDetailScreen.t) (w : World) :
  let run := ConcertDetailScreen.handleSubmitReview concertId snapshot st w in
  let text := ConcertDetailScreen.reviewText snapshot in
  (currentUser w = None ∨ JsString.trim text = "" →
     run = (Resolved tt, ConcertDetailScreen.alert "Error" "Please enter a review" st, w))
  ∧ (∀ e, run.1.1 ≠ Rejected e)
  ∧ (store run.2 = store w
     ∨ ∃ uid reviewId concert,
         currentUser w = Some uid ∧ JsString.trim text ≠ ""
         ∧ concerts (store w) !! concertId = Some concert
         ∧ reviews (store w) !! reviewId = None
         ∧ reviews (store run.2)
           = <[reviewId := Review.mk (docPath "concerts" concertId) (docPath "users" uid)
                             (JsString.trim text)
                             (if JsString.endsWith (Concert.userRef concert) uid
                              then Concert.rating concert else 0)
                             (clock w) (clock w) 0 0]> (reviews (store w))
         ∧ (connectionState w = connected →
              run.1.1 = Resolved tt
              ∧ ConcertDetailScreen.reviewText run.1.2 = ""
              ∧ ConcertDetailScreen.submittingReview run.1.2 = false
              ∧ ConcertDetailScreen.alerts run.1.2
                = (ConcertDetailScreen.alerts st
                   ++ [mkAlert "Success" "Review submitted successfully!"])%list)
         ∧ (connectionState w ≠ connected →
              run.1.1 = Pending
              ∧ ConcertDetailScreen.submittingReview run.1.2 = true
              ∧ ConcertDetailScreen.alerts run.1.2 = ConcertDetailScreen.alerts st)).
Proof.
  cbv zeta. rewrite handleSubmitReview_cases.
  destruct (currentUser w) as [uid|] eqn:Huser.
  2:{ split; [reflexivity|]. split; [discriminate | now left]. }
  destruct (JsString.truthy (JsString.trim (ConcertDetailScreen.reviewText snapshot)))
    eqn:Htext.
  2:{ split; [reflexivity|]. split; [discriminate | now left]. }
  assert (Hne : JsString.trim (ConcertDetailScreen.reviewText snapshot) ≠ "")
    by (intros E; rewrite E in Htext; discriminate).
  split; [intros [?|?]; [discriminate | contradiction]|].
  cbv zeta.
  pose proof (submitReview_stores concertId uid 0
                (ConcertDetailScreen.reviewText snapshot) w) as Hstores.
  pose proof (submitReview_connection concertId uid 0
                (ConcertDetailScreen.reviewText snapshot) w) as Hconn.
  assert (Hrejected : ∀ e w1,
            submitReview concertId uid 0 (ConcertDetailScreen.reviewText snapshot) w
            = (Rejected e, w1) → store w1 = store w).
  { intros e w1. unfold submitReview, getConcertById, try_catch, bind, getDoc, addDoc,
      Timestamp_now, throw, ret.
    backend_step; [now intros [= _ <-]|]. cbn [fst snd].
    destruct (concerts (store w) !! concertId); [|now intros [= _ <-]].
    backend_step; [now intros [= _ <-] | discriminate]. }
  assert (Hpending : ∀ w1,
            submitReview concertId uid 0 (ConcertDetailScreen.reviewText snapshot) w
            ≠ (Pending, w1)).
  { intros w1. unfold submitReview, getConcertById, try_catch, bind, getDoc, addDoc,
      Timestamp_now, throw, ret.
    backend_step; [discriminate|]. cbn [fst snd].
    destruct (concerts (store w) !! concertId); [|discriminate].
    backend_step; discriminate. }
  destruct (submitReview concertId uid 0 (ConcertDetailScreen.reviewText snapshot) w)
    as [[reviewId|e|] w1]; cbn [fst snd] in *.
  - destruct (Hstores reviewId w1 eq_refl) as (concert & Hconcert & Hnew & Hreviews).
    pose proof (loadReviews_settles concertId
                  (ConcertDetailScreen.setReviewText ""
                     (ConcertDetailScreen.setSubmittingReview true st)) w1)
      as (Hs2 & Hnever & Hdone & Hqueued & _ & Htext2 & Hbusy2 & Halerts2).
    destruct (ConcertDetailScreen.loadReviews concertId _ w1) as [[[[]|e|] st2] w2];
      cbn [fst snd] in *.
    + split; [discriminate|]. right. exists uid, reviewId, concert.
      split; [reflexivity|]. split; [assumption|]. split; [assumption|].
      split; [assumption|]. split; [now rewrite Hs2|].
      split.
      * intros _. split; [reflexivity|]. split; [exact Htext2|]. split; [reflexivity|].
        cbn. now rewrite Halerts2.
      * intros Hc. rewrite <- Hconn in Hc. specialize (Hqueued Hc). discriminate.
    + now destruct (Hnever e).
    + split; [discriminate|]. right. exists uid, reviewId, concert.
      split; [reflexivity|]. split; [assumption|]. split; [assumption|].
      split; [assumption|]. split; [now rewrite Hs2|].
      split.
      * intros Hc. rewrite <- Hconn in Hc. specialize (Hdone Hc). discriminate.
      * intros _. split; [reflexivity|]. split; [exact Hbusy2 | exact Halerts2].
  - split; [discriminate|]. left. now apply (Hrejected e w1).
  - now destruct (Hpending w1).
Qed.

(** X20. [handleSubmitReview] alerts and does nothing else when nobody
    is signed in or the text is empty or white space throughout, and never
    rejects.  Otherwise it passes rating 0 to [submitReview]: if the store
    changes it gains one review with the text without the white space at
    its ends and, as rating, the concert's rating when the concert's
    [userRef] ends with the author's id, which is so for the owner but also
    for another user whose id ends the owner's, and 0 otherwise.  While
    connected the handler then clears the text, stops submitting and alerts
    success; while not connected the review is stored but the handler stays
    pending with [submittingReview] on. *)
Theorem handleSubmitReview_stores_rating_zero (concertId : string)
    (snapshot st : ConcertDetailScreen.t) (w : World) :
  let run := ConcertDetailScreen.handleSubmitReview concertId snapshot st w in
  let text := ConcertDetailScreen.reviewText snapshot in
  (currentUser w = None ∨ Blank text →
     run = (Resolved tt, ConcertDetailScreen.alert "Error" "Please enter a review" st, w))
  ∧ (∀ e, run.1.1 ≠ Rejected e)
  ∧ (store run.2 = store w
     ∨ ∃ uid reviewId concert,
         currentUser w = Some uid ∧ ¬ Blank text
         ∧ trimmedOf text (JsString.trim text)
         ∧ concerts (store w) !! concertId = Some concert
         ∧ reviews (store w) !! reviewId = None
         ∧ reviews (store run.2)
           = <[reviewId := Review.mk (docPath "concerts" concertId) (docPath "users" uid)
                             (JsString.trim text)
                             (if JsString.endsWith (Concert.userRef concert) uid
                              then Concert.rating concert else 0)
                             (clock w) (clock w) 0 0]> (reviews (store w))
         ∧ (connectionState w = connected →
              run.1.1 = Resolved tt
              ∧ ConcertDetailScreen.reviewText run.1.2 = ""
              ∧ ConcertDetailScreen.submittingReview run.1.2 = false
              ∧ ConcertDetailScreen.alerts run.1.2
                = (ConcertDetailScreen.alerts st
                   ++ [mkAlert "Success" "Review submitted successfully!"])%list)
         ∧ (connectionState w ≠ connected →
              run.1.1 = Pending
              ∧ ConcertDetailScreen.submittingReview run.1.2 = true
              ∧ ConcertDetailScreen.alerts run.1.2 = ConcertDetailScreen.alerts st)).
Proof.
  pose proof (handleSubmitReview_outcomes concertId snapshot st w) as H. cbv zeta in *.
  setoid_rewrite <- trim_blank.
  destruct H as (Hblank & Hsettles & Hstore).
  split; [exact Hblank|]. split; [exact Hsettles|].
  destruct Hstore as [Hsame | (uid & reviewId & concert & Huser & Htext & Hrest)];
    [now left|].
  right. exists uid, reviewId, concert.
  split; [exact Huser|]. split; [exact Htext|]. split; [apply trim_spec | exact Hrest].
Qed.

Lemma handleSubmitReview_stores_rating_zero_witness :
  let w := signedIn "u2" (onlineWorld sampleStore) in
  let run := ConcertDetailScreen.handleSubmitReview "c1" typedScreen typedScreen w in
  let suffix := ConcertDetailScreen.handleSubmitReview "c2" typedScreen typedScreen
                  (signedIn "u1" (onlineWorld suffixOwnerStore)) in
  run.1.1 = Resolved tt
  ∧ Concert.rating <$> concerts (store w) !! "c1" = Some 5
  ∧ Review.rating <$> reviews (store run.2) !! "0" = Some 0
  ∧ Review.text <$> reviews (store run.2) !! "0" = Some "fine"
  ∧ ConcertDetailScreen.reviewText run.1.2 = ""
  ∧ ConcertDetailScreen.alerts run.1.2 = [mkAlert "Success" "Review submitted successfully!"]
  ∧ Concert.userRef <$> concerts suffixOwnerStore !! "c2" = Some "users/au1"
  ∧ Review.userRef <$> reviews (store suffix.2) !! "0" = Some "users/u1"
  ∧ Review.rating <$> reviews (store suffix.2) !! "0" = Some 5
  ∧ ConcertDetailScreen.handleSubmitReview "c1" emptyScreen emptyScreen w
    = (Resolved tt, ConcertDetailScreen.alert "Error" "Please enter a review" emptyScreen, w)
  ∧ ConcertDetailScreen.handleSubmitReview "c1" blankScreen blankScreen w
    = (Resolved tt, ConcertDetailScreen.alert "Error" "Please enter a review" blankScreen, w).
Proof.
  intros w run suffix.
  destruct (handleSubmitReview_stores_rating_zero "c1" typedScreen typedScreen w)
    as (_ & _ & [Hsame|Hstored]).
  { exfalso. vm_compute in Hsame. discriminate Hsame. }
  destruct Hstored as (uid & reviewId & concert & _ & _ & _ & _ & _ & _ & Hdone & _).
  destruct (Hdone eq_refl) as (Hresolved & Htext & _ & Halerts).
  destruct (handleSubmitReview_stores_rating_zero "c1" emptyScreen emptyScreen w)
    as (Hempty & _).
  destruct (handleSubmitReview_stores_rating_zero "c1" blankScreen blankScreen w)
    as (Hblank & _).
  split; [exact Hresolved|]. split; [reflexivity|]. split; [reflexivity|].
  split; [reflexivity|]. split; [exact Htext|]. split; [exact Halerts|].
  split; [reflexivity|]. split; [reflexivity|]. split; [reflexivity|].
  split; [apply Hempty; right; constructor|].
  apply Hblank. right. exact blankComment_Blank.
Defined.

Lemma handleLikeReview_cases reviewId (st : ConcertDetailScreen.t) w :
  ConcertDetailScreen.handleLikeReview reviewId st w
  = match currentUser w with
    | None => (Resolved tt, st, w)
    | Some uid =>
        match toggleReviewLike reviewId uid w with
        | (Resolved result, w1) =>
            (Resolved tt,
             ConcertDetailScreen.setReviews
               (ConcertDetailScreen.updateReview reviewId (λ review,
                  ReviewWithDetails.mk (ReviewWithDetails.id review)
                    (Review.with_likesCount (likesCount result)
                       (ReviewWithDetails.review review))
                    (ReviewWithDetails.user review)
                    (match action result with liked => true | unliked => false end)
                    (ReviewWithDetails.comments review)
                    (ReviewWithDetails.showComments review)
                    (ReviewWithDetails.newComment review)
                    (ReviewWithDetails.isSubmittingComment review))) st, w1)
        | (Rejected e, w1) =>
            (Resolved tt,
             ConcertDetailScreen.alert "Error" (orElse (message e) "Failed to like review") st,
             w1)
        | (Pending, w1) => (Pending, st, w1)
        end
    end.
Proof.
  unfold ConcertDetailScreen.handleLikeReview, ui_bind, useUser.
  destruct (currentUser w) as [uid|]; [|reflexivity].
  unfold setState, ui_try, await, ui_bind.
  now destruct (toggleReviewLike reviewId uid w) as [[?|?|] ?].
Qed.

Lemma handleAddComment_cases reviewId commentText (st : ConcertDetailScreen.t) w :
  ConcertDetailScreen.handleAddComment reviewId commentText st w
  = match currentUser w with
    | None => (Resolved tt, st, w)
    | Some uid =>
        if negb (JsString.truthy (JsString.trim commentText)) then (Resolved tt, st, w)
        else
          let busy :=
            ConcertDetailScreen.setReviews
              (ConcertDetailScreen.updateReview reviewId
                 (ConcertDetailScreen.setSubmittingComment true)) st in
          let failed (e : JsError) (w' : World) :=
            (Resolved tt,
             ConcertDetailScreen.setReviews
               (ConcertDetailScreen.updateReview reviewId
                  (ConcertDetailScreen.setSubmittingComment false))
               (ConcertDetailScreen.alert "Error"
                  (orElse (message e) "Failed to add comment") busy), w') in
          match addCommentToReview reviewId uid commentText w with
          | (Resolved _, w1) =>
              match getReviewComments reviewId w1 with
              | (Resolved updatedComments, w2) =>
                  (Resolved tt,
                   ConcertDetailScreen.setReviews
                     (ConcertDetailScreen.updateReview reviewId (λ review,
                        ReviewWithDetails.mk (ReviewWithDetails.id review)
                          (Review.with_commentsCount (Z.of_nat (length updatedComments))
                             (ReviewWithDetails.review review))
                          (ReviewWithDetails.user review)
                          (ReviewWithDetails.hasLiked review)
                          updatedComments (ReviewWithDetails.showComments review) "" false))
                     busy, w2)
              | (Rejected e, w2) => failed e w2
              | (Pending, w2) => (Pending, busy, w2)
              end
          | (Rejected e, w1) => failed e w1
          | (Pending, w1) => (Pending, busy, w1)
          end
    end.
Proof.
  unfold ConcertDetailScreen.handleAddComment, ui_bind, useUser.
  destruct (currentUser w) as [uid|]; [|reflexivity].
  destruct (negb (JsString.truthy (JsString.trim commentText))); [reflexivity|].
  unfold setState, ui_try, await, ui_bind. cbv zeta.
  destruct (addCommentToReview reviewId uid commentText w) as [[?|?|] w1]; try reflexivity.
  now destruct (getReviewComments reviewId w1) as [[?|?|] ?].
Qed.

Lemma updateReview_ids reviewId f (prevReviews : list ReviewWithDetails.t) :
  (∀ review, ReviewWithDetails.id (f review) = ReviewWithDetails.id review) →
  map ReviewWithDetails.id (ConcertDetailScreen.updateReview reviewId f prevReviews)
  = map ReviewWithDetails.id prevReviews.
Proof.
  intros Hf. unfold ConcertDetailScreen.updateReview. rewrite map_map.
  apply map_ext. intros review.
  destruct (String.eqb (ReviewWithDetails.id review) reviewId); [apply Hf | reflexivity].
Qed.

Lemma updateReview_elem reviewId f (prevReviews : list ReviewWithDetails.t) entry :
  entry ∈ ConcertDetailScreen.updateReview reviewId f prevReviews →
  ∃ before, before ∈ prevReviews
    ∧ ((ReviewWithDetails.id before = reviewId ∧ entry = f before)
       ∨ (ReviewWithDetails.id before ≠ reviewId ∧ entry = before)).
Proof.
  unfold ConcertDetailScreen.updateReview. intros Hin.
  apply list_elem_of_fmap in Hin as (before & -> & Hin).
  exists before. split; [assumption|].
  destruct (String.eqb_spec (ReviewWithDetails.id before) reviewId); auto.
Qed.

Lemma concert_screen_updates (reviewId : string)
    (st : ConcertDetailScreen.t) (w : World) :
  (∀ uid result w1,
     currentUser w = Some uid →
     toggleReviewLike reviewId uid w = (Resolved result, w1) →
     ∃ st',
       ConcertDetailScreen.handleLikeReview reviewId st w = (Resolved tt, st', w1)
       ∧ map ReviewWithDetails.id (ConcertDetailScreen.reviews st')
         = map ReviewWithDetails.id (ConcertDetailScreen.reviews st)
       ∧ ConcertDetailScreen.alerts st' = ConcertDetailScreen.alerts st
       ∧ ∀ entry, entry ∈ ConcertDetailScreen.reviews st' →
           (ReviewWithDetails.id entry = reviewId →
              Review.likesCount (ReviewWithDetails.review entry)
              = likesCounter (store w1) reviewId
              ∧ ReviewWithDetails.hasLiked entry = hasLiked (store w1) reviewId uid)
           ∧ (ReviewWithDetails.id entry ≠ reviewId →
                entry ∈ ConcertDetailScreen.reviews st))
  ∧ (∀ uid commentText result w1 updatedComments w2,
       currentUser w = Some uid →
       addCommentToReview reviewId uid commentText w = (Resolved result, w1) →
       getReviewComments reviewId w1 = (Resolved updatedComments, w2) →
       ∃ st',
         ConcertDetailScreen.handleAddComment reviewId commentText st w
         = (Resolved tt, st', w2)
         ∧ map ReviewWithDetails.id (ConcertDetailScreen.reviews st')
           = map ReviewWithDetails.id (ConcertDetailScreen.reviews st)
         ∧ ConcertDetailScreen.alerts st' = ConcertDetailScreen.alerts st
         ∧ ∀ entry, entry ∈ ConcertDetailScreen.reviews st' →
             ReviewWithDetails.id entry = reviewId →
             ReviewWithDetails.comments entry = updatedComments
             ∧ Review.commentsCount (ReviewWithDetails.review entry)
               = Z.of_nat (size (children (comments (store w2)) reviewId))
             ∧ ReviewWithDetails.newComment entry = ""
             ∧ ReviewWithDetails.isSubmittingComment entry = false
             ∧ (commentsConsistent (store w) →
                  Review.commentsCount <$> reviews (store w2) !! reviewId
                  = Some (Review.commentsCount (ReviewWithDetails.review entry))))
  ∧ (∀ commentText,
       currentUser w = None ∨ JsString.trim commentText = "" →
       ConcertDetailScreen.handleAddComment reviewId commentText st w = (Resolved tt, st, w))
  ∧ (currentUser w = None →
       ConcertDetailScreen.handleLikeReview reviewId st w = (Resolved tt, st, w)).
Proof.
  split; [|split; [|split]].
  - intros uid result w1 Huser Hrun.
    destruct (toggleReviewLike_result reviewId uid w result w1 Hrun) as [Hcount Hflag].
    rewrite handleLikeReview_cases, Huser, Hrun. eexists. split; [reflexivity|].
    cbn [ConcertDetailScreen.reviews ConcertDetailScreen.alerts
         ConcertDetailScreen.setReviews].
    split; [now apply updateReview_ids|]. split; [reflexivity|].
    intros entry Hin.
    apply updateReview_elem in Hin as (before & Hbefore & [[Hid ->]|[Hid ->]]);
      cbn [ReviewWithDetails.id ReviewWithDetails.review ReviewWithDetails.hasLiked
           Review.likesCount Review.with_likesCount].
    + split; [intros _; split; assumption | intros Hne; contradiction].
    + split; [intros Heq; contradiction | auto].
  - intros uid commentText result w1 updatedComments w2 Huser Hadd Hread.
    assert (Htext : JsString.truthy (JsString.trim commentText) = true).
    { rewrite addCommentToReview_addComment in Hadd.
      destruct (addComment_effect (CommentData.mk reviewId uid commentText)
                  (mkContext (currentUser w)) w) as [[_ Hno]|(_ & _ & Hne & _)].
      - exfalso. apply (Hno result). now rewrite Hadd.
      - cbn [CommentData.commentText] in Hne.
        destruct (JsString.trim commentText); [now destruct Hne | reflexivity]. }
    rewrite handleAddComment_cases, Huser, Htext. cbn [negb]. cbv zeta.
    rewrite Hadd, Hread. eexists. split; [reflexivity|].
    cbn [ConcertDetailScreen.reviews ConcertDetailScreen.alerts
         ConcertDetailScreen.setReviews].
    split.
    { rewrite updateReview_ids by reflexivity. now apply updateReview_ids. }
    split; [reflexivity|].
    assert (Hlen : length updatedComments = size (children (comments (store w1)) reviewId)).
    { apply getReviewComments_length. now rewrite Hread. }
    assert (Hs2 : store w2 = store w1).
    { pose proof (getReviewComments_cases reviewId w1) as Hcases.
      destruct (faults w1) as [|[e|] fs]; [|rewrite Hcases in Hread; discriminate|];
        destruct Hcases as (l & w' & Hrun' & Hs' & _); rewrite Hrun' in Hread;
        now injection Hread as _ <-. }
    intros entry Hin Hid.
    apply updateReview_elem in Hin as (before & Hbefore & [[_ ->]|[Hne ->]]);
      [|contradiction].
    cbn [ReviewWithDetails.id ReviewWithDetails.review ReviewWithDetails.comments
         ReviewWithDetails.newComment ReviewWithDetails.isSubmittingComment
         Review.commentsCount Review.with_commentsCount].
    split; [reflexivity|]. split; [now rewrite Hs2, Hlen|].
    split; [reflexivity|]. split; [reflexivity|].
    intros Hcons. rewrite Hs2, Hlen.
    rewrite addCommentToReview_addComment in Hadd.
    pose proof (addComment_commentsConsistent (CommentData.mk reviewId uid commentText)
                  (mkContext (currentUser w)) w Hcons) as Hafter.
    rewrite Hadd in Hafter. cbn [snd] in Hafter.
    destruct (reviews (store w1) !! reviewId) as [r|] eqn:Hr.
    + cbn. now rewrite (Hafter _ _ Hr).
    + exfalso.
      destruct (addComment_effect (CommentData.mk reviewId uid commentText)
                  (mkContext (currentUser w)) w) as [[_ Hno]|(_ & [r0 Hr0] & _ & Hstore & _)].
      * apply (Hno result). now rewrite Hadd.
      * rewrite Hadd in Hstore. cbn [snd CommentData.reviewId CommentData.userId
                                      CommentData.commentText] in Hstore, Hr0.
        rewrite Hstore in Hr. unfold addCommentTransaction in Hr.
        rewrite Hr0 in Hr. cbn in Hr. now rewrite lookup_insert_eq in Hr.
  - intros commentText Hskip. rewrite handleAddComment_cases.
    destruct (currentUser w) as [uid|]; [|reflexivity].
    destruct Hskip as [?|Hblank]; [discriminate|]. now rewrite Hblank.
  - intros Huser. now rewrite handleLikeReview_cases, Huser.
Qed.

(** X21. After [handleLikeReview] on a toggle that resolved, the entry of
    that review shows the stored counter and whether the signed-in user has
    a Like record; the other entries are untouched and nothing is alerted.
    After [handleAddComment] on a comment that was added and reloaded, the
    entry shows the reloaded comments and their number, which is the number
    of Comment records, and the stored counter if the counters were right
    before.  Without a user, or with a comment that is empty or white space
    throughout, the handlers do nothing. *)
Theorem screen_shows_what_the_store_holds (reviewId : string)
    (st : ConcertDetailScreen.t) (w : World) :
  (∀ uid result w1,
     currentUser w = Some uid →
     toggleReviewLike reviewId uid w = (Resolved result, w1) →
     ∃ st',
       ConcertDetailScreen.handleLikeReview reviewId st w = (Resolved tt, st', w1)
       ∧ map ReviewWithDetails.id (ConcertDetailScreen.reviews st')
         = map ReviewWithDetails.id (ConcertDetailScreen.reviews st)
       ∧ ConcertDetailScreen.alerts st' = ConcertDetailScreen.alerts st
       ∧ ∀ entry, entry ∈ ConcertDetailScreen.reviews st' →
           (ReviewWithDetails.id entry = reviewId →
              Review.likesCount (ReviewWithDetails.review entry)
              = likesCounter (store w1) reviewId
              ∧ ReviewWithDetails.hasLiked entry = hasLiked (store w1) reviewId uid)
           ∧ (ReviewWithDetails.id entry ≠ reviewId →
                entry ∈ ConcertDetailScreen.reviews st))
  ∧ (∀ uid commentText result w1 updatedComments w2,
       currentUser w = Some uid →
       addCommentToReview reviewId uid commentText w = (Resolved result, w1) →
       getReviewComments reviewId w1 = (Resolved updatedComments, w2) →
       ∃ st',
         ConcertDetailScreen.handleAddComment reviewId commentText st w
         = (Resolved tt, st', w2)
         ∧ map ReviewWithDetails.id (ConcertDetailScreen.reviews st')
           = map ReviewWithDetails.id (ConcertDetailScreen.reviews st)
         ∧ ConcertDetailScreen.alerts st' = ConcertDetailScreen.alerts st
         ∧ ∀ entry, entry ∈ ConcertDetailScreen.reviews st' →
             ReviewWithDetails.id entry = reviewId →
             ReviewWithDetails.comments entry = updatedComments
             ∧ Review.commentsCount (ReviewWithDetails.review entry)
               = Z.of_nat (size (children (comments (store w2)) reviewId))
             ∧ ReviewWithDetails.newComment entry = ""
             ∧ ReviewWithDetails.isSubmittingComment entry = false
             ∧ (commentsConsistent (store w) →
                  Review.commentsCount <$> reviews (store w2) !! reviewId
                  = Some (Review.commentsCount (ReviewWithDetails.review entry))))
  ∧ (∀ commentText,
       currentUser w = None ∨ Blank commentText →
       ConcertDetailScreen.handleAddComment reviewId commentText st w = (Resolved tt, st, w))
  ∧ (currentUser w = None →
       ConcertDetailScreen.handleLikeReview reviewId st w = (Resolved tt, st, w)).
Proof.
  pose proof (concert_screen_updates reviewId st w) as H.
  setoid_rewrite <- trim_blank. exact H.
Qed.

Lemma screen_shows_what_the_store_holds_witness :
  let w := signedIn "u2" (onlineWorld sampleStore) in
  let loaded := (ConcertDetailScreen.loadReviews "c1" emptyScreen w).1.2 in
  let liked := ConcertDetailScreen.handleLikeReview "r1" loaded w in
  let commented := ConcertDetailScreen.handleAddComment "r1" "nice!" liked.1.2 liked.2 in
  ∃ entry,
    ConcertDetailScreen.reviews commented.1.2 = [entry]
    ∧ ReviewWithDetails.id entry = "r1"
    ∧ Review.likesCount (ReviewWithDetails.review entry) = 1
    ∧ ReviewWithDetails.hasLiked entry = true
    ∧ Review.commentsCount (ReviewWithDetails.review entry) = 1
    ∧ length (ReviewWithDetails.comments entry) = 1%nat
    ∧ likesCounter (store commented.2) "r1" = 1
    ∧ hasLiked (store commented.2) "r1" "u2" = true
    ∧ Review.commentsCount <$> reviews (store commented.2) !! "r1" = Some 1
    ∧ ConcertDetailScreen.handleAddComment "r1" blankComment loaded w
      = (Resolved tt, loaded, w).
Proof.
  intros w loaded liked commented.
  destruct (screen_shows_what_the_store_holds "r1" loaded w) as (Hlike & _ & Hblank & _).
  assert (Htoggle : ∃ result w1, toggleReviewLike "r1" "u2" w = (Resolved result, w1))
    by (eexists _, _; vm_compute; reflexivity).
  destruct Htoggle as (result & w1 & Htoggle).
  destruct (Hlike "u2" result w1 eq_refl Htoggle) as (st1 & Hliked & _ & _ & Hshown).
  assert (Hentry : ∃ entry, ConcertDetailScreen.reviews commented.1.2 = [entry]
                            ∧ ReviewWithDetails.id entry = "r1"
                            ∧ Review.likesCount (ReviewWithDetails.review entry) = 1
                            ∧ ReviewWithDetails.hasLiked entry = true
                            ∧ Review.commentsCount (ReviewWithDetails.review entry) = 1
                            ∧ length (ReviewWithDetails.comments entry) = 1%nat).
  { eexists. split; [vm_compute; reflexivity|]. repeat (split; [reflexivity|]). reflexivity. }
  destruct Hentry as (entry & Hentry & Hrest).
  exists entry. split; [exact Hentry|].
  destruct Hrest as (? & ? & ? & ? & ?).
  do 5 (split; [assumption|]).
  split; [reflexivity|]. split; [reflexivity|]. split; [reflexivity|].
  apply Hblank. right. exact blankComment_Blank.
Defined.

(** *** Analytics of a logged concert *)

Section Quiet.
Variable a0 : option Analytics.

Lemma quiet_getDocs {D} (select : Store → Snapshot D) :
  hoare (quiet a0) (getDocs select) (λ _, quiet a0) (quiet a0).
Proof.
  unfold getDocs. apply hoare_backend.
  - intros w e fs H _. exact H.
  - intros w H _. exact H.
Qed.

Lemma quiet_addDoc {D} (coll : Store → gmap string D) put (data : D) :
  hoare (quiet a0) (addDoc coll put data) (λ _, quiet a0) (quiet a0).
Proof.
  unfold addDoc. apply hoare_backend.
  - intros w e fs H _. exact H.
  - intros w H _. exact H.
Qed.

Lemma quiet_updateDoc {D} (coll : Store → gmap string D) put id (f : D → D) :
  hoare (quiet a0) (updateDoc coll put id f) (λ _, quiet a0) (quiet a0).
Proof.
  unfold updateDoc. apply hoare_backend.
  - intros w e fs H _. exact H.
  - intros w H _. destruct (coll (store w) !! id); exact H.
Qed.

Lemma quiet_findOrCreate {D} (coll : Store → gmap string D) put p (make : Z → D)
    collName label :
  hoare (quiet a0) (findOrCreate coll put p make collName label)
        (λ _, quiet a0) (quiet a0).
Proof.
  unfold findOrCreate. apply hoare_executeWithRetry.
  - intros w [H _]. exact H.
  - intros w ms H. exact H.
  - eapply hoare_bind; [apply quiet_getDocs|]. intros querySnapshot.
    destruct querySnapshot as [|[id d] rest].
    + eapply hoare_bind;
        [apply (hoare_Timestamp_now (quiet a0) (λ _, quiet a0)); auto|]. intros now.
      eapply hoare_bind; [apply quiet_addDoc|]. intros id.
      apply hoare_ret. auto.
    + apply hoare_ret. auto.
Qed.

End Quiet.

(** X22. While connected, a [logConcert] that resolves has called
    [logEvent] once if there is an analytics instance, however many attempts
    it took: the instance has accepted one more event, [concert_logged] with
    the id the call resolved to and the two names, unless [logEvent] threw,
    in which case the error is swallowed and no event is added.  Without an
    instance ([analytics] is [null]) there is none afterwards and nothing is
    logged.  A [logConcert] that rejects has not called [logEvent]. *)
Theorem logConcert_logs_one_event
    (userId artistName venueName : string) (date rating : Z) (notes : option string)
    (w : World) (Hconnected : connectionState w = connected) :
  let run := logConcert userId artistName venueName date rating notes w in
  (∀ concertId, run.1 = Resolved concertId →
     let event := mkEvent "concert_logged"
                    [("concert_id", concertId); ("artist_name", artistName);
                     ("venue_name", venueName)] in
     match analytics w with
     | None => analytics run.2 = None
     | Some instance =>
         ∃ instance',
           analytics run.2 = Some instance'
           ∧ logEventFaults instance' = tail (logEventFaults instance)
           ∧ acceptedEvents instance'
             = match logEventFaults instance with
               | Some _ :: _ => acceptedEvents instance
               | _ => (acceptedEvents instance ++ [event])%list
               end
     end)
  ∧ (∀ e, run.1 = Rejected e → analytics run.2 = analytics w)
  ∧ run.1 ≠ Pending.
Proof.
  cbv zeta.
  set (post := λ (concertId : string) (w' : World),
         match analytics w with
         | None => analytics w' = None
         | Some instance =>
             ∃ instance',
               analytics w' = Some instance'
               ∧ logEventFaults instance' = tail (logEventFaults instance)
               ∧ acceptedEvents instance'
                 = match logEventFaults instance with
                   | Some _ :: _ => acceptedEvents instance
                   | _ => (acceptedEvents instance
                           ++ [mkEvent "concert_logged"
                                 [("concert_id", concertId); ("artist_name", artistName);
                                  ("venue_name", venueName)]])%list
                   end
         end).
  assert (Hspec : hoare (quiet (analytics w))
            (logConcert userId artistName venueName date rating notes)
            post (quiet (analytics w))).
  { unfold logConcert. apply hoare_executeWithRetry.
    - intros w0 [H _]. exact H.
    - intros w0 ms H. exact H.
    - rewrite findOrCreateArtist_shape, findOrCreateVenue_shape.
      eapply hoare_bind; [apply quiet_findOrCreate|]. intros artistRef.
      eapply hoare_bind; [apply quiet_findOrCreate|]. intros venueRef.
      eapply hoare_bind;
        [apply (hoare_Timestamp_now (quiet (analytics w)) (λ _, quiet (analytics w))); auto|].
      intros now.
      eapply hoare_bind; [apply quiet_addDoc|]. intros concertId.
      eapply hoare_bind; [apply quiet_updateDoc|]. intros [].
      apply (hoare_bind _ _ _ (λ _, post concertId)).
      { intros w0 [Hc Ha]. unfold logConcertLogged, logAnalyticsEvent, try_catch, logEvent, ret.
        unfold post. rewrite <- Ha.
        destruct (analytics w0) as [instance|] eqn:Hsink; [|cbn; exact Hsink].
        destruct (logEventFaults instance) as [|[e|] rest]; cbn; eauto. }
      intros []. apply hoare_ret. intros w0 H. exact H. }
  specialize (Hspec w (conj Hconnected eq_refl)).
  destruct (logConcert userId artistName venueName date rating notes w) as [[id|e|] w'];
    cbn [fst snd]; [| |destruct Hspec].
  - split; [intros id' [= <-]; exact Hspec|]. split; discriminate.
  - split; [discriminate|]. split; [intros _ _; apply Hspec | discriminate].
Qed.

Lemma logConcert_logs_one_event_witness :
  let w := withSchedule counterUpdateFails (onlineWorld freshStore) in
  let event := mkEvent "concert_logged"
                 [("concert_id", "1"); ("artist_name", "The Band");
                  ("venue_name", "The Venue")] in
  let run a := logConcert "u1" "The Band" "The Venue" 1000 5 None (with_analytics a w) in
  (run (Some (mkAnalytics [] []))).1 = Resolved "1"
  ∧ analytics (run (Some (mkAnalytics [] []))).2 = Some (mkAnalytics [event] [])
  ∧ size (concerts (store (run (Some (mkAnalytics [] []))).2)) = 2%nat
  ∧ (run (Some (mkAnalytics [] [Some unavailable]))).1 = Resolved "1"
  ∧ analytics (run (Some (mkAnalytics [] [Some unavailable]))).2 = Some (mkAnalytics [] [])
  ∧ (run None).1 = Resolved "1"
  ∧ analytics (run None).2 = None.
Proof.
  cbv zeta.
  split; [vm_compute; reflexivity|]. split.
  { destruct (logConcert_logs_one_event "u1" "The Band" "The Venue" 1000 5 None
                (with_analytics (Some (mkAnalytics [] []))
                   (withSchedule counterUpdateFails (onlineWorld freshStore)))
                eq_refl) as [Hevent _].
    destruct (Hevent "1" ltac:(vm_compute; reflexivity)) as (instance & -> & Hfaults & Hlogged).
    destruct instance as [events answers]. cbn in Hfaults, Hlogged. now subst. }
  split; [vm_compute; reflexivity|]. split; [vm_compute; reflexivity|]. split.
  { destruct (logConcert_logs_one_event "u1" "The Band" "The Venue" 1000 5 None
                (with_analytics (Some (mkAnalytics [] [Some unavailable]))
                   (withSchedule counterUpdateFails (onlineWorld freshStore)))
                eq_refl) as [Hevent _].
    destruct (Hevent "1" ltac:(vm_compute; reflexivity)) as (instance & -> & Hfaults & Hlogged).
    destruct instance as [events answers]. cbn in Hfaults, Hlogged. now subst. }
  split; [vm_compute; reflexivity|].
  destruct (logConcert_logs_one_event "u1" "The Band" "The Venue" 1000 5 None
              (with_analytics None (withSchedule counterUpdateFails (onlineWorld freshStore)))
              eq_refl) as [Hevent _].
  exact (Hevent "1" ltac:(vm_compute; reflexivity)).
Defined.
